(** * Crawl frontier, polite fetching and lexicon scoring

    A shallow embedding of the crawl subsystem (src/storage/state.py,
    src/crawler/queue.py, src/crawler/downloader.py, src/crawler/robots.py,
    src/crawler/rate_limit.py, src/crawler/canonicalize.py,
    src/crawler/news_crawler.py, src/utils/polite_fetch.py) and of the
    lexicon subsystem (src/classify/reuters_build_lexicon.py,
    src/classify/score_and_label.py, src/ml/tfidf_Lexicon_Classifier.py),
    followed by the properties proved of them.

    Conventions. Python floats are exact rationals [Q]. A dictionary is a
    [gmap], or an association list where its iteration order matters. The
    SQLite table is a list of rows with the counter of its AUTOINCREMENT key.
    A call that can raise returns a [result]. What the outside world does
    (server replies, clock readings, random draws, the robots.txt fetched
    for an origin) is an explicit argument. The standard-library calls the
    sources rely on are modelled after CPython 3.11: [urllib.parse] in full
    for ASCII urls, [urllib.robotparser] as the state its answers depend on,
    [Counter.most_common] and the two regular expressions of
    [looks_like_trap]; the scikit-learn vectorizer, the HTML parsers,
    [str.split], [ipaddress] and the regular expressions applied to the
    lines of a robots.txt are parameters. *)

From Stdlib Require Import ZArith QArith Qminmax Lqa List Bool Ascii String Lia
  Permutation Sorted.
From stdpp Require Import gmap strings list fin_maps.

Local Open Scope Z_scope.

(** ** src/config.py *)

Definition NEWS_SEEDS : list string :=
  ["https://apnews.com/hub/world-news"; "https://www.aljazeera.com/news/";
   "https://www.dw.com/en/world"]%string.
Definition CRAWL_DEPTH : Z := 1.
Definition MAX_PAGES_PER_DOMAIN : nat := 200.
Definition RETRY_MAX : nat := 3.
Definition BACKOFF_BASE : Q := 18 # 10.
Definition USER_AGENT : string := "IR-FinalProjectBot/1.0 (klahouti81@gmail.com)".
Definition DEFAULT_MIN_DELAY_S : Q := 3.
Definition PER_DOMAIN_MIN_DELAY : gmap string Q :=
  {[ "old.reddit.com"%string := 8%Q; "reddit.com"%string := 8%Q ]}.

(** ** src/storage/state.py : the [queue] table of [StateDB] *)

Module StateDB.

(** One row of
    [queue(id INTEGER PRIMARY KEY AUTOINCREMENT, url TEXT UNIQUE, depth,
    source, record_type, added_ts)]. *)
Record row := mk_row {
  id : Z;
  url : string;
  depth : Z;
  source : string;
  record_type : string;
  added_ts : Z
}.

(** The table together with the AUTOINCREMENT counter that SQLite keeps in
    [sqlite_sequence]: the largest id ever handed out. *)
Record db := mk_db {
  queue : list row;
  seq : Z
}.

(** [_ensure]: CREATE TABLE IF NOT EXISTS on a new file. *)
Definition empty : db := {| queue := []; seq := 0 |}.

Definition url_exists (u : string) (q : list row) : bool :=
  existsb (fun r => String.eqb (url r) u) q.

(** [push]: INSERT OR IGNORE INTO queue(url, depth, source, record_type,
    added_ts). The UNIQUE constraint on url makes the insert a no-op when a
    row with that url is in the table; otherwise the new row takes the next
    AUTOINCREMENT id. *)
Definition push (d : db) (u : string) (dep : Z) (src rt : string) (now : Z) : db :=
  if url_exists u (queue d) then d
  else {| queue := queue d ++ [mk_row (seq d + 1) u dep src rt now];
          seq := seq d + 1 |}.

(** [SELECT ... FROM queue ORDER BY id LIMIT 1]. *)
Fixpoint select_first (q : list row) : option row :=
  match q with
  | [] => None
  | r :: q' =>
      match select_first q' with
      | None => Some r
      | Some m => if id r <=? id m then Some r else Some m
      end
  end.

(** [DELETE FROM queue WHERE id=?]. *)
Definition delete_id (qid : Z) (q : list row) : list row :=
  List.filter (fun r => negb (id r =? qid)) q.

(** [pop] with the selected row kept whole, so that statements can speak of
    its id. *)
Definition pop_row (d : db) : option row * db :=
  match select_first (queue d) with
  | None => (None, d)
  | Some r => (Some r, {| queue := delete_id (id r) (queue d); seq := seq d |})
  end.

Definition item : Type := string * Z * string * string.

Definition item_of (r : row) : item := (url r, depth r, source r, record_type r).

(** [pop]: returns [(url, depth, source, record_type)] or None. *)
Definition pop (d : db) : option item * db :=
  (option_map item_of (fst (pop_row d)), snd (pop_row d)).

(** The constraints SQLite enforces on the table. *)
Record wf (d : db) : Prop := {
  wf_ids : List.NoDup (List.map id (queue d));
  wf_urls : List.NoDup (List.map url (queue d));
  wf_seq : List.Forall (fun r => id r <= seq d) (queue d)
}.

(** A sequence of calls on the store. *)
Inductive op :=
| Push (u : string) (dep : Z) (src rt : string) (now : Z)
| Pop.

(** Runs the calls in order; returns the rows handed out by the pops, oldest
    first, and the final store. *)
Fixpoint run (ops : list op) (d : db) : list row * db :=
  match ops with
  | [] => ([], d)
  | Push u dep src rt now :: ops' => run ops' (push d u dep src rt now)
  | Pop :: ops' =>
      match pop_row d with
      | (None, d') => run ops' d'
      | (Some r, d') => let '(out, d'') := run ops' d' in (r :: out, d'')
      end
  end.

Definition count_url (u : string) (q : list row) : nat :=
  List.length (List.filter (fun r => String.eqb (url r) u) q).

(** The table [seen_url(url_hash TEXT PRIMARY KEY)]: its rows in insertion
    order. No call touches both tables, so it is kept apart from [db]. *)
Definition seen_url : Type := list string.

(** [mark_seen]: INSERT OR IGNORE INTO seen_url(url_hash). *)
Definition mark_seen (t : seen_url) (url_hash : string) : seen_url :=
  if List.existsb (String.eqb url_hash) t then t else t ++ [url_hash].

(** [is_seen]: SELECT 1 FROM seen_url WHERE url_hash=? LIMIT 1, and whether
    a row came back. *)
Definition is_seen (t : seen_url) (url_hash : string) : bool :=
  List.existsb (String.eqb url_hash) t.

(** The calls [Push] on the given rows, and [n] calls [Pop]. *)
Definition pushes (items : list (string * Z * string * string * Z)) : list op :=
  List.map (fun i : string * Z * string * string * Z =>
              let '(u, dep, src, rt, now) := i in Push u dep src rt now) items.

Definition pops (n : nat) : list op := List.repeat Pop n.

End StateDB.

(** A store with two queued rows, used to instantiate the statements below. *)
Definition two_rows : StateDB.db :=
  StateDB.push (StateDB.push StateDB.empty "http://a/" 0 "a" "news" 10)
               "http://b/" 1 "a" "news" 11.

(** ** src/crawler/queue.py : [CrawlQueue] *)

(** A Python call either returns a value or raises. *)
Inductive result (A : Type) : Type :=
| Ok (a : A)
| Raise.
Arguments Ok {A} a.
Arguments Raise {A}.

Module CrawlQueue.
Section WithDomain.

(** [_domain(url) = urlparse(url).netloc.lower()]; [None] stands for the
    ValueError that [urlparse] raises on a malformed bracketed host. *)
Variable _domain : string -> option string.

Record t := mk {
  db : StateDB.db;
  domain_counts : gmap string nat
}.

(** [__init__]: opens the store and starts with an empty counter dict. *)
Definition init (d : StateDB.db) : t := {| db := d; domain_counts := ∅ |}.

(** [self.domain_counts.get(dom, 0)] *)
Definition count_of (q : t) (dom : string) : nat :=
  default 0%nat (domain_counts q !! dom).

Definition seed (q : t) (url source record_type : string) (now : Z) : t :=
  {| db := StateDB.push (db q) url 0 source record_type now;
     domain_counts := domain_counts q |}.

Definition push (q : t) (url : string) (depth : Z) (source record_type : string)
    (now : Z) : result unit * t :=
  match _domain url with
  | None => (Raise, q)
  | Some dom =>
      if (MAX_PAGES_PER_DOMAIN <=? count_of q dom)%nat then (Ok tt, q)
      else (Ok tt, {| db := StateDB.push (db q) url depth source record_type now;
                      domain_counts := domain_counts q |})
  end.

(** [pop]: the row is deleted by [db.pop()] before [_domain] runs, so a raise
    there leaves the store without the row and the counter untouched. *)
Definition pop (q : t) : result (option StateDB.item) * t :=
  match StateDB.pop (db q) with
  | (None, d') => (Ok None, {| db := d'; domain_counts := domain_counts q |})
  | (Some row, d') =>
      let '(url, depth, source, record_type) := row in
      match _domain url with
      | None => (Raise, {| db := d'; domain_counts := domain_counts q |})
      | Some dom =>
          (Ok (Some row),
           {| db := d';
              domain_counts := <[dom := (count_of q dom + 1)%nat]> (domain_counts q) |})
      end
  end.

Inductive call :=
| Seed (url source record_type : string) (now : Z)
| PushC (url : string) (depth : Z) (source record_type : string) (now : Z)
| PopC.

(** One call: the item it returned, if any, and the queue afterwards. *)
Definition step (q : t) (c : call) : option StateDB.item * t :=
  match c with
  | Seed u s r now => (None, seed q u s r now)
  | PushC u d s r now => (None, snd (push q u d s r now))
  | PopC =>
      match pop q with
      | (Ok o, q') => (o, q')
      | (Raise, q') => (None, q')
      end
  end.

(** The items returned by the pops of a run, and the queue after it. *)
Fixpoint exec (cs : list call) (q : t) : list StateDB.item * t :=
  match cs with
  | [] => ([], q)
  | c :: cs' =>
      let '(o, q') := step q c in
      let '(out, q'') := exec cs' q' in
      (match o with Some i => i :: out | None => out end, q'')
  end.

Definition item_in_domain (dom : string) (i : StateDB.item) : bool :=
  match _domain (fst (fst (fst i))) with
  | Some d => String.eqb d dom
  | None => false
  end.

(** How many of the returned items belong to [dom]. *)
Definition popped_of (dom : string) (out : list StateDB.item) : nat :=
  List.length (List.filter (item_in_domain dom) out).

(** The guard of [push]. *)
Definition budget_reached (q : t) (dom : string) : bool :=
  (MAX_PAGES_PER_DOMAIN <=? count_of q dom)%nat.

End WithDomain.
End CrawlQueue.

(** ** src/crawler/downloader.py : [fetch] *)

Module Downloader.

(** [resp.headers.get("Retry-After")] followed by [float(ra)]: the header is
    absent or empty, or [float] raises on it, or it parses to a number. *)
Inductive retry_after :=
| RA_absent
| RA_unparseable
| RA_seconds (r : Q).

(** What [session.get] does on one attempt. *)
Inductive attempt_outcome :=
| Response (code : Z) (ra : retry_after) (final_url text : string)
| Timeout
| RequestException.

Definition retriable (code : Z) : bool :=
  (code =? 429) || (code =? 503) || (code =? 502) || (code =? 500) || (code =? 408).

(** [if backoff > 0: time.sleep(backoff)] *)
Definition sleep_if_positive (backoff : Q) : list Q :=
  if Qlt_le_dec 0 backoff then [backoff] else [].

(** The [while attempt <= RETRY_MAX] loop. [server k] is the outcome of the
    request issued when [attempt = k]; the result carries the list of sleeps
    performed, in order. Every iteration returns or increments [attempt], so
    [RETRY_MAX + 1] units of fuel are never used up (see [fetch_loop_fuel]). *)
Fixpoint fetch_loop (fuel : nat) (server : nat -> attempt_outcome)
    (attempt : nat) (backoff : Q) : list Q * option (Z * string * string) :=
  match fuel with
  | O => ([], None)
  | S fuel' =>
      if (attempt <=? RETRY_MAX)%nat then
        let slept := sleep_if_positive backoff in
        match server attempt with
        | Response code ra final_url text =>
            if (200 <=? code) && (code <? 300) then
              (slept, Some (code, final_url, text))
            else if retriable code then
              let backoff :=
                match ra with
                | RA_seconds r => Qmax r backoff
                | _ => backoff
                end in
              let attempt := S attempt in
              let backoff := Qmax 1 (BACKOFF_BASE ^ Z.of_nat attempt) in
              let '(s, r) := fetch_loop fuel' server attempt backoff in
              (slept ++ s, r)
            else
              (slept, Some (code, final_url, text))
        | Timeout | RequestException =>
            let attempt := S attempt in
            let backoff := Qmax 1 (BACKOFF_BASE ^ Z.of_nat attempt) in
            let '(s, r) := fetch_loop fuel' server attempt backoff in
            (slept ++ s, r)
        end
      else ([], None)
  end.

Definition fetch (server : nat -> attempt_outcome) :
    list Q * option (Z * string * string) :=
  fetch_loop (S (S RETRY_MAX)) server 0 0.

(** A server that answers every request with the same rate-limit response. *)
Definition always (code : Z) (ra : retry_after) : nat -> attempt_outcome :=
  fun _ => Response code ra "" "".

(** The attempts after which the loop goes round again: a retriable status,
    a timeout or another request error. *)
Definition retried (o : attempt_outcome) : bool :=
  match o with
  | Response code _ _ _ => negb ((200 <=? code) && (code <? 300)) && retriable code
  | Timeout | RequestException => true
  end.

(** [max(1.0, BACKOFF_BASE ** attempt)], and the sleeps before the attempts
    [1 .. k]. *)
Definition backoff_of (attempt : nat) : Q := Qmax 1 (BACKOFF_BASE ^ Z.of_nat attempt).

Definition backoffs (k : nat) : list Q := List.map backoff_of (List.seq 1 k).

End Downloader.

(** ** src/utils/polite_fetch.py : [PoliteSession] pacing and backoff *)

Module PoliteSession.

(** [int(response.headers.get('Retry-After', 30))]: the header is absent
    (the default 30 is used), holds an integer literal, or makes [int]
    raise ValueError. *)
Inductive retry_after :=
| RA_absent
| RA_int (n : Z)
| RA_invalid.

(** What [self.session.get] does on one attempt. *)
Inductive reply :=
| Response (status : Z) (ra : retry_after)
| RequestException.

(** Everything the outside world contributes to one pass of the retry loop:
    the two [random.uniform] draws, the reply, and the reading of
    [time.monotonic()] taken right after the reply. *)
Record attempt := mk_attempt {
  jitter_delay : Q;
  reply_of : reply;
  ts : Q;
  backoff_jitter : Q
}.

(** What [get] hands back: the response (its status), None, or an
    exception that escapes the [except RequestException] clause. *)
Inductive outcome :=
| Returned (status : Z)
| ReturnedNone
| Raised.

(** The mutable dictionaries of the dataclass. The robots caches are
    represented by [_crawl_delay_from_text] and [can_fetch] below. *)
Record session := mk_session {
  last_request_ts : gmap string Q;
  domain_delay : gmap string Q;
  adaptive_extra : gmap string Q
}.

Definition fresh : session :=
  {| last_request_ts := ∅; domain_delay := ∅; adaptive_extra := ∅ |}.

Section Session.

(** Dataclass fields (defaults 1.0, 10.0, 1.6, 4). *)
Variables (min_interval max_extra_delay backoff_base : Q) (max_retries : nat).

(** [_crawl_delay_from_text(netloc)]: the robots.txt text is fetched once and
    cached per netloc, so within a session the answer depends on the netloc
    only. *)
Variable _crawl_delay_from_text : string -> option Q.

(** [can_fetch(url)] and [urlparse(url).netloc]. *)
Variable can_fetch : string -> bool.
Variable netloc_of : string -> string.

(** [x or base] on an optional float: None and 0.0 are falsy. *)
Definition or_base (x : option Q) (base : Q) : Q :=
  match x with
  | Some v => if Qeq_bool v 0 then base else v
  | None => base
  end.

(** [self.adaptive_extra.get(netloc, 0)] *)
Definition extra_of (s : session) (netloc : string) : Q :=
  default 0%Q (adaptive_extra s !! netloc).

Definition _effective_delay (s : session) (netloc : string) : Q * session :=
  let base := min_interval in
  let extra := Qmin (extra_of s netloc) max_extra_delay in
  match domain_delay s !! netloc with
  | Some cd => (Qmax base cd + extra, s)%Q
  | None =>
      let cd := or_base (_crawl_delay_from_text netloc) base in
      ((Qmax base cd + extra)%Q,
       {| last_request_ts := last_request_ts s;
          domain_delay := <[netloc := Qmax cd base]> (domain_delay s);
          adaptive_extra := adaptive_extra s |})
  end.

Definition set_ts (s : session) (netloc : string) (t : Q) : session :=
  {| last_request_ts := <[netloc := t]> (last_request_ts s);
     domain_delay := domain_delay s;
     adaptive_extra := adaptive_extra s |}.

Definition set_extra (s : session) (netloc : string) (e : Q) : session :=
  {| last_request_ts := last_request_ts s;
     domain_delay := domain_delay s;
     adaptive_extra := <[netloc := e]> (adaptive_extra s) |}.

(** One pass of the body of [for attempt in range(self.max_retries + 1)]:
    either the loop goes on ([inl]) or [get] ends ([inr]); with the session
    afterwards and the sleeps performed. *)
Definition attempt_step (s : session) (netloc : string) (k : nat) (a : attempt)
    : (unit + outcome) * session * list Q :=
  match reply_of a with
  | RequestException =>
      let backoff := (backoff_base ^ Z.of_nat k + backoff_jitter a)%Q in
      (inl tt, s, [jitter_delay a; backoff])
  | Response status ra =>
      let s := set_ts s netloc (ts a) in
      if status =? 200 then
        let s := set_extra s netloc (Qmax 0 (extra_of s netloc - (1 # 2))) in
        (inr (Returned status), s, [jitter_delay a])
      else if status =? 429 then
        match ra with
        | RA_invalid => (inr Raised, s, [jitter_delay a])
        | RA_int n =>
            if n <? 0 then (inr Raised, s, [jitter_delay a])
            else
              let s := set_extra s netloc
                         (Qmin max_extra_delay (extra_of s netloc + 2)) in
              (inl tt, s, [jitter_delay a; inject_Z n])
        | RA_absent =>
            let s := set_extra s netloc
                       (Qmin max_extra_delay (extra_of s netloc + 2)) in
            (inl tt, s, [jitter_delay a; inject_Z 30])
        end
      else if 500 <=? status then
        let backoff := (backoff_base ^ Z.of_nat k + backoff_jitter a)%Q in
        (inl tt, s, [jitter_delay a; backoff])
      else
        (inr ReturnedNone, s, [jitter_delay a])
  end.

(** The retry loop over the passes [k, k+1, ...], [left] of them remaining;
    falling out of the loop is the give-up [return None]. *)
Fixpoint retry_loop (left : nat) (world : nat -> attempt) (s : session)
    (netloc : string) (k : nat) : outcome * session * list Q :=
  match left with
  | O => (ReturnedNone, s, [])
  | S left' =>
      match attempt_step s netloc k (world k) with
      | (inr o, s', sl) => (o, s', sl)
      | (inl _, s', sl) =>
          let '(o, s'', sl') := retry_loop left' world s' netloc (S k) in
          (o, s'', sl ++ sl')
      end
  end.

(** [get(url)]; [now] is the first reading of [time.monotonic()]. *)
Definition get (s : session) (url : string) (now : Q) (world : nat -> attempt)
    : outcome * session * list Q :=
  let netloc := netloc_of url in
  let '(s, pre) :=
    match last_request_ts s !! netloc with
    | Some last =>
        let elapsed := (now - last)%Q in
        let '(delay, s) := _effective_delay s netloc in
        (s, if Qlt_le_dec elapsed delay then [(delay - elapsed)%Q] else [])
    | None => (s, [])
    end in
  if negb (can_fetch url) then (ReturnedNone, s, pre)
  else
    let '(o, s', sl) := retry_loop (S max_retries) world s netloc 0 in
    (o, s', pre ++ sl).

(** The part of the effective delay that does not come from the adaptive
    extra: it is read from [domain_delay] or, on a miss, from robots.txt. *)
Definition base_delay (s : session) (netloc : string) : Q :=
  match domain_delay s !! netloc with
  | Some cd => Qmax min_interval cd
  | None => Qmax min_interval (or_base (_crawl_delay_from_text netloc) min_interval)
  end.

(** Every adaptive extra is either non-negative or sits at the cap. *)
Definition extra_ok (s : session) : Prop :=
  forall n, (0 <= extra_of s n)%Q \/ (extra_of s n == max_extra_delay)%Q.

(** The sessions a crawl can be in: a fresh one, and whatever [get] leaves. *)
Inductive reachable : session -> Prop :=
| reachable_fresh : reachable fresh
| reachable_get s url now world :
    reachable s -> reachable (snd (fst (get s url now world))).

(** The pacing at the head of [get]: the session after [_effective_delay]
    has run, if it runs, and the sleep that makes up for the time missing
    since the last request to the netloc. *)
Definition pacing (s : session) (netloc : string) (now : Q) : session * list Q :=
  match last_request_ts s !! netloc with
  | Some last =>
      let elapsed := (now - last)%Q in
      let '(delay, s) := _effective_delay s netloc in
      (s, if Qlt_le_dec elapsed delay then [(delay - elapsed)%Q] else [])
  | None => (s, [])
  end.

(** The replies after which [get] backs off and tries again: a request
    error, or a status of 500 and more. *)
Definition transient (r : reply) : bool :=
  match r with
  | RequestException => true
  | Response status _ => negb (status =? 200) && negb (status =? 429) && (500 <=? status)
  end.

(** The sleeps of a pass that ends in a backoff. *)
Definition backoff_sleeps (world : nat -> attempt) (k : nat) : list Q :=
  [jitter_delay (world k); (backoff_base ^ Z.of_nat k + backoff_jitter (world k))%Q].

(** [get_html]: whether [response.text] is handed back (true) or None
    (false). The truth value of a response is [response.ok], which fails
    for a status from 400 to 599. *)
Definition get_html (s : session) (url : string) (now : Q) (world : nat -> attempt)
    : result bool * session * list Q :=
  let '(o, s', sl) := get s url now world in
  (match o with
   | Returned status =>
       Ok (negb ((400 <=? status) && (status <? 600)) && (status =? 200))
   | ReturnedNone => Ok false
   | Raised => Raise
   end, s', sl).

End Session.

(** *** [_crawl_delay_from_text] *)

Section RobotsText.

(** The robots.txt text that [_fetch_robots_text] keeps per netloc (empty
    when the fetch failed), [str.splitlines], [str.strip] and [str.lower],
    and the two regular expressions applied to one line:
    [_UA_RX.match(line).group(1)] and [float(_CRAWL_DELAY_RX.match(l).group(1))],
    None when there is no match. *)
Variable _fetch_robots_text : string -> string.
Variable splitlines : string -> list string.
Variable strip lower : string -> string.
Variable ua_group : string -> option string.
Variable crawl_delay_group : string -> option Q.

(** [self.user_agent] *)
Variable user_agent : string.

(** [if current is not None: blocks.append((current, lines))] *)
Definition close_block (blocks : list (string * list string)) (current : option string)
    (lines : list string) : list (string * list string) :=
  match current with
  | Some ua => blocks ++ [(ua, lines)]
  | None => blocks
  end.

(** The loop over [text.splitlines()] that cuts the text into blocks, one
    per user-agent line. *)
Fixpoint scan (ls : list string) (blocks : list (string * list string))
    (current : option string) (lines : list string) : list (string * list string) :=
  match ls with
  | [] => close_block blocks current lines
  | line :: rest =>
      match ua_group line with
      | Some g => scan rest (close_block blocks current lines) (Some (strip g)) []
      | None => scan rest blocks current (lines ++ [line])
      end
  end.

(** [extract(lines)]: the value of the first crawl-delay line. *)
Fixpoint extract (lines : list string) : option Q :=
  match lines with
  | [] => None
  | l :: rest =>
      match crawl_delay_group l with
      | Some d => Some d
      | None => extract rest
      end
  end.

(** [for ua, lines in blocks: if <test on ua>: d = extract(lines); if d is
    not None: return d] *)
Fixpoint first_delay (test : string -> bool) (blocks : list (string * list string))
    : option Q :=
  match blocks with
  | [] => None
  | (ua, lines) :: rest =>
      if test ua then
        match extract lines with
        | Some d => Some d
        | None => first_delay test rest
        end
      else first_delay test rest
  end.

Definition exact_ua (ua : string) : bool := String.eqb (lower ua) (lower user_agent).
Definition wildcard_ua (ua : string) : bool := String.eqb (strip ua) "*".

Definition crawl_delay_of_lines (ls : list string) : option Q :=
  let blocks := scan ls [] None [] in
  match first_delay exact_ua blocks with
  | Some d => Some d
  | None => first_delay wildcard_ua blocks
  end.

Definition _crawl_delay_from_text (netloc : string) : option Q :=
  let text := _fetch_robots_text netloc in
  if String.eqb text "" then None
  else crawl_delay_of_lines (splitlines text).

(** The block that decides a pass over [blocks]: the first one whose agent
    passes [test] and whose lines hold a crawl-delay line. *)
Definition decides (test : string -> bool) (blocks : list (string * list string))
    (d : Q) : Prop :=
  exists before ua lines after,
    blocks = before ++ (ua, lines) :: after /\
    test ua = true /\ extract lines = Some d /\
    List.Forall (fun b => test (fst b) = true -> extract (snd b) = None) before.

End RobotsText.
End PoliteSession.

(** ** Sorting as Python and numpy do it *)

Section Sorting.
Context {A : Type}.
Variable key : A -> Q.

(** [list.sort(key=..., reverse=True)]: descending and stable, elements with
    equal keys keep their original order. *)
Fixpoint insert_desc (x : A) (l : list A) : list A :=
  match l with
  | [] => [x]
  | y :: l' =>
      if Qlt_le_dec (key x) (key y) then y :: insert_desc x l' else x :: l
  end.

Definition sort_desc (l : list A) : list A := List.fold_right insert_desc [] l.

(** Ascending and stable. *)
Fixpoint insert_asc (x : A) (l : list A) : list A :=
  match l with
  | [] => [x]
  | y :: l' =>
      if Qlt_le_dec (key y) (key x) then y :: insert_asc x l' else x :: l
  end.

Definition sort_asc (l : list A) : list A := List.fold_right insert_asc [] l.

Definition descending (l : list A) : Prop :=
  StronglySorted (fun a b => key b <= key a)%Q l.

Definition ascending (l : list A) : Prop :=
  StronglySorted (fun a b => key a <= key b)%Q l.

End Sorting.

(** ** src/classify/score_and_label.py *)

Module ScoreAndLabel.

(** [tokens[i] + " " + tokens[i+1]] for [i] in [range(len(tokens)-1)] *)
Fixpoint bigrams (tokens : list string) : list string :=
  match tokens with
  | a :: ((b :: _) as rest) => (a +:+ " " +:+ b) :: bigrams rest
  | _ => []
  end.

Definition tokens_to_ngrams (tokens : list string) : list string :=
  tokens ++ bigrams tokens.

(** The inner loop of [score_row]: [s = 0.0; for g in grams: if g in weights:
    s += weights[g]]. *)
Definition category_score (grams : list string) (weights : gmap string Q) : Q :=
  List.fold_left
    (fun s g => match weights !! g with Some w => s + w | None => s end)%Q
    grams 0%Q.

Section ScoreRow.

(** [str.split()] of the token column. *)
Variable split : string -> list string.

(** [scores]: the categories with [s > 0], in the iteration order of the
    lexicon dict. *)
Definition positive_scores (grams : list string)
    (lexicon : list (string * gmap string Q)) : list (string * Q) :=
  List.flat_map
    (fun cw : string * gmap string Q =>
       let s := category_score grams (snd cw) in
       if Qlt_le_dec 0 s then [(fst cw, s)] else [])
    lexicon.

Definition score_row (tokens : string) (lexicon : list (string * gmap string Q))
    : string * list (string * Q) :=
  let toks := split tokens in
  let grams := tokens_to_ngrams toks in
  let scores := positive_scores grams lexicon in
  match scores with
  | [] => (""%string, [])
  | _ :: _ =>
      let scores := sort_desc snd scores in
      let label := match scores with (c, _) :: _ => c | [] => ""%string end in
      let top3 := List.firstn 3 scores in
      (label, top3)
  end.

(** [f"{s:.4f}"], the formatting of a float. *)
Variable format_4f : Q -> string.

(** The three columns that [process] adds for one row: [label], [top3] and
    [score_max]. *)
Definition process_row (tok : string) (lexicon : list (string * gmap string Q))
    : string * string * Q :=
  let '(label, top3) := score_row tok lexicon in
  (label,
   String.concat "|"
     (List.map (fun cs : string * Q => fst cs +:+ ":" +:+ format_4f (snd cs)) top3),
   match top3 with
   | (_, s) :: _ => s
   | [] => 0%Q
   end).

(** [process]: [tokens] is the column [df["tokens"].fillna("").astype(str)]
    of the input file, None when the file does not exist; the result is the
    rows written, None when nothing is written. An empty frame is written
    back as it is, with no rows. *)
Definition process (tokens : option (list string))
    (lexicon : list (string * gmap string Q)) : option (list (string * string * Q)) :=
  match tokens with
  | None => None
  | Some toks => Some (List.map (fun tok => process_row tok lexicon) toks)
  end.

End ScoreRow.

(** [{term: float(w) for term, w in terms}]: a later pair replaces an
    earlier one with the same term. *)
Definition weights_of (terms : list (string * Q)) : gmap string Q :=
  List.fold_left (fun (m : gmap string Q) (tw : string * Q) => <[fst tw := snd tw]> m)
                 terms ∅.

(** [load_lexicon] on the parsed JSON object: [obj.get("vocabulary", [])]
    and [obj["lexicon"]], whose absence is a KeyError. *)
Definition load_lexicon (vocabulary : option (list string))
    (lexicon : option (list (string * list (string * Q))))
    : result (gset string * list (string * gmap string Q)) :=
  match lexicon with
  | None => Raise
  | Some lex =>
      Ok (list_to_set (default [] vocabulary),
          List.map (fun ct : string * list (string * Q) => (fst ct, weights_of (snd ct))) lex)
  end.

End ScoreAndLabel.

(** ** Per-category TF-IDF centroids, shared by the two lexicon builders *)

(** [M.mean(axis=0)] over the rows [X[i]], [i] in [idxs], of a matrix with
    [ncols] columns. An index past the end selects no row here; the builders
    only use indices of existing rows. *)
Definition column_sum (X : list (list Q)) (idxs : list nat) (j : nat) : Q :=
  List.fold_right (fun i acc => List.nth j (List.nth i X []) 0%Q + acc)%Q 0%Q idxs.

Definition centroid_of (X : list (list Q)) (ncols : nat) (idxs : list nat) : list Q :=
  List.map (fun j => column_sum X idxs j / inject_Z (Z.of_nat (List.length idxs)))%Q
           (List.seq 0 ncols).

(** [np.argsort(centroid)]: indices in ascending order of value. numpy's
    default sort is not stable; the order chosen here among equal values is
    one of the orders it may produce. *)
Definition argsort (arr : list Q) : list nat :=
  sort_asc (fun i => List.nth i arr 0%Q) (List.seq 0 (List.length arr)).

(** [l[:k]] for a Python integer [k]. *)
Definition py_take {A : Type} (k : Z) (l : list A) : list A :=
  if 0 <=? k then List.firstn (Z.to_nat k) l
  else List.firstn (List.length l - Z.to_nat (- k)) l.

(** ** src/classify/reuters_build_lexicon.py *)

Module ReutersBuildLexicon.

(** [cat_docs[c].append(i)] on a defaultdict(list): a new key goes to the end
    of the iteration order. *)
Fixpoint append_doc (c : string) (i : nat) (cat_docs : list (string * list nat))
    : list (string * list nat) :=
  match cat_docs with
  | [] => [(c, [i])]
  | (c', idxs) :: rest =>
      if String.eqb c' c then (c', idxs ++ [i]) :: rest
      else (c', idxs) :: append_doc c i rest
  end.

(** [for i, labs in enumerate(labels): for c in labs: cat_docs[c].append(i)] *)
Fixpoint collect (i : nat) (labels : list (list string))
    (cat_docs : list (string * list nat)) : list (string * list nat) :=
  match labels with
  | [] => cat_docs
  | labs :: rest =>
      collect (S i) rest (List.fold_left (fun cd c => append_doc c i cd) labs cat_docs)
  end.

(** The body of the loop over [cat_docs.items()]: the entry added to the
    lexicon for category [c], if any. *)
Definition category_terms (X : list (list Q)) (vocab : list string) (top_k : Z)
    (idxs : list nat) : option (list (string * Q)) :=
  if (List.length idxs <? 5)%nat then None
  else
    let centroid := centroid_of X (List.length vocab) idxs in
    if Qeq_bool (List.fold_right Qplus 0%Q centroid) 0%Q then None
    else
      let top_idx := py_take top_k (List.rev (argsort centroid)) in
      let terms :=
        List.flat_map
          (fun i => if Qlt_le_dec 0 (List.nth i centroid 0%Q)
                    then [(List.nth i vocab ""%string, List.nth i centroid 0%Q)]
                    else [])
          top_idx in
      match terms with
      | [] => None
      | _ :: _ => Some terms
      end.

Section Build.

(** [TfidfVectorizer(ngram_range=(1, 2), max_features=120_000, min_df=min_df,
    stop_words=sw)] followed by [fit_transform(texts)] and
    [get_feature_names_out()]: the document-term matrix, one row per text,
    and the vocabulary; [Raise] is its ValueError. *)
Variable fit_transform :
  Z -> option string -> list string -> result (list (list Q) * list string).

Definition build_lexicon (texts : list string) (labels : list (list string))
    (top_k min_df : Z) (stop_words : string)
    : result (list (string * list (string * Q)) * list string) :=
  if negb (List.length texts =? List.length labels)%nat then Raise
  else if negb (String.eqb stop_words "none" || String.eqb stop_words "english") then Raise
  else
    let sw := if String.eqb stop_words "none" then None else Some "english"%string in
    match fit_transform min_df sw texts with
    | Raise => Raise
    | Ok (X, vocab) =>
        let cat_docs := collect 0 labels [] in
        let lexicon :=
          List.flat_map
            (fun ci : string * list nat =>
               match category_terms X vocab top_k (snd ci) with
               | Some terms => [(fst ci, terms)]
               | None => []
               end)
            cat_docs in
        match lexicon with
        | [] => Raise
        | _ :: _ => Ok (lexicon, vocab)
        end
    end.

End Build.

(** How many document indices [cat_docs] holds under the key [c]. *)
Definition recorded (c : string) (cat_docs : list (string * list nat)) : nat :=
  list_sum
    (List.map (fun p : string * list nat =>
                 if String.eqb (fst p) c then List.length (snd p) else 0%nat)
              cat_docs).

(** [len(idxs)] for category [c]: how often the label occurs in the label
    lists. *)
Definition occurrences (c : string) (labels : list (list string)) : nat :=
  List.length (List.filter (String.eqb c) (List.concat labels)).

(** The number of documents that carry the label. *)
Definition member_docs (c : string) (labels : list (list string)) : nat :=
  List.length (List.filter (fun labs => List.existsb (String.eqb c) labs) labels).

End ReutersBuildLexicon.

(** ** src/ml/tfidf_Lexicon_Classifier.py : [build_lexicons] *)

Module TfidfLexiconClassifier.

(** [sorted(set(y))] *)
Fixpoint insert_label (c : string) (l : list string) : list string :=
  match l with
  | [] => [c]
  | d :: l' =>
      match String.compare c d with
      | Lt => c :: l
      | Eq => l
      | Gt => d :: insert_label c l'
      end
  end.

Definition sorted_set (y : list string) : list string :=
  List.fold_right insert_label [] y.

(** [np.where(np.array(y) == lab)[0]] *)
Definition where_label (lab : string) (y : list string) : list nat :=
  List.filter (fun i => String.eqb (List.nth i y ""%string) lab)
              (List.seq 0 (List.length y)).

(** [np.argpartition(-arr, topk)[:topk]]: indices of [topk] largest values;
    which of several equal values are taken is left open by numpy, the
    stable descending order decides here. *)
Definition top_indices (arr : list Q) (topk : nat) : list nat :=
  List.firstn topk
    (sort_desc (fun i => List.nth i arr 0%Q) (List.seq 0 (List.length arr))).

Definition build_lexicons (X : list (list Q)) (y : list string) (vocab : list string)
    (topk : nat) : list (string * list (string * Q)) :=
  let labels := sorted_set y in
  List.flat_map
    (fun lab =>
       let idx := where_label lab y in
       match idx with
       | [] => []
       | _ :: _ =>
           let arr := centroid_of X (List.length vocab) idx in
           let top_idx :=
             if (topk <? List.length arr)%nat then top_indices arr topk
             else List.filter (fun i => if Qlt_le_dec 0 (List.nth i arr 0%Q) then true else false)
                              (List.seq 0 (List.length arr)) in
           let pairs :=
             List.flat_map
               (fun i => if Qlt_le_dec 0 (List.nth i arr 0%Q)
                         then [(List.nth i vocab ""%string, List.nth i arr 0%Q)]
                         else [])
               top_idx in
           let pairs := sort_desc snd pairs in
           [(lab, pairs)]
       end)
    labels.

(** [Counter.update] with one element: a new key goes to the end of the
    iteration order. *)
Fixpoint count_one (c : string) (cnt : list (string * nat)) : list (string * nat) :=
  match cnt with
  | [] => [(c, 1%nat)]
  | (c', n) :: rest =>
      if String.eqb c' c then (c', S n) :: rest
      else (c', n) :: count_one c rest
  end.

(** [cnt[k]], 0 for a key that is not there. *)
Definition counted (k : string) (cnt : list (string * nat)) : nat :=
  list_sum (List.map (fun p : string * nat => if String.eqb (fst p) k then snd p else 0%nat)
                     cnt).

(** [cnt = Counter(); for ts in topics_list: cnt.update(ts or [])] *)
Definition count_topics (topics_list : list (list string)) : list (string * nat) :=
  List.fold_left
    (fun cnt ts => List.fold_left (fun cnt c => count_one c cnt) ts cnt)
    topics_list [].

(** [Counter.most_common(n)]: [heapq.nlargest(n, items, key=count)], that is
    the first [n] items in descending order of count, items of equal count
    in the order of the counter; nothing for [n <= 0]. *)
Definition most_common (n : Z) (cnt : list (string * nat)) : list (string * nat) :=
  if n <=? 0 then []
  else List.firstn (Z.to_nat n)
         (sort_desc (fun kv : string * nat => inject_Z (Z.of_nat (snd kv))) cnt).

Definition select_top_classes (topics_list : list (list string)) (top_n : Z)
    : list string :=
  List.map fst (most_common top_n (count_topics topics_list)).

(** A row of the Reuters frame, with the columns [filter_single_label]
    reads. *)
Record doc := mk_doc {
  doc_id : string;
  doc_title : string;
  doc_text : string;
  doc_topics : list string
}.

(** A row of the frame it returns: id, title, text, label_true. *)
Definition labelled : Type := string * string * string * string.

Definition filter_single_label (df : list doc) (allowed : list string) : list labelled :=
  List.flat_map
    (fun r =>
       let ts := List.filter (fun t => existsb (String.eqb t) allowed) (doc_topics r) in
       match ts with
       | [t] => [(doc_id r, doc_title r, doc_text r, t)]
       | _ => []
       end)
    df.

End TfidfLexiconClassifier.

(** ** src/crawler/robots.py over [urllib.robotparser.RobotFileParser] *)

Module Robots.

(** What [urllib.request.urlopen(self.url)] followed by
    [raw.decode("utf-8").splitlines()] does inside [RobotFileParser.read]:
    [urlopen] raises HTTPError for an error status, or another exception
    (URLError, a timeout, ...), or it yields a body, whose decoding as UTF-8
    raises ([None]) or gives the lines of the file. *)
Inductive urlopen_outcome :=
| HTTPError (code : Z)
| OtherException
| Body (lines : option (list string)).

Section Parser.

(** The rule table that [RobotFileParser.parse] builds ([entries] and
    [default_entry]) and the two searches through it: the tail of
    [can_fetch], which raises when [urlparse] does, and the tail of
    [crawl_delay]. *)
Variable rules : Type.
Variable no_rules : rules.
Variable parse : list string -> rules.
Variable search_allow : rules -> string -> string -> result bool.
Variable search_delay : rules -> string -> option Q.

(** [rootsite(url)] and the reading of the clock in [modified()]. *)
Variable rootsite : string -> string.
Variable now : Q.

(** The outcome of fetching [root + "/robots.txt"]; [_get_parser] is memoised
    per root, so each root is fetched once. *)
Variable world : string -> urlopen_outcome.

(** The fields of [RobotFileParser] that [read], [can_fetch] and
    [crawl_delay] consult. *)
Record RobotFileParser := mk_parser {
  table : rules;
  disallow_all : bool;
  allow_all : bool;
  last_checked : Q
}.

(** [RobotFileParser()] *)
Definition new_parser : RobotFileParser :=
  {| table := no_rules; disallow_all := false; allow_all := false; last_checked := 0 |}.

(** [RobotFileParser.read] *)
Definition read (r : RobotFileParser) (o : urlopen_outcome) : result unit * RobotFileParser :=
  match o with
  | HTTPError code =>
      if (code =? 401) || (code =? 403) then
        (Ok tt, {| table := table r; disallow_all := true;
                   allow_all := allow_all r; last_checked := last_checked r |})
      else if (400 <=? code) && (code <? 500) then
        (Ok tt, {| table := table r; disallow_all := disallow_all r;
                   allow_all := true; last_checked := last_checked r |})
      else (Ok tt, r)
  | OtherException => (Raise, r)
  | Body None => (Raise, r)
  | Body (Some lines) =>
      (Ok tt, {| table := parse lines; disallow_all := disallow_all r;
                 allow_all := allow_all r; last_checked := now |})
  end.

(** [RobotFileParser.can_fetch] *)
Definition can_fetch (r : RobotFileParser) (useragent url : string) : result bool :=
  if disallow_all r then Ok false
  else if allow_all r then Ok true
  else if Qeq_bool (last_checked r) 0 then Ok false
  else search_allow (table r) useragent url.

(** [RobotFileParser.crawl_delay] *)
Definition parser_crawl_delay (r : RobotFileParser) (useragent : string) : option Q :=
  if Qeq_bool (last_checked r) 0 then None
  else search_delay (table r) useragent.

(** [_get_parser]: [try: r.read() except Exception: pass]. *)
Definition _get_parser (root : string) : RobotFileParser :=
  snd (read new_parser (world root)).

Definition allowed (user_agent url : string) : bool :=
  let r := _get_parser (rootsite url) in
  match can_fetch r user_agent url with
  | Ok b => b
  | Raise => true
  end.

Definition crawl_delay (user_agent url : string) : option Q :=
  let r := _get_parser (rootsite url) in
  parser_crawl_delay r user_agent.

End Parser.
End Robots.

(** ** src/crawler/rate_limit.py : [DomainRateLimiter] *)

Module DomainRateLimiter.
Section Limiter.

(** [urlparse(url).netloc], None standing for the ValueError of [urlparse],
    and [crawl_delay] of src/crawler/robots.py. *)
Variable netloc_of : string -> option string.
Variable crawl_delay : string -> string -> option Q.

(** [self.last_time] *)
Definition t : Type := gmap string Q.

Definition init : t := ∅.

Definition _min_delay (url : string) : result Q :=
  match netloc_of url with
  | None => Raise
  | Some host =>
      match PER_DOMAIN_MIN_DELAY !! host with
      | Some d => Ok d
      | None =>
          match crawl_delay USER_AGENT url with
          | Some rd => Ok rd
          | None => Ok DEFAULT_MIN_DELAY_S
          end
      end
  end.

(** [random.uniform(a, b)] is [a + (b - a) * random()]; [r] is the draw of
    [random()]. *)
Definition uniform (jitter : Q * Q) (r : Q) : Q :=
  (fst jitter + (snd jitter - fst jitter) * r)%Q.

(** The default of the [jitter] argument of [wait]. *)
Definition default_jitter : Q * Q := (3 # 10, 12 # 10)%Q.

(** [wait]: [now] and [t_end] are the two readings of [time.time()], [r] the
    random draw. The result says whether the call returned or raised
    ([urlparse] on the url, [time.sleep] on a negative length), and carries
    the sleeps performed and [last_time] afterwards. *)
Definition wait (last_time : t) (url : string) (jitter : Q * Q) (now r t_end : Q)
    : result unit * list Q * t :=
  match netloc_of url with
  | None => (Raise, [], last_time)
  | Some host =>
      match _min_delay url with
      | Raise => (Raise, [], last_time)
      | Ok need =>
          let last := default 0%Q (last_time !! host) in
          let to_sleep := Qmax 0 (last + need - now) in
          let slept := if Qlt_le_dec 0 to_sleep then [to_sleep] else [] in
          let j := uniform jitter r in
          if Qlt_le_dec j 0 then (Raise, slept, last_time)
          else (Ok tt, slept ++ [j], <[host := t_end]> last_time)
      end
  end.

End Limiter.
End DomainRateLimiter.

(** ** src/crawler/canonicalize.py over [urllib.parse]

    A url is a list of characters. The model covers ASCII urls; the
    strings that percent-decoding produces may be any Unicode text and
    are represented by their UTF-8 encoding, under which comparing by code
    point is comparing bytewise. *)

Module Canonicalize.

Definition str : Type := list ascii.

Definition code (c : ascii) : nat := nat_of_ascii c.

Definition is_ascii (s : str) : Prop := List.Forall (fun c => code c < 128)%nat s.

Definition chr_in (set : str) (c : ascii) : bool :=
  List.existsb (Ascii.eqb c) set.

(** *** String helpers *)

(** The longest prefix without a character satisfying [p], and the rest:
    [s.find], [s.partition] and [s.split(c, 1)] all cut there. *)
Fixpoint break_at (p : ascii -> bool) (s : str) : str * str :=
  match s with
  | [] => ([], [])
  | c :: s' =>
      if p c then ([], s)
      else let '(a, b) := break_at p s' in (c :: a, b)
  end.

(** [s.split(c, 1)] when [c in s]. *)
Definition split_first (c : ascii) (s : str) : option (str * str) :=
  match break_at (Ascii.eqb c) s with
  | (a, _ :: b) => Some (a, b)
  | (_, []) => None
  end.

(** [s.rpartition(c)[2]]: what follows the last [c], or all of [s]. *)
Fixpoint after_last (c : ascii) (s : str) : str :=
  match s with
  | [] => []
  | x :: s' =>
      if Ascii.eqb x c && negb (chr_in s' c) then s'
      else if chr_in s' c then after_last c s' else s
  end.

(** [s.split(c)] *)
Fixpoint split_all (c : ascii) (s : str) : list str :=
  match s with
  | [] => [[]]
  | x :: s' =>
      match split_all c s' with
      | [] => [[]]
      | seg :: segs => if Ascii.eqb x c then [] :: seg :: segs else (x :: seg) :: segs
      end
  end.

(** [c.join(parts)] *)
Fixpoint join (c : ascii) (parts : list str) : str :=
  match parts with
  | [] => []
  | [p] => p
  | p :: rest => p ++ c :: join c rest
  end.

Definition is_upper (c : ascii) : bool := (65 <=? code c)%nat && (code c <=? 90)%nat.
Definition is_lower (c : ascii) : bool := (97 <=? code c)%nat && (code c <=? 122)%nat.
Definition is_digit (c : ascii) : bool := (48 <=? code c)%nat && (code c <=? 57)%nat.
Definition is_alpha (c : ascii) : bool := is_upper c || is_lower c.

(** [str.lower] on ASCII text. *)
Definition lower_char (c : ascii) : ascii :=
  if is_upper c then ascii_of_nat (code c + 32) else c.
Definition lower (s : str) : str := List.map lower_char s.

(** [s.startswith(p)] and [s[:len(p)] == p] *)
Fixpoint starts_with (p s : str) : bool :=
  match p, s with
  | [], _ => true
  | x :: p', y :: s' => Ascii.eqb x y && starts_with p' s'
  | _ :: _, [] => false
  end.

Fixpoint str_eqb (a b : str) : bool :=
  match a, b with
  | [], [] => true
  | x :: a', y :: b' => Ascii.eqb x y && str_eqb a' b'
  | _, _ => false
  end.

Definition str_of (s : string) : str := list_ascii_of_string s.

(** *** [urlsplit] and [urlparse] *)

Definition uses_netloc : list str :=
  List.map str_of
    [""; "ftp"; "http"; "gopher"; "nntp"; "telnet"; "imap"; "wais"; "file"; "mms";
     "https"; "shttp"; "snews"; "prospero"; "rtsp"; "rtspu"; "rsync"; "svn";
     "svn+ssh"; "sftp"; "nfs"; "git"; "git+ssh"; "ws"; "wss"]%string.

Definition uses_params : list str :=
  List.map str_of
    [""; "ftp"; "hdl"; "prospero"; "http"; "imap"; "https"; "shttp"; "rtsp";
     "rtspu"; "sip"; "sips"; "mms"; "sftp"; "tel"]%string.

Definition in_list (s : str) (l : list str) : bool := List.existsb (str_eqb s) l.

(** [scheme_chars] *)
Definition is_scheme_char (c : ascii) : bool :=
  is_alpha c || is_digit c || chr_in (str_of "+-.") c.

(** [_WHATWG_C0_CONTROL_OR_SPACE] *)
Definition is_c0_or_space (c : ascii) : bool := (code c <=? 32)%nat.

(** [_UNSAFE_URL_BYTES_TO_REMOVE]: tab, carriage return, newline. *)
Definition is_unsafe (c : ascii) : bool :=
  (code c =? 9)%nat || (code c =? 13)%nat || (code c =? 10)%nat.

(** [url.lstrip(_WHATWG_C0_CONTROL_OR_SPACE)] and the removal loop. *)
Fixpoint lstrip (s : str) : str :=
  match s with
  | [] => []
  | c :: s' => if is_c0_or_space c then lstrip s' else s
  end.

Definition clean (url : str) : str :=
  List.filter (fun c => negb (is_unsafe c)) (lstrip url).

(** [i = url.find(':')] and the test of [url[:i]] against [scheme_chars]. *)
Definition split_scheme (url : str) : str * str :=
  match split_first ":" url with
  | Some (c0 :: pre', rest) =>
      if is_alpha c0 && List.forallb is_scheme_char (c0 :: pre')
      then (lower (c0 :: pre'), rest)
      else ([], url)
  | _ => ([], url)
  end.

(** An ASCII character that [clean] keeps. *)
Definition plain (c : ascii) : Prop := is_unsafe c = false /\ (code c < 128)%nat.

Definition plainb (c : ascii) : bool := negb (is_unsafe c) && (code c <? 128)%nat.

(** A string that [split_scheme] accepts as a scheme: it starts with an ASCII
    letter and consists of scheme characters. *)
Definition scheme_like (pre : str) : Prop :=
  (exists c0 t, pre = c0 :: t /\ is_alpha c0 = true) /\
  List.forallb is_scheme_char pre = true.

(** [_splitnetloc(url, 2)] *)
Definition _splitnetloc (url : str) : str * str :=
  break_at (chr_in (str_of "/?#")) (List.skipn 2 url).

Section Parse.

(** [_check_bracketed_host(hostname)]: the IPvFuture pattern or
    [ipaddress.ip_address]; [false] is its ValueError. *)
Variable _check_bracketed_host : str -> bool.

(** [_check_bracketed_netloc]; [false] is its ValueError. *)
Definition _check_bracketed_netloc (netloc : str) : bool :=
  let hostname_and_port := after_last "@" netloc in
  match break_at (Ascii.eqb "[") hostname_and_port with
  | (before_bracket, _ :: bracketed) =>
      match before_bracket with
      | _ :: _ => false
      | [] =>
          let '(hostname, tail) := break_at (Ascii.eqb "]") bracketed in
          let port := List.tl tail in
          match port with
          | c :: _ =>
              if Ascii.eqb c ":" then _check_bracketed_host hostname else false
          | [] => _check_bracketed_host hostname
          end
      end
  | (_, []) =>
      let '(hostname, _) := break_at (Ascii.eqb ":") hostname_and_port in
      _check_bracketed_host hostname
  end.

(** The bracket tests of [urlsplit]; [false] is "Invalid IPv6 URL". *)
Definition netloc_ok (netloc : str) : bool :=
  let open := chr_in netloc "[" in
  let close := chr_in netloc "]" in
  if xorb open close then false
  else if open && close then _check_bracketed_netloc netloc
  else true.

Record SplitResult := mk_split {
  s_scheme : str;
  s_netloc : str;
  s_path : str;
  s_query : str;
  s_fragment : str
}.

(** [urlsplit(url)]. [_checknetloc] returns at once on an ASCII netloc. *)
Definition urlsplit (url : str) : result SplitResult :=
  let url := clean url in
  let '(scheme, url) := split_scheme url in
  let '(netloc, url, ok) :=
    if starts_with (str_of "//") url then
      let '(netloc, rest) := _splitnetloc url in (netloc, rest, netloc_ok netloc)
    else ([], url, true) in
  if negb ok then Raise
  else
    let '(url, fragment) :=
      match split_first "#" url with
      | Some (a, b) => (a, b)
      | None => (url, [])
      end in
    let '(url, query) :=
      match split_first "?" url with
      | Some (a, b) => (a, b)
      | None => (url, [])
      end in
    Ok (mk_split scheme netloc url query fragment).

(** The last path segment: what follows the last [/], or the whole path. *)
Definition last_segment (path : str) : str := after_last "/" path.

(** [_splitparams(url)], called when [';' in url]. *)
Definition _splitparams (url : str) : str * str :=
  let seg := last_segment url in
  match split_first ";" seg with
  | Some (a, b) =>
      (List.firstn (List.length url - List.length seg) url ++ a, b)
  | None => (url, [])
  end.

Record ParseResult := mk_parse {
  scheme : str;
  netloc : str;
  path : str;
  params : str;
  query : str;
  fragment : str
}.

Definition urlparse (url : str) : result ParseResult :=
  match urlsplit url with
  | Raise => Raise
  | Ok r =>
      let '(url, params) :=
        if in_list (s_scheme r) uses_params && chr_in (s_path r) ";"
        then _splitparams (s_path r)
        else (s_path r, []) in
      Ok (mk_parse (s_scheme r) (s_netloc r) url params (s_query r) (s_fragment r))
  end.

End Parse.

(** *** [urlunparse] with empty params and fragment *)

Definition urlunsplit (scheme netloc url query fragment : str) : str :=
  let url :=
    match netloc, (match scheme with [] => false | _ => in_list scheme uses_netloc end
                   && negb (starts_with (str_of "//") url)) with
    | [], false => url
    | _, _ =>
        let url :=
          match url with
          | c :: _ => if Ascii.eqb c "/" then url else "/"%char :: url
          | [] => url
          end in
        str_of "//" ++ netloc ++ url
    end in
  let url := match scheme with [] => url | _ => scheme ++ ":"%char :: url end in
  let url := match query with [] => url | _ => url ++ "?"%char :: query end in
  let url := match fragment with [] => url | _ => url ++ "#"%char :: fragment end in
  url.

(** The two decisions of [urlunsplit]: whether ["//" + netloc] is written,
    and the path with the slash it then gets. *)
Definition needs_netloc (scheme netloc : str) : bool :=
  match netloc with
  | _ :: _ => true
  | [] => match scheme with [] => false | _ => in_list scheme uses_netloc end
  end.

Definition with_slash (url : str) : str :=
  match url with
  | c :: _ => if Ascii.eqb c "/" then url else "/"%char :: url
  | [] => url
  end.

(** The layout of an assembled url. *)
Definition url_prefix (s : str) : str :=
  match s with [] => [] | _ => s ++ [":"%char] end.
Definition url_body (s n pa : str) : str :=
  if needs_netloc s n then "/"%char :: "/"%char :: n ++ pa else pa.
Definition url_query (q : str) : str :=
  match q with [] => [] | _ => "?"%char :: q end.

Definition assembled (s n pa q : str) : str :=
  url_prefix s ++ url_body s n pa ++ url_query q.

Definition urlunparse (scheme netloc url params query fragment : str) : str :=
  let url := match params with [] => url | _ => url ++ ";"%char :: params end in
  urlunsplit scheme netloc url query fragment.

(** *** Percent-decoding: [unquote] *)

Definition hex_val (c : ascii) : option nat :=
  if is_digit c then Some (code c - 48)%nat
  else if (65 <=? code c)%nat && (code c <=? 70)%nat then Some (code c - 55)%nat
  else if (97 <=? code c)%nat && (code c <=? 102)%nat then Some (code c - 87)%nat
  else None.

(** [unquote_to_bytes]: every [%] followed by two hex digits becomes the
    byte they spell; any other [%] stays. *)
Fixpoint unquote_to_bytes (s : str) : str :=
  match s with
  | [] => []
  | c :: t =>
      if Ascii.eqb c "%" then
        match t with
        | h1 :: h2 :: rest =>
            match hex_val h1, hex_val h2 with
            | Some a, Some b => ascii_of_nat (16 * a + b) :: unquote_to_bytes rest
            | _, _ => c :: unquote_to_bytes t
            end
        | _ => c :: unquote_to_bytes t
        end
      else c :: unquote_to_bytes t
  end.

Definition is_cont (c : ascii) : bool := (128 <=? code c)%nat && (code c <? 192)%nat.

(** U+FFFD in UTF-8. *)
Definition replacement : str :=
  [ascii_of_nat 239; ascii_of_nat 191; ascii_of_nat 189].

(** [bytes.decode("utf-8", "replace")], the result given in UTF-8: well-formed
    sequences are kept, each maximal ill-formed piece (an invalid start
    byte, or a sequence cut short by a wrong byte or by the end of the
    input) becomes U+FFFD. *)
Fixpoint decode_replace (b : str) : str :=
  match b with
  | [] => []
  | c1 :: r1 =>
      if (code c1 <? 128)%nat then c1 :: decode_replace r1
      else if (code c1 <? 194)%nat then replacement ++ decode_replace r1
      else if (code c1 <? 224)%nat then
        match r1 with
        | [] => replacement
        | c2 :: r2 =>
            if is_cont c2 then c1 :: c2 :: decode_replace r2
            else replacement ++ decode_replace r1
        end
      else if (code c1 <? 240)%nat then
        match r1 with
        | [] => replacement
        | c2 :: r2 =>
            if negb (is_cont c2)
               || (if (code c2 <? 160)%nat then (code c1 =? 224)%nat
                   else (code c1 =? 237)%nat)
            then replacement ++ decode_replace r1
            else
              match r2 with
              | [] => replacement
              | c3 :: r3 =>
                  if is_cont c3 then c1 :: c2 :: c3 :: decode_replace r3
                  else replacement ++ decode_replace r2
              end
        end
      else if (code c1 <? 245)%nat then
        match r1 with
        | [] => replacement
        | c2 :: r2 =>
            if negb (is_cont c2)
               || (if (code c2 <? 144)%nat then (code c1 =? 240)%nat
                   else (code c1 =? 244)%nat)
            then replacement ++ decode_replace r1
            else
              match r2 with
              | [] => replacement
              | c3 :: r3 =>
                  if negb (is_cont c3) then replacement ++ decode_replace r2
                  else
                    match r3 with
                    | [] => replacement
                    | c4 :: r4 =>
                        if is_cont c4 then c1 :: c2 :: c3 :: c4 :: decode_replace r4
                        else replacement ++ decode_replace r3
                    end
              end
        end
      else replacement ++ decode_replace r1
  end.

(** [unquote(string)] for ASCII [string]. *)
Definition unquote (s : str) : str :=
  if negb (chr_in s "%") then s
  else decode_replace (unquote_to_bytes s).

(** [s.replace('+', ' ')] *)
Definition plus_to_space (s : str) : str :=
  List.map (fun c => if Ascii.eqb c "+" then " "%char else c) s.

(** [parse_qsl(qs, keep_blank_values=True)] *)
Definition parse_qsl (qs : str) : list (str * str) :=
  let query_args := match qs with [] => [] | _ => split_all "&" qs end in
  List.flat_map
    (fun name_value =>
       match name_value with
       | [] => []
       | _ :: _ =>
           let '(n, v) :=
             match split_first "=" name_value with
             | Some (n, v) => (n, v)
             | None => (name_value, [])
             end in
           [(unquote (plus_to_space n), unquote (plus_to_space v))]
       end)
    query_args.

(** *** Percent-encoding: [urlencode] *)

(** [_ALWAYS_SAFE] *)
Definition always_safe (c : ascii) : bool :=
  is_alpha c || is_digit c || chr_in (str_of "_.-~") c.

Definition hex_digit (n : nat) : ascii :=
  if (n <? 10)%nat then ascii_of_nat (48 + n) else ascii_of_nat (55 + n).

(** ['%{:02X}'.format(b)] *)
Definition percent (c : ascii) : str :=
  ["%"%char; hex_digit (code c / 16); hex_digit (code c mod 16)].

(** [quote_plus(s)]: safe bytes stay, a space becomes [+], the rest is
    percent-encoded. *)
Definition quote_plus (s : str) : str :=
  List.flat_map
    (fun c => if always_safe c then [c]
              else if Ascii.eqb c " " then ["+"%char]
              else percent c)
    s.

(** [urlencode(pairs)] *)
Definition urlencode (pairs : list (str * str)) : str :=
  join "&" (List.map (fun kv => quote_plus (fst kv) ++ "="%char :: quote_plus (snd kv)) pairs).

(** The characters [quote_plus] can produce, and what it produces for one
    character. *)
Definition is_qchar (c : ascii) : bool :=
  always_safe c || Ascii.eqb c "+" || Ascii.eqb c "%".

Definition quote_char (c : ascii) : str :=
  if always_safe c then [c]
  else if Ascii.eqb c " " then ["+"%char]
  else percent c.

(** The characters [urlencode] can produce. *)
Definition is_query_char (c : ascii) : bool :=
  is_qchar c || Ascii.eqb c "=" || Ascii.eqb c "&".

(** Text that [decode_replace] leaves alone: well-formed UTF-8. *)
Definition normal (k : str) : Prop := decode_replace k = k.

(** *** [sorted] on a list of pairs of strings *)

(** Strings compare by code point, which on UTF-8 is bytewise. *)
Fixpoint str_compare (a b : str) : comparison :=
  match a, b with
  | [], [] => Eq
  | [], _ :: _ => Lt
  | _ :: _, [] => Gt
  | x :: a', y :: b' =>
      match Nat.compare (code x) (code y) with
      | Eq => str_compare a' b'
      | o => o
      end
  end.

Definition pair_compare (p q : str * str) : comparison :=
  match str_compare (fst p) (fst q) with
  | Eq => str_compare (snd p) (snd q)
  | o => o
  end.

Definition pair_leb (p q : str * str) : bool :=
  match pair_compare p q with Gt => false | _ => true end.

Fixpoint insert_pair (p : str * str) (l : list (str * str)) : list (str * str) :=
  match l with
  | [] => [p]
  | q :: l' => if pair_leb p q then p :: l else q :: insert_pair p l'
  end.

Definition sorted (l : list (str * str)) : list (str * str) :=
  List.fold_right insert_pair [] l.

(** *** [canonicalize_url] *)

Definition TRACKING_KEYS : list str :=
  List.map str_of
    ["utm_source"; "utm_medium"; "utm_campaign"; "utm_term"; "utm_content";
     "gclid"; "fbclid"; "igshid"]%string.

(** [re.sub(r"/{2,}", "/", path)] *)
Fixpoint collapse_slashes (s : str) : str :=
  match s with
  | [] => []
  | c :: s' =>
      if Ascii.eqb c "/" then
        match s' with
        | d :: _ => if Ascii.eqb d "/" then collapse_slashes s' else c :: collapse_slashes s'
        | [] => [c]
        end
      else c :: collapse_slashes s'
  end.

(** [[(k,v) for (k,v) in parse_qsl(...) if k not in TRACKING_KEYS]] *)
Definition query_pairs (q : str) : list (str * str) :=
  List.filter (fun kv => negb (in_list (fst kv) TRACKING_KEYS)) (parse_qsl q).

Section Canonicalize.
Variable _check_bracketed_host : str -> bool.

(** The canonical form of a parsed url. *)
Definition canonical_of (p : ParseResult) : str :=
  let scheme := lower (scheme p) in
  let netloc := lower (netloc p) in
  let path := collapse_slashes (match path p with [] => str_of "/" | _ => path p end) in
  let fragment := [] in
  let query := urlencode (sorted (query_pairs (query p))) in
  urlunparse scheme netloc path [] query fragment.

(** What the parts of a canonical url satisfy: scheme [s], netloc [n],
    path [pa] as it stands in the url, and query [q]. *)
Record canonical_parts (s n pa q : str) : Prop := {
  cp_scheme : s = [] \/ scheme_like s;
  cp_scheme_lower : lower s = s;
  cp_netloc_delim : List.Forall (fun c => chr_in (str_of "/?#") c = false) n;
  cp_netloc_plain : List.Forall plain n;
  cp_netloc_ok : netloc_ok _check_bracketed_host n = true;
  cp_netloc_lower : lower n = n;
  cp_path_nonempty : pa <> [];
  cp_path_collapsed : collapse_slashes pa = pa;
  cp_path_plain : List.Forall plain pa;
  cp_path_query : ~ In "?"%char pa;
  cp_path_fragment : ~ In "#"%char pa;
  cp_path_slash : needs_netloc s n = true -> exists t, pa = "/"%char :: t;
  cp_path_params : in_list s uses_params = true -> ~ In ";"%char (last_segment pa);
  cp_path_scheme :
    s = [] -> forall c t, pa = c :: t -> c <> "/"%char ->
    is_c0_or_space c = false /\
    forall pre r, pa = pre ++ ":"%char :: r -> ~ scheme_like pre;
  cp_query_chars : List.Forall (fun c => is_query_char c = true) q;
  cp_query_fixed : urlencode (sorted (query_pairs q)) = q
}.

Definition canonicalize (url : str) : result str :=
  match urlparse _check_bracketed_host url with
  | Raise => Raise
  | Ok p => Ok (canonical_of p)
  end.

(** [canonicalize_url] on [string]. *)
Definition canonicalize_url (url : string) : result string :=
  match canonicalize (str_of url) with
  | Raise => Raise
  | Ok c => Ok (string_of_list_ascii c)
  end.

End Canonicalize.
End Canonicalize.

(** ** src/crawler/news_crawler.py *)

Module NewsCrawler.
Import Canonicalize.

(** [re.search(pattern, u)]: the pattern matches at some position of [u];
    [matches_at] decides a match at the head of a string. *)
Fixpoint search (matches_at : str -> bool) (u : str) : bool :=
  matches_at u ||
  match u with
  | [] => false
  | _ :: t => search matches_at t
  end.

(** A match of [prefix] followed by [\d{n,}] at the head of [u]: the prefix
    and then at least [n] digits. *)
Definition digits_after (prefix : str) (n : nat) (u : str) : bool :=
  starts_with prefix u &&
  (let rest := List.skipn (List.length prefix) u in
   (n <=? List.length rest)%nat && List.forallb is_digit (List.firstn n rest)).

(** [/page/\d{2,}|[?&]page=\d{2,}] *)
Definition trap_page (u : str) : bool :=
  digits_after (str_of "/page/") 2 u
  || digits_after (str_of "?page=") 2 u
  || digits_after (str_of "&page=") 2 u.

(** [(calendar|events)/\d{4}] *)
Definition trap_date (u : str) : bool :=
  digits_after (str_of "calendar/") 4 u || digits_after (str_of "events/") 4 u.

(** [looks_like_trap], for ASCII urls. *)
Definition looks_like_trap (u : str) : bool :=
  let u := lower u in
  if search trap_page u then true
  else if search trap_date u then true
  else false.

(** A row of the news dataset. *)
Record news_row := mk_news_row {
  uid : string;
  record_type : string;
  source : string;
  url : string;
  title : string;
  text : string;
  author : string;
  published_at : string;
  lang : string;
  score : string;
  num_comments : string;
  created_ts : string
}.

(** What the outside world contributes to one pass of the crawl loop: the
    two readings of [time.time()] and the random draw inside [rl.wait], what
    [fetch] returns, the reading of [datetime.now], and the clock of the
    store at each push. *)
Record world := mk_world {
  w_now : Q;
  w_random : Q;
  w_end : Q;
  w_fetch : option (Z * string * string);
  w_created : string;
  w_push_ts : nat -> Z
}.

(** The objects [run] works on: the queue, the rate limiter and the rows
    gathered so far. *)
Record state := mk_state {
  q : CrawlQueue.t;
  rl : DomainRateLimiter.t;
  rows : list news_row
}.

Section Run.

(** [urlparse(u).netloc], None standing for its ValueError, and
    [CrawlQueue._domain], its lower-cased form. *)
Variable netloc_of : string -> option string.
Variable _domain : string -> option string.

(** [canonicalize_url] and [looks_like_trap] on Python strings,
    [allowed] and [crawl_delay] of src/crawler/robots.py (which raise when
    [urlparse] does), [extract_article], [extract_links] and [sha_uid]. *)
Variable canonicalize_url : string -> result string.
Variable looks_like_trap : string -> bool.
Variable allowed : string -> string -> result bool.
Variable crawl_delay : string -> string -> option Q.
Variable extract_article : string -> string * string * string.
Variable extract_links : string -> string -> list string.
Variable sha_uid : string -> string.

(** [for seed in NEWS_SEEDS: q.seed(seed, source=urlparse(seed).netloc,
    record_type="news")]; [ts k] is the clock of the store at the [k]-th
    seed. *)
Fixpoint seed_all (seeds : list string) (ts : nat -> Z) (k : nat) (q : CrawlQueue.t)
    : result unit * CrawlQueue.t :=
  match seeds with
  | [] => (Ok tt, q)
  | seed :: rest =>
      match netloc_of seed with
      | None => (Raise, q)
      | Some n => seed_all rest ts (S k) (CrawlQueue.seed q seed n "news" (ts k))
      end
  end.

(** The loop over [extract_links(html, can_url)]; [k] counts the links. *)
Fixpoint push_links (hrefs : list string) (url : string) (depth : Z) (source : string)
    (ts : nat -> Z) (k : nat) (q : CrawlQueue.t) : result unit * CrawlQueue.t :=
  match hrefs with
  | [] => (Ok tt, q)
  | href :: rest =>
      if negb (String.prefix "http" href) then push_links rest url depth source ts (S k) q
      else
        match netloc_of href with
        | None => (Raise, q)
        | Some n =>
            match netloc_of url with
            | None => (Raise, q)
            | Some n0 =>
                if negb (String.eqb n n0) then push_links rest url depth source ts (S k) q
                else if looks_like_trap href then push_links rest url depth source ts (S k) q
                else
                  match CrawlQueue.push _domain q href (depth + 1) source "news" (ts k) with
                  | (Raise, q') => (Raise, q')
                  | (Ok _, q') => push_links rest url depth source ts (S k) q'
                  end
            end
        end
  end.

(** The body of the [while True] loop from [canonicalize_url] on, for the
    item that [q.pop()] has returned. *)
Definition visit (w : world) (st : state) (item : StateDB.item) : result unit * state :=
  let '(url, depth, source, _) := item in
  match canonicalize_url url with
  | Raise => (Raise, st)
  | Ok can_url =>
      if looks_like_trap can_url then (Ok tt, st)
      else
        match allowed USER_AGENT can_url with
        | Raise => (Raise, st)
        | Ok false => (Ok tt, st)
        | Ok true =>
            match DomainRateLimiter.wait netloc_of crawl_delay (rl st) can_url
                    DomainRateLimiter.default_jitter (w_now w) (w_random w) (w_end w) with
            | (Raise, _, rl') => (Raise, {| q := q st; rl := rl'; rows := rows st |})
            | (Ok _, _, rl') =>
                let st := {| q := q st; rl := rl'; rows := rows st |} in
                match w_fetch w with
                | None => (Ok tt, st)
                | Some (code, final_url, html) =>
                    if String.eqb html "" then (Ok tt, st)
                    else
                      let '(title, text, published_at) := extract_article html in
                      let row :=
                        {| uid := sha_uid can_url; record_type := "news"; source := source;
                           url := can_url; title := title; text := text; author := "";
                           published_at := published_at; lang := ""; score := "";
                           num_comments := ""; created_ts := w_created w |} in
                      let st := {| q := q st; rl := rl st; rows := rows st ++ [row] |} in
                      if depth <? CRAWL_DEPTH then
                        let '(r, q') :=
                          push_links (extract_links html can_url) url depth source
                            (w_push_ts w) 0 (q st) in
                        (r, {| q := q'; rl := rl st; rows := rows st |})
                      else (Ok tt, st)
                end
            end
        end
  end.

(** The [while True] loop; [ws n] is the world of pass [n]. With the fuel
    used up the loop has not ended yet. *)
Fixpoint crawl (fuel : nat) (ws : nat -> world) (n : nat) (st : state)
    : option (result unit * state) :=
  match fuel with
  | O => None
  | S fuel' =>
      match CrawlQueue.pop _domain (q st) with
      | (Raise, q') => Some (Raise, {| q := q'; rl := rl st; rows := rows st |})
      | (Ok None, q') => Some (Ok tt, {| q := q'; rl := rl st; rows := rows st |})
      | (Ok (Some item), q') =>
          match visit (ws n) {| q := q'; rl := rl st; rows := rows st |} item with
          | (Raise, st') => Some (Raise, st')
          | (Ok _, st') => crawl fuel' ws (S n) st'
          end
      end
  end.

(** [run] on the store [d] found at start-up: the rows handed to
    [writer.append_rows], if the crawl ends without an exception. *)
Definition run (fuel : nat) (seed_ts : nat -> Z) (ws : nat -> world) (d : StateDB.db)
    : option (result (list news_row)) :=
  match seed_all NEWS_SEEDS seed_ts 0 (CrawlQueue.init d) with
  | (Raise, _) => Some Raise
  | (Ok _, q0) =>
      match crawl fuel ws 0 {| q := q0; rl := DomainRateLimiter.init; rows := [] |} with
      | None => None
      | Some (Raise, _) => Some Raise
      | Some (Ok _, st) => Some (Ok (rows st))
      end
  end.

End Run.
End NewsCrawler.

(** * Properties *)

(** ** The persistent frontier *)

Section StateDBFacts.
Import StateDB.

Lemma select_first_nil (q : list row) : select_first q = None -> q = [].
Proof.
  destruct q as [|r q]; [reflexivity|].
  simpl. destruct (select_first q); [destruct (id r <=? id r0)|]; discriminate.
Qed.

Lemma select_first_In (q : list row) (r : row) :
  select_first q = Some r -> In r q.
Proof.
  revert r. induction q as [|a q IH]; intros r; simpl; [discriminate|].
  destruct (select_first q) as [m|].
  - destruct (id a <=? id m); intros [= <-]; [now left | right; now apply IH].
  - intros [= <-]. now left.
Qed.

Lemma select_first_min (q : list row) (r : row) :
  select_first q = Some r -> forall x, In x q -> id r <= id x.
Proof.
  revert r. induction q as [|a q IH]; intros r; simpl; [discriminate|].
  destruct (select_first q) as [m|] eqn:E.
  - destruct (Z.leb_spec (id a) (id m)); intros [= <-] x [<-|Hx]; try lia.
    + specialize (IH m eq_refl x Hx). lia.
    + now apply IH.
  - intros [= <-] x [<-|Hx]; [lia|].
    apply select_first_nil in E. subst q. destruct Hx.
Qed.

Lemma delete_id_In (qid : Z) (q : list row) (x : row) :
  In x (delete_id qid q) <-> In x q /\ id x <> qid.
Proof.
  unfold delete_id. rewrite List.filter_In.
  destruct (Z.eqb_spec (id x) qid); simpl; intuition congruence.
Qed.

Lemma NoDup_map_id_inj (q : list row) (x y : row) :
  List.NoDup (List.map id q) -> In x q -> In y q -> id x = id y -> x = y.
Proof.
  induction q as [|a q IH]; simpl; [tauto|].
  intros Hnd [<-|Hx] [<-|Hy] E; trivial.
  - inversion Hnd as [|? ? Hnin _]. exfalso. apply Hnin. rewrite E.
    now apply List.in_map.
  - inversion Hnd as [|? ? Hnin _]. exfalso. apply Hnin. rewrite <- E.
    now apply List.in_map.
  - inversion Hnd. now apply IH.
Qed.

Lemma delete_id_perm (q : list row) (r : row) :
  List.NoDup (List.map id q) -> In r q -> Permutation q (r :: delete_id (id r) q).
Proof.
  induction q as [|a q IH]; simpl; [tauto|].
  intros Hnd Hin. inversion Hnd as [|? ? Hnin Hnd']; subst.
  destruct (Z.eqb_spec (id a) (id r)) as [E|E]; simpl.
  - assert (a = r) by (apply (NoDup_map_id_inj (a :: q)); simpl; auto).
    subst a. apply perm_skip.
    assert (Hall : forall x, In x q -> negb (id x =? id r) = true).
    { intros x Hx. destruct (Z.eqb_spec (id x) (id r)) as [Ex|]; [|reflexivity].
      exfalso. apply Hnin. rewrite <- Ex. now apply List.in_map. }
    clear -Hall. induction q as [|b q IHq]; [constructor|].
    simpl. rewrite (Hall b) by now left.
    apply perm_skip. apply IHq. intros x Hx. apply Hall. now right.
  - destruct Hin as [->|Hin]; [congruence|].
    rewrite perm_swap. apply perm_skip. now apply IH.
Qed.

Lemma NoDup_map_filter {A B : Type} (f : A -> B) (p : A -> bool) (l : list A) :
  List.NoDup (List.map f l) -> List.NoDup (List.map f (List.filter p l)).
Proof.
  induction l as [|a l IH]; simpl; [trivial|].
  intros Hnd. inversion Hnd as [|? ? Hnin Hnd']; subst.
  destruct (p a); simpl; [|auto].
  constructor; [|auto].
  intros Hin. apply Hnin. apply List.in_map_iff in Hin as (x & <- & Hx).
  apply List.filter_In in Hx as [Hx _]. now apply List.in_map.
Qed.

Lemma url_exists_true (u : string) (q : list row) :
  url_exists u q = true <-> exists r, In r q /\ url r = u.
Proof.
  unfold url_exists. rewrite List.existsb_exists.
  split; intros (r & Hr & E); exists r; split; trivial.
  - now apply String.eqb_eq.
  - now apply String.eqb_eq.
Qed.

Lemma url_exists_false (u : string) (q : list row) :
  url_exists u q = false -> ~ In u (List.map url q).
Proof.
  intros E Hin. apply List.in_map_iff in Hin as (r & Hr & Hin).
  assert (url_exists u q = true) by (apply url_exists_true; eauto).
  congruence.
Qed.

Lemma wf_empty : wf empty.
Proof. split; simpl; constructor. Qed.

Lemma wf_push (d : db) u dep src rt now : wf d -> wf (push d u dep src rt now).
Proof.
  intros [Hi Hu Hs]. unfold push.
  destruct (url_exists u (queue d)) eqn:E; [now split|].
  split; simpl.
  - rewrite List.map_app. simpl. apply List.NoDup_app. repeat split; trivial.
    + repeat constructor. intros [].
    + intros x Hx [<-|[]]. apply List.in_map_iff in Hx as (r & Er & Hr).
      rewrite List.Forall_forall in Hs. specialize (Hs r Hr). lia.
  - rewrite List.map_app. simpl. apply List.NoDup_app. repeat split; trivial.
    + repeat constructor. intros [].
    + intros x Hx [<-|[]]. now apply url_exists_false in E.
  - apply List.Forall_app. split.
    + eapply List.Forall_impl; [|exact Hs]. simpl. intros. lia.
    + repeat constructor. simpl. lia.
Qed.

Lemma wf_pop_row (d : db) : wf d -> wf (snd (pop_row d)).
Proof.
  intros [Hi Hu Hs]. unfold pop_row.
  destruct (select_first (queue d)) as [r|]; [|now split].
  split; simpl.
  - now apply NoDup_map_filter.
  - now apply NoDup_map_filter.
  - rewrite List.Forall_forall in *. intros x Hx.
    apply delete_id_In in Hx as [Hx _]. auto.
Qed.

(** Rows handed out by a run were in the store at its start or were given a
    fresh id during it; no id is handed out twice. *)
Lemma run_ids (ops : list op) (d : db) :
  wf d ->
  List.NoDup (List.map id (fst (run ops d))) /\
  List.Forall (fun r => In r (queue d) \/ seq d < id r) (fst (run ops d)).
Proof.
  revert d. induction ops as [|o ops IH]; intros d Hwf; simpl.
  - split; constructor.
  - destruct o as [u dep src rt now|].
    + destruct (IH _ (wf_push d u dep src rt now Hwf)) as [Hnd Hall].
      split; trivial. eapply List.Forall_impl; [|exact Hall].
      intros r. unfold push. destruct (url_exists u (queue d)); simpl; trivial.
      rewrite List.in_app_iff. simpl. intros [[Hr|[<-|[]]]|Hr]; simpl; auto; right; lia.
    + pose proof (wf_pop_row d Hwf) as Hwf'. unfold pop_row in *.
      destruct (select_first (queue d)) as [r|] eqn:E; simpl in *.
      * destruct (IH _ Hwf') as [Hnd Hall]. simpl in *.
        destruct (run ops _) as [out d''] eqn:R. simpl in *.
        pose proof (select_first_In _ _ E) as Hr.
        split.
        -- constructor; trivial. intros Hin.
           apply List.in_map_iff in Hin as (x & Ex & Hx).
           rewrite List.Forall_forall in Hall. destruct (Hall x Hx) as [Hq|Hq].
           ++ apply delete_id_In in Hq as [_ Hq]. congruence.
           ++ destruct Hwf as [_ _ Hs]. rewrite List.Forall_forall in Hs.
              specialize (Hs r Hr). lia.
        -- constructor; [now left|].
           eapply List.Forall_impl; [|exact Hall]. simpl.
           intros x [Hx|Hx]; [left|now right]. now apply delete_id_In in Hx as [Hx _].
      * now apply IH.
Qed.

Lemma wf_run (ops : list op) (d : db) : wf d -> wf (snd (run ops d)).
Proof.
  revert d. induction ops as [|o ops IH]; intros d Hwf; simpl; trivial.
  destruct o as [u dep src rt now|].
  - apply IH. now apply wf_push.
  - pose proof (wf_pop_row d Hwf) as Hwf'.
    destruct (pop_row d) as [[r|] d'] eqn:E; simpl in *.
    + specialize (IH d' Hwf'). destruct (run ops d'). exact IH.
    + now apply IH.
Qed.

Lemma count_url_le_1 (u : string) (q : list row) :
  List.NoDup (List.map url q) -> (count_url u q <= 1)%nat.
Proof.
  unfold count_url. induction q as [|a q IH]; simpl; [lia|].
  intros Hnd. inversion Hnd as [|? ? Hnin Hnd']; subst.
  destruct (String.eqb_spec (url a) u) as [E|E]; simpl; [|auto].
  assert (List.filter (fun r => String.eqb (url r) u) q = []) as ->; [|simpl; lia].
  clear IH Hnd Hnd'. induction q as [|x q IHq]; [reflexivity|]. simpl in *.
  destruct (String.eqb_spec (url x) u) as [Ex|]; [|apply IHq; tauto].
  exfalso. apply Hnin. left. congruence.
Qed.

Lemma count_url_pos (u : string) (q : list row) :
  url_exists u q = true -> (1 <= count_url u q)%nat.
Proof.
  unfold count_url, url_exists. induction q as [|a q IH]; simpl; [discriminate|].
  destruct (String.eqb (url a) u); simpl; [lia|auto].
Qed.

Lemma url_exists_push (d : db) u dep src rt now :
  url_exists u (queue (push d u dep src rt now)) = true.
Proof.
  unfold push. destruct (url_exists u (queue d)) eqn:E; trivial.
  simpl. unfold url_exists. rewrite List.existsb_app. simpl.
  rewrite String.eqb_refl. now rewrite orb_true_r.
Qed.

Lemma url_exists_push_other (d : db) u v dep src rt now :
  url_exists u (queue d) = true ->
  url_exists u (queue (push d v dep src rt now)) = true.
Proof.
  intros H. unfold push. destruct (url_exists v (queue d)); trivial.
  simpl. unfold url_exists in *. rewrite List.existsb_app, H. reflexivity.
Qed.

(** A queued url stays queued through a run that does not hand it out. *)
Lemma run_keeps_url (u : string) (ops : list op) (d : db) :
  wf d -> url_exists u (queue d) = true ->
  (forall r, In r (fst (run ops d)) -> url r <> u) ->
  url_exists u (queue (snd (run ops d))) = true.
Proof.
  revert d. induction ops as [|o ops IH]; intros d Hwf Hu Hout; simpl; trivial.
  destruct o as [v dep src rt now|].
  - apply IH; [now apply wf_push|now apply url_exists_push_other|exact Hout].
  - simpl in Hout. pose proof (wf_pop_row d Hwf) as Hwf'. unfold pop_row in *.
    destruct (select_first (queue d)) as [r|] eqn:E; simpl in *.
    + specialize (IH _ Hwf').
      destruct (run ops _) as [out d''] eqn:R. simpl in *.
      apply IH.
      * apply url_exists_true in Hu as (x & Hx & Ex).
        apply url_exists_true. exists x. split; trivial.
        apply delete_id_In. split; trivial.
        intros Eid. assert (x = r).
        { destruct Hwf as [Hi _ _]. eapply NoDup_map_id_inj; eauto.
          now apply select_first_In. }
        subst x. apply (Hout r); auto.
      * intros x Hx. apply Hout. now right.
    + now apply IH.
Qed.

End StateDBFacts.

Lemma two_rows_wf : StateDB.wf two_rows.
Proof.
  split; vm_compute.
  - repeat constructor; simpl; intuition discriminate.
  - repeat constructor; simpl; intuition discriminate.
  - repeat constructor; discriminate.
Defined.

(** C4. On a store that satisfies the table constraints, [pop] on an empty
    queue returns None and changes nothing; on a non-empty queue it returns
    the row with the smallest id and deletes exactly that row; over any run of
    pushes and pops no row id is handed out twice; and [CrawlQueue.pop] hands
    out what [StateDB.pop] returned. *)
Theorem pop_oldest_first (d : StateDB.db) (Hwf : StateDB.wf d) :
  (StateDB.queue d = [] -> StateDB.pop d = (None, d)) /\
  (StateDB.queue d <> [] ->
     exists r,
       In r (StateDB.queue d) /\
       (forall x, In x (StateDB.queue d) -> StateDB.id r <= StateDB.id x) /\
       fst (StateDB.pop d) = Some (StateDB.item_of r) /\
       StateDB.seq (snd (StateDB.pop d)) = StateDB.seq d /\
       (forall x, In x (StateDB.queue (snd (StateDB.pop d))) <->
                  In x (StateDB.queue d) /\ x <> r) /\
       Permutation (StateDB.queue d) (r :: StateDB.queue (snd (StateDB.pop d)))) /\
  (forall ops, List.NoDup (List.map StateDB.id (fst (StateDB.run ops d)))) /\
  (forall _domain counts,
     let q := CrawlQueue.mk d counts in
     CrawlQueue.db (snd (CrawlQueue.pop _domain q)) = snd (StateDB.pop d) /\
     forall o, fst (CrawlQueue.pop _domain q) = Ok o -> o = fst (StateDB.pop d)).
Proof.
  repeat split.
  - intros E. unfold StateDB.pop, StateDB.pop_row. rewrite E. simpl. now destruct d.
  - intros Hne. unfold StateDB.pop, StateDB.pop_row.
    destruct (StateDB.select_first (StateDB.queue d)) as [r|] eqn:E.
    + exists r. simpl.
      pose proof (select_first_In _ _ E) as Hr.
      destruct Hwf as [Hi _ _].
      repeat split; trivial.
      * now apply select_first_min.
      * now apply delete_id_In in H.
      * apply delete_id_In in H as [_ H]. congruence.
      * intros [Hx Hxr]. apply delete_id_In. split; trivial.
        intros Eid. apply Hxr. now apply (NoDup_map_id_inj (StateDB.queue d)).
      * now apply delete_id_perm.
    + apply select_first_nil in E. contradiction.
  - intros ops. now apply run_ids.
  - unfold CrawlQueue.pop. cbn [CrawlQueue.db CrawlQueue.domain_counts].
    destruct (StateDB.pop d) as [[[[[u dep] src] rt]|] d']; simpl; trivial.
    destruct (_domain u); reflexivity.
  - unfold CrawlQueue.pop. cbn [CrawlQueue.db CrawlQueue.domain_counts].
    destruct (StateDB.pop d) as [[[[[u dep] src] rt]|] d']; simpl.
    + destruct (_domain u); simpl; [now intros o [= <-]|discriminate].
    + now intros o [= <-].
Qed.

Lemma pop_oldest_first_witness :
  StateDB.wf two_rows /\
  fst (StateDB.pop two_rows) = Some ("http://a/", 0, "a", "news") /\
  List.NoDup (List.map StateDB.id
    (fst (StateDB.run [StateDB.Pop; StateDB.Pop; StateDB.Pop] two_rows))).
Proof.
  split; [exact two_rows_wf|]. split; [reflexivity|].
  exact (proj1 (proj2 (proj2 (pop_oldest_first two_rows two_rows_wf))) _).
Defined.




(** ** The per-domain page budget *)

Section CrawlQueueFacts.
Variable _domain : string -> option string.

Lemma exec_counts (cs : list CrawlQueue.call) (q : CrawlQueue.t) (dom : string) :
  CrawlQueue.count_of (snd (CrawlQueue.exec _domain cs q)) dom =
  (CrawlQueue.count_of q dom +
   CrawlQueue.popped_of _domain dom (fst (CrawlQueue.exec _domain cs q)))%nat.
Proof.
  revert q. induction cs as [|c cs IH]; intros q; simpl.
  - unfold CrawlQueue.popped_of. simpl. lia.
  - destruct (CrawlQueue.step _domain q c) as [o q'] eqn:Es.
    specialize (IH q'). destruct (CrawlQueue.exec _domain cs q') as [out q''].
    simpl in *. rewrite IH. clear IH.
    destruct c as [u s r now|u dp s r now|]; simpl in Es.
    + injection Es as <- <-. reflexivity.
    + injection Es as <- <-. unfold CrawlQueue.push.
      destruct (_domain u); [|reflexivity].
      destruct (MAX_PAGES_PER_DOMAIN <=? _)%nat; reflexivity.
    + unfold CrawlQueue.pop in Es.
      destruct (StateDB.pop (CrawlQueue.db q)) as [[[[[u dp] s] r]|] d'].
      * destruct (_domain u) as [du|] eqn:Ed; injection Es as <- <-.
        -- unfold CrawlQueue.popped_of, CrawlQueue.item_in_domain,
             CrawlQueue.count_of. simpl. rewrite Ed.
           destruct (String.eqb_spec du dom) as [->|Hne]; simpl.
           ++ rewrite lookup_insert_eq. simpl. lia.
           ++ now rewrite lookup_insert_ne.
        -- reflexivity.
      * injection Es as <- <-. reflexivity.
Qed.

End CrawlQueueFacts.

(** C10. After any run of seed, push and pop calls on a fresh [CrawlQueue]:
    the counter of a domain equals the number of items of that domain that
    the pops have returned; [seed] pushes to the store whatever the counters
    say, leaving its url queued and the counters unchanged; [push] never
    changes the counters; and when [push] does not perform the store push
    for a url of domain [dom], at least MAX_PAGES_PER_DOMAIN items of [dom]
    have been popped. *)
Theorem budget_counts_only_pops (_domain : string -> option string)
    (d0 : StateDB.db) (cs : list CrawlQueue.call) :
  let out := fst (CrawlQueue.exec _domain cs (CrawlQueue.init d0)) in
  let q := snd (CrawlQueue.exec _domain cs (CrawlQueue.init d0)) in
  (forall dom, CrawlQueue.count_of q dom = CrawlQueue.popped_of _domain dom out) /\
  (forall u s r now,
     CrawlQueue.db (CrawlQueue.seed q u s r now)
       = StateDB.push (CrawlQueue.db q) u 0 s r now /\
     StateDB.url_exists u (StateDB.queue (CrawlQueue.db (CrawlQueue.seed q u s r now)))
       = true /\
     CrawlQueue.domain_counts (CrawlQueue.seed q u s r now)
       = CrawlQueue.domain_counts q) /\
  (forall u dp s r now,
     CrawlQueue.domain_counts (snd (CrawlQueue.push _domain q u dp s r now))
       = CrawlQueue.domain_counts q) /\
  (forall u dom dp s r now,
     _domain u = Some dom ->
     CrawlQueue.db (snd (CrawlQueue.push _domain q u dp s r now))
       <> StateDB.push (CrawlQueue.db q) u dp s r now ->
     (MAX_PAGES_PER_DOMAIN <= CrawlQueue.popped_of _domain dom out)%nat).
Proof.
  intros out q.
  assert (Hc : forall dom,
             CrawlQueue.count_of q dom = CrawlQueue.popped_of _domain dom out).
  { intros dom. unfold q, out. rewrite exec_counts.
    unfold CrawlQueue.count_of at 1. simpl. now rewrite lookup_empty. }
  repeat split; trivial.
  - apply url_exists_push.
  - intros u dp s r now. unfold CrawlQueue.push.
    destruct (_domain u); [|reflexivity].
    destruct (MAX_PAGES_PER_DOMAIN <=? _)%nat; reflexivity.
  - intros u dom dp s r now Hd. unfold CrawlQueue.push. rewrite Hd.
    destruct (Nat.leb_spec MAX_PAGES_PER_DOMAIN (CrawlQueue.count_of q dom)) as [Hle|Hlt];
      simpl; [|congruence].
    intros _. now rewrite <- Hc.
Qed.

(** ** The fetcher's retry loop *)

Section DownloaderFacts.
Import Downloader.

(** The loop is total: once the fuel exceeds the number of iterations that
    [attempt <= RETRY_MAX] allows, more fuel changes nothing. *)
Lemma fetch_loop_fuel (server : nat -> attempt_outcome) (f1 f2 attempt : nat)
    (backoff : Q) :
  (S RETRY_MAX - attempt < f1)%nat -> (S RETRY_MAX - attempt < f2)%nat ->
  fetch_loop f1 server attempt backoff = fetch_loop f2 server attempt backoff.
Proof.
  revert f2 attempt backoff.
  induction f1 as [|f1 IH]; intros f2 attempt backoff H1 H2; [lia|].
  destruct f2 as [|f2]; [lia|]. simpl.
  destruct (Nat.leb_spec attempt RETRY_MAX) as [Hle|Hgt]; [|reflexivity].
  assert (IH' : forall b, fetch_loop f1 server (S attempt) b
                        = fetch_loop f2 server (S attempt) b).
  { intros b. apply IH; unfold RETRY_MAX in *; lia. }
  destruct (server attempt) as [code ra fu text| |]; rewrite ?IH'; reflexivity.
Qed.

(** After a retriable status the next sleep is [max(1, BACKOFF_BASE ** attempt)]
    whatever the Retry-After header said: the value computed from the header
    is overwritten before it is used. *)
Lemma fetch_loop_retry_after_unused (fuel : nat) (server : nat -> attempt_outcome)
    (attempt : nat) (backoff : Q) (code : Z) (ra : retry_after) (fu text : string) :
  (attempt <= RETRY_MAX)%nat ->
  server attempt = Response code ra fu text ->
  (200 <=? code) && (code <? 300) = false ->
  retriable code = true ->
  fetch_loop (S fuel) server attempt backoff =
    (sleep_if_positive backoff
       ++ fst (fetch_loop fuel server (S attempt)
                 (Qmax 1 (BACKOFF_BASE ^ Z.of_nat (S attempt)))),
     snd (fetch_loop fuel server (S attempt)
            (Qmax 1 (BACKOFF_BASE ^ Z.of_nat (S attempt))))).
Proof.
  intros Hle Hs H2 Hr. cbn [fetch_loop].
  apply Nat.leb_le in Hle. rewrite Hle, Hs, H2, Hr.
  destruct ra; now destruct (fetch_loop fuel server _ _).
Qed.

End DownloaderFacts.

(** C2, evaluated on the code. Against a server that always answers 429 with
    [Retry-After: 60], [fetch] sleeps 1.8, 3.24 and 5.832 seconds between its
    four attempts, each far below the 60 seconds asked for, and then gives up;
    the same holds for 503, and in general the sleeps are those of a server
    that sends no Retry-After header at all. *)
Theorem fetch_retry_after_overwritten :
  Downloader.fetch (Downloader.always 429 (Downloader.RA_seconds 60))
    = ([18 # 10; 324 # 100; 5832 # 1000], None) /\
  Downloader.fetch (Downloader.always 503 (Downloader.RA_seconds 60))
    = ([18 # 10; 324 # 100; 5832 # 1000], None) /\
  List.Forall (fun s => s < 60)%Q
    (fst (Downloader.fetch (Downloader.always 429 (Downloader.RA_seconds 60)))) /\
  (forall code r,
     Downloader.fetch (Downloader.always code (Downloader.RA_seconds r))
       = Downloader.fetch (Downloader.always code Downloader.RA_absent)).
Proof.
  split; [reflexivity|]. split; [reflexivity|]. split.
  - repeat constructor.
  - intros code r. unfold Downloader.fetch, Downloader.always.
    cbn [Downloader.fetch_loop Nat.leb RETRY_MAX].
    destruct ((200 <=? code) && (code <? 300)); [reflexivity|].
    destruct (Downloader.retriable code); reflexivity.
Qed.

(** ** Adaptive pacing in [PoliteSession] *)

Section PoliteSessionFacts.
Import PoliteSession.

Variables (min_interval max_extra_delay backoff_base : Q) (max_retries : nat).
Variable _crawl_delay_from_text : string -> option Q.
Variable can_fetch : string -> bool.
Variable netloc_of : string -> string.

Local Abbreviation eff s n :=
  (fst (_effective_delay min_interval max_extra_delay _crawl_delay_from_text s n)).
Local Abbreviation step s n k a :=
  (attempt_step max_extra_delay backoff_base s n k a).
Local Abbreviation base_delay := (PoliteSession.base_delay min_interval _crawl_delay_from_text).
Local Abbreviation extra_ok := (PoliteSession.extra_ok max_extra_delay).

Lemma eff_split (s : session) (netloc : string) :
  eff s netloc = (base_delay s netloc + Qmin (extra_of s netloc) max_extra_delay)%Q.
Proof.
  unfold _effective_delay, PoliteSession.base_delay. now destruct (domain_delay s !! netloc).
Qed.

Lemma effective_delay_extra (s : session) (netloc n : string) :
  extra_of
    (snd (_effective_delay min_interval max_extra_delay _crawl_delay_from_text s netloc)) n
  = extra_of s n.
Proof. unfold _effective_delay. now destruct (domain_delay s !! netloc). Qed.

Lemma step_domain_delay (s : session) (netloc : string) (k : nat) (a : attempt) :
  domain_delay (snd (fst (step s netloc k a))) = domain_delay s.
Proof.
  unfold attempt_step. destruct (reply_of a) as [status ra|]; [|reflexivity].
  destruct (status =? 200); [reflexivity|].
  destruct (status =? 429).
  - destruct ra as [|n|]; try reflexivity. now destruct (n <? 0).
  - now destruct (500 <=? status).
Qed.

Lemma base_delay_step (s : session) (netloc n : string) (k : nat) (a : attempt) :
  base_delay (snd (fst (step s netloc k a))) n = base_delay s n.
Proof. unfold PoliteSession.base_delay. now rewrite step_domain_delay. Qed.

Lemma extra_of_set_extra (s : session) (netloc : string) (e : Q) :
  extra_of (set_extra s netloc e) netloc = e.
Proof. unfold extra_of, set_extra. simpl. now rewrite lookup_insert_eq. Qed.

Lemma extra_of_set_extra_ne (s : session) (netloc n : string) (e : Q) :
  netloc <> n -> extra_of (set_extra s netloc e) n = extra_of s n.
Proof. intros H. unfold extra_of, set_extra. simpl. now rewrite lookup_insert_ne. Qed.

Lemma extra_of_set_ts (s : session) (netloc n : string) (t : Q) :
  extra_of (set_ts s netloc t) n = extra_of s n.
Proof. reflexivity. Qed.

(** What one pass does to the adaptive extra of the origin it talks to. *)
Lemma step_extra_200 (s : session) (netloc : string) (k : nat) (a : attempt) ra :
  reply_of a = Response 200 ra ->
  extra_of (snd (fst (step s netloc k a))) netloc
  = Qmax 0 (extra_of s netloc - (1 # 2)).
Proof.
  intros E. unfold attempt_step. rewrite E. simpl.
  now rewrite extra_of_set_extra.
Qed.

Lemma step_extra_429 (s : session) (netloc : string) (k : nat) (a : attempt) ra :
  reply_of a = Response 429 ra ->
  ra = RA_absent \/ (exists n, ra = RA_int n /\ 0 <= n) ->
  extra_of (snd (fst (step s netloc k a))) netloc
  = Qmin max_extra_delay (extra_of s netloc + 2).
Proof.
  intros E Hra. unfold attempt_step. rewrite E. simpl.
  destruct Hra as [->|(n & -> & Hn)].
  - simpl. now rewrite extra_of_set_extra.
  - destruct (Z.ltb_spec n 0); [lia|]. simpl. now rewrite extra_of_set_extra.
Qed.

Lemma extra_ok_step (s : session) (netloc : string) (k : nat) (a : attempt) :
  extra_ok s -> extra_ok (snd (fst (step s netloc k a))).
Proof.
  intros Hs n. pose proof (Hs netloc) as Hl. specialize (Hs n).
  assert (Hup : forall e,
             (0 <= e)%Q \/ (e == max_extra_delay)%Q ->
             (0 <= extra_of (set_extra (set_ts s netloc (ts a)) netloc e) n)%Q \/
             (extra_of (set_extra (set_ts s netloc (ts a)) netloc e) n
                == max_extra_delay)%Q).
  { intros e He. destruct (decide (netloc = n)) as [<-|Hne].
    - now rewrite extra_of_set_extra.
    - now rewrite extra_of_set_extra_ne. }
  assert (Hgrow : (0 <= Qmin max_extra_delay (extra_of (set_ts s netloc (ts a)) netloc + 2))%Q
                  \/ (Qmin max_extra_delay (extra_of (set_ts s netloc (ts a)) netloc + 2)
                        == max_extra_delay)%Q).
  { rewrite extra_of_set_ts.
    destruct (Q.min_spec max_extra_delay (extra_of s netloc + 2)) as [[H1 H2]|[H1 H2]];
      rewrite H2; [now right|]. destruct Hl as [Hl|Hl]; [left; lra|right; lra]. }
  unfold attempt_step. destruct (reply_of a) as [status ra|]; [|exact Hs].
  destruct (status =? 200); simpl.
  { apply Hup. left. apply Q.le_max_l. }
  destruct (status =? 429); simpl.
  - destruct ra as [|m|]; simpl; try exact Hs.
    + now apply Hup.
    + destruct (m <? 0); simpl; [exact Hs|now apply Hup].
  - destruct (500 <=? status); exact Hs.
Qed.

Lemma extra_ok_retry_loop (left : nat) (world : nat -> attempt) (s : session)
    (netloc : string) (k : nat) :
  extra_ok s ->
  extra_ok (snd (fst (retry_loop max_extra_delay backoff_base left world s netloc k))).
Proof.
  revert s k. induction left as [|left IH]; intros s k Hs; simpl; trivial.
  pose proof (extra_ok_step s netloc k (world k) Hs) as Hs'.
  destruct (step s netloc k (world k)) as [[[[]|o] s'] sl]; simpl in *; trivial.
  specialize (IH s' (S k) Hs').
  now destruct (retry_loop _ _ left world s' netloc (S k)) as [[o s''] sl'].
Qed.

Lemma extra_ok_reachable (s : session) :
  reachable min_interval max_extra_delay backoff_base max_retries
    _crawl_delay_from_text can_fetch netloc_of s ->
  extra_ok s.
Proof.
  induction 1 as [|s url now world Hr IH].
  - intros n. left. unfold extra_of, fresh. simpl. rewrite lookup_empty. simpl. lra.
  - unfold get.
    set (pre := match last_request_ts s !! netloc_of url with
                | Some _ => _ | None => _ end).
    assert (Hpre : extra_ok (fst pre)).
    { unfold pre. destruct (last_request_ts s !! netloc_of url); [|exact IH].
      pose proof (effective_delay_extra s (netloc_of url)) as He.
      destruct (_effective_delay _ _ _ s (netloc_of url)) as [delay s1].
      simpl in *. intros n. rewrite He. apply IH. }
    destruct pre as [s1 sl1]. simpl in Hpre.
    destruct (negb (can_fetch url)); [exact Hpre|].
    pose proof (extra_ok_retry_loop (S max_retries) world s1 (netloc_of url) 0 Hpre) as H.
    destruct (retry_loop _ _ (S max_retries) world s1 (netloc_of url) 0)
      as [[o s2] sl2].
    exact H.
Qed.

End PoliteSessionFacts.

(** Names a [Qmin] or [Qmax] term and keeps only its defining case split. *)
Ltac name_min a b :=
  let m := fresh "m" in
  let H := fresh "Hm" in
  pose proof (Q.min_spec a b) as H; set (m := Qmin a b) in *; clearbody m.
Ltac name_max a b :=
  let m := fresh "m" in
  let H := fresh "Hm" in
  pose proof (Q.max_spec a b) as H; set (m := Qmax a b) in *; clearbody m.
Ltac split_cases :=
  repeat match goal with
         | H : _ \/ _ |- _ => destruct H as [H|H]
         | H : _ /\ _ |- _ => destruct H
         end.




(** ** Stable sorting *)

Section SortingFacts.
Context {A : Type}.
Variable key : A -> Q.

Lemma insert_desc_In (x z : A) (l : list A) :
  In z (insert_desc key x l) <-> z = x \/ In z l.
Proof.
  induction l as [|y l IH]; simpl; [intuition|].
  destruct (Qlt_le_dec (key x) (key y)); simpl; rewrite ?IH; intuition.
Qed.

Lemma sort_desc_In (z : A) (l : list A) : In z (sort_desc key l) <-> In z l.
Proof.
  induction l as [|x l IH]; simpl; [tauto|].
  rewrite insert_desc_In, IH. intuition.
Qed.

Lemma sort_desc_length (l : list A) :
  List.length (sort_desc key l) = List.length l.
Proof.
  induction l as [|x l IH]; simpl; [reflexivity|]. rewrite <- IH.
  generalize (sort_desc key l). intros s.
  induction s as [|y s IHs]; simpl; [reflexivity|].
  destruct (Qlt_le_dec (key x) (key y)); simpl; congruence.
Qed.

Lemma insert_desc_descending (x : A) (l : list A) :
  descending key l -> descending key (insert_desc key x l).
Proof.
  unfold descending in *. induction l as [|y l IH]; simpl; intros Hs.
  - repeat constructor.
  - inversion Hs as [|? ? Hs' Hall]; subst.
    destruct (Qlt_le_dec (key x) (key y)) as [Hlt|Hle].
    + constructor; [auto|]. apply List.Forall_forall. intros z Hz.
      apply insert_desc_In in Hz as [->|Hz]; [lra|].
      rewrite List.Forall_forall in Hall. auto.
    + constructor; [exact Hs|]. constructor; [exact Hle|].
      eapply List.Forall_impl; [|exact Hall]. simpl. intros. lra.
Qed.

Lemma sort_desc_descending (l : list A) : descending key (sort_desc key l).
Proof.
  induction l as [|x l IH]; simpl; [constructor|].
  now apply insert_desc_descending.
Qed.

(** The first element of the sorted list has the largest key. *)
Lemma sort_desc_head (l : list A) (y : A) (rest : list A) :
  sort_desc key l = y :: rest -> forall x, In x l -> (key x <= key y)%Q.
Proof.
  intros E x Hx. apply sort_desc_In in Hx. rewrite E in Hx.
  pose proof (sort_desc_descending l) as Hs. rewrite E in Hs.
  inversion Hs as [|? ? _ Hall]; subst.
  destruct Hx as [->|Hx]; [lra|].
  rewrite List.Forall_forall in Hall. auto.
Qed.

Lemma insert_asc_In (x z : A) (l : list A) :
  In z (insert_asc key x l) <-> z = x \/ In z l.
Proof.
  induction l as [|y l IH]; simpl; [intuition|].
  destruct (Qlt_le_dec (key y) (key x)); simpl; rewrite ?IH; intuition.
Qed.

Lemma sort_asc_In (z : A) (l : list A) : In z (sort_asc key l) <-> In z l.
Proof.
  induction l as [|x l IH]; simpl; [tauto|].
  rewrite insert_asc_In, IH. intuition.
Qed.

Lemma insert_asc_ascending (x : A) (l : list A) :
  ascending key l -> ascending key (insert_asc key x l).
Proof.
  unfold ascending in *. induction l as [|y l IH]; simpl; intros Hs.
  - repeat constructor.
  - inversion Hs as [|? ? Hs' Hall]; subst.
    destruct (Qlt_le_dec (key y) (key x)) as [Hlt|Hle].
    + constructor; [auto|]. apply List.Forall_forall. intros z Hz.
      apply insert_asc_In in Hz as [->|Hz]; [lra|].
      rewrite List.Forall_forall in Hall. auto.
    + constructor; [exact Hs|]. constructor; [exact Hle|].
      eapply List.Forall_impl; [|exact Hall]. simpl. intros. lra.
Qed.

Lemma sort_asc_ascending (l : list A) : ascending key (sort_asc key l).
Proof.
  induction l as [|x l IH]; simpl; [constructor|].
  now apply insert_asc_ascending.
Qed.

End SortingFacts.

(** ** Token-overlap scoring *)

Section ScoreFacts.
Import ScoreAndLabel.

Lemma positive_scores_In (grams : list string)
    (lexicon : list (string * gmap string Q)) (c : string) (s : Q) :
  In (c, s) (positive_scores grams lexicon) <->
  exists w, In (c, w) lexicon /\ s = category_score grams w /\ (0 < s)%Q.
Proof.
  unfold positive_scores. rewrite List.in_flat_map. split.
  - intros ([c' w] & Hin & Hx). simpl in Hx.
    destruct (Qlt_le_dec 0 (category_score grams w)) as [Hpos|]; [|destruct Hx].
    destruct Hx as [[= <- <-]|[]]. now exists w.
  - intros (w & Hin & -> & Hpos). exists (c, w). split; trivial. simpl.
    destruct (Qlt_le_dec 0 (category_score grams w)); [now left|lra].
Qed.

Lemma positive_scores_nil (grams : list string)
    (lexicon : list (string * gmap string Q)) :
  positive_scores grams lexicon = [] <->
  forall c w, In (c, w) lexicon -> ~ (0 < category_score grams w)%Q.
Proof.
  split.
  - intros E c w Hin Hpos.
    assert (In (c, category_score grams w) (positive_scores grams lexicon))
      by (apply positive_scores_In; eauto).
    rewrite E in H. destruct H.
  - intros Hall. destruct (positive_scores grams lexicon) as [|[c s] rest] eqn:E;
      [reflexivity|].
    assert (In (c, s) (positive_scores grams lexicon)) by (rewrite E; now left).
    apply positive_scores_In in H as (w & Hin & -> & Hpos).
    now destruct (Hall c w Hin).
Qed.

End ScoreFacts.


(** ** The lexicon builders *)

Section BuildLexiconFacts.
Import ReutersBuildLexicon.

Lemma append_doc_keys (c k : string) (i : nat) (cd : list (string * list nat)) :
  In k (List.map fst (append_doc c i cd)) <-> k = c \/ In k (List.map fst cd).
Proof.
  induction cd as [|[c' idxs] cd IH]; simpl; [intuition|].
  destruct (String.eqb_spec c' c) as [->|Hne]; simpl; rewrite ?IH; intuition.
Qed.

Lemma append_doc_NoDup (c : string) (i : nat) (cd : list (string * list nat)) :
  List.NoDup (List.map fst cd) -> List.NoDup (List.map fst (append_doc c i cd)).
Proof.
  induction cd as [|[c' idxs] cd IH]; simpl; intros Hnd.
  - repeat constructor. intros [].
  - inversion Hnd as [|? ? Hnin Hnd']; subst.
    destruct (String.eqb_spec c' c) as [->|Hne]; simpl.
    + now constructor.
    + constructor; [|auto]. rewrite append_doc_keys. intuition.
Qed.

Lemma append_doc_recorded (c k : string) (i : nat) (cd : list (string * list nat)) :
  recorded k (append_doc c i cd)
  = (recorded k cd + if String.eqb c k then 1 else 0)%nat.
Proof.
  unfold recorded. induction cd as [|[c' idxs] cd IH]; simpl.
  - destruct (String.eqb c k); reflexivity.
  - destruct (String.eqb_spec c' c) as [->|Hne]; simpl.
    + destruct (String.eqb c k); [rewrite List.length_app; simpl|]; lia.
    + rewrite IH. lia.
Qed.

Lemma fold_append_NoDup (labs : list string) (i : nat) (cd : list (string * list nat)) :
  List.NoDup (List.map fst cd) ->
  List.NoDup (List.map fst (List.fold_left (fun cd c => append_doc c i cd) labs cd)).
Proof.
  revert cd. induction labs as [|c labs IH]; simpl; intros cd H; [exact H|].
  apply IH. now apply append_doc_NoDup.
Qed.

Lemma fold_append_recorded (labs : list string) (k : string) (i : nat)
    (cd : list (string * list nat)) :
  recorded k (List.fold_left (fun cd c => append_doc c i cd) labs cd)
  = (recorded k cd + List.length (List.filter (String.eqb k) labs))%nat.
Proof.
  revert cd. induction labs as [|c labs IH]; simpl; intros cd; [lia|].
  rewrite IH, append_doc_recorded. rewrite (String.eqb_sym k c).
  destruct (String.eqb c k); simpl; lia.
Qed.

Lemma collect_NoDup (labels : list (list string)) (i : nat)
    (cd : list (string * list nat)) :
  List.NoDup (List.map fst cd) -> List.NoDup (List.map fst (collect i labels cd)).
Proof.
  revert i cd. induction labels as [|labs labels IH]; simpl; intros i cd H; [exact H|].
  apply IH. now apply fold_append_NoDup.
Qed.

Lemma collect_recorded (labels : list (list string)) (k : string) (i : nat)
    (cd : list (string * list nat)) :
  recorded k (collect i labels cd) = (recorded k cd + occurrences k labels)%nat.
Proof.
  unfold occurrences.
  revert i cd. induction labels as [|labs labels IH]; simpl; intros i cd; [lia|].
  rewrite IH, fold_append_recorded, List.filter_app, List.length_app. lia.
Qed.

Lemma recorded_In (k : string) (idxs : list nat) (cd : list (string * list nat)) :
  List.NoDup (List.map fst cd) -> In (k, idxs) cd -> recorded k cd = List.length idxs.
Proof.
  unfold recorded. induction cd as [|[c' l] cd IH]; simpl; [tauto|].
  intros Hnd Hin. inversion Hnd as [|? ? Hnin Hnd']; subst.
  assert (Hz : ~ In k (List.map fst cd) ->
               list_sum (List.map (fun p : string * list nat =>
                 if String.eqb (fst p) k then List.length (snd p) else 0%nat) cd) = 0%nat).
  { clear. induction cd as [|[c l] cd IH]; simpl; [reflexivity|]. intros H.
    destruct (String.eqb_spec c k) as [->|_]; [tauto|]. apply IH. tauto. }
  destruct Hin as [[= -> ->]|Hin].
  - rewrite String.eqb_refl, Hz by assumption. lia.
  - destruct (String.eqb_spec c' k) as [->|_].
    + exfalso. apply Hnin. now apply (List.in_map fst _ (k, idxs)).
    + now apply IH.
Qed.

Lemma recorded_pos (k : string) (cd : list (string * list nat)) :
  (0 < recorded k cd)%nat -> exists idxs, In (k, idxs) cd.
Proof.
  unfold recorded. induction cd as [|[c' l] cd IH]; simpl; [lia|].
  destruct (String.eqb_spec c' k) as [->|_].
  - intros _. exists l. now left.
  - intros H. destruct (IH H) as [idxs Hi]. exists idxs. now right.
Qed.

(** The index list collected for a category has one entry per occurrence of
    its label. *)
Lemma collect_length (labels : list (list string)) (c : string) (idxs : list nat) :
  In (c, idxs) (collect 0 labels []) -> List.length idxs = occurrences c labels.
Proof.
  intros Hin.
  rewrite <- (recorded_In c idxs (collect 0 labels [])); trivial.
  - now rewrite collect_recorded.
  - apply collect_NoDup. constructor.
Qed.

Lemma collect_exists (labels : list (list string)) (c : string) :
  (0 < occurrences c labels)%nat -> exists idxs, In (c, idxs) (collect 0 labels []).
Proof.
  intros H. apply recorded_pos. rewrite collect_recorded. simpl. lia.
Qed.

(** When no document repeats a label, occurrences count documents. *)
Lemma occurrences_member_docs (c : string) (labels : list (list string)) :
  List.Forall (fun labs => List.NoDup labs) labels ->
  occurrences c labels = member_docs c labels.
Proof.
  unfold occurrences, member_docs.
  induction 1 as [|labs labels Hnd _ IH]; simpl; [reflexivity|].
  rewrite List.filter_app, List.length_app, IH. clear IH.
  assert (Hone : List.length (List.filter (String.eqb c) labs)
                 = if List.existsb (String.eqb c) labs then 1%nat else 0%nat).
  { induction Hnd as [|a labs Hnin Hnd IH]; simpl; [reflexivity|].
    destruct (String.eqb_spec c a) as [<-|Hne]; simpl; [|exact IH].
    rewrite IH. destruct (List.existsb (String.eqb c) labs) eqn:E; [|reflexivity].
    apply List.existsb_exists in E as (x & Hx & Ex).
    apply String.eqb_eq in Ex. subst x. contradiction. }
  rewrite Hone. destruct (List.existsb (String.eqb c) labs); simpl; lia.
Qed.

Lemma category_terms_min (X : list (list Q)) (vocab : list string) (top_k : Z)
    (idxs : list nat) (terms : list (string * Q)) :
  category_terms X vocab top_k idxs = Some terms -> (5 <= List.length idxs)%nat.
Proof.
  unfold category_terms.
  destruct (Nat.ltb_spec (List.length idxs) 5); [discriminate|]. intros _. lia.
Qed.

End BuildLexiconFacts.

Section CentroidFacts.
Import ReutersBuildLexicon.

Lemma centroid_length (X : list (list Q)) (n : nat) (idxs : list nat) :
  List.length (centroid_of X n idxs) = n.
Proof. unfold centroid_of. now rewrite List.length_map, List.length_seq. Qed.

Lemma nth_nonneg (l : list Q) (j : nat) :
  List.Forall (fun x => 0 <= x)%Q l -> (0 <= List.nth j l 0)%Q.
Proof.
  intros H. revert j. induction H as [|x l Hx _ IH]; intros [|j]; simpl; auto; lra.
Qed.

Lemma column_sum_nonneg (X : list (list Q)) (idxs : list nat) (j : nat) :
  List.Forall (List.Forall (fun x => 0 <= x)%Q) X -> (0 <= column_sum X idxs j)%Q.
Proof.
  intros HX. unfold column_sum. induction idxs as [|i idxs IH]; simpl; [lra|].
  assert (0 <= List.nth j (List.nth i X []) 0)%Q; [|lra].
  apply nth_nonneg.
  destruct (Nat.lt_ge_cases i (List.length X)) as [Hlt|Hge].
  - rewrite List.Forall_forall in HX. apply HX. now apply List.nth_In.
  - rewrite List.nth_overflow by assumption. constructor.
Qed.

Lemma centroid_nonneg (X : list (list Q)) (n : nat) (idxs : list nat) :
  List.Forall (List.Forall (fun x => 0 <= x)%Q) X ->
  List.Forall (fun x => 0 <= x)%Q (centroid_of X n idxs).
Proof.
  intros HX. unfold centroid_of. apply List.Forall_forall. intros x Hx.
  apply List.in_map_iff in Hx as (j & <- & _).
  pose proof (column_sum_nonneg X idxs j HX) as Hc.
  unfold Qdiv. apply Qmult_le_0_compat; [exact Hc|].
  apply Qinv_le_0_compat. unfold Qle. simpl. lia.
Qed.

Lemma sum_nonneg_pos (l : list Q) (j : nat) :
  List.Forall (fun x => 0 <= x)%Q l -> (0 < List.nth j l 0)%Q ->
  (0 < List.fold_right Qplus 0 l)%Q.
Proof.
  intros H. revert j. induction H as [|x l Hx Hl IH]; intros [|j]; simpl; try lra.
  - intros Hp. assert (0 <= List.fold_right Qplus 0 l)%Q; [|lra].
    clear -Hl. induction Hl; simpl; lra.
  - intros Hp. specialize (IH j Hp). lra.
Qed.

(** The last element of an ascending list has the largest key. *)
Lemma ascending_last {A : Type} (key : A -> Q) (l : list A) (y : A) :
  ascending key (l ++ [y]) -> forall x, In x l -> (key x <= key y)%Q.
Proof.
  unfold ascending. induction l as [|a l IH]; simpl; [tauto|].
  intros Hs x Hx. inversion Hs as [|? ? Hs' Hall]; subst.
  destruct Hx as [->|Hx]; [|now apply IH].
  rewrite List.Forall_forall in Hall. apply Hall. apply List.in_or_app. right. now left.
Qed.

(** [argsort(arr)[::-1]] starts with the index of a largest entry. *)
Lemma rev_argsort_head (arr : list Q) :
  arr <> [] ->
  exists i rest,
    List.rev (argsort arr) = i :: rest /\
    (i < List.length arr)%nat /\
    forall j, (j < List.length arr)%nat -> (List.nth j arr 0 <= List.nth i arr 0)%Q.
Proof.
  intros Hne. unfold argsort.
  set (key := fun i : nat => List.nth i arr 0%Q).
  set (idx := List.seq 0 (List.length arr)).
  pose proof (sort_asc_ascending key idx) as Hs.
  pose proof (sort_asc_In key) as Hin.
  destruct (List.rev (sort_asc key idx)) as [|i rest] eqn:E.
  - exfalso.
    assert (In 0%nat (sort_asc key idx)).
    { apply Hin. apply List.in_seq. destruct arr; [congruence|simpl; lia]. }
    apply List.in_rev in H. rewrite E in H. destruct H.
  - exists i, rest. split; [reflexivity|].
    assert (Er : sort_asc key idx = List.rev rest ++ [i]).
    { rewrite <- (List.rev_involutive (sort_asc key idx)), E. reflexivity. }
    split.
    + assert (In i idx) by (apply Hin; rewrite Er; apply List.in_or_app; right; now left).
      apply List.in_seq in H. lia.
    + intros j Hj. rewrite Er in Hs.
      assert (Hj' : In j (List.rev rest ++ [i])).
      { rewrite <- Er. apply Hin. apply List.in_seq. lia. }
      apply List.in_app_or in Hj' as [Hj'|[<-|[]]].
      * exact (ascending_last key _ _ Hs j Hj').
      * unfold key. lra.
Qed.

(** A category with at least five collected indices, non-negative TF-IDF
    rows, a centroid that is not all zero and [top_k >= 1] gets an entry. *)
Lemma category_terms_some (X : list (list Q)) (vocab : list string) (top_k : Z)
    (idxs : list nat) (j : nat) :
  (5 <= List.length idxs)%nat ->
  List.Forall (List.Forall (fun x => 0 <= x)%Q) X ->
  ~ (List.nth j (centroid_of X (List.length vocab) idxs) 0 == 0)%Q ->
  1 <= top_k ->
  exists terms, category_terms X vocab top_k idxs = Some terms.
Proof.
  intros H5 HX Hj Hk. unfold category_terms.
  destruct (Nat.ltb_spec (List.length idxs) 5) as [|_]; [lia|].
  set (centroid := centroid_of X (List.length vocab) idxs) in *.
  pose proof (centroid_nonneg X (List.length vocab) idxs HX) as Hnn. fold centroid in Hnn.
  assert (Hjpos : (0 < List.nth j centroid 0)%Q).
  { pose proof (nth_nonneg centroid j Hnn). lra. }
  assert (Hsum : Qeq_bool (List.fold_right Qplus 0%Q centroid) 0%Q = false).
  { destruct (Qeq_bool _ _) eqn:E; [|reflexivity].
    apply Qeq_bool_eq in E. pose proof (sum_nonneg_pos centroid j Hnn Hjpos). lra. }
  rewrite Hsum.
  assert (Hjlt : (j < List.length centroid)%nat).
  { destruct (Nat.lt_ge_cases j (List.length centroid)) as [|Hge]; [assumption|].
    rewrite List.nth_overflow in Hjpos by assumption. lra. }
  destruct (rev_argsort_head centroid) as (i & rest & E & Hi & Hmax).
  { intros E. rewrite E in Hjlt. simpl in Hjlt. lia. }
  rewrite E. unfold py_take.
  destruct (Z.leb_spec 0 top_k) as [_|]; [|lia].
  destruct (Z.to_nat top_k) as [|k] eqn:Ek; [lia|].
  simpl. specialize (Hmax j Hjlt).
  destruct (Qlt_le_dec 0 (List.nth i centroid 0%Q)) as [_|Hle]; [|lra].
  simpl. eauto.
Qed.

End CentroidFacts.

Section MlBuilderFacts.
Import TfidfLexiconClassifier.

Lemma insert_label_In (c k : string) (l : list string) :
  In k (insert_label c l) <-> k = c \/ In k l.
Proof.
  induction l as [|d l IH]; simpl; [intuition|].
  destruct (String.compare c d) eqn:E; simpl; rewrite ?IH; try intuition.
  apply String.compare_eq_iff in E. subst. intuition.
Qed.

Lemma sorted_set_In (k : string) (y : list string) : In k (sorted_set y) <-> In k y.
Proof.
  induction y as [|c y IH]; simpl; [tauto|].
  rewrite insert_label_In, IH. intuition.
Qed.

Lemma where_label_nonempty (lab : string) (y : list string) :
  In lab y -> where_label lab y <> [].
Proof.
  intros Hin E. apply List.In_nth with (d := ""%string) in Hin as (i & Hi & Ei).
  assert (In i (where_label lab y)).
  { unfold where_label. apply List.filter_In. split.
    - apply List.in_seq. lia.
    - rewrite Ei. apply String.eqb_refl. }
  rewrite E in H. destruct H.
Qed.

(** [build_lexicons] has no minimum-size filter: every label of [y] is a key
    of its result. *)
Lemma build_lexicons_keys (X : list (list Q)) (y vocab : list string) (topk : nat)
    (lab : string) :
  In lab y -> In lab (List.map fst (build_lexicons X y vocab topk)).
Proof.
  intros Hin. unfold build_lexicons. apply List.in_map_iff.
  pose proof (where_label_nonempty lab y Hin) as Hne.
  destruct (where_label lab y) as [|i idx] eqn:E; [congruence|].
  eexists (lab, _). split; [reflexivity|].
  apply List.in_flat_map. exists lab. split; [now apply sorted_set_In|].
  rewrite E. now left.
Qed.

End MlBuilderFacts.

Section BuildLexiconResult.
Import ReutersBuildLexicon.
Variable fit_transform :
  Z -> option string -> list string -> result (list (list Q) * list string).

(** Every entry of a built lexicon comes from a collected category whose
    loop body produced terms. *)
Lemma build_lexicon_In (texts : list string) (labels : list (list string))
    (top_k min_df : Z) (stop_words : string)
    (lex : list (string * list (string * Q))) (vocab : list string)
    (c : string) (terms : list (string * Q)) :
  build_lexicon fit_transform texts labels top_k min_df stop_words = Ok (lex, vocab) ->
  In (c, terms) lex ->
  exists X idxs,
    In (c, idxs) (collect 0 labels []) /\
    category_terms X vocab top_k idxs = Some terms.
Proof.
  unfold build_lexicon.
  destruct (negb (List.length texts =? List.length labels)%nat); [discriminate|].
  destruct (negb _); [discriminate|].
  destruct (fit_transform _ _ texts) as [[X vocab']|]; [|discriminate].
  destruct (List.flat_map _ _) as [|e l] eqn:E; [discriminate|].
  intros [= <- <-] Hin. rewrite <- E in Hin.
  apply List.in_flat_map in Hin as ([c' idxs] & Hcd & Hin). simpl in Hin.
  destruct (category_terms X vocab' top_k idxs) as [t|] eqn:Et; [|destruct Hin].
  destruct Hin as [[= <- <-]|[]]. eauto.
Qed.

Lemma build_lexicon_has (texts : list string) (labels : list (list string))
    (top_k min_df : Z) (stop_words : string)
    (X : list (list Q)) (vocab : list string)
    (c : string) (idxs : list nat) (terms : list (string * Q)) :
  List.length texts = List.length labels ->
  stop_words = "none"%string \/ stop_words = "english"%string ->
  fit_transform min_df
    (if String.eqb stop_words "none" then None else Some "english"%string) texts
    = Ok (X, vocab) ->
  In (c, idxs) (collect 0 labels []) ->
  category_terms X vocab top_k idxs = Some terms ->
  exists lex,
    build_lexicon fit_transform texts labels top_k min_df stop_words = Ok (lex, vocab) /\
    In (c, terms) lex.
Proof.
  intros Hlen Hsw Hfit Hcd Ht. unfold build_lexicon.
  rewrite Hlen, Nat.eqb_refl. simpl.
  assert (Hv : String.eqb stop_words "none" || String.eqb stop_words "english" = true)
    by (destruct Hsw as [->| ->]; reflexivity).
  rewrite Hv. simpl. rewrite Hfit.
  match goal with |- context [match ?l with [] => _ | _ :: _ => _ end] =>
    assert (Hin : In (c, terms) l) end.
  { apply List.in_flat_map. exists (c, idxs). split; trivial. simpl. rewrite Ht. now left. }
  destruct (List.flat_map _ _) as [|e l]; [destruct Hin|].
  eexists. split; [reflexivity|exact Hin].
Qed.

End BuildLexiconResult.

(** C8, as the code behaves. [build_lexicon] of
    classify/reuters_build_lexicon.py keeps a category only if its label
    occurs at least five times in the label lists, which is the number of
    member documents when no document repeats a label; a category with fewer
    occurrences is never a key of the result; a category with at least five
    occurrences, non-negative TF-IDF rows, a centroid that is not all zero and
    [top_k >= 1] is a key of the result. [build_lexicons] of
    ml/tfidf_Lexicon_Classifier.py has no such filter: every label of [y] is
    a key of its result. *)
Theorem lexicon_category_filter
    (fit_transform :
       Z -> option string -> list string -> result (list (list Q) * list string))
    (texts : list string) (labels : list (list string))
    (top_k min_df : Z) (stop_words : string) :
  let built :=
    ReutersBuildLexicon.build_lexicon fit_transform texts labels top_k min_df stop_words in
  (forall lex vocab c terms,
     built = Ok (lex, vocab) -> In (c, terms) lex ->
     (5 <= ReutersBuildLexicon.occurrences c labels)%nat /\
     (List.Forall (fun labs => List.NoDup labs) labels ->
      (5 <= ReutersBuildLexicon.member_docs c labels)%nat)) /\
  (forall lex vocab c,
     built = Ok (lex, vocab) ->
     (ReutersBuildLexicon.occurrences c labels < 5)%nat ->
     ~ In c (List.map fst lex)) /\
  (forall X vocab c idxs j,
     List.length texts = List.length labels ->
     stop_words = "none"%string \/ stop_words = "english"%string ->
     fit_transform min_df
       (if String.eqb stop_words "none" then None else Some "english"%string) texts
       = Ok (X, vocab) ->
     In (c, idxs) (ReutersBuildLexicon.collect 0 labels []) ->
     (5 <= ReutersBuildLexicon.occurrences c labels)%nat ->
     List.Forall (List.Forall (fun x => 0 <= x)%Q) X ->
     ~ (List.nth j (centroid_of X (List.length vocab) idxs) 0 == 0)%Q ->
     1 <= top_k ->
     exists lex terms, built = Ok (lex, vocab) /\ In (c, terms) lex) /\
  (forall X y vocab topk lab,
     In lab y ->
     In lab (List.map fst (TfidfLexiconClassifier.build_lexicons X y vocab topk))).
Proof.
  intros built.
  assert (H5 : forall lex vocab c terms,
             built = Ok (lex, vocab) -> In (c, terms) lex ->
             (5 <= ReutersBuildLexicon.occurrences c labels)%nat).
  { intros lex vocab c terms Hb Hin.
    destruct (build_lexicon_In _ _ _ _ _ _ _ _ _ _ Hb Hin) as (X & idxs & Hcd & Ht).
    rewrite <- (collect_length labels c idxs Hcd).
    exact (category_terms_min _ _ _ _ _ Ht). }
  split; [|split; [|split]].
  - intros lex vocab c terms Hb Hin. split; [eauto|].
    intros Hnd. rewrite <- occurrences_member_docs by assumption. eauto.
  - intros lex vocab c Hb Hlt Hin.
    apply List.in_map_iff in Hin as ([c' terms] & <- & Hin).
    specialize (H5 _ _ _ _ Hb Hin). simpl in Hlt. lia.
  - intros X vocab c idxs j Hlen Hsw Hfit Hcd Hocc HX Hj Hk.
    rewrite <- (collect_length labels c idxs Hcd) in Hocc.
    destruct (category_terms_some X vocab top_k idxs j Hocc HX Hj Hk) as [terms Ht].
    destruct (build_lexicon_has fit_transform texts labels top_k min_df stop_words
                X vocab c idxs terms Hlen Hsw Hfit Hcd Ht) as (lex & Hb & Hin).
    eauto.
  - intros X y vocab topk lab. apply build_lexicons_keys.
Qed.

(** C8, as stated, fails for the second builder: [build_lexicons] puts a
    category with a single training document into the lexicon. *)
Lemma single_document_category_kept :
  TfidfLexiconClassifier.build_lexicons [[1%Q]] ["earn"%string] ["profit"%string] 500
  = [("earn"%string, [("profit"%string, 1%Q)])].
Proof. vm_compute. reflexivity. Qed.

(** ** robots.txt failures *)

(** C1, evaluated on the code. When the robots.txt of a url's root cannot be
    fetched because [urlopen] raises something other than HTTPError (a
    network error), because the body is not UTF-8, or because the server
    answers 401, 403 or a 5xx status, [allowed] returns False: the parser that
    [_get_parser] hands back has never been read (or has [disallow_all] set),
    and [can_fetch] answers False without raising, so the [except] clause of
    [allowed] is not reached. Only a 4xx status other than 401 and 403 makes
    [allowed] return True. [crawl_delay] returns None in all these cases. *)
Theorem robots_allowed_fails_closed
    (rules : Type) (no_rules : rules) (parse : list string -> rules)
    (search_allow : rules -> string -> string -> result bool)
    (search_delay : rules -> string -> option Q)
    (rootsite : string -> string) (now : Q)
    (world : string -> Robots.urlopen_outcome) (user_agent url : string) :
  let allowed :=
    Robots.allowed rules no_rules parse search_allow rootsite now world user_agent url in
  let crawl_delay :=
    Robots.crawl_delay rules no_rules parse search_delay rootsite now world user_agent url in
  (world (rootsite url) = Robots.OtherException -> allowed = false /\ crawl_delay = None) /\
  (world (rootsite url) = Robots.Body None -> allowed = false /\ crawl_delay = None) /\
  (forall code, world (rootsite url) = Robots.HTTPError code ->
     (code = 401 \/ code = 403 \/ 500 <= code -> allowed = false) /\
     (400 <= code < 500 -> code <> 401 -> code <> 403 -> allowed = true) /\
     crawl_delay = None).
Proof.
  intros allowed crawl_delay. subst allowed crawl_delay.
  unfold Robots.allowed, Robots.crawl_delay, Robots._get_parser,
    Robots.can_fetch, Robots.parser_crawl_delay.
  split; [|split].
  - intros ->. simpl. split; reflexivity.
  - intros ->. simpl. split; reflexivity.
  - intros code ->. unfold Robots.read. split; [|split].
    + intros [->|[->|H5]]; try reflexivity.
      destruct (Z.eqb_spec code 401); [lia|]. destruct (Z.eqb_spec code 403); [lia|].
      destruct (Z.leb_spec 400 code); [|lia]. destruct (Z.ltb_spec code 500); [lia|].
      reflexivity.
    + intros [H4 H5] N1 N3.
      destruct (Z.eqb_spec code 401); [lia|]. destruct (Z.eqb_spec code 403); [lia|].
      destruct (Z.leb_spec 400 code); [|lia]. destruct (Z.ltb_spec code 500); [|lia].
      reflexivity.
    + destruct ((code =? 401) || (code =? 403)); [reflexivity|].
      destruct ((400 <=? code) && (code <? 500)); reflexivity.
Qed.

(** ** URL canonicalization: ordering of query pairs *)

Section PairOrder.
Import Canonicalize.

Lemma code_inj (x y : ascii) : code x = code y -> x = y.
Proof.
  unfold code. intros E.
  rewrite <- (ascii_nat_embedding x), <- (ascii_nat_embedding y). now rewrite E.
Qed.

Lemma str_compare_refl (a : str) : str_compare a a = Eq.
Proof. induction a as [|x a IH]; simpl; [reflexivity|]. now rewrite Nat.compare_refl. Qed.

Lemma str_compare_eq (a b : str) : str_compare a b = Eq -> a = b.
Proof.
  revert b. induction a as [|x a IH]; intros [|y b]; simpl; try discriminate; trivial.
  destruct (Nat.compare_spec (code x) (code y)) as [E| |]; try discriminate.
  intros H. apply code_inj in E. subst. f_equal. now apply IH.
Qed.

Lemma str_compare_antisym (a b : str) : str_compare b a = CompOpp (str_compare a b).
Proof.
  revert b. induction a as [|x a IH]; intros [|y b]; simpl; trivial.
  rewrite (Nat.compare_antisym (code x) (code y)).
  destruct (Nat.compare (code x) (code y)); simpl; auto.
Qed.

Lemma str_compare_lt_trans (a b c : str) :
  str_compare a b = Lt -> str_compare b c = Lt -> str_compare a c = Lt.
Proof.
  revert b c. induction a as [|x a IH]; intros [|y b] [|z c]; simpl; try discriminate; trivial.
  destruct (Nat.compare_spec (code x) (code y)) as [E1|L1|G1]; try discriminate;
    destruct (Nat.compare_spec (code y) (code z)) as [E2|L2|G2]; try discriminate;
    intros H1 H2.
  - rewrite E1, E2, Nat.compare_refl. eauto.
  - rewrite E1. now apply Nat.compare_lt_iff in L2 as ->.
  - rewrite <- E2. now apply Nat.compare_lt_iff in L1 as ->.
  - assert (L : (code x < code z)%nat) by lia. now apply Nat.compare_lt_iff in L as ->.
Qed.

Lemma pair_compare_eq (p q : str * str) : pair_compare p q = Eq -> p = q.
Proof.
  destruct p as [a b], q as [c d]. unfold pair_compare. simpl.
  destruct (str_compare a c) eqn:E; try discriminate.
  intros H. apply str_compare_eq in E, H. now subst.
Qed.

Lemma pair_compare_refl (p : str * str) : pair_compare p p = Eq.
Proof. unfold pair_compare. now rewrite !str_compare_refl. Qed.

Lemma pair_compare_antisym (p q : str * str) :
  pair_compare q p = CompOpp (pair_compare p q).
Proof.
  unfold pair_compare. rewrite (str_compare_antisym (fst p) (fst q)).
  destruct (str_compare (fst p) (fst q)); simpl; trivial.
  apply str_compare_antisym.
Qed.

Lemma pair_compare_lt_trans (p q r : str * str) :
  pair_compare p q = Lt -> pair_compare q r = Lt -> pair_compare p r = Lt.
Proof.
  unfold pair_compare.
  destruct (str_compare (fst p) (fst q)) eqn:E1; try discriminate;
    destruct (str_compare (fst q) (fst r)) eqn:E2; try discriminate; intros H1 H2.
  - apply str_compare_eq in E1, E2. rewrite E1, E2, str_compare_refl.
    eapply str_compare_lt_trans; eauto.
  - apply str_compare_eq in E1. now rewrite E1, E2.
  - apply str_compare_eq in E2. now rewrite <- E2, E1.
  - now rewrite (str_compare_lt_trans _ _ _ E1 E2).
Qed.

Lemma pair_leb_total (p q : str * str) : pair_leb p q = false -> pair_leb q p = true.
Proof.
  unfold pair_leb. rewrite (pair_compare_antisym p q).
  destruct (pair_compare p q); simpl; congruence.
Qed.

Lemma pair_leb_trans (p q r : str * str) :
  pair_leb p q = true -> pair_leb q r = true -> pair_leb p r = true.
Proof.
  unfold pair_leb.
  destruct (pair_compare p q) eqn:E1; try discriminate;
    destruct (pair_compare q r) eqn:E2; try discriminate; intros _ _.
  - apply pair_compare_eq in E1. subst. now rewrite E2.
  - apply pair_compare_eq in E1. subst. now rewrite E2.
  - apply pair_compare_eq in E2. subst. now rewrite E1.
  - now rewrite (pair_compare_lt_trans _ _ _ E1 E2).
Qed.

Lemma pair_leb_antisym (p q : str * str) :
  pair_leb p q = true -> pair_leb q p = true -> p = q.
Proof.
  unfold pair_leb. rewrite (pair_compare_antisym p q).
  destruct (pair_compare p q) eqn:E; simpl; try discriminate.
  intros _ _. now apply pair_compare_eq.
Qed.

Lemma insert_pair_perm (p : str * str) (l : list (str * str)) :
  Permutation (p :: l) (insert_pair p l).
Proof.
  induction l as [|q l IH]; simpl; [reflexivity|].
  destruct (pair_leb p q); [reflexivity|].
  rewrite perm_swap. now apply perm_skip.
Qed.

Lemma sorted_perm (l : list (str * str)) : Permutation l (sorted l).
Proof.
  induction l as [|p l IH]; simpl; [reflexivity|].
  rewrite <- insert_pair_perm. now apply perm_skip.
Qed.

Lemma insert_pair_sorted (p : str * str) (l : list (str * str)) :
  StronglySorted (fun a b => pair_leb a b = true) l ->
  StronglySorted (fun a b => pair_leb a b = true) (insert_pair p l).
Proof.
  induction l as [|q l IH]; simpl; intros Hs.
  - repeat constructor.
  - inversion Hs as [|? ? Hs' Hall]; subst.
    destruct (pair_leb p q) eqn:E.
    + constructor; [exact Hs|]. constructor; [exact E|].
      eapply List.Forall_impl; [|exact Hall]. simpl. intros r Hr.
      eapply pair_leb_trans; eauto.
    + constructor; [auto|].
      apply List.Forall_forall. intros r Hr.
      apply (Permutation_in _ (Permutation_sym (insert_pair_perm p l))) in Hr.
      destruct Hr as [<-|Hr]; [now apply pair_leb_total|].
      rewrite List.Forall_forall in Hall. auto.
Qed.

Lemma sorted_sorted (l : list (str * str)) :
  StronglySorted (fun a b => pair_leb a b = true) (sorted l).
Proof.
  induction l as [|p l IH]; simpl; [constructor|]. now apply insert_pair_sorted.
Qed.

Lemma sorted_unique (l1 l2 : list (str * str)) :
  StronglySorted (fun a b => pair_leb a b = true) l1 ->
  StronglySorted (fun a b => pair_leb a b = true) l2 ->
  Permutation l1 l2 -> l1 = l2.
Proof.
  revert l2. induction l1 as [|a l1 IH]; intros l2 H1 H2 HP.
  - apply Permutation_nil in HP. now subst.
  - destruct l2 as [|b l2]; [apply Permutation_sym, Permutation_nil in HP; discriminate|].
    inversion H1 as [|? ? H1' A1]; inversion H2 as [|? ? H2' A2]; subst.
    rewrite List.Forall_forall in A1, A2.
    assert (a = b).
    { assert (Ha : In a (b :: l2)) by (eapply Permutation_in; [exact HP|now left]).
      assert (Hb : In b (a :: l1))
        by (eapply Permutation_in; [exact (Permutation_sym HP)|now left]).
      destruct Ha as [->|Ha]; trivial. destruct Hb as [->|Hb]; trivial.
      apply pair_leb_antisym; auto. }
    subst b. f_equal. apply IH; trivial. now apply Permutation_cons_inv in HP.
Qed.

(** [sorted] does not depend on the order of its input. *)
Lemma sorted_permutation (l1 l2 : list (str * str)) :
  Permutation l1 l2 -> sorted l1 = sorted l2.
Proof.
  intros HP. apply sorted_unique; try apply sorted_sorted.
  rewrite <- (sorted_perm l1), <- (sorted_perm l2). exact HP.
Qed.

(** Sorting a sorted list changes nothing. *)
Lemma sorted_idem (l : list (str * str)) : sorted (sorted l) = sorted l.
Proof.
  apply sorted_unique; try apply sorted_sorted.
  apply Permutation_sym, sorted_perm.
Qed.

End PairOrder.

(** ** URL canonicalization: percent-encoding round trip *)

Section Codec.
Import Canonicalize.

Lemma chr_in_In (s : str) (c : ascii) : chr_in s c = true <-> In c s.
Proof.
  unfold chr_in. rewrite List.existsb_exists. split.
  - intros (x & Hx & E). apply Ascii.eqb_eq in E. now subst.
  - intros H. exists c. split; trivial. apply Ascii.eqb_refl.
Qed.

Lemma chr_in_false (s : str) (c : ascii) : chr_in s c = false <-> ~ In c s.
Proof.
  rewrite <- chr_in_In. destruct (chr_in s c); split; congruence.
Qed.

Lemma quote_plus_cons (c : ascii) (k : str) :
  quote_plus (c :: k) = quote_char c ++ quote_plus k.
Proof. reflexivity. Qed.

Lemma quote_char_qchars (c : ascii) : List.forallb is_qchar (quote_char c) = true.
Proof. destruct c as [[] [] [] [] [] [] [] []]; reflexivity. Qed.

Lemma quote_char_nonempty (c : ascii) : quote_char c <> [].
Proof.
  unfold quote_char, percent.
  destruct (always_safe c); [discriminate|]. destruct (Ascii.eqb c " "); discriminate.
Qed.

Lemma quote_plus_qchars (k : str) : List.Forall (fun c => is_qchar c = true) (quote_plus k).
Proof.
  induction k as [|c k IH]; [constructor|].
  rewrite quote_plus_cons. apply List.Forall_app. split; [|exact IH].
  apply List.Forall_forall. intros x Hx.
  pose proof (quote_char_qchars c) as H. rewrite List.forallb_forall in H. auto.
Qed.

(** Decoding one encoded character gives the character back. *)
Lemma unquote_quote_char (c : ascii) (rest : str) :
  unquote_to_bytes (plus_to_space (quote_char c) ++ rest) = c :: unquote_to_bytes rest.
Proof. destruct c as [[] [] [] [] [] [] [] []]; reflexivity. Qed.

Lemma unquote_to_bytes_quote_plus (k : str) :
  unquote_to_bytes (plus_to_space (quote_plus k)) = k.
Proof.
  induction k as [|c k IH]; [reflexivity|].
  rewrite quote_plus_cons. unfold plus_to_space in *. rewrite List.map_app.
  fold (plus_to_space (quote_char c)).
  rewrite unquote_quote_char. now rewrite IH.
Qed.

Lemma unquote_to_bytes_no_percent (s : str) :
  ~ In "%"%char s -> unquote_to_bytes s = s.
Proof.
  induction s as [|c s IH]; [reflexivity|]. intros H. simpl.
  destruct (Ascii.eqb_spec c "%") as [->|_]; [exfalso; apply H; now left|].
  f_equal. apply IH. intros Hin. apply H. now right.
Qed.

(** *** UTF-8 *)

Lemma decode_replace_replacement (r : str) :
  decode_replace (replacement ++ r) = replacement ++ decode_replace r.
Proof. reflexivity. Qed.

Lemma decode_replace_idem_aux (n : nat) (b : str) :
  (List.length b <= n)%nat -> decode_replace (decode_replace b) = decode_replace b.
Proof.
  revert b. induction n as [|n IH]; intros b Hn.
  { destruct b; [reflexivity|simpl in Hn; lia]. }
  assert (IH' : forall r, (List.length r <= n)%nat ->
                 decode_replace (replacement ++ decode_replace r)
                 = replacement ++ decode_replace r).
  { intros r Hr. rewrite decode_replace_replacement. now rewrite IH. }
  destruct b as [|c1 r1]; [reflexivity|]. simpl in Hn.
  cbn [decode_replace].
  destruct (code c1 <? 128)%nat eqn:T1.
  { cbn [decode_replace]. rewrite T1. f_equal. apply IH. lia. }
  destruct (code c1 <? 194)%nat eqn:T2; [apply IH'; lia|].
  destruct (code c1 <? 224)%nat eqn:T3.
  { destruct r1 as [|c2 r2]; [reflexivity|]. simpl in Hn.
    destruct (is_cont c2) eqn:C2; [|apply IH'; simpl; lia].
    cbn [decode_replace]. rewrite T1, T2, T3, C2. do 2 f_equal. apply IH. lia. }
  destruct (code c1 <? 240)%nat eqn:T4.
  { destruct r1 as [|c2 r2]; [reflexivity|]. simpl in Hn.
    destruct (negb (is_cont c2) || _) eqn:C2; [apply IH'; simpl; lia|].
    destruct r2 as [|c3 r3]; [reflexivity|]. simpl in Hn.
    destruct (is_cont c3) eqn:C3; [|apply IH'; simpl; lia].
    cbn [decode_replace]. rewrite T1, T2, T3, T4, C2, C3. do 3 f_equal. apply IH. lia. }
  destruct (code c1 <? 245)%nat eqn:T5; [|apply IH'; lia].
  destruct r1 as [|c2 r2]; [reflexivity|]. simpl in Hn.
  destruct (negb (is_cont c2) || _) eqn:C2; [apply IH'; simpl; lia|].
  destruct r2 as [|c3 r3]; [reflexivity|]. simpl in Hn.
  destruct (negb (is_cont c3)) eqn:C3; [apply IH'; simpl; lia|].
  destruct r3 as [|c4 r4]; [reflexivity|]. simpl in Hn.
  destruct (is_cont c4) eqn:C4; [|apply IH'; simpl; lia].
  cbn [decode_replace]. rewrite T1, T2, T3, T4, T5, C2, C3, C4. do 4 f_equal.
  apply IH. lia.
Qed.

Lemma decode_replace_normal (b : str) : normal (decode_replace b).
Proof. exact (decode_replace_idem_aux (List.length b) b (Nat.le_refl _)). Qed.

Lemma ascii_normal (k : str) : is_ascii k -> normal k.
Proof.
  unfold normal. induction 1 as [|c k Hc _ IH]; [reflexivity|].
  cbn [decode_replace]. apply Nat.ltb_lt in Hc. now rewrite Hc, IH.
Qed.

(** [unquote] undoes [quote_plus] on well-formed text. *)
Lemma unquote_quote_plus (k : str) :
  normal k -> unquote (plus_to_space (quote_plus k)) = k.
Proof.
  intros Hk. unfold unquote.
  destruct (chr_in (plus_to_space (quote_plus k)) "%") eqn:E; simpl.
  - now rewrite unquote_to_bytes_quote_plus.
  - apply chr_in_false in E.
    rewrite <- (unquote_to_bytes_no_percent _ E).
    apply unquote_to_bytes_quote_plus.
Qed.

End Codec.

(** ** URL canonicalization: cutting and joining strings *)

Section Cutting.
Import Canonicalize.

Lemma break_at_app (p : ascii -> bool) (s : str) :
  fst (break_at p s) ++ snd (break_at p s) = s.
Proof.
  induction s as [|c s IH]; [reflexivity|]. simpl.
  destruct (p c); [reflexivity|].
  destruct (break_at p s) as [a b]. simpl in *. now rewrite IH.
Qed.

Lemma break_at_fst (p : ascii -> bool) (s : str) :
  List.Forall (fun c => p c = false) (fst (break_at p s)).
Proof.
  induction s as [|c s IH]; [constructor|]. simpl.
  destruct (p c) eqn:E; [constructor|].
  destruct (break_at p s) as [a b]. simpl in *. now constructor.
Qed.

Lemma break_at_snd (p : ascii -> bool) (s : str) :
  match snd (break_at p s) with
  | [] => True
  | c :: _ => p c = true
  end.
Proof.
  induction s as [|c s IH]; [exact I|]. simpl.
  destruct (p c) eqn:E; [exact E|].
  now destruct (break_at p s) as [a b].
Qed.

Lemma break_at_intro (p : ascii -> bool) (a b : str) :
  List.Forall (fun c => p c = false) a ->
  match b with [] => True | c :: _ => p c = true end ->
  break_at p (a ++ b) = (a, b).
Proof.
  intros Ha Hb. induction Ha as [|c a Hc _ IH]; simpl.
  - destruct b as [|c b]; [reflexivity|]. simpl. now rewrite Hb.
  - now rewrite Hc, IH.
Qed.

Lemma break_at_all (p : ascii -> bool) (a : str) :
  List.Forall (fun c => p c = false) a -> break_at p a = (a, []).
Proof.
  intros Ha. rewrite <- (List.app_nil_r a) at 1. now apply break_at_intro.
Qed.

Lemma not_In_Forall_eqb (c : ascii) (a : str) :
  ~ In c a <-> List.Forall (fun x => Ascii.eqb c x = false) a.
Proof.
  rewrite List.Forall_forall. split.
  - intros H x Hx. destruct (Ascii.eqb_spec c x) as [->|]; [contradiction|reflexivity].
  - intros H Hin. specialize (H c Hin). now rewrite Ascii.eqb_refl in H.
Qed.

Lemma split_first_intro (c : ascii) (a b : str) :
  ~ In c a -> split_first c (a ++ c :: b) = Some (a, b).
Proof.
  intros Ha. unfold split_first. rewrite break_at_intro; trivial.
  - now apply not_In_Forall_eqb.
  - apply Ascii.eqb_refl.
Qed.

Lemma split_first_none (c : ascii) (s : str) : ~ In c s -> split_first c s = None.
Proof.
  intros H. unfold split_first. rewrite break_at_all; trivial.
  now apply not_In_Forall_eqb.
Qed.

Lemma split_first_Some (c : ascii) (s a b : str) :
  split_first c s = Some (a, b) -> s = a ++ c :: b /\ ~ In c a.
Proof.
  unfold split_first.
  pose proof (break_at_app (Ascii.eqb c) s) as Happ.
  pose proof (break_at_fst (Ascii.eqb c) s) as Hfst.
  pose proof (break_at_snd (Ascii.eqb c) s) as Hsnd.
  destruct (break_at (Ascii.eqb c) s) as [x [|y t]]; [discriminate|].
  simpl in *. intros [= <- <-]. apply Ascii.eqb_eq in Hsnd. subst y.
  split; [now symmetry|]. now apply not_In_Forall_eqb.
Qed.

Lemma split_first_None (c : ascii) (s : str) : split_first c s = None -> ~ In c s.
Proof.
  unfold split_first.
  pose proof (break_at_app (Ascii.eqb c) s) as Happ.
  pose proof (break_at_fst (Ascii.eqb c) s) as Hfst.
  destruct (break_at (Ascii.eqb c) s) as [x [|y t]]; [|discriminate].
  simpl in *. rewrite List.app_nil_r in Happ. subst x. intros _.
  now apply not_In_Forall_eqb.
Qed.

Lemma split_all_single (c : ascii) (a : str) : ~ In c a -> split_all c a = [a].
Proof.
  induction a as [|x a IH]; [reflexivity|]. intros H. simpl.
  rewrite IH by (intros Hin; apply H; now right).
  destruct (Ascii.eqb_spec x c) as [->|_]; [exfalso; apply H; now left|reflexivity].
Qed.

Lemma split_all_nonempty (c : ascii) (s : str) : split_all c s <> [].
Proof.
  destruct s as [|x s]; simpl; [discriminate|].
  destruct (split_all c s); [discriminate|]. destruct (Ascii.eqb x c); discriminate.
Qed.

Lemma split_all_cons (c : ascii) (a rest : str) :
  ~ In c a -> split_all c (a ++ c :: rest) = a :: split_all c rest.
Proof.
  induction a as [|x a IH]; intros H; simpl.
  - pose proof (split_all_nonempty c rest).
    destruct (split_all c rest); [congruence|]. now rewrite Ascii.eqb_refl.
  - rewrite IH by (intros Hin; apply H; now right).
    destruct (Ascii.eqb_spec x c) as [->|_]; [exfalso; apply H; now left|reflexivity].
Qed.

Lemma split_all_join (c : ascii) (segs : list str) :
  segs <> [] -> List.Forall (fun s => ~ In c s) segs ->
  split_all c (join c segs) = segs.
Proof.
  induction segs as [|a segs IH]; [congruence|]. intros _ Hall.
  inversion Hall as [|? ? Ha Hrest]; subst.
  destruct segs as [|b segs]; simpl.
  - now apply split_all_single.
  - change (split_all c (a ++ c :: join c (b :: segs)) = a :: b :: segs).
    rewrite split_all_cons by assumption. f_equal. now apply IH.
Qed.

End Cutting.

(** ** URL canonicalization: [parse_qsl] after [urlencode] *)

Section QueryRoundTrip.
Import Canonicalize.

Lemma qchar_not (c : ascii) (s : str) :
  is_qchar c = false -> List.Forall (fun x => is_qchar x = true) s -> ~ In c s.
Proof.
  intros Hc Hs Hin. rewrite List.Forall_forall in Hs. specialize (Hs c Hin). congruence.
Qed.

Lemma join_nonempty (c : ascii) (segs : list str) :
  segs <> [] -> List.Forall (fun s => s <> []) segs -> join c segs <> [].
Proof.
  destruct segs as [|a segs]; [congruence|]. intros _ Hall.
  inversion Hall as [|? ? Ha _]; subst.
  destruct segs; simpl; [exact Ha|]. destruct a; [congruence|discriminate].
Qed.

Lemma parse_qsl_urlencode (l : list (str * str)) :
  List.Forall (fun kv => normal (fst kv) /\ normal (snd kv)) l ->
  parse_qsl (urlencode l) = l.
Proof.
  intros Hl. unfold urlencode, parse_qsl.
  set (seg := fun kv : str * str => quote_plus (fst kv) ++ "="%char :: quote_plus (snd kv)).
  destruct l as [|kv0 l0] eqn:El; [reflexivity|]. rewrite <- El in *.
  assert (Hne : List.map seg l <> []) by (rewrite El; discriminate).
  assert (Hsegs : List.Forall (fun s => ~ In "&"%char s) (List.map seg l)).
  { apply List.Forall_forall. intros s Hs.
    apply List.in_map_iff in Hs as ([k v] & <- & _). unfold seg. simpl.
    intros Hin. apply List.in_app_or in Hin as [Hin|[Hin|Hin]]; [|discriminate|].
    - now apply (qchar_not "&" (quote_plus k) eq_refl (quote_plus_qchars k)).
    - now apply (qchar_not "&" (quote_plus v) eq_refl (quote_plus_qchars v)). }
  assert (Hnn : List.Forall (fun s => s <> []) (List.map seg l)).
  { apply List.Forall_forall. intros s Hs.
    apply List.in_map_iff in Hs as ([k v] & <- & _). unfold seg. simpl.
    destruct (quote_plus k); discriminate. }
  pose proof (join_nonempty "&" _ Hne Hnn) as Hj.
  destruct (join "&" (List.map seg l)) as [|j0 j] eqn:Ej; [congruence|].
  rewrite <- Ej, split_all_join by assumption.
  clear Ej Hj Hne Hsegs Hnn El kv0 l0 j0 j.
  induction Hl as [|[k v] l [Hk Hv] _ IH]; [reflexivity|].
  cbn [List.map List.flat_map]. rewrite IH.
  assert (Hsplit : split_first "=" (seg (k, v)) = Some (quote_plus k, quote_plus v)).
  { unfold seg. cbn [fst snd]. apply split_first_intro.
    exact (qchar_not "=" (quote_plus k) eq_refl (quote_plus_qchars k)). }
  destruct (seg (k, v)) as [|x xs] eqn:E.
  { unfold seg in E. cbn [fst snd] in E. destruct (quote_plus k); discriminate. }
  rewrite Hsplit. now rewrite !unquote_quote_plus.
Qed.

(** Every string that [parse_qsl] decodes out of an ASCII query is
    well-formed. *)
Lemma unquote_normal (s : str) : is_ascii s -> normal (unquote s).
Proof.
  intros Hs. unfold unquote. destruct (negb (chr_in s "%")).
  - now apply ascii_normal.
  - apply decode_replace_normal.
Qed.

Lemma plus_to_space_ascii (s : str) : is_ascii s -> is_ascii (plus_to_space s).
Proof.
  unfold is_ascii, plus_to_space. intros H. apply List.Forall_map.
  eapply List.Forall_impl; [|exact H]. simpl. intros c Hc.
  destruct (Ascii.eqb c "+"); [vm_compute; lia|exact Hc].
Qed.

Lemma split_all_ascii (c : ascii) (s : str) :
  is_ascii s -> List.Forall is_ascii (split_all c s).
Proof.
  unfold is_ascii. induction 1 as [|x s Hx Hs IH]; simpl.
  - repeat constructor.
  - destruct (split_all c s) as [|seg segs]; [repeat constructor|].
    inversion IH as [|? ? Hseg Hsegs]; subst.
    destruct (Ascii.eqb x c).
    + constructor; [constructor|]. now constructor.
    + constructor; [|exact Hsegs]. now constructor.
Qed.

Lemma parse_qsl_normal (q : str) :
  is_ascii q ->
  List.Forall (fun kv => normal (fst kv) /\ normal (snd kv)) (parse_qsl q).
Proof.
  intros Hq. unfold parse_qsl.
  assert (Hargs : List.Forall is_ascii (match q with [] => [] | _ :: _ => split_all "&" q end)).
  { destruct q; [constructor|]. now apply split_all_ascii. }
  induction Hargs as [|a args Ha _ IH]; [constructor|].
  cbn [List.flat_map]. apply List.Forall_app. split; [|exact IH].
  destruct a as [|x a']; [constructor|].
  destruct (split_first "=" (x :: a')) as [[n v]|] eqn:E.
  - apply split_first_Some in E as [E _]. unfold is_ascii in Ha. rewrite E in Ha.
    apply List.Forall_app in Ha as [Hn Hv]. inversion Hv; subst.
    constructor; [|constructor].
    split; cbn [fst snd]; apply unquote_normal, plus_to_space_ascii; assumption.
  - constructor; [|constructor].
    split; cbn [fst snd]; apply unquote_normal, plus_to_space_ascii; trivial.
    constructor.
Qed.

(** The query of a canonical url is a fixed point of the query pipeline. *)
Lemma query_fixed (q : str) :
  is_ascii q ->
  urlencode (sorted (query_pairs (urlencode (sorted (query_pairs q)))))
  = urlencode (sorted (query_pairs q)).
Proof.
  intros Hq.
  set (L := sorted (query_pairs q)).
  assert (HL : forall kv, In kv L -> In kv (query_pairs q)).
  { intros kv H. eapply Permutation_in; [apply Permutation_sym, sorted_perm|exact H]. }
  assert (Hparse : parse_qsl (urlencode L) = L).
  { apply parse_qsl_urlencode. apply List.Forall_forall. intros kv Hkv.
    apply HL in Hkv. unfold query_pairs in Hkv. apply List.filter_In in Hkv as [Hkv _].
    pose proof (parse_qsl_normal q Hq) as Hn. rewrite List.Forall_forall in Hn. auto. }
  unfold query_pairs at 1. rewrite Hparse.
  assert (Hf : List.filter (fun kv => negb (in_list (fst kv) TRACKING_KEYS)) L = L).
  { apply List.forallb_filter_id. apply List.forallb_forall. intros kv Hkv.
    apply HL in Hkv. unfold query_pairs in Hkv. now apply List.filter_In in Hkv as [_ Hkv]. }
  rewrite Hf. unfold L. now rewrite sorted_idem.
Qed.

End QueryRoundTrip.

(** ** URL canonicalization: lower-casing, slash collapsing, cleaning *)

Section CharFacts.
Import Canonicalize.

Lemma lower_char_idem (c : ascii) : lower_char (lower_char c) = lower_char c.
Proof. destruct c as [[] [] [] [] [] [] [] []]; reflexivity. Qed.

Lemma lower_idem (s : str) : lower (lower s) = lower s.
Proof.
  unfold lower. rewrite List.map_map. apply List.map_ext. apply lower_char_idem.
Qed.

Lemma lower_char_upper (x : ascii) :
  is_alpha (lower_char x) = false -> lower_char x = x.
Proof. destruct x as [[] [] [] [] [] [] [] []]; (reflexivity || discriminate). Qed.

(** A character that is not a letter is not touched by, and does not arise
    from, lower-casing. *)
Lemma lower_char_nonletter (c x : ascii) :
  is_alpha c = false -> Ascii.eqb c (lower_char x) = Ascii.eqb c x.
Proof.
  intros Hc. destruct (Ascii.eqb_spec c (lower_char x)) as [E|N].
  - subst c. rewrite (lower_char_upper x Hc). symmetry. apply Ascii.eqb_refl.
  - destruct (Ascii.eqb_spec c x) as [->|]; [|reflexivity].
    exfalso. apply N. unfold lower_char.
    unfold is_alpha in Hc. apply orb_false_iff in Hc as [-> _]. reflexivity.
Qed.

Lemma lower_nil (s : str) : lower s = [] <-> s = [].
Proof. destruct s; simpl; split; congruence. Qed.

Lemma lower_app (a b : str) : lower (a ++ b) = lower a ++ lower b.
Proof. apply List.map_app. Qed.

Lemma break_at_lower (p : ascii -> bool) (s : str) :
  (forall x, p (lower_char x) = p x) ->
  break_at p (lower s) = (lower (fst (break_at p s)), lower (snd (break_at p s))).
Proof.
  intros Hp. induction s as [|c s IH]; [reflexivity|]. simpl.
  rewrite Hp. destruct (p c); [reflexivity|].
  rewrite IH. now destruct (break_at p s).
Qed.

Lemma chr_in_lower (s : str) (c : ascii) :
  is_alpha c = false -> chr_in (lower s) c = chr_in s c.
Proof.
  intros Hc. unfold chr_in, lower. induction s as [|x s IH]; [reflexivity|].
  simpl. now rewrite IH, lower_char_nonletter.
Qed.

Lemma after_last_lower (c : ascii) (s : str) :
  is_alpha c = false -> after_last c (lower s) = lower (after_last c s).
Proof.
  intros Hc. induction s as [|x s IH]; [reflexivity|]. simpl.
  change (List.map lower_char s) with (lower s).
  rewrite (chr_in_lower s c Hc).
  rewrite (Ascii.eqb_sym (lower_char x) c), (lower_char_nonletter c x Hc),
    (Ascii.eqb_sym c x).
  destruct (Ascii.eqb x c && negb (chr_in s c)); [reflexivity|].
  destruct (chr_in s c); [exact IH|reflexivity].
Qed.

Lemma Forall_lower (P : ascii -> Prop) (s : str) :
  (forall x, P x -> P (lower_char x)) -> List.Forall P s -> List.Forall P (lower s).
Proof.
  intros HP Hs. unfold lower. apply List.Forall_map.
  eapply List.Forall_impl; [|exact Hs]. exact HP.
Qed.

(** *** Collapsing slashes *)

Lemma collapse_cons_other (c : ascii) (s : str) :
  c <> "/"%char -> collapse_slashes (c :: s) = c :: collapse_slashes s.
Proof.
  intros Hc. simpl. destruct (Ascii.eqb_spec c "/"); [contradiction|reflexivity].
Qed.

Lemma collapse_nil (s : str) : collapse_slashes s = [] -> s = [].
Proof.
  induction s as [|c s IH]; [reflexivity|]. simpl.
  destruct (Ascii.eqb c "/"); [|discriminate].
  destruct s as [|d s]; [discriminate|].
  destruct (Ascii.eqb d "/"); [|discriminate].
  intros H. apply IH in H. discriminate.
Qed.

(** The collapsed string starts with a slash exactly when the string does. *)
Lemma collapse_head_slash (s : str) :
  exists t, collapse_slashes ("/"%char :: s) = "/"%char :: t /\
            match t with d :: _ => d <> "/"%char | [] => True end.
Proof.
  induction s as [|d s IH].
  - exists []. split; [reflexivity|exact I].
  - destruct (Ascii.eqb_spec d "/") as [->|Hd].
    + destruct IH as (t & Et & Ht). exists t. split; [|exact Ht].
      change (collapse_slashes ("/"%char :: "/"%char :: s))
        with (collapse_slashes ("/"%char :: s)). exact Et.
    + exists (d :: collapse_slashes s). split; [|exact Hd].
      cbn [collapse_slashes]. change (Ascii.eqb "/" "/") with true. cbv iota.
      destruct (Ascii.eqb_spec d "/"); [contradiction|reflexivity].
Qed.

Lemma starts_double_spec (s : str) :
  starts_with (str_of "//") s = true <-> exists t, s = "/"%char :: "/"%char :: t.
Proof.
  change (str_of "//") with ["/"%char; "/"%char]. split.
  - destruct s as [|a [|b s]]; cbn [starts_with]; rewrite ?andb_false_r; try discriminate.
    destruct (Ascii.eqb_spec "/" a) as [<-|]; [|discriminate].
    destruct (Ascii.eqb_spec "/" b) as [<-|]; [|discriminate]. eauto.
  - intros (t & ->). cbn [starts_with]. now rewrite Ascii.eqb_refl.
Qed.

Lemma collapse_no_double (s : str) :
  starts_with (str_of "//") (collapse_slashes s) = false.
Proof.
  destruct (starts_with _ _) eqn:E; [|reflexivity]. exfalso.
  apply starts_double_spec in E as (t & E).
  destruct s as [|c s]; [discriminate|].
  destruct (Ascii.eqb_spec c "/") as [->|Hc].
  - destruct (collapse_head_slash s) as (t' & Et & Ht). rewrite Et in E.
    injection E as ->. now apply Ht.
  - rewrite collapse_cons_other in E by assumption. congruence.
Qed.

Lemma collapse_In (c : ascii) (s : str) : In c (collapse_slashes s) -> In c s.
Proof.
  induction s as [|x s IH]; [trivial|]. simpl.
  destruct (Ascii.eqb x "/").
  - destruct s as [|d s]; [trivial|].
    destruct (Ascii.eqb d "/").
    + intros H. right. now apply IH.
    + intros [<-|H]; [now left|right; now apply IH].
  - intros [<-|H]; [now left|right; now apply IH].
Qed.

Lemma collapse_In_rev (c : ascii) (s : str) : In c s -> In c (collapse_slashes s).
Proof.
  induction s as [|x s IH]; [trivial|]. intros Hin.
  destruct (Ascii.eqb_spec x "/") as [->|Hx].
  - destruct (Ascii.eqb_spec c "/") as [->|Hc].
    + destruct (collapse_head_slash s) as (t & -> & _). now left.
    + destruct Hin as [<-|Hin]; [congruence|]. specialize (IH Hin).
      simpl. destruct s as [|d s]; [destruct Hin|].
      destruct (Ascii.eqb d "/"); [exact IH|now right].
  - rewrite collapse_cons_other by assumption.
    destruct Hin as [<-|Hin]; [now left|right; auto].
Qed.

Lemma Forall_collapse (P : ascii -> Prop) (s : str) :
  List.Forall P s -> List.Forall P (collapse_slashes s).
Proof.
  rewrite !List.Forall_forall. intros H c Hc. apply H. now apply collapse_In.
Qed.

Lemma collapse_slash_slash (s : str) :
  collapse_slashes ("/"%char :: "/"%char :: s) = collapse_slashes ("/"%char :: s).
Proof. reflexivity. Qed.

Lemma collapse_slash_other (d : ascii) (s : str) :
  d <> "/"%char ->
  collapse_slashes ("/"%char :: d :: s) = "/"%char :: d :: collapse_slashes s.
Proof.
  intros Hd. rewrite <- (collapse_cons_other d s Hd).
  cbn [collapse_slashes]. change (Ascii.eqb "/" "/") with true. cbv iota.
  destruct (Ascii.eqb_spec d "/"); [contradiction|reflexivity].
Qed.

Lemma collapse_idem (s : str) :
  collapse_slashes (collapse_slashes s) = collapse_slashes s.
Proof.
  induction s as [|c s IH]; [reflexivity|].
  destruct (Ascii.eqb_spec c "/") as [->|Hc].
  - destruct s as [|d s]; [reflexivity|].
    destruct (Ascii.eqb_spec d "/") as [->|Hd].
    + rewrite collapse_slash_slash. exact IH.
    + rewrite collapse_cons_other in IH by assumption.
      rewrite collapse_cons_other in IH by assumption.
      injection IH as IH.
      rewrite collapse_slash_other by assumption.
      rewrite collapse_slash_other by assumption. now rewrite IH.
  - rewrite !collapse_cons_other by assumption. now rewrite IH.
Qed.

(** A prefix without slashes passes through unchanged, in both directions. *)
Lemma collapse_prefix (pre : str) (c : ascii) (r : str) :
  ~ In "/"%char pre -> c <> "/"%char ->
  collapse_slashes (pre ++ c :: r) = pre ++ c :: collapse_slashes r.
Proof.
  induction pre as [|x pre IH]; intros Hp Hc; simpl app.
  - now apply collapse_cons_other.
  - rewrite collapse_cons_other by (intros ->; apply Hp; now left).
    rewrite IH; trivial. intros H. apply Hp. now right.
Qed.

Lemma collapse_prefix_inv (pre : str) (c : ascii) (r s : str) :
  ~ In "/"%char pre -> c <> "/"%char ->
  collapse_slashes s = pre ++ c :: r ->
  exists r', s = pre ++ c :: r'.
Proof.
  revert s. induction pre as [|x pre IH]; intros s Hp Hc E.
  - destruct s as [|y s]; [discriminate|].
    destruct (Ascii.eqb_spec y "/") as [->|Hy].
    + destruct (collapse_head_slash s) as (t & Et & _). rewrite Et in E.
      simpl in E. congruence.
    + rewrite collapse_cons_other in E by assumption. injection E as -> _. eauto.
  - destruct s as [|y s]; [discriminate|].
    destruct (Ascii.eqb_spec y "/") as [->|Hy].
    + destruct (collapse_head_slash s) as (t & Et & _). rewrite Et in E.
      simpl in E. injection E as <- _. exfalso. apply Hp. now left.
    + rewrite collapse_cons_other in E by assumption. simpl in E.
      injection E as -> E. destruct (IH s) as (r' & ->); trivial.
      * intros H. apply Hp. now right.
      * eauto.
Qed.

Lemma after_last_no (c : ascii) (s : str) : ~ In c s -> after_last c s = s.
Proof.
  destruct s as [|x s]; [reflexivity|]. intros H. simpl.
  assert (Hs : chr_in s c = false) by (apply chr_in_false; intros Hin; apply H; now right).
  rewrite Hs. destruct (Ascii.eqb_spec x c) as [->|]; [exfalso; apply H; now left|].
  reflexivity.
Qed.

Lemma after_last_cons_in (c x : ascii) (s : str) :
  In c s -> after_last c (x :: s) = after_last c s.
Proof.
  intros H. simpl. apply chr_in_In in H. rewrite H. simpl.
  now rewrite andb_false_r.
Qed.

Lemma after_last_last (c : ascii) (s : str) : ~ In c s -> after_last c (c :: s) = s.
Proof.
  intros H. simpl. apply chr_in_false in H. rewrite H, Ascii.eqb_refl. reflexivity.
Qed.

(** What follows the last slash is the same before and after collapsing. *)
Lemma last_segment_collapse (s : str) :
  last_segment (collapse_slashes s) = last_segment s.
Proof.
  unfold last_segment. induction s as [|x s IH]; [reflexivity|].
  destruct (Ascii.eqb_spec x "/") as [->|Hx].
  - destruct s as [|d s]; [reflexivity|].
    destruct (Ascii.eqb_spec d "/") as [->|Hd].
    + rewrite collapse_slash_slash, IH.
      symmetry. apply after_last_cons_in. now left.
    + rewrite collapse_slash_other by assumption.
      rewrite <- (collapse_cons_other d s Hd).
      destruct (in_dec ascii_dec "/"%char (d :: s)) as [Hin|Hnin].
      * rewrite (after_last_cons_in "/" "/" (collapse_slashes (d :: s)))
          by (now apply collapse_In_rev).
        rewrite (after_last_cons_in "/" "/" (d :: s)) by assumption. exact IH.
      * assert (Hc : ~ In "/"%char (collapse_slashes (d :: s)))
          by (intros H; apply Hnin; now apply collapse_In).
        rewrite (after_last_last "/" _ Hc), (after_last_last "/" _ Hnin).
        rewrite <- (after_last_no "/" _ Hc), IH. now apply after_last_no.
  - rewrite collapse_cons_other by assumption.
    destruct (in_dec ascii_dec "/"%char s) as [Hin|Hnin].
    + rewrite (after_last_cons_in "/" x (collapse_slashes s))
        by (now apply collapse_In_rev).
      rewrite (after_last_cons_in "/" x s) by assumption. exact IH.
    + assert (Hc : ~ In "/"%char (collapse_slashes s))
        by (intros H; apply Hnin; now apply collapse_In).
      assert (Hs : collapse_slashes s = s).
      { rewrite <- (after_last_no "/" _ Hc), IH. now apply after_last_no. }
      now rewrite Hs.
Qed.

(** *** Cleaning *)

Lemma lstrip_head (s : str) :
  match lstrip s with c :: _ => is_c0_or_space c = false | [] => True end.
Proof.
  induction s as [|c s IH]; [exact I|]. simpl.
  destruct (is_c0_or_space c) eqn:E; [exact IH|exact E].
Qed.

Lemma lstrip_suffix (s : str) : exists a, s = a ++ lstrip s.
Proof.
  induction s as [|c s (a & IH)]; [now exists []|]. simpl.
  destruct (is_c0_or_space c); [|now exists []].
  exists (c :: a). simpl. now rewrite <- IH.
Qed.

Lemma unsafe_c0 (c : ascii) : is_unsafe c = true -> is_c0_or_space c = true.
Proof. destruct c as [[] [] [] [] [] [] [] []]; (reflexivity || discriminate). Qed.

Lemma clean_head (u : str) :
  match clean u with c :: _ => is_c0_or_space c = false | [] => True end.
Proof.
  unfold clean. pose proof (lstrip_head u) as H.
  destruct (lstrip u) as [|c s]; [exact I|]. simpl.
  destruct (is_unsafe c) eqn:E; simpl; [|exact H].
  apply unsafe_c0 in E. congruence.
Qed.

Lemma clean_safe (u : str) : List.Forall (fun c => is_unsafe c = false) (clean u).
Proof.
  unfold clean. apply List.Forall_forall. intros c Hc.
  apply List.filter_In in Hc as [_ Hc]. now apply negb_true_iff in Hc.
Qed.

Lemma clean_ascii (u : str) : is_ascii u -> is_ascii (clean u).
Proof.
  unfold is_ascii, clean. intros H. apply List.Forall_forall. intros c Hc.
  apply List.filter_In in Hc as [Hc _].
  destruct (lstrip_suffix u) as (a & E). rewrite E in H.
  apply List.Forall_app in H as [_ H]. rewrite List.Forall_forall in H. auto.
Qed.

Lemma clean_id (s : str) :
  match s with c :: _ => is_c0_or_space c = false | [] => True end ->
  List.Forall (fun c => is_unsafe c = false) s ->
  clean s = s.
Proof.
  intros Hh Hs. unfold clean.
  assert (lstrip s = s) as -> by (destruct s; [reflexivity|simpl; now rewrite Hh]).
  apply List.forallb_filter_id. apply List.forallb_forall. intros c Hc.
  rewrite List.Forall_forall in Hs. rewrite (Hs c Hc). reflexivity.
Qed.

End CharFacts.

(** ** URL canonicalization: schemes, parameters and bracketed hosts *)

Section SchemeFacts.
Import Canonicalize.

Lemma scheme_chars_no (c : ascii) (pre : str) :
  is_scheme_char c = false -> List.forallb is_scheme_char pre = true -> ~ In c pre.
Proof.
  intros Hc Hp Hin. rewrite List.forallb_forall in Hp. specialize (Hp c Hin). congruence.
Qed.

Lemma split_scheme_some (pre r : str) :
  scheme_like pre -> split_scheme (pre ++ ":"%char :: r) = (lower pre, r).
Proof.
  intros [(c0 & t & -> & Ha) Hs]. unfold split_scheme.
  rewrite split_first_intro by exact (scheme_chars_no ":" _ eq_refl Hs).
  now rewrite Ha, Hs.
Qed.

Lemma split_scheme_cases (x : str) :
  split_scheme x = ([], x) \/
  exists pre r, x = pre ++ ":"%char :: r /\ scheme_like pre /\
                split_scheme x = (lower pre, r).
Proof.
  unfold split_scheme. destruct (split_first ":" x) as [[[|c0 pre'] rest]|] eqn:E; auto.
  destruct (is_alpha c0 && List.forallb is_scheme_char (c0 :: pre')) eqn:T; auto.
  right. apply split_first_Some in E as [E _].
  apply andb_true_iff in T as [Ta Ts].
  exists (c0 :: pre'), rest. repeat split; eauto.
Qed.

Lemma split_scheme_nil (x pre r : str) :
  fst (split_scheme x) = [] -> x = pre ++ ":"%char :: r -> ~ scheme_like pre.
Proof.
  intros H -> Hl. rewrite (split_scheme_some pre r Hl) in H. simpl in H.
  destruct Hl as [(c0 & t & -> & _) _]. discriminate.
Qed.

Lemma split_scheme_no (x : str) :
  (forall pre r, x = pre ++ ":"%char :: r -> ~ scheme_like pre) ->
  split_scheme x = ([], x).
Proof.
  intros H. destruct (split_scheme_cases x) as [E|(pre & r & E & Hl & _)]; trivial.
  now destruct (H pre r E).
Qed.

Lemma split_scheme_head (c : ascii) (t : str) :
  is_alpha c = false -> split_scheme (c :: t) = ([], c :: t).
Proof.
  intros Hc. apply split_scheme_no. intros pre r E [(c0 & t0 & -> & Ha) _].
  simpl in E. injection E as <- _. congruence.
Qed.

Lemma is_alpha_lower (c : ascii) : is_alpha (lower_char c) = is_alpha c.
Proof. destruct c as [[] [] [] [] [] [] [] []]; reflexivity. Qed.

Lemma is_scheme_char_lower (c : ascii) : is_scheme_char (lower_char c) = is_scheme_char c.
Proof. destruct c as [[] [] [] [] [] [] [] []]; reflexivity. Qed.

Lemma scheme_like_lower (pre : str) : scheme_like pre -> scheme_like (lower pre).
Proof.
  intros [(c0 & t & -> & Ha) Hs]. split.
  - exists (lower_char c0), (lower t). split; [reflexivity|]. now rewrite is_alpha_lower.
  - unfold lower. rewrite List.forallb_forall in *. intros x Hx.
    apply List.in_map_iff in Hx as (y & <- & Hy). rewrite is_scheme_char_lower. auto.
Qed.

(** The scheme that [split_scheme] returns is empty or scheme-like, and is
    in lower case. *)
Lemma split_scheme_scheme (x : str) :
  (fst (split_scheme x) = [] /\ snd (split_scheme x) = x) \/
  (scheme_like (fst (split_scheme x)) /\
   lower (fst (split_scheme x)) = fst (split_scheme x) /\
   exists pre, x = pre ++ ":"%char :: snd (split_scheme x)).
Proof.
  destruct (split_scheme_cases x) as [E|(pre & r & E & Hl & Es)].
  - left. now rewrite E.
  - right. rewrite Es. simpl. split; [now apply scheme_like_lower|].
    split; [apply lower_idem|]. now exists pre.
Qed.

(** *** The last occurrence of a character *)

Lemma after_last_intro (c : ascii) (a b : str) :
  ~ In c b -> after_last c (a ++ c :: b) = b.
Proof.
  intros Hb. induction a as [|x a IH]; simpl app.
  - now apply after_last_last.
  - rewrite after_last_cons_in; [exact IH|].
    apply List.in_or_app. right. now left.
Qed.

Lemma after_last_spec (c : ascii) (s : str) :
  ~ In c (after_last c s) /\
  ((~ In c s /\ after_last c s = s) \/ exists pre, s = pre ++ c :: after_last c s).
Proof.
  induction s as [|x s [IH1 IH2]].
  - split; [intros []|]. left. split; [intros []|reflexivity].
  - destruct (in_dec ascii_dec c s) as [Hin|Hnin].
    + rewrite after_last_cons_in by assumption. split; [exact IH1|]. right.
      destruct IH2 as [[Hn _]|(pre & E)]; [contradiction|].
      exists (x :: pre). simpl. now rewrite <- E.
    + destruct (ascii_dec x c) as [->|Hx].
      * rewrite after_last_last by assumption. split; [exact Hnin|].
        right. now exists [].
      * assert (Hn : ~ In c (x :: s)) by (intros [E|H]; [congruence|contradiction]).
        rewrite after_last_no by assumption. split; [exact Hn|]. now left.
Qed.

(** *** [_splitparams] *)

Lemma firstn_prefix (pre seg : str) :
  List.firstn (List.length (pre ++ seg) - List.length seg) (pre ++ seg) = pre.
Proof.
  rewrite List.length_app, Nat.add_sub, List.firstn_app, Nat.sub_diag, List.firstn_all.
  simpl. apply List.app_nil_r.
Qed.

Lemma splitparams_spec (url : str) :
  (fst (_splitparams url) = url /\ snd (_splitparams url) = [] /\
   ~ In ";"%char (last_segment url)) \/
  (url = fst (_splitparams url) ++ ";"%char :: snd (_splitparams url) /\
   ~ In ";"%char (last_segment (fst (_splitparams url)))).
Proof.
  unfold _splitparams, last_segment.
  destruct (after_last_spec "/" url) as [Hseg Hcase].
  remember (after_last "/" url) as seg eqn:Hs.
  destruct (split_first ";" seg) as [[a b]|] eqn:E.
  - right. apply split_first_Some in E as [E Ha]. cbn [fst snd].
    assert (Hna : ~ In "/"%char a).
    { intros H. apply Hseg. rewrite E. apply List.in_or_app. now left. }
    destruct Hcase as [[Hn Eu]|(pre & Eu)].
    + rewrite <- Eu. rewrite Nat.sub_diag. simpl.
      split; [exact E|]. now rewrite after_last_no.
    + clear Hs. subst url.
      replace (pre ++ "/"%char :: seg) with ((pre ++ ["/"%char]) ++ seg)
        by (now rewrite <- List.app_assoc).
      rewrite firstn_prefix. split.
      * rewrite E. now rewrite <- !List.app_assoc.
      * rewrite <- List.app_assoc. simpl. now rewrite after_last_intro.
  - left. apply split_first_None in E. cbn [fst snd]. now repeat split.
Qed.

(** *** Bracketed hosts survive lower-casing *)

Section Brackets.
Variable chk : str -> bool.
Hypothesis chk_lower : forall h, chk h = true -> chk (lower h) = true.

Lemma check_bracketed_netloc_lower (n : str) :
  _check_bracketed_netloc chk n = true -> _check_bracketed_netloc chk (lower n) = true.
Proof.
  unfold _check_bracketed_netloc.
  rewrite (after_last_lower "@" n eq_refl).
  set (hp := after_last "@" n).
  rewrite (break_at_lower (Ascii.eqb "[") hp (fun x => lower_char_nonletter "[" x eq_refl)).
  destruct (break_at (Ascii.eqb "[") hp) as [before rest]. simpl fst. simpl snd.
  destruct rest as [|br bracketed].
  - simpl lower.
    rewrite (break_at_lower (Ascii.eqb ":") hp (fun x => lower_char_nonletter ":" x eq_refl)).
    destruct (break_at (Ascii.eqb ":") hp) as [hostname t]. simpl. apply chk_lower.
  - change (lower (br :: bracketed)) with (lower_char br :: lower bracketed).
    destruct before as [|b0 before]; [|discriminate]. simpl lower.
    rewrite (break_at_lower (Ascii.eqb "]") bracketed
               (fun x => lower_char_nonletter "]" x eq_refl)).
    destruct (break_at (Ascii.eqb "]") bracketed) as [hostname tail]. simpl fst. simpl snd.
    destruct tail as [|t0 [|c port]]; simpl; try apply chk_lower.
    rewrite (Ascii.eqb_sym (lower_char c) ":"), (lower_char_nonletter ":" c eq_refl),
      (Ascii.eqb_sym ":" c).
    destruct (Ascii.eqb c ":"); [apply chk_lower|discriminate].
Qed.

Lemma netloc_ok_lower (n : str) :
  netloc_ok chk n = true -> netloc_ok chk (lower n) = true.
Proof.
  unfold netloc_ok.
  rewrite (chr_in_lower n "[" eq_refl), (chr_in_lower n "]" eq_refl).
  destruct (xorb _ _); [discriminate|].
  destruct (_ && _); [apply check_bracketed_netloc_lower|trivial].
Qed.

End Brackets.
End SchemeFacts.

(** ** URL canonicalization: what [urlparse] returns *)

Section ParseFacts.
Import Canonicalize.
Variable chk : str -> bool.

Lemma clean_plain (u : str) : is_ascii u -> List.Forall plain (clean u).
Proof.
  intros Hu. pose proof (clean_safe u) as H1. pose proof (clean_ascii u Hu) as H2.
  unfold is_ascii in H2. rewrite List.Forall_forall in *.
  intros c Hc. split; auto.
Qed.

(** The netloc step of [urlsplit]. *)
Lemma netloc_step (rest n rest2 : str) (ok : bool) :
  (if starts_with (str_of "//") rest
   then let '(netloc, r) := _splitnetloc rest in (netloc, r, netloc_ok chk netloc)
   else ([], rest, true)) = (n, rest2, ok) ->
  (rest = "/"%char :: "/"%char :: n ++ rest2 /\
   List.Forall (fun c => chr_in (str_of "/?#") c = false) n /\
   ok = netloc_ok chk n /\
   match rest2 with [] => True | c :: _ => chr_in (str_of "/?#") c = true end) \/
  (starts_with (str_of "//") rest = false /\ n = [] /\ rest2 = rest /\ ok = true).
Proof.
  destruct (starts_with (str_of "//") rest) eqn:E.
  - apply starts_double_spec in E as (t & ->). unfold _splitnetloc.
    change (List.skipn 2 ("/"%char :: "/"%char :: t)) with t.
    pose proof (break_at_app (chr_in (str_of "/?#")) t) as Happ.
    pose proof (break_at_fst (chr_in (str_of "/?#")) t) as Hfst.
    pose proof (break_at_snd (chr_in (str_of "/?#")) t) as Hsnd.
    destruct (break_at (chr_in (str_of "/?#")) t) as [a b]. cbn [fst snd] in *.
    intros H. injection H as ? ? ?. subst. left. repeat split; auto.
  - intros H. injection H as ? ? ?. subst. now right.
Qed.

(** The fragment and query steps of [urlsplit]. *)
Lemma tail_step (rest2 pa q f : str) :
  (let '(url, fragment) :=
     match split_first "#" rest2 with
     | Some (a, b) => (a, b)
     | None => (rest2, [])
     end in
   let '(url, query) :=
     match split_first "?" url with
     | Some (a, b) => (a, b)
     | None => (url, [])
     end in
   (url, query, fragment)) = (pa, q, f) ->
  exists tail,
    rest2 = pa ++ tail /\
    match tail with [] => True | c :: _ => c = "?"%char \/ c = "#"%char end /\
    ~ In "?"%char pa /\ ~ In "#"%char pa /\
    (List.Forall plain rest2 -> List.Forall plain q).
Proof.
  destruct (split_first "#" rest2) as [[a b]|] eqn:Ef.
  - apply split_first_Some in Ef as [-> Ha].
    destruct (split_first "?" a) as [[a' q']|] eqn:Eq.
    + apply split_first_Some in Eq as [-> Ha']. intros H. injection H as E1 E2 E3. subst pa q f.
      exists ("?"%char :: q' ++ "#"%char :: b). repeat split.
      * now rewrite <- List.app_assoc.
      * now left.
      * exact Ha'.
      * intros H. apply Ha. apply List.in_or_app. now left.
      * intros H. apply List.Forall_app in H as [H _].
        apply List.Forall_app in H as [_ H]. now inversion H.
    + apply split_first_None in Eq. intros H. injection H as E1 E2 E3. subst pa q f.
      exists ("#"%char :: b). repeat split; auto.
  - apply split_first_None in Ef.
    destruct (split_first "?" rest2) as [[a' q']|] eqn:Eq.
    + apply split_first_Some in Eq as [-> Ha']. intros H. injection H as E1 E2 E3. subst pa q f.
      exists ("?"%char :: q'). repeat split; auto.
      * intros H. apply Ef. apply List.in_or_app. now left.
      * intros H. apply List.Forall_app in H as [_ H]. now inversion H.
    + apply split_first_None in Eq. intros H. injection H as E1 E2 E3. subst pa q f.
      exists []. rewrite List.app_nil_r. repeat split; auto.
Qed.

Lemma urlsplit_facts (u : str) (r : SplitResult) :
  is_ascii u -> urlsplit chk u = Ok r ->
  exists rest rest2 tail,
    split_scheme (clean u) = (s_scheme r, rest) /\
    List.Forall plain rest /\
    ((rest = "/"%char :: "/"%char :: s_netloc r ++ rest2 /\
      List.Forall (fun c => chr_in (str_of "/?#") c = false) (s_netloc r) /\
      netloc_ok chk (s_netloc r) = true /\
      match rest2 with [] => True | c :: _ => chr_in (str_of "/?#") c = true end) \/
     (starts_with (str_of "//") rest = false /\ s_netloc r = [] /\ rest2 = rest)) /\
    rest2 = s_path r ++ tail /\
    match tail with [] => True | c :: _ => c = "?"%char \/ c = "#"%char end /\
    ~ In "?"%char (s_path r) /\ ~ In "#"%char (s_path r) /\
    List.Forall plain (s_query r).
Proof.
  intros Hu H. unfold urlsplit in H.
  pose proof (clean_plain u Hu) as Hpl.
  pose proof (split_scheme_scheme (clean u)) as Hsch.
  destruct (split_scheme (clean u)) as [s rest] eqn:Es. simpl in Hsch.
  assert (Hrest : List.Forall plain rest).
  { destruct Hsch as [[_ ->]|(_ & _ & pre & E)]; [exact Hpl|].
    rewrite E in Hpl. apply List.Forall_app in Hpl as [_ Hpl]. now inversion Hpl. }
  destruct (if starts_with (str_of "//") rest
            then let '(netloc, r) := _splitnetloc rest in (netloc, r, netloc_ok chk netloc)
            else ([], rest, true)) as [[n rest2] ok] eqn:En.
  apply netloc_step in En.
  destruct ok; [|destruct En as [(_ & _ & ? & _)|(_ & _ & _ & ?)]; discriminate].
  cbn [negb] in H. cbv iota in H.
  destruct (let '(url, fragment) :=
              match split_first "#" rest2 with
              | Some (a, b) => (a, b)
              | None => (rest2, [])
              end in
            let '(url, query) :=
              match split_first "?" url with
              | Some (a, b) => (a, b)
              | None => (url, [])
              end in
            (url, query, fragment)) as [[pa q] f] eqn:Et.
  assert (Hr : r = mk_split s n pa q f).
  { destruct (split_first "#" rest2) as [[a b]|];
      [destruct (split_first "?" a) as [[a' q']|]
      |destruct (split_first "?" rest2) as [[a' q']|]];
      injection Et as <- <- <-; now injection H as <-. }
  subst r. cbn [s_scheme s_netloc s_path s_query].
  apply tail_step in Et as (tail & Erest2 & Htail & Hq & Hf & Hplq).
  assert (Hrest2 : List.Forall plain rest2).
  { destruct En as [(E & _)|(_ & _ & -> & _)]; [|exact Hrest].
    rewrite E in Hrest. inversion Hrest as [|? ? _ Hr1]; subst.
    inversion Hr1 as [|? ? _ Hr2]; subst. now apply List.Forall_app in Hr2 as [_ ?]. }
  exists rest, rest2, tail. repeat split; auto.
  destruct En as [(E & Hn & Hok & Hh)|(E & -> & -> & _)]; [left|right]; auto.
Qed.

Lemma urlparse_split (u : str) (p : ParseResult) :
  urlparse chk u = Ok p ->
  exists r, urlsplit chk u = Ok r /\
    scheme p = s_scheme r /\ netloc p = s_netloc r /\ query p = s_query r /\
    ((path p = s_path r /\
      (in_list (s_scheme r) uses_params = true -> ~ In ";"%char (last_segment (path p)))) \/
     (s_path r = path p ++ ";"%char :: params p /\
      ~ In ";"%char (last_segment (path p)))).
Proof.
  unfold urlparse. destruct (urlsplit chk u) as [r|]; [|discriminate].
  intros H. exists r. split; [reflexivity|].
  destruct (in_list (s_scheme r) uses_params && chr_in (s_path r) ";") eqn:T.
  - pose proof (splitparams_spec (s_path r)) as Hsp.
    destruct (_splitparams (s_path r)) as [a b]. simpl in Hsp.
    injection H as <-. cbn [scheme netloc query path params].
    repeat split; trivial.
    destruct Hsp as [(-> & _ & Hl)|[E Hl]]; [left|right]; auto.
  - injection H as <-. cbn [scheme netloc query path params].
    repeat split; trivial. left. split; [reflexivity|].
    intros Hs. rewrite Hs in T. simpl in T. apply chr_in_false in T.
    intros Hin. apply T.
    destruct (after_last_spec "/" (s_path r)) as [_ [[_ E]|(pre & E)]].
    + unfold last_segment in Hin. now rewrite E in Hin.
    + rewrite E. apply List.in_or_app. right. now right.
Qed.

End ParseFacts.

(** ** URL canonicalization: parsing a canonical url *)

(** Brings nested appends into right-associated form. *)
Ltac norm_app :=
  repeat (progress (cbn [List.app Canonicalize.str_of list_ascii_of_string];
                    rewrite <- ?List.app_assoc, ?List.app_nil_r)).

Section CanonicalFixed.
Import Canonicalize.
Variable chk : str -> bool.

Lemma plain_iff (c : ascii) : plain c <-> plainb c = true.
Proof.
  unfold plain, plainb. rewrite andb_true_iff, negb_true_iff, Nat.ltb_lt. tauto.
Qed.

Lemma Forall_plainb (P : ascii -> bool) (s : str) :
  (forall c, P c = true -> plainb c = true) ->
  List.Forall (fun c => P c = true) s -> List.Forall plain s.
Proof.
  intros HP Hs. eapply List.Forall_impl; [|exact Hs].
  intros c Hc. apply plain_iff. auto.
Qed.

Lemma alpha_not_c0 (c : ascii) : is_alpha c = true -> is_c0_or_space c = false.
Proof. destruct c as [[] [] [] [] [] [] [] []]; (reflexivity || discriminate). Qed.

Lemma scheme_char_plain (c : ascii) : is_scheme_char c = true -> plainb c = true.
Proof. destruct c as [[] [] [] [] [] [] [] []]; (reflexivity || discriminate). Qed.

Lemma query_char_plain (c : ascii) : is_query_char c = true -> plainb c = true.
Proof. destruct c as [[] [] [] [] [] [] [] []]; (reflexivity || discriminate). Qed.

Lemma scheme_like_plain (s : str) : scheme_like s -> List.Forall plain s.
Proof.
  intros [_ Hs]. apply (Forall_plainb is_scheme_char); [apply scheme_char_plain|].
  apply List.Forall_forall. rewrite List.forallb_forall in Hs. exact Hs.
Qed.

Lemma urlencode_chars (l : list (str * str)) :
  List.Forall (fun c => is_query_char c = true) (urlencode l).
Proof.
  unfold urlencode.
  assert (Hq : forall k, List.Forall (fun c => is_query_char c = true) (quote_plus k)).
  { intros k. eapply List.Forall_impl; [|apply quote_plus_qchars].
    intros c Hc. unfold is_query_char. now rewrite Hc. }
  induction l as [|[k v] l IH]; [constructor|].
  cbn [List.map join fst snd].
  assert (Hseg : List.Forall (fun c => is_query_char c = true)
                   (quote_plus k ++ "="%char :: quote_plus v)).
  { apply List.Forall_app. split; [apply Hq|]. constructor; [reflexivity|apply Hq]. }
  destruct (List.map _ l) as [|x xs] eqn:E; [exact Hseg|].
  apply List.Forall_app. split; [exact Hseg|]. constructor; [reflexivity|exact IH].
Qed.

Lemma with_slash_id (pa t : str) : pa = "/"%char :: t -> with_slash pa = pa.
Proof. intros ->. reflexivity. Qed.

Lemma urlunsplit_form (s n pa q : str) :
  starts_with (str_of "//") pa = false ->
  (needs_netloc s n = true -> exists t, pa = "/"%char :: t) ->
  urlunsplit s n pa q [] = url_prefix s ++ url_body s n pa ++ url_query q.
Proof.
  intros Hd Hs. unfold urlunsplit, url_prefix, url_body, url_query.
  rewrite Hd. cbn [negb]. rewrite andb_true_r.
  assert (Hw : needs_netloc s n = true ->
               match pa with
               | c :: _ => if Ascii.eqb c "/" then pa else "/"%char :: pa
               | [] => pa
               end = pa).
  { intros H. destruct (Hs H) as (t & ->). reflexivity. }
  unfold needs_netloc in *.
  destruct n as [|n0 n'], s as [|s0 s'].
  - destruct q; [now rewrite List.app_nil_r|reflexivity].
  - destruct (in_list (s0 :: s') uses_netloc).
    + rewrite (Hw eq_refl). destruct q; norm_app; reflexivity.
    + destruct q; norm_app; reflexivity.
  - rewrite (Hw eq_refl). destruct q; norm_app; reflexivity.
  - rewrite (Hw eq_refl). destruct q; norm_app; reflexivity.
Qed.

End CanonicalFixed.

Section LayoutCases.
Import Canonicalize.

Lemma url_query_cases (q : str) :
  (q = [] /\ url_query q = []) \/ (q <> [] /\ url_query q = "?"%char :: q).
Proof. destruct q; [now left|right]. split; [discriminate|reflexivity]. Qed.

Lemma path_or_slash (pa : str) :
  pa <> [] -> match pa with [] => str_of "/" | _ :: _ => pa end = pa.
Proof. destruct pa; [congruence|reflexivity]. Qed.

Lemma url_prefix_cases (s : str) :
  (s = [] /\ url_prefix s = []) \/ (s <> [] /\ url_prefix s = s ++ [":"%char]).
Proof. destruct s; [now left|right]. split; [discriminate|reflexivity]. Qed.

End LayoutCases.

Section CanonicalFixed2.
Import Canonicalize.
Variable chk : str -> bool.
Variables s n pa q : str.
Hypothesis Hcp : canonical_parts chk s n pa q.

Local Abbreviation c := (assembled s n pa q).

Lemma path_no_double : starts_with (str_of "//") pa = false.
Proof. rewrite <- (cp_path_collapsed _ _ _ _ _ Hcp). apply collapse_no_double. Qed.

Lemma query_plain : List.Forall plain (url_query q).
Proof.
  destruct (url_query_cases q) as [[_ ->]|[_ ->]]; [constructor|].
  constructor; [now apply plain_iff|].
  apply (Forall_plainb is_query_char); [apply query_char_plain|].
  apply (cp_query_chars _ _ _ _ _ Hcp).
Qed.

Lemma body_plain : List.Forall plain (url_body s n pa).
Proof.
  unfold url_body. destruct (needs_netloc s n).
  - constructor; [now apply plain_iff|]. constructor; [now apply plain_iff|].
    apply List.Forall_app. split; [apply (cp_netloc_plain _ _ _ _ _ Hcp)|].
    apply (cp_path_plain _ _ _ _ _ Hcp).
  - apply (cp_path_plain _ _ _ _ _ Hcp).
Qed.

Lemma prefix_plain : List.Forall plain (url_prefix s).
Proof.
  destruct (url_prefix_cases s) as [[_ ->]|[Hs ->]]; [constructor|].
  apply List.Forall_app. split.
  - destruct (cp_scheme _ _ _ _ _ Hcp) as [H|H]; [congruence|].
    now apply scheme_like_plain.
  - constructor; [now apply plain_iff|constructor].
Qed.

Lemma canonical_plain : List.Forall plain c.
Proof.
  unfold assembled. apply List.Forall_app. split; [apply prefix_plain|].
  apply List.Forall_app. split; [apply body_plain|apply query_plain].
Qed.

(** The body starts with a slash or with the first character of the path,
    which is no control character or space when there is no scheme. *)
Lemma body_head :
  s = [] ->
  exists b t, url_body s n pa = b :: t /\ is_c0_or_space b = false.
Proof.
  intros Hs. unfold url_body. destruct (needs_netloc s n).
  - now exists "/"%char, ("/"%char :: n ++ pa).
  - pose proof (cp_path_nonempty _ _ _ _ _ Hcp) as Hne.
    pose proof (cp_path_scheme _ _ _ _ _ Hcp Hs) as Hps.
    destruct pa as [|b t]; [congruence|].
    exists b, t. split; [reflexivity|].
    destruct (ascii_dec b "/") as [->|Hb]; [reflexivity|].
    now destruct (Hps b t eq_refl Hb).
Qed.

Lemma canonical_clean : clean c = c.
Proof.
  apply clean_id.
  - unfold assembled. destruct (url_prefix_cases s) as [[E ->]|[E ->]].
    + destruct (body_head E) as (b & t & Eb & Hb). rewrite Eb. exact Hb.
    + destruct (cp_scheme _ _ _ _ _ Hcp) as [H|[(c0 & t & H & Ha) _]]; [congruence|].
      rewrite H. cbn [List.app]. now apply alpha_not_c0.
  - eapply List.Forall_impl; [|apply canonical_plain]. now intros x [Hx _].
Qed.

Lemma not_scheme_char_break (x pre r : str) :
  x = pre ++ ":"%char :: r -> scheme_like pre ->
  break_at (fun a => negb (is_scheme_char a)) x = (pre, ":"%char :: r).
Proof.
  intros -> [_ Hs]. apply break_at_intro; [|reflexivity].
  apply List.Forall_forall. intros a Ha. rewrite List.forallb_forall in Hs.
  now rewrite (Hs a Ha).
Qed.

Lemma canonical_scheme :
  split_scheme c = (s, url_body s n pa ++ url_query q).
Proof.
  unfold assembled. destruct (url_prefix_cases s) as [[E ->]|[E ->]].
  - cbn [List.app].
    transitivity (@nil ascii, url_body s n pa ++ url_query q); [|now rewrite E].
    destruct (body_head E) as (b & t & Eb & Hb).
    destruct (is_alpha b) eqn:Ha.
    + (* the body is the path and starts with a letter *)
      assert (Hbody : url_body s n pa = pa /\ b <> "/"%char).
      { unfold url_body in *. destruct (needs_netloc s n).
        - injection Eb as <- _. discriminate.
        - split; [reflexivity|]. intros ->. discriminate. }
      destruct Hbody as [Hbody Hb']. rewrite Hbody in *.
      destruct (cp_path_scheme _ _ _ _ _ Hcp E b t Eb Hb') as [_ Hns].
      apply split_scheme_no. intros pre r Ex Hl.
      pose proof (not_scheme_char_break _ pre r Ex Hl) as Hbr.
      pose proof (break_at_app (fun a => negb (is_scheme_char a)) pa) as Happ.
      pose proof (break_at_fst (fun a => negb (is_scheme_char a)) pa) as Hfst.
      pose proof (break_at_snd (fun a => negb (is_scheme_char a)) pa) as Hsnd.
      destruct (break_at (fun a => negb (is_scheme_char a)) pa) as [a1 b1].
      cbn [fst snd] in *.
      destruct b1 as [|x b1'].
      * rewrite List.app_nil_r in Happ. rewrite <- Happ in Hbr.
        rewrite (break_at_intro _ a1 (url_query q)) in Hbr; trivial.
        -- injection Hbr as _ Hq.
           destruct (url_query_cases q) as [[_ Eq]|[_ Eq]]; rewrite Eq in Hq; discriminate.
        -- destruct (url_query_cases q) as [[_ ->]|[_ ->]]; [exact I|reflexivity].
      * rewrite <- Happ, <- List.app_assoc in Hbr.
        rewrite break_at_intro in Hbr; trivial.
        injection Hbr as E1 E2 _.
        subst a1 x. now apply (Hns pre b1' (eq_sym Happ)).
    + rewrite Eb. cbn [List.app]. now apply split_scheme_head.
  - destruct (cp_scheme _ _ _ _ _ Hcp) as [H|H]; [congruence|].
    rewrite <- List.app_assoc. cbn [List.app].
    rewrite (split_scheme_some _ _ H). now rewrite (cp_scheme_lower _ _ _ _ _ Hcp).
Qed.

Lemma needs_netloc_false : needs_netloc s n = false -> n = [].
Proof. unfold needs_netloc. destruct n; [reflexivity|discriminate]. Qed.

Lemma query_no_fragment : ~ In "#"%char (url_query q).
Proof.
  pose proof (cp_query_chars _ _ _ _ _ Hcp) as Hq. rewrite List.Forall_forall in Hq.
  destruct (url_query_cases q) as [[_ ->]|[_ ->]]; [intros []|].
  intros [H|H]; [discriminate|]. specialize (Hq _ H). discriminate.
Qed.

Lemma path_query_no_double :
  starts_with (str_of "//") (pa ++ url_query q) = false.
Proof.
  destruct (starts_with _ _) eqn:E; [|reflexivity]. exfalso.
  apply starts_double_spec in E as (t & E).
  pose proof path_no_double as Hd.
  pose proof (cp_path_nonempty _ _ _ _ _ Hcp) as Hne.
  destruct pa as [|c1 [|c2 pa']]; [congruence| |].
  - cbn [List.app] in E. injection E as -> E.
    destruct (url_query_cases q) as [[_ Eq]|[_ Eq]]; rewrite Eq in E; discriminate.
  - cbn [List.app] in E. injection E as -> -> _.
    assert (starts_with (str_of "//") ("/"%char :: "/"%char :: pa') = true)
      by (apply starts_double_spec; eauto).
    congruence.
Qed.

Lemma canonical_netloc :
  (if starts_with (str_of "//") (url_body s n pa ++ url_query q)
   then let '(netloc, r) := _splitnetloc (url_body s n pa ++ url_query q) in
        (netloc, r, netloc_ok chk netloc)
   else ([], url_body s n pa ++ url_query q, true))
  = (n, pa ++ url_query q, true).
Proof.
  unfold url_body. destruct (needs_netloc s n) eqn:En.
  - destruct (cp_path_slash _ _ _ _ _ Hcp En) as (t & Ep).
    assert (Hst : starts_with (str_of "//")
                    (("/"%char :: "/"%char :: n ++ pa) ++ url_query q) = true)
      by (apply starts_double_spec; cbn [List.app]; eauto).
    rewrite Hst. unfold _splitnetloc. cbn [List.app].
    change (List.skipn 2 ("/"%char :: "/"%char :: (n ++ pa) ++ url_query q))
      with ((n ++ pa) ++ url_query q).
    rewrite <- List.app_assoc.
    rewrite (break_at_intro _ n (pa ++ url_query q)).
    + now rewrite (cp_netloc_ok _ _ _ _ _ Hcp).
    + apply (cp_netloc_delim _ _ _ _ _ Hcp).
    + rewrite Ep. reflexivity.
  - rewrite path_query_no_double. now rewrite (needs_netloc_false En).
Qed.

Lemma canonical_tail :
  (let '(url, fragment) :=
     match split_first "#" (pa ++ url_query q) with
     | Some (a, b) => (a, b)
     | None => (pa ++ url_query q, [])
     end in
   let '(url, query) :=
     match split_first "?" url with
     | Some (a, b) => (a, b)
     | None => (url, [])
     end in
   Ok (mk_split s n url query fragment)) = Ok (mk_split s n pa q []).
Proof.
  rewrite split_first_none.
  - destruct (url_query_cases q) as [[Eq ->]|[Eq ->]].
    + rewrite List.app_nil_r.
      rewrite (split_first_none "?" pa (cp_path_query _ _ _ _ _ Hcp)). now rewrite Eq.
    + now rewrite (split_first_intro "?" pa q (cp_path_query _ _ _ _ _ Hcp)).
  - intros H. apply List.in_app_or in H as [H|H].
    + now apply (cp_path_fragment _ _ _ _ _ Hcp).
    + now apply query_no_fragment.
Qed.

Lemma canonical_urlsplit : urlsplit chk c = Ok (mk_split s n pa q []).
Proof.
  unfold urlsplit. cbv zeta. rewrite canonical_clean, canonical_scheme.
  cbv beta iota.
  match goal with
  | |- context [if starts_with ?a ?b then ?x else ?y] =>
      replace (if starts_with a b then x else y) with (n, pa ++ url_query q, true)
        by (symmetry; exact canonical_netloc)
  end.
  cbv beta iota. cbn [negb].
  exact canonical_tail.
Qed.

Lemma splitparams_none (url : str) :
  ~ In ";"%char (last_segment url) -> _splitparams url = (url, []).
Proof. intros H. unfold _splitparams. now rewrite split_first_none. Qed.

Lemma canonical_urlparse : urlparse chk c = Ok (mk_parse s n pa [] q []).
Proof.
  unfold urlparse. rewrite canonical_urlsplit. cbn [s_scheme s_netloc s_path s_query s_fragment].
  destruct (in_list s uses_params) eqn:Ep; cbn [andb]; [|reflexivity].
  destruct (chr_in pa ";"); [|reflexivity].
  now rewrite (splitparams_none pa (cp_path_params _ _ _ _ _ Hcp Ep)).
Qed.

Lemma canonical_unsplit : urlunsplit s n pa q [] = c.
Proof.
  apply urlunsplit_form; [apply path_no_double|apply (cp_path_slash _ _ _ _ _ Hcp)].
Qed.

(** A url assembled from canonical parts is its own canonical form. *)
Lemma canonical_fixed :
  canonicalize chk (urlunsplit s n pa q []) = Ok (urlunsplit s n pa q []).
Proof.
  rewrite canonical_unsplit. unfold canonicalize. rewrite canonical_urlparse.
  unfold canonical_of. cbn [scheme netloc path query]. f_equal.
  rewrite (cp_scheme_lower _ _ _ _ _ Hcp), (cp_netloc_lower _ _ _ _ _ Hcp),
    (cp_query_fixed _ _ _ _ _ Hcp).
  rewrite (path_or_slash pa (cp_path_nonempty _ _ _ _ _ Hcp)).
  rewrite (cp_path_collapsed _ _ _ _ _ Hcp).
  unfold urlunparse. apply canonical_unsplit.
Qed.

End CanonicalFixed2.

(** ** URL canonicalization: the parts of a canonical form *)

Section CanonicalParts.
Import Canonicalize.
Variable chk : str -> bool.
Hypothesis chk_lower : forall h, chk h = true -> chk (lower h) = true.

Lemma delim_lower (x : ascii) :
  chr_in (str_of "/?#") (lower_char x) = chr_in (str_of "/?#") x.
Proof. destruct x as [[] [] [] [] [] [] [] []]; reflexivity. Qed.

Lemma plainb_lower (x : ascii) : plainb (lower_char x) = plainb x.
Proof. destruct x as [[] [] [] [] [] [] [] []]; reflexivity. Qed.

Lemma plain_lower (x : ascii) : plain x -> plain (lower_char x).
Proof. rewrite !plain_iff. now rewrite plainb_lower. Qed.

Lemma with_slash_head (pa : str) : pa <> [] -> exists t, with_slash pa = "/"%char :: t.
Proof.
  destruct pa as [|c t]; [congruence|]. intros _. unfold with_slash.
  destruct (Ascii.eqb_spec c "/") as [->|]; eauto.
Qed.

Lemma with_slash_cases (pa : str) :
  with_slash pa = pa \/
  (exists c t, pa = c :: t /\ c <> "/"%char /\ with_slash pa = "/"%char :: pa).
Proof.
  destruct pa as [|c t]; [now left|]. unfold with_slash.
  destruct (Ascii.eqb_spec c "/") as [->|Hc]; [now left|right]. eauto.
Qed.

Lemma with_slash_no_double (pa : str) :
  starts_with (str_of "//") pa = false ->
  starts_with (str_of "//") (with_slash pa) = false.
Proof.
  intros H. destruct (with_slash_cases pa) as [->|(c & t & -> & Hc & ->)]; trivial.
  destruct (starts_with (str_of "//") ("/"%char :: c :: t)) eqn:E; [|reflexivity].
  apply starts_double_spec in E as (t' & E). congruence.
Qed.

Lemma with_slash_idem (pa : str) : with_slash (with_slash pa) = with_slash pa.
Proof.
  destruct (with_slash_cases pa) as [E|(c & t & -> & Hc & ->)]; [now rewrite !E|].
  reflexivity.
Qed.

Lemma with_slash_collapsed (pa : str) :
  collapse_slashes pa = pa -> collapse_slashes (with_slash pa) = with_slash pa.
Proof.
  intros H. destruct (with_slash_cases pa) as [->|(c & t & -> & Hc & ->)]; trivial.
  rewrite collapse_slash_other by assumption.
  rewrite collapse_cons_other in H by assumption. injection H as H. now rewrite H.
Qed.

Lemma last_segment_with_slash (pa : str) :
  pa <> [] -> last_segment (with_slash pa) = last_segment pa.
Proof.
  intros Hne. destruct (with_slash_cases pa) as [->|(c & t & E & Hc & ->)]; trivial.
  unfold last_segment.
  destruct (in_dec ascii_dec "/"%char pa) as [Hin|Hnin].
  - now apply after_last_cons_in.
  - rewrite after_last_last by assumption. symmetry. now apply after_last_no.
Qed.

Lemma urlunsplit_slash (s n pa q : str) :
  starts_with (str_of "//") pa = false ->
  urlunsplit s n pa q [] =
  urlunsplit s n (if needs_netloc s n then with_slash pa else pa) q [].
Proof.
  intros H. unfold urlunsplit, needs_netloc.
  pose proof (with_slash_no_double pa H) as Hw.
  pose proof (with_slash_idem pa) as Hi. unfold with_slash in Hi at 1.
  destruct n as [|n0 n'], s as [|s0 s']; rewrite ?H; cbn [negb]; rewrite ?andb_true_r.
  - reflexivity.
  - destruct (in_list (s0 :: s') uses_netloc); [|now rewrite H].
    rewrite Hw, Hi. reflexivity.
  - rewrite Hi. reflexivity.
  - rewrite Hi. reflexivity.
Qed.

Lemma prefix_of_app (P : ascii -> Prop) (a b : str) :
  List.Forall P (a ++ b) -> List.Forall P a.
Proof. intros H. now apply List.Forall_app in H as [H _]. Qed.

(** The canonical form of a parsed ASCII url is assembled from canonical
    parts. *)
Lemma parse_parts (u : str) (p : ParseResult) :
  is_ascii u -> urlparse chk u = Ok p ->
  exists s n pa q,
    canonical_of p = urlunsplit s n pa q [] /\ canonical_parts chk s n pa q.
Proof.
  intros Hu Hp.
  destruct (urlparse_split chk u p Hp) as (r & Hr & Es & En & Eq & Hpath).
  destruct (urlsplit_facts chk u r Hu Hr)
    as (rest & rest2 & tail & Hsch & Hrest & Hnet & Erest2 & Htail & Hnq & Hnf & Hqpl).
  rewrite <- Es, <- En, <- Eq in *. clear Es En Eq.
  set (s := lower (scheme p)). set (n := lower (netloc p)).
  set (po := match path p with [] => str_of "/" | _ :: _ => path p end).
  set (pa := collapse_slashes po).
  set (q := urlencode (sorted (query_pairs (query p)))).
  set (pa2 := if needs_netloc s n then with_slash pa else pa).
  (* the scheme *)
  pose proof (split_scheme_scheme (clean u)) as Hss. rewrite Hsch in Hss. cbn [fst snd] in Hss.
  assert (Hs : s = scheme p).
  { unfold s. destruct Hss as [[-> _]|(_ & E & _)]; [reflexivity|exact E]. }
  (* the path is a prefix of what follows the netloc *)
  assert (Hpre : exists tail', rest2 = path p ++ tail').
  { destruct Hpath as [[E _]|[E _]].
    - exists tail. now rewrite E.
    - exists (";"%char :: params p ++ tail). rewrite Erest2, E.
      now rewrite <- List.app_assoc. }
  destruct Hpre as (tail' & Epre).
  assert (Hrest2 : List.Forall plain rest2).
  { destruct Hnet as [(E & _)|(_ & _ & ->)]; [|exact Hrest].
    rewrite E in Hrest. inversion Hrest as [|? ? _ H1]; subst.
    inversion H1 as [|? ? _ H2]; subst. now apply List.Forall_app in H2 as [_ ?]. }
  assert (Hpp : List.Forall plain (path p))
    by (rewrite Epre in Hrest2; exact (prefix_of_app _ _ _ Hrest2)).
  assert (Hpq : ~ In "?"%char (path p) /\ ~ In "#"%char (path p)).
  { destruct Hpath as [[E _]|[E _]]; [now rewrite E|].
    rewrite E in Hnq, Hnf. split; intros H; [apply Hnq|apply Hnf];
      apply List.in_or_app; now left. }
  destruct Hpq as [Hpq Hpf].
  assert (Hpo_ne : po <> []) by (unfold po; destruct (path p); discriminate).
  assert (Hpo_plain : List.Forall plain po).
  { unfold po. destruct (path p); [|exact Hpp].
    constructor; [now apply plain_iff|constructor]. }
  assert (Hpo_q : ~ In "?"%char po /\ ~ In "#"%char po).
  { unfold po. destruct (path p); [|now split].
    split; intros [H|[]]; discriminate. }
  assert (Hpa_ne : pa <> []) by (intros H; apply Hpo_ne; now apply collapse_nil).
  assert (Hpa_d : starts_with (str_of "//") pa = false) by apply collapse_no_double.
  assert (Hpa2_cases : pa2 = pa \/ (needs_netloc s n = true /\ pa2 = with_slash pa)).
  { unfold pa2. destruct (needs_netloc s n); auto. }
  assert (Hin2 : forall x, In x pa2 -> x = "/"%char \/ In x po).
  { intros x Hx. destruct Hpa2_cases as [E|[_ E]]; rewrite E in Hx.
    - right. now apply collapse_In.
    - destruct (with_slash_cases pa) as [E'|(c0 & t0 & _ & _ & E')]; rewrite E' in Hx.
      + right. now apply collapse_In.
      + destruct Hx as [<-|Hx]; [now left|right; now apply collapse_In]. }
  exists s, n, pa2, q. split.
  { unfold canonical_of, urlunparse. fold s n po pa q. now apply urlunsplit_slash. }
  constructor.
  - (* cp_scheme *)
    rewrite Hs. destruct Hss as [[E _]|(H & _)]; auto.
  - apply lower_idem.
  - (* cp_netloc_delim *)
    apply Forall_lower; [intros x; now rewrite delim_lower|].
    destruct Hnet as [(_ & H & _)|(_ & -> & _)]; [exact H|constructor].
  - (* cp_netloc_plain *)
    apply Forall_lower; [exact plain_lower|].
    destruct Hnet as [(E & _)|(_ & -> & _)]; [|constructor].
    rewrite E in Hrest. inversion Hrest as [|? ? _ H1]; subst.
    inversion H1 as [|? ? _ H2]; subst. now apply List.Forall_app in H2 as [? _].
  - (* cp_netloc_ok *)
    apply netloc_ok_lower; [exact chk_lower|].
    destruct Hnet as [(_ & _ & H & _)|(_ & -> & _)]; [exact H|reflexivity].
  - apply lower_idem.
  - (* cp_path_nonempty *)
    destruct Hpa2_cases as [->|[_ ->]]; trivial.
    destruct (with_slash_head pa Hpa_ne) as (t & ->). discriminate.
  - (* cp_path_collapsed *)
    destruct Hpa2_cases as [->|[_ ->]]; [apply collapse_idem|].
    apply with_slash_collapsed, collapse_idem.
  - (* cp_path_plain *)
    apply List.Forall_forall. intros x Hx. destruct (Hin2 x Hx) as [->|H].
    + now apply plain_iff.
    + rewrite List.Forall_forall in Hpo_plain. auto.
  - intros H. destruct (Hin2 _ H) as [E|H']; [discriminate|]. now apply Hpo_q.
  - intros H. destruct (Hin2 _ H) as [E|H']; [discriminate|]. now apply Hpo_q.
  - (* cp_path_slash *)
    intros Hn. unfold pa2. rewrite Hn. now apply with_slash_head.
  - (* cp_path_params *)
    intros Hup.
    assert (Hl : last_segment pa2 = last_segment po).
    { destruct Hpa2_cases as [->|[_ ->]].
      - apply last_segment_collapse.
      - rewrite last_segment_with_slash by assumption. apply last_segment_collapse. }
    rewrite Hl. unfold po. destruct (path p) as [|p0 p'] eqn:Ep.
    + intros [].
    + rewrite Hs in Hup.
      destruct Hpath as [[_ H]|[_ H]]; auto.
  - (* cp_path_scheme *)
    intros Hs0 c t Ec Hc.
    assert (Hsp : scheme p = []) by (rewrite <- Hs; exact Hs0).
    assert (Epa : pa2 = pa).
    { destruct Hpa2_cases as [E|[_ E]]; trivial.
      destruct (with_slash_head pa Hpa_ne) as (t' & E'). congruence. }
    rewrite Epa in *.
    (* the path itself starts with [c] *)
    assert (Epo : po = path p /\ exists t', path p = c :: t').
    { unfold pa in Ec. unfold po in *. destruct (path p) as [|p0 p'].
      - cbn in Ec. congruence.
      - split; [reflexivity|].
        destruct (Ascii.eqb_spec p0 "/") as [->|Hp0].
        + destruct (collapse_head_slash p') as (t' & E' & _). congruence.
        + rewrite collapse_cons_other in Ec by assumption. injection Ec as -> _. eauto. }
    destruct Epo as [Epo (t' & Ept)].
    (* so no netloc was split off and the cleaned url starts with the path *)
    assert (Hclean : clean u = path p ++ tail').
    { destruct Hss as [[_ Erest]|([(c0 & t0 & E0 & _) _] & _)]; [|congruence].
      destruct Hnet as [(_ & _ & _ & Hh)|(_ & _ & E2)].
      - exfalso. rewrite Epre, Ept in Hh. cbn [List.app] in Hh.
        assert (Hin : In c (path p)) by (rewrite Ept; now left).
        destruct (Ascii.eqb_spec c "/") as [|_]; [contradiction|].
        destruct (Ascii.eqb_spec c "?") as [->|_]; [contradiction|].
        destruct (Ascii.eqb_spec c "#") as [->|_]; [contradiction|].
        unfold chr_in in Hh. cbn in Hh.
        destruct (Ascii.eqb_spec c "/"); [contradiction|].
        destruct (Ascii.eqb_spec c "?"); [subst; contradiction|].
        destruct (Ascii.eqb_spec c "#"); [subst; contradiction|]. discriminate.
      - now rewrite <- Erest, <- E2. }
    split.
    + pose proof (clean_head u) as Hh. rewrite Hclean, Ept in Hh. exact Hh.
    + intros pre r0 E Hl.
      assert (Hnp : ~ In "/"%char pre) by exact (scheme_chars_no "/" pre eq_refl (proj2 Hl)).
      unfold pa in E. rewrite Epo in E.
      destruct (collapse_prefix_inv pre ":" r0 (path p) Hnp) as (r' & Er');
        [discriminate|exact E|].
      apply (split_scheme_nil (clean u) pre (r' ++ tail')); trivial.
      * rewrite Hsch. exact Hsp.
      * rewrite Hclean, Er'. now rewrite <- List.app_assoc.
  - apply urlencode_chars.
  - apply query_fixed. unfold is_ascii.
    eapply List.Forall_impl; [|exact Hqpl]. now intros x [_ Hx].
Qed.

End CanonicalParts.

(** ** URL canonicalization: the two properties *)

Section CanonicalizeString.
Import Canonicalize.

Lemma is_ascii_forallb (s : str) :
  List.forallb (fun c => (code c <? 128)%nat) s = true -> is_ascii s.
Proof.
  intros H. apply List.Forall_forall. intros c Hc.
  rewrite List.forallb_forall in H. apply Nat.ltb_lt. auto.
Qed.

Lemma canonicalize_fixed (chk : str -> bool) (u c : str) :
  (forall h, chk h = true -> chk (lower h) = true) ->
  is_ascii u -> canonicalize chk u = Ok c -> canonicalize chk c = Ok c.
Proof.
  intros Hchk Hu H. unfold canonicalize in H.
  destruct (urlparse chk u) as [p|] eqn:Ep; [|discriminate]. injection H as <-.
  destruct (parse_parts chk Hchk u p Hu Ep) as (s & n & pa & q & -> & Hcp).
  now apply canonical_fixed.
Qed.

Lemma canonicalize_equal (chk : str -> bool) (u1 u2 : str) (p1 p2 : ParseResult) :
  urlparse chk u1 = Ok p1 -> urlparse chk u2 = Ok p2 ->
  lower (scheme p1) = lower (scheme p2) ->
  lower (netloc p1) = lower (netloc p2) ->
  path p1 = path p2 ->
  Permutation (query_pairs (query p1)) (query_pairs (query p2)) ->
  canonicalize chk u1 = canonicalize chk u2.
Proof.
  intros H1 H2 Hs Hn Hp Hq. unfold canonicalize. rewrite H1, H2. f_equal.
  unfold canonical_of. now rewrite Hs, Hn, Hp, (sorted_permutation _ _ Hq).
Qed.

End CanonicalizeString.






(** ** Worked examples *)

(** Two documents labelled "oil" and five labelled "grain" that all contain
    "wheat": the lexicon has the category "grain" only, with the term "wheat"
    at a positive weight. *)
Example build_lexicon_grain_only :
  let fit := fun (_ : Z) (_ : option string) (_ : list string) =>
    Ok ([[1; 0]; [1; 0]; [0; 1]; [0; 1]; [0; 1]; [0; 1]; [0; 1]]%Q,
        ["oil"; "wheat"]%string) in
  let texts := ["a"; "b"; "c"; "d"; "e"; "f"; "g"]%string in
  let labels := [["oil"]; ["oil"]; ["grain"]; ["grain"]; ["grain"]; ["grain"]; ["grain"]]%string in
  match ReutersBuildLexicon.build_lexicon fit texts labels 200 1 "none" with
  | Ok ([(c, [(t, w)])], _) => c = "grain"%string /\ t = "wheat"%string /\ (0 < w)%Q
  | _ => False
  end.
Proof. vm_compute. repeat split. Qed.

(** A token sequence that matches one category only. *)
Example score_row_single_match :
  ScoreAndLabel.score_row (fun _ => ["wheat"; "harvest"]%string) "wheat harvest"
    [("oil"%string, {[ "crude"%string := 3%Q ]});
     ("grain"%string, {[ "wheat"%string := 2%Q; "wheat harvest"%string := 1%Q ]})]
  = ("grain"%string, [("grain"%string, (0 + 2 + 1)%Q)]).
Proof. vm_compute. reflexivity. Qed.

(** * Further properties *)

(** ** The frontier as a queue *)

Section FrontierOrder.
Import StateDB.

Local Abbreviation ascending_ids := (StronglySorted (fun a b : row => id a < id b)).

Lemma db_eta (d : db) : {| queue := queue d; seq := seq d |} = d.
Proof. now destruct d. Qed.

Lemma delete_id_length (q : list row) (r : row) :
  List.NoDup (List.map id q) -> In r q ->
  List.length q = S (List.length (delete_id (id r) q)).
Proof.
  intros Hnd Hin.
  exact (Permutation_length (delete_id_perm q r Hnd Hin)).
Qed.

(** Popping as many times as there are rows hands out every row of a
    well-formed store, smallest id first. *)
Lemma pops_drain (n : nat) (d : db) :
  wf d -> List.length (queue d) = n ->
  Permutation (fst (run (pops n) d)) (queue d) /\
  ascending_ids (fst (run (pops n) d)) /\
  queue (snd (run (pops n) d)) = [].
Proof.
  revert d. induction n as [|n IH]; intros d Hwf Hlen.
  - destruct (queue d) eqn:E; [|discriminate]. simpl. rewrite E.
    repeat split; constructor.
  - cbn [pops List.repeat run]. fold (pops n).
    pose proof (wf_pop_row d Hwf) as Hwf'. unfold pop_row in *.
    destruct (select_first (queue d)) as [r|] eqn:E.
    2:{ apply select_first_nil in E. rewrite E in Hlen. discriminate. }
    pose proof (select_first_In _ _ E) as Hr.
    pose proof (select_first_min _ _ E) as Hmin.
    cbn [snd] in Hwf'.
    set (d' := {| queue := delete_id (id r) (queue d); seq := seq d |}) in *.
    assert (Hlen' : List.length (queue d') = n).
    { pose proof (delete_id_length (queue d) r (wf_ids d Hwf) Hr). simpl. lia. }
    destruct (IH d' Hwf' Hlen') as (Hp & Hs & He).
    destruct (run (pops n) d') as [out d''] eqn:R. cbn [fst snd] in *.
    repeat split; trivial.
    + rewrite (delete_id_perm (queue d) r (wf_ids d Hwf) Hr).
      now apply perm_skip.
    + constructor; trivial.
      apply List.Forall_forall. intros x Hx.
      apply (Permutation_in _ Hp) in Hx. apply delete_id_In in Hx as [Hx Hne].
      specialize (Hmin x Hx). lia.
Qed.

Lemma select_first_head (r : row) (q : list row) :
  ascending_ids (r :: q) -> select_first (r :: q) = Some r.
Proof.
  intros H. inversion H as [|? ? _ Hall]; subst. simpl.
  destruct (select_first q) as [m|] eqn:E; [|reflexivity].
  apply select_first_In in E. rewrite List.Forall_forall in Hall.
  specialize (Hall m E). destruct (Z.leb_spec (id r) (id m)); [reflexivity|lia].
Qed.

Lemma delete_id_head (r : row) (q : list row) :
  ascending_ids (r :: q) -> delete_id (id r) (r :: q) = q.
Proof.
  intros H. inversion H as [|? ? _ Hall]; subst. unfold delete_id. simpl.
  rewrite Z.eqb_refl. simpl.
  clear H. induction q as [|x q IHq]; [reflexivity|].
  inversion Hall as [|? ? Hx Hq]; subst. simpl.
  destruct (Z.eqb_spec (id x) (id r)); [lia|]. simpl. now rewrite IHq.
Qed.

(** On a queue in ascending id order, pops take the rows from the front. *)
Lemma pops_front (n : nat) (d : db) :
  ascending_ids (queue d) ->
  run (pops n) d =
    (List.firstn n (queue d), {| queue := List.skipn n (queue d); seq := seq d |}).
Proof.
  revert d. induction n as [|n IH]; intros d Hs.
  - destruct d. reflexivity.
  - cbn [pops List.repeat run]. fold (pops n). unfold pop_row.
    destruct (queue d) as [|r q] eqn:E.
    + simpl. rewrite IH by (rewrite E; constructor). rewrite E.
      now rewrite List.firstn_nil, List.skipn_nil.
    + rewrite (select_first_head r q Hs), (delete_id_head r q Hs).
      rewrite IH by (simpl; now inversion Hs). reflexivity.
Qed.

Lemma run_app (a b : list op) (d : db) :
  run (a ++ b) d =
    (fst (run a d) ++ fst (run b (snd (run a d))), snd (run b (snd (run a d)))).
Proof.
  revert d. induction a as [|o a IH]; intros d; simpl.
  - now destruct (run b d).
  - destruct o as [u dep src rt now|].
    + apply IH.
    + destruct (pop_row d) as [[r|] d']; [|apply IH].
      rewrite IH. now destruct (run a d').
Qed.

(** Pushing rows with new, pairwise distinct urls appends them in order. *)
Lemma pushes_append (items : list (string * Z * string * string * Z)) (d : db) :
  ascending_ids (queue d) ->
  List.Forall (fun r => id r <= seq d) (queue d) ->
  List.NoDup (List.map url (queue d) ++ List.map (fun i => fst (fst (fst (fst i)))) items) ->
  fst (run (pushes items) d) = [] /\
  ascending_ids (queue (snd (run (pushes items) d))) /\
  List.map item_of (queue (snd (run (pushes items) d)))
    = List.map item_of (queue d) ++ List.map fst items.
Proof.
  revert d. induction items as [|[[[[u dep] src] rt] now] items IH]; intros d Hs Hseq Hnd.
  - simpl. rewrite List.app_nil_r. auto.
  - cbn [pushes List.map run]. fold (pushes items).
    assert (Hu : url_exists u (queue d) = false).
    { destruct (url_exists u (queue d)) eqn:E; [|reflexivity].
      apply url_exists_true in E as (r & Hr & Er).
      apply List.NoDup_remove_2 in Hnd. cbn [fst] in Hnd. exfalso. apply Hnd.
      apply List.in_or_app. left. rewrite <- Er. now apply List.in_map. }
    unfold push. rewrite Hu.
    set (d1 := {| queue := queue d ++ [mk_row (seq d + 1) u dep src rt now];
                  seq := seq d + 1 |}).
    destruct (IH d1) as (Ho & Hs1 & Hm).
    + simpl. clear -Hs Hseq. induction (queue d) as [|x q IHq]; simpl.
      * repeat constructor.
      * inversion Hs; subst. inversion Hseq; subst. constructor; [now apply IHq|].
        apply List.Forall_app. split; trivial. repeat constructor. simpl. lia.
    + simpl. apply List.Forall_app. split.
      * eapply List.Forall_impl; [|exact Hseq]. simpl. intros. lia.
      * repeat constructor. simpl. lia.
    + simpl. rewrite List.map_app. simpl. rewrite <- List.app_assoc. simpl.
      exact Hnd.
    + repeat split; trivial. rewrite Hm. simpl. rewrite List.map_app.
      rewrite <- List.app_assoc. reflexivity.
Qed.

End FrontierOrder.

(** X1. Popping a well-formed store as many times as it has rows hands out
    every row exactly once, in strictly ascending order of id (oldest first),
    and leaves the queue empty, so that the next [pop] returns None. *)
Theorem pops_drain_in_id_order (d : StateDB.db) (Hwf : StateDB.wf d) :
  let n := List.length (StateDB.queue d) in
  let out := fst (StateDB.run (StateDB.pops n) d) in
  let d' := snd (StateDB.run (StateDB.pops n) d) in
  Permutation out (StateDB.queue d) /\
  StronglySorted (fun a b => StateDB.id a < StateDB.id b) out /\
  StateDB.queue d' = [] /\
  StateDB.pop d' = (None, d').
Proof.
  intros n out d'.
  destruct (pops_drain n d Hwf eq_refl) as (Hp & Hs & He).
  repeat split; trivial.
  subst d'. unfold StateDB.pop, StateDB.pop_row. now rewrite He.
Qed.

Lemma pops_drain_in_id_order_witness :
  List.map StateDB.url
    (fst (StateDB.run (StateDB.pops (List.length (StateDB.queue two_rows))) two_rows))
  = ["http://a/"; "http://b/"]%string /\
  StronglySorted (fun a b => StateDB.id a < StateDB.id b)
    (fst (StateDB.run (StateDB.pops (List.length (StateDB.queue two_rows))) two_rows)).
Proof.
  split; [reflexivity|].
  exact (proj1 (proj2 (pops_drain_in_id_order two_rows two_rows_wf))).
Defined.

(** X2. First in, first out: pushing items with pairwise distinct urls into
    a store whose queue is empty and then popping as many times returns
    exactly those items (url, depth, source, record_type) in the order in
    which they were pushed, and leaves the queue empty. *)
Theorem push_pop_fifo (d : StateDB.db)
    (items : list (string * Z * string * string * Z))
    (Hempty : StateDB.queue d = [])
    (Hdistinct : List.NoDup (List.map (fun i => fst (fst (fst (fst i)))) items)) :
  let r := StateDB.run (StateDB.pushes items ++ StateDB.pops (List.length items)) d in
  List.map StateDB.item_of (fst r) = List.map fst items /\
  StateDB.queue (snd r) = [].
Proof.
  intros r. subst r. rewrite run_app.
  destruct (pushes_append items d) as (Ho & Hs & Hm).
  - rewrite Hempty. constructor.
  - rewrite Hempty. constructor.
  - rewrite Hempty. exact Hdistinct.
  - rewrite Ho, Hempty in *. simpl in Hm. cbn [fst snd List.app].
    rewrite (pops_front _ _ Hs). cbn [fst snd StateDB.queue].
    assert (Hl : List.length (StateDB.queue (snd (StateDB.run (StateDB.pushes items) d)))
                 = List.length items).
    { rewrite <- (List.length_map StateDB.item_of), Hm. apply List.length_map. }
    rewrite <- Hl, List.firstn_all, List.skipn_all. split; [exact Hm|reflexivity].
Qed.

Lemma push_pop_fifo_witness :
  List.map StateDB.item_of
    (fst (StateDB.run
            (StateDB.pushes [("http://b/", 0, "s", "news", 7); ("http://a/", 1, "s", "news", 7)]%string
             ++ StateDB.pops 2) StateDB.empty))
  = [("http://b/", 0, "s", "news"); ("http://a/", 1, "s", "news")]%string.
Proof.
  refine (proj1 (push_pop_fifo StateDB.empty
            [("http://b/", 0, "s", "news", 7); ("http://a/", 1, "s", "news", 7)]%string
            eq_refl _)).
  repeat constructor; simpl; intuition discriminate.
Defined.

(** ** The table of seen url hashes *)

Section SeenFacts.
Import StateDB.

Lemma is_seen_In (t : seen_url) (h : string) : is_seen t h = true <-> In h t.
Proof.
  unfold is_seen. rewrite List.existsb_exists. split.
  - intros (x & Hx & E). apply String.eqb_eq in E. now subst.
  - intros H. exists h. split; trivial. apply String.eqb_refl.
Qed.

Lemma mark_seen_In (t : seen_url) (h k : string) :
  In k (mark_seen t h) <-> In k t \/ k = h.
Proof.
  unfold mark_seen. destruct (List.existsb (String.eqb h) t) eqn:E.
  - split; [auto|]. intros [H| ->]; trivial. now apply is_seen_In.
  - rewrite List.in_app_iff. simpl. intuition.
Qed.

Lemma mark_seen_NoDup (t : seen_url) (h : string) :
  List.NoDup t -> List.NoDup (mark_seen t h).
Proof.
  intros Hnd. unfold mark_seen. destruct (List.existsb (String.eqb h) t) eqn:E; trivial.
  apply List.NoDup_app. repeat split; trivial.
  - repeat constructor. intros [].
  - intros x Hx [->|[]].
    assert (is_seen t x = true) by now apply is_seen_In.
    unfold is_seen in *. congruence.
Qed.

End SeenFacts.

(** X3. The seen-set is an insert-or-ignore set of hashes: after any
    sequence of [mark_seen] calls on the empty table, [is_seen] answers true
    exactly for the hashes that were marked, the table holds no hash twice,
    and marking a hash that is already there changes nothing. *)
Theorem seen_marks_exactly (hs : list string) :
  let t := List.fold_left StateDB.mark_seen hs [] in
  (forall h, StateDB.is_seen t h = true <-> In h hs) /\
  List.NoDup t /\
  (forall h, In h hs -> StateDB.mark_seen t h = t).
Proof.
  intros t.
  assert (H : forall t0, List.NoDup t0 ->
            (forall h, In h (List.fold_left StateDB.mark_seen hs t0) <-> In h t0 \/ In h hs) /\
            List.NoDup (List.fold_left StateDB.mark_seen hs t0)).
  { induction hs as [|x hs IH]; intros t0 Hnd; simpl.
    - split; [intuition|trivial].
    - destruct (IH (StateDB.mark_seen t0 x) (mark_seen_NoDup t0 x Hnd)) as [Hi Hn].
      split; trivial. intros h. rewrite Hi, mark_seen_In. intuition. }
  destruct (H [] (List.NoDup_nil _)) as [Hi Hn]. fold t in Hi, Hn.
  assert (Hs : forall h, StateDB.is_seen t h = true <-> In h hs).
  { intros h. rewrite is_seen_In, Hi. simpl. intuition. }
  repeat split; trivial; try apply Hs.
  intros h Hh. unfold StateDB.mark_seen.
  apply Hs in Hh. unfold StateDB.is_seen in Hh. now rewrite Hh.
Qed.

(** ** The page budget once it is reached *)

(** X4. The per-domain counters never go down, so the budget guard is
    sticky: once [MAX_PAGES_PER_DOMAIN] items of a domain have been popped,
    the guard stays on after any further seed, push and pop calls, and every
    later [push] of a url of that domain returns without touching the store
    or the counters. *)
Theorem budget_stays_reached (_domain : string -> option string)
    (q : CrawlQueue.t) (dom : string)
    (Hfull : CrawlQueue.budget_reached q dom = true)
    (cs : list CrawlQueue.call) :
  let q' := snd (CrawlQueue.exec _domain cs q) in
  (CrawlQueue.count_of q dom <= CrawlQueue.count_of q' dom)%nat /\
  CrawlQueue.budget_reached q' dom = true /\
  (forall u dp s r now,
     _domain u = Some dom -> CrawlQueue.push _domain q' u dp s r now = (Ok tt, q')).
Proof.
  intros q'.
  assert (Hle : (CrawlQueue.count_of q dom <= CrawlQueue.count_of q' dom)%nat).
  { unfold q'. rewrite exec_counts. lia. }
  assert (Hq' : CrawlQueue.budget_reached q' dom = true).
  { unfold CrawlQueue.budget_reached in *. apply Nat.leb_le in Hfull.
    apply Nat.leb_le. lia. }
  repeat split; trivial.
  intros u dp s r now Hd. unfold CrawlQueue.push. rewrite Hd.
  unfold CrawlQueue.budget_reached in Hq'. now rewrite Hq'.
Qed.

Lemma budget_stays_reached_witness :
  let _domain := fun _ : string => Some "ex.com"%string in
  let q := CrawlQueue.mk StateDB.empty {[ "ex.com"%string := 200%nat ]} in
  let q' := snd (CrawlQueue.exec _domain
                   [CrawlQueue.Seed "http://ex.com/" "ex.com" "news" 1; CrawlQueue.PopC] q) in
  CrawlQueue.push _domain q' "http://ex.com/a" 1 "ex.com" "news" 2 = (Ok tt, q').
Proof.
  intros _domain q q'.
  apply (proj2 (proj2 (budget_stays_reached _domain q "ex.com" eq_refl
           [CrawlQueue.Seed "http://ex.com/" "ex.com" "news" 1; CrawlQueue.PopC]))).
  reflexivity.
Defined.

(** ** The fetcher: when it returns and when it gives up *)

Section FetchFacts.
Import Downloader.

Lemma sleep_backoff (k : nat) : sleep_if_positive (backoff_of k) = [backoff_of k].
Proof.
  unfold sleep_if_positive. destruct (Qlt_le_dec 0 (backoff_of k)) as [|H]; [reflexivity|].
  exfalso. unfold backoff_of in H.
  pose proof (Q.le_max_l 1 (BACKOFF_BASE ^ Z.of_nat k)). lra.
Qed.

Lemma fetch_loop_retried (fuel : nat) (server : nat -> attempt_outcome)
    (a : nat) (b : Q) :
  (a <= RETRY_MAX)%nat -> retried (server a) = true ->
  fetch_loop (S fuel) server a b =
    (sleep_if_positive b ++ fst (fetch_loop fuel server (S a) (backoff_of (S a))),
     snd (fetch_loop fuel server (S a) (backoff_of (S a)))).
Proof.
  intros Hle Hr. cbn [fetch_loop]. apply Nat.leb_le in Hle. rewrite Hle.
  unfold retried in Hr. fold (backoff_of (S a)).
  destruct (server a) as [code ra fu text| |].
  - apply andb_prop in Hr as [H2 Hc]. apply negb_true_iff in H2. rewrite H2, Hc.
    now destruct (fetch_loop fuel server (S a) (backoff_of (S a))).
  - now destruct (fetch_loop fuel server (S a) (backoff_of (S a))).
  - now destruct (fetch_loop fuel server (S a) (backoff_of (S a))).
Qed.

Lemma fetch_loop_final (fuel : nat) (server : nat -> attempt_outcome)
    (a : nat) (b : Q) :
  (a <= RETRY_MAX)%nat -> retried (server a) = false ->
  exists code ra fu text,
    server a = Response code ra fu text /\
    fetch_loop (S fuel) server a b = (sleep_if_positive b, Some (code, fu, text)).
Proof.
  intros Hle Hr. cbn [fetch_loop]. apply Nat.leb_le in Hle. rewrite Hle.
  unfold retried in Hr.
  destruct (server a) as [code ra fu text| |]; try discriminate.
  exists code, ra, fu, text. split; [reflexivity|].
  destruct ((200 <=? code) && (code <? 300)); [reflexivity|].
  simpl in Hr. now rewrite Hr.
Qed.

(** [j] retried attempts from attempt [a] on, then a final response. *)
Lemma fetch_loop_until (server : nat -> attempt_outcome) (j a fuel : nat) (b : Q) :
  (a + j <= RETRY_MAX)%nat -> (j < fuel)%nat ->
  (forall i, (a <= i < a + j)%nat -> retried (server i) = true) ->
  retried (server (a + j)%nat) = false ->
  exists code ra fu text,
    server (a + j)%nat = Response code ra fu text /\
    fetch_loop fuel server a b =
      (sleep_if_positive b ++ List.map backoff_of (List.seq (S a) j),
       Some (code, fu, text)).
Proof.
  revert a fuel b. induction j as [|j IH]; intros a fuel b Hle Hf Hall Hfin.
  - destruct fuel as [|fuel]; [lia|]. rewrite Nat.add_0_r in *.
    destruct (fetch_loop_final fuel server a b Hle Hfin) as (code & ra & fu & text & Es & E).
    exists code, ra, fu, text. split; trivial. rewrite E. simpl. now rewrite List.app_nil_r.
  - destruct fuel as [|fuel]; [lia|].
    rewrite fetch_loop_retried by (try apply Hall; lia).
    replace (a + S j)%nat with (S a + j)%nat in * by lia.
    destruct (IH (S a) fuel (backoff_of (S a))) as (code & ra & fu & text & Es & E);
      try lia; trivial.
    { intros i Hi. apply Hall. lia. }
    exists code, ra, fu, text. split; trivial. rewrite E. cbn [fst snd].
    now rewrite sleep_backoff.
Qed.

(** Retried attempts from attempt [a] up to the last one allowed. *)
Lemma fetch_loop_exhaust (server : nat -> attempt_outcome) (j a fuel : nat) (b : Q) :
  (a + j = RETRY_MAX)%nat -> (S j < fuel)%nat ->
  (forall i, (a <= i <= RETRY_MAX)%nat -> retried (server i) = true) ->
  fetch_loop fuel server a b =
    (sleep_if_positive b ++ List.map backoff_of (List.seq (S a) j), None).
Proof.
  revert a fuel b. induction j as [|j IH]; intros a fuel b Hle Hf Hall.
  - destruct fuel as [|[|fuel]]; try lia.
    rewrite fetch_loop_retried by (try apply Hall; lia).
    cbn [fetch_loop]. destruct (Nat.leb_spec (S a) RETRY_MAX); [lia|].
    simpl. reflexivity.
  - destruct fuel as [|fuel]; [lia|].
    rewrite fetch_loop_retried by (try apply Hall; lia).
    rewrite (IH (S a) fuel (backoff_of (S a))); try lia.
    + cbn [fst snd]. now rewrite sleep_backoff.
    + intros i Hi. apply Hall. lia.
Qed.

End FetchFacts.

(** X5. [fetch] hands back the first response that is not retried: when the
    attempts [0 .. k-1] end in a retriable status (429, 503, 502, 500, 408),
    a timeout or another request error, and attempt [k <= RETRY_MAX] gets
    any other response, [fetch] returns the status, final url and text of
    that response, having slept [max(1, BACKOFF_BASE ** i)] seconds before
    each attempt [i = 1 .. k] and nothing else. *)
Theorem fetch_returns_first_final (server : nat -> Downloader.attempt_outcome) (k : nat)
    (Hk : (k <= RETRY_MAX)%nat)
    (Hretried : forall i, (i < k)%nat -> Downloader.retried (server i) = true)
    (Hfinal : Downloader.retried (server k) = false) :
  exists code ra final_url text,
    server k = Downloader.Response code ra final_url text /\
    Downloader.fetch server = (Downloader.backoffs k, Some (code, final_url, text)).
Proof.
  destruct (fetch_loop_until server k 0 (S (S RETRY_MAX)) 0)
    as (code & ra & fu & text & Es & E); trivial.
  - unfold RETRY_MAX in *. lia.
  - intros i Hi. apply Hretried. lia.
  - exists code, ra, fu, text. split; trivial.
Qed.

Lemma fetch_returns_first_final_witness :
  let server := fun i : nat =>
    if (i <? 2)%nat then Downloader.Timeout
    else Downloader.Response 404 Downloader.RA_absent "http://ex.com/x" "gone" in
  exists code ra final_url text,
    server 2%nat = Downloader.Response code ra final_url text /\
    Downloader.fetch server = (Downloader.backoffs 2, Some (code, final_url, text)).
Proof.
  intros server. apply (fetch_returns_first_final server 2).
  - unfold RETRY_MAX. lia.
  - intros [|[|i]] Hi; try reflexivity. lia.
  - reflexivity.
Defined.

(** X6. Whatever the server does, [fetch] ends after at most
    [RETRY_MAX + 1] requests: its sleeps are the first [k] of 1.8, 3.24 and
    5.832 seconds for some [k <= RETRY_MAX], [k] being the number of
    attempts that were retried before the one that ended the call. It gives
    up, returning [(None, None, None)], exactly when all [RETRY_MAX + 1]
    attempts ended in a retriable status, a timeout or a request error, and
    it has then slept 1.8, 3.24 and 5.832 seconds between the four attempts
    and not after the last one. *)
Theorem fetch_ends_within_retry_max (server : nat -> Downloader.attempt_outcome) :
  (exists k, (k <= RETRY_MAX)%nat /\
     fst (Downloader.fetch server) = Downloader.backoffs k /\
     forall i, (i < k)%nat -> Downloader.retried (server i) = true) /\
  (snd (Downloader.fetch server) = None <->
   forall i, (i <= RETRY_MAX)%nat -> Downloader.retried (server i) = true) /\
  (snd (Downloader.fetch server) = None ->
   fst (Downloader.fetch server) = [18 # 10; 324 # 100; 5832 # 1000]).
Proof.
  assert (Hcases :
    (forall i, (i <= RETRY_MAX)%nat -> Downloader.retried (server i) = true) \/
    exists k, (k <= RETRY_MAX)%nat /\
      (forall i, (i < k)%nat -> Downloader.retried (server i) = true) /\
      Downloader.retried (server k) = false).
  { unfold RETRY_MAX.
    destruct (Downloader.retried (server 0%nat)) eqn:E0.
    2:{ right. exists 0%nat. repeat split; trivial; [lia|]. intros i Hi. lia. }
    destruct (Downloader.retried (server 1%nat)) eqn:E1.
    2:{ right. exists 1%nat. repeat split; trivial; [lia|].
        intros [|i] Hi; [trivial|lia]. }
    destruct (Downloader.retried (server 2%nat)) eqn:E2.
    2:{ right. exists 2%nat. repeat split; trivial; [lia|].
        intros [|[|i]] Hi; trivial; lia. }
    destruct (Downloader.retried (server 3%nat)) eqn:E3.
    2:{ right. exists 3%nat. repeat split; trivial.
        intros [|[|[|i]]] Hi; trivial; lia. }
    left. intros [|[|[|[|i]]]] Hi; trivial; lia. }
  destruct Hcases as [Hall|(k & Hk & Hr & Hf)].
  - pose proof (fetch_loop_exhaust server RETRY_MAX 0 (S (S RETRY_MAX)) 0 eq_refl
                  ltac:(lia) ltac:(intros i Hi; apply Hall; lia)) as E.
    change (Downloader.fetch_loop (S (S RETRY_MAX)) server 0 0)
      with (Downloader.fetch server) in E.
    rewrite E. split; [|split].
    + exists RETRY_MAX. repeat split; trivial. intros i Hi. apply Hall. lia.
    + split; trivial.
    + reflexivity.
  - destruct (fetch_loop_until server k 0 (S (S RETRY_MAX)) 0)
      as (code & ra & fu & text & Es & E); trivial.
    { unfold RETRY_MAX in *. lia. }
    { intros i Hi. apply Hr. lia. }
    change (Downloader.fetch_loop (S (S RETRY_MAX)) server 0 0)
      with (Downloader.fetch server) in E.
    simpl in Es. rewrite E. split; [|split].
    + exists k. repeat split; trivial.
    + split; [discriminate|]. intros Hall. rewrite (Hall k Hk) in Hf. discriminate.
    + discriminate.
Qed.

(** ** [PoliteSession.get]: what it returns, and its pacing *)

Section PoliteGetFacts.
Import PoliteSession.

Variables (min_interval max_extra_delay backoff_base : Q) (max_retries : nat).
Variable _crawl_delay_from_text : string -> option Q.
Variable can_fetch : string -> bool.
Variable netloc_of : string -> string.

Local Abbreviation step s n k a :=
  (attempt_step max_extra_delay backoff_base s n k a).
Local Abbreviation loop left world s n k :=
  (retry_loop max_extra_delay backoff_base left world s n k).
Local Abbreviation pace s n now :=
  (pacing min_interval max_extra_delay _crawl_delay_from_text s n now).
Local Abbreviation get s url now world :=
  (PoliteSession.get min_interval max_extra_delay backoff_base max_retries
     _crawl_delay_from_text can_fetch netloc_of s url now world).
Local Abbreviation eff s n :=
  (fst (_effective_delay min_interval max_extra_delay _crawl_delay_from_text s n)).
Local Abbreviation robots_delay n :=
  (or_base (_crawl_delay_from_text n) min_interval).

(** [get] is its pacing followed by the robots check and the retry loop. *)
Lemma get_pacing (s : session) (url : string) (now : Q) (world : nat -> attempt) :
  get s url now world =
    if negb (can_fetch url)
    then (ReturnedNone, fst (pace s (netloc_of url) now), snd (pace s (netloc_of url) now))
    else
      let '(o, s', sl) := loop (S max_retries) world (fst (pace s (netloc_of url) now))
                            (netloc_of url) 0%nat in
      (o, s', snd (pace s (netloc_of url) now) ++ sl).
Proof.
  unfold PoliteSession.get, pacing.
  destruct (last_request_ts s !! netloc_of url); [|reflexivity].
  now destruct (_effective_delay _ _ _ s (netloc_of url)).
Qed.

Lemma pacing_extra (s : session) (netloc : string) (now : Q) :
  adaptive_extra (fst (pace s netloc now)) = adaptive_extra s.
Proof.
  unfold pacing. destruct (last_request_ts s !! netloc); [|reflexivity].
  unfold _effective_delay. now destruct (domain_delay s !! netloc).
Qed.

(** *** Only a 200 is handed back *)

Lemma step_returned (s : session) (netloc : string) (k : nat) (a : attempt)
    (st : Z) (s' : session) (sl : list Q) :
  step s netloc k a = (inr (Returned st), s', sl) -> st = 200.
Proof.
  unfold attempt_step. destruct (reply_of a) as [status ra|]; [|discriminate].
  destruct (Z.eqb_spec status 200) as [->|_]; [now intros [= <-]|].
  destruct (status =? 429).
  - destruct ra as [|n|]; try discriminate. destruct (n <? 0); discriminate.
  - destruct (500 <=? status); discriminate.
Qed.

Lemma loop_returned (left : nat) (world : nat -> attempt) (s : session)
    (netloc : string) (k : nat) (st : Z) (s' : session) (sl : list Q) :
  loop left world s netloc k = (Returned st, s', sl) -> st = 200.
Proof.
  revert s k sl. induction left as [|left IH]; intros s k sl; simpl; [discriminate|].
  destruct (step s netloc k (world k)) as [[[[]|o] s1] sl1] eqn:E.
  - destruct (loop left world s1 netloc (S k)) as [[o2 s2] sl2] eqn:E2.
    intros [= -> <- <-]. exact (IH _ _ _ E2).
  - intros [= -> <- <-]. exact (step_returned _ _ _ _ _ _ _ E).
Qed.

Lemma get_returned (s : session) (url : string) (now : Q) (world : nat -> attempt)
    (st : Z) :
  fst (fst (get s url now world)) = Returned st -> st = 200.
Proof.
  rewrite get_pacing. destruct (negb (can_fetch url)); [discriminate|].
  destruct (loop (S max_retries) world _ (netloc_of url) 0%nat) as [[o s'] sl] eqn:E.
  cbn [fst]. intros ->. exact (loop_returned _ _ _ _ _ _ _ _ E).
Qed.

(** *** The adaptive extra stays within its bounds *)

Local Abbreviation bounded s :=
  (forall n, (0 <= extra_of s n)%Q /\ (extra_of s n <= max_extra_delay)%Q).

Lemma bounded_step (s : session) (netloc : string) (k : nat) (a : attempt) :
  (0 <= max_extra_delay)%Q -> bounded s -> bounded (snd (fst (step s netloc k a))).
Proof.
  intros Hcap Hs.
  assert (Hup : forall e, (0 <= e)%Q /\ (e <= max_extra_delay)%Q ->
             bounded (set_extra (set_ts s netloc (ts a)) netloc e)).
  { intros e He n. destruct (decide (netloc = n)) as [<-|Hne].
    - now rewrite extra_of_set_extra.
    - rewrite extra_of_set_extra_ne by trivial. apply Hs. }
  assert (Hgrow : (0 <= Qmin max_extra_delay (extra_of (set_ts s netloc (ts a)) netloc + 2))%Q
                  /\ (Qmin max_extra_delay (extra_of (set_ts s netloc (ts a)) netloc + 2)
                        <= max_extra_delay)%Q).
  { rewrite extra_of_set_ts. destruct (Hs netloc) as [H0 H1].
    destruct (Q.min_spec max_extra_delay (extra_of s netloc + 2)) as [[H2 H3]|[H2 H3]];
      rewrite H3; split; lra. }
  assert (Hdecay : (0 <= Qmax 0 (extra_of (set_ts s netloc (ts a)) netloc - (1 # 2)))%Q
                  /\ (Qmax 0 (extra_of (set_ts s netloc (ts a)) netloc - (1 # 2))
                        <= max_extra_delay)%Q).
  { rewrite extra_of_set_ts. destruct (Hs netloc) as [H0 H1].
    destruct (Q.max_spec 0 (extra_of s netloc - (1 # 2))) as [[H2 H3]|[H2 H3]];
      rewrite H3; split; lra. }
  unfold attempt_step. destruct (reply_of a) as [status ra|]; [|exact Hs].
  destruct (status =? 200); simpl; [now apply Hup|].
  destruct (status =? 429); simpl.
  - destruct ra as [|m|]; simpl; try exact Hs.
    + now apply Hup.
    + destruct (m <? 0); simpl; [exact Hs|now apply Hup].
  - destruct (500 <=? status); exact Hs.
Qed.

Lemma bounded_loop (left : nat) (world : nat -> attempt) (s : session)
    (netloc : string) (k : nat) :
  (0 <= max_extra_delay)%Q -> bounded s ->
  bounded (snd (fst (loop left world s netloc k))).
Proof.
  intros Hcap. revert s k. induction left as [|left IH]; intros s k Hs; simpl; trivial.
  pose proof (bounded_step s netloc k (world k) Hcap Hs) as Hs'.
  destruct (step s netloc k (world k)) as [[[[]|o] s'] sl]; simpl in *; trivial.
  specialize (IH s' (S k) Hs').
  now destruct (loop left world s' netloc (S k)) as [[o s''] sl'].
Qed.

Lemma bounded_get (s : session) (url : string) (now : Q) (world : nat -> attempt) :
  (0 <= max_extra_delay)%Q -> bounded s -> bounded (snd (fst (get s url now world))).
Proof.
  intros Hcap Hs. rewrite get_pacing.
  assert (Hp : bounded (fst (pace s (netloc_of url) now))).
  { intros n. unfold extra_of. rewrite pacing_extra. apply Hs. }
  destruct (negb (can_fetch url)); [exact Hp|].
  pose proof (bounded_loop (S max_retries) world _ (netloc_of url) 0 Hcap Hp) as H.
  now destruct (loop (S max_retries) world _ (netloc_of url) 0%nat) as [[o s2] sl2].
Qed.

Lemma bounded_reachable (s : session) :
  (0 <= max_extra_delay)%Q ->
  reachable min_interval max_extra_delay backoff_base max_retries
    _crawl_delay_from_text can_fetch netloc_of s ->
  bounded s.
Proof.
  intros Hcap. induction 1 as [|s url now world Hr IH].
  - intros n. unfold extra_of, fresh. simpl. rewrite lookup_empty. simpl. lra.
  - now apply bounded_get.
Qed.

(** *** The cached crawl delay *)

(** Whatever [domain_delay] holds for a netloc is what robots.txt gave for
    it, raised to [min_interval]. *)
Local Abbreviation cached s :=
  (forall n cd, domain_delay s !! n = Some cd -> cd = Qmax (robots_delay n) min_interval).

Lemma cached_pacing (s : session) (netloc : string) (now : Q) :
  cached s -> cached (fst (pace s netloc now)).
Proof.
  intros Hs. unfold pacing. destruct (last_request_ts s !! netloc); [|exact Hs].
  unfold _effective_delay. destruct (domain_delay s !! netloc) eqn:E; [exact Hs|].
  simpl. intros n cd. destruct (decide (netloc = n)) as [<-|Hne].
  - rewrite lookup_insert_eq. now intros [= <-].
  - rewrite lookup_insert_ne by trivial. apply Hs.
Qed.

Lemma loop_domain_delay (left : nat) (world : nat -> attempt) (s : session)
    (netloc : string) (k : nat) :
  domain_delay (snd (fst (loop left world s netloc k))) = domain_delay s.
Proof.
  revert s k. induction left as [|left IH]; intros s k; simpl; trivial.
  pose proof (step_domain_delay max_extra_delay backoff_base s netloc k (world k)) as Hd.
  destruct (step s netloc k (world k)) as [[[[]|o] s'] sl]; simpl in *; trivial.
  specialize (IH s' (S k)).
  destruct (loop left world s' netloc (S k)) as [[o s''] sl']. simpl in *. congruence.
Qed.

Lemma cached_reachable (s : session) :
  reachable min_interval max_extra_delay backoff_base max_retries
    _crawl_delay_from_text can_fetch netloc_of s ->
  cached s.
Proof.
  induction 1 as [|s url now world Hr IH].
  - intros n cd. unfold fresh. simpl. now rewrite lookup_empty.
  - rewrite get_pacing.
    pose proof (cached_pacing s (netloc_of url) now IH) as Hp.
    destruct (negb (can_fetch url)); [exact Hp|].
    pose proof (loop_domain_delay (S max_retries) world
                  (fst (pace s (netloc_of url) now)) (netloc_of url) 0) as Hd.
    destruct (loop (S max_retries) world _ (netloc_of url) 0%nat) as [[o s2] sl2].
    simpl in *. intros n cd. rewrite Hd. apply Hp.
Qed.

Lemma effective_delay_formula (s : session) (n : string) :
  cached s ->
  (eff s n == Qmax min_interval (robots_delay n) + Qmin (extra_of s n) max_extra_delay)%Q.
Proof.
  intros Hc. unfold _effective_delay.
  destruct (domain_delay s !! n) as [cd|] eqn:E; simpl; [|reflexivity].
  rewrite (Hc n cd E).
  assert (Qmax min_interval (Qmax (robots_delay n) min_interval)
          == Qmax min_interval (robots_delay n))%Q as ->; [|reflexivity].
  destruct (Q.max_spec (robots_delay n) min_interval) as [[H1 H2]|[H1 H2]]; rewrite H2.
  - rewrite Q.max_l by lra. rewrite Q.max_l by lra. reflexivity.
  - reflexivity.
Qed.

(** *** Giving up *)

Lemma step_transient (s : session) (netloc : string) (k : nat) (world : nat -> attempt) :
  transient (reply_of (world k)) = true ->
  exists s',
    step s netloc k (world k) = (inl tt, s', backoff_sleeps backoff_base world k) /\
    adaptive_extra s' = adaptive_extra s /\ domain_delay s' = domain_delay s.
Proof.
  unfold attempt_step, transient, backoff_sleeps.
  destruct (reply_of (world k)) as [status ra|].
  - intros H. apply andb_prop in H as [H H5]. apply andb_prop in H as [H2 H4].
    apply negb_true_iff in H2, H4. rewrite H2, H4, H5.
    eexists. split; [reflexivity|]. split; reflexivity.
  - intros _. eexists. split; [reflexivity|]. split; reflexivity.
Qed.

Lemma loop_transient (left : nat) (world : nat -> attempt) (s : session)
    (netloc : string) (k : nat) :
  (forall i, (k <= i < k + left)%nat -> transient (reply_of (world i)) = true) ->
  exists s',
    loop left world s netloc k =
      (ReturnedNone, s', List.flat_map (backoff_sleeps backoff_base world) (List.seq k left)) /\
    adaptive_extra s' = adaptive_extra s /\ domain_delay s' = domain_delay s.
Proof.
  revert s k. induction left as [|left IH]; intros s k Hall; simpl.
  - exists s. repeat split.
  - destruct (step_transient s netloc k world) as (s1 & -> & He1 & Hd1).
    { apply Hall. lia. }
    destruct (IH s1 (S k)) as (s2 & -> & He2 & Hd2).
    { intros i Hi. apply Hall. lia. }
    exists s2. repeat split; congruence.
Qed.

End PoliteGetFacts.

(** X7. [get] hands back a response only when its status is 200: every
    other status ends in None (or in a retry), so the test
    [response.status_code == 200] in [get_html] never fails on a response
    that [get] returned, and [get_html] returns the text exactly when [get]
    returned a response. *)
Theorem get_returns_only_200
    (min_interval max_extra_delay backoff_base : Q) (max_retries : nat)
    (_crawl_delay_from_text : string -> option Q)
    (can_fetch : string -> bool) (netloc_of : string -> string)
    (s : PoliteSession.session) (url : string) (now : Q)
    (world : nat -> PoliteSession.attempt) :
  let got := PoliteSession.get min_interval max_extra_delay backoff_base max_retries
               _crawl_delay_from_text can_fetch netloc_of s url now world in
  let html := PoliteSession.get_html min_interval max_extra_delay backoff_base max_retries
                _crawl_delay_from_text can_fetch netloc_of s url now world in
  (forall status, fst (fst got) = PoliteSession.Returned status -> status = 200) /\
  (fst (fst html) = Ok true <-> exists status, fst (fst got) = PoliteSession.Returned status).
Proof.
  intros got html.
  assert (H200 : forall status,
            fst (fst got) = PoliteSession.Returned status -> status = 200)
    by (intros status; apply get_returned).
  split; [exact H200|].
  subst html. unfold PoliteSession.get_html. fold got.
  destruct got as [[o s'] sl]. cbn [fst] in *.
  destruct o as [status| |].
  - rewrite (H200 status eq_refl). simpl. split; eauto.
  - split; [discriminate|]. intros [st [=]].
  - split; [discriminate|]. intros [st [=]].
Qed.

(** X8. In every session a crawl can reach, with a non-negative
    [max_extra_delay], the adaptive extra of every netloc lies between 0 and
    [max_extra_delay]. *)
Theorem adaptive_extra_bounded
    (min_interval max_extra_delay backoff_base : Q) (max_retries : nat)
    (_crawl_delay_from_text : string -> option Q)
    (can_fetch : string -> bool) (netloc_of : string -> string)
    (s : PoliteSession.session)
    (Hs : PoliteSession.reachable min_interval max_extra_delay backoff_base
            max_retries _crawl_delay_from_text can_fetch netloc_of s)
    (Hcap : (0 <= max_extra_delay)%Q) (netloc : string) :
  (0 <= PoliteSession.extra_of s netloc)%Q /\
  (PoliteSession.extra_of s netloc <= max_extra_delay)%Q.
Proof.
  exact (bounded_reachable _ _ _ _ _ _ _ s Hcap Hs netloc).
Qed.

Lemma adaptive_extra_bounded_witness :
  let world := fun _ : nat =>
    PoliteSession.mk_attempt 0 (PoliteSession.Response 429 PoliteSession.RA_absent) 5 0 in
  let s :=
    snd (fst (PoliteSession.get 1 10 (16 # 10) 4 (fun _ => None) (fun _ => true)
                (fun u => u) PoliteSession.fresh "ex.com" 0 world)) in
  (0 <= PoliteSession.extra_of s "ex.com")%Q /\
  (PoliteSession.extra_of s "ex.com" <= 10)%Q.
Proof.
  intros world s.
  apply (adaptive_extra_bounded 1 10 (16 # 10) 4 (fun _ => None) (fun _ => true)
           (fun u => u)).
  - apply PoliteSession.reachable_get. apply PoliteSession.reachable_fresh.
  - discriminate.
Defined.

(** X9. In every session a crawl can reach, the effective delay of a
    netloc is [max(min_interval, d) + extra], where [d] is the crawl delay of
    its robots.txt ([min_interval] when there is none or it is 0) and [extra]
    its adaptive extra, whether or not [domain_delay] already holds the
    netloc. So the pause is never shorter than [min_interval] nor than the
    crawl delay the site asks for, and never longer than that plus
    [max_extra_delay]. *)
Theorem effective_delay_honours_crawl_delay
    (min_interval max_extra_delay backoff_base : Q) (max_retries : nat)
    (_crawl_delay_from_text : string -> option Q)
    (can_fetch : string -> bool) (netloc_of : string -> string)
    (s : PoliteSession.session)
    (Hs : PoliteSession.reachable min_interval max_extra_delay backoff_base
            max_retries _crawl_delay_from_text can_fetch netloc_of s)
    (Hcap : (0 <= max_extra_delay)%Q) (netloc : string) :
  let eff := fst (PoliteSession._effective_delay min_interval max_extra_delay
                    _crawl_delay_from_text s netloc) in
  let d := PoliteSession.or_base (_crawl_delay_from_text netloc) min_interval in
  (eff == Qmax min_interval d + PoliteSession.extra_of s netloc)%Q /\
  (min_interval <= eff)%Q /\
  (forall cd, _crawl_delay_from_text netloc = Some cd -> ~ (cd == 0)%Q -> (cd <= eff)%Q) /\
  (eff <= Qmax min_interval d + max_extra_delay)%Q.
Proof.
  intros eff d.
  pose proof (effective_delay_formula min_interval max_extra_delay _crawl_delay_from_text
                s netloc (cached_reachable _ _ _ _ _ _ _ s Hs)) as Hf.
  destruct (bounded_reachable _ _ _ _ _ _ _ s Hcap Hs netloc) as [H0 H1].
  fold eff d in Hf. rewrite Q.min_l in Hf by exact H1.
  pose proof (Q.le_max_l min_interval d) as Hl.
  pose proof (Q.le_max_r min_interval d) as Hr.
  split; [exact Hf|]. split; [lra|]. split; [|lra].
  intros cd Ecd Hnz. assert (d = cd) as <-; [|lra].
  unfold d, PoliteSession.or_base. rewrite Ecd.
  destruct (Qeq_bool cd 0) eqn:E; [|reflexivity].
  apply Qeq_bool_iff in E. contradiction.
Qed.

Lemma effective_delay_honours_crawl_delay_witness :
  let world := fun _ : nat =>
    PoliteSession.mk_attempt 0 (PoliteSession.Response 200 PoliteSession.RA_absent) 5 0 in
  let text := fun _ : string => Some 7%Q in
  let s :=
    snd (fst (PoliteSession.get 1 10 (16 # 10) 4 text (fun _ => true)
                (fun u => u) PoliteSession.fresh "ex.com" 0 world)) in
  (7 <= fst (PoliteSession._effective_delay 1 10 text s "ex.com"))%Q.
Proof.
  intros world text s.
  refine (proj1 (proj2 (proj2
    (effective_delay_honours_crawl_delay 1 10 (16 # 10) 4 text (fun _ => true)
       (fun u => u) s _ _ "ex.com"))) 7%Q eq_refl _).
  - apply PoliteSession.reachable_get. apply PoliteSession.reachable_fresh.
  - discriminate.
  - discriminate.
Defined.

(** X10. [get] gives up after [max_retries + 1] passes: for a url that
    robots.txt allows, when every reply of the passes [0 .. max_retries] is a
    request error or a status of 500 and more, [get] returns None, after the
    pacing sleep and, in each pass [k], the jitter sleep and the backoff
    sleep of [backoff_base ** k] plus jitter; the adaptive extras and the
    cached crawl delays are those left by the pacing. *)
Theorem get_gives_up
    (min_interval max_extra_delay backoff_base : Q) (max_retries : nat)
    (_crawl_delay_from_text : string -> option Q)
    (can_fetch : string -> bool) (netloc_of : string -> string)
    (s : PoliteSession.session) (url : string) (now : Q)
    (world : nat -> PoliteSession.attempt)
    (Hallowed : can_fetch url = true)
    (Htransient : forall k, (k <= max_retries)%nat ->
                    PoliteSession.transient (PoliteSession.reply_of (world k)) = true) :
  let paced := PoliteSession.pacing min_interval max_extra_delay _crawl_delay_from_text
                 s (netloc_of url) now in
  let got := PoliteSession.get min_interval max_extra_delay backoff_base max_retries
               _crawl_delay_from_text can_fetch netloc_of s url now world in
  fst (fst got) = PoliteSession.ReturnedNone /\
  snd got = snd paced
            ++ List.flat_map (PoliteSession.backoff_sleeps backoff_base world)
                 (List.seq 0 (S max_retries)) /\
  PoliteSession.adaptive_extra (snd (fst got)) = PoliteSession.adaptive_extra s /\
  PoliteSession.domain_delay (snd (fst got)) = PoliteSession.domain_delay (fst paced).
Proof.
  intros paced got. subst got. rewrite get_pacing, Hallowed. cbn [negb]. fold paced.
  destruct (loop_transient max_extra_delay backoff_base (S max_retries) world (fst paced)
              (netloc_of url) 0) as (s' & E & He & Hd).
  { intros i Hi. apply Htransient. lia. }
  rewrite E. cbn [fst snd]. repeat split; trivial.
  rewrite He. apply pacing_extra.
Qed.

Lemma get_gives_up_witness :
  let world := fun _ : nat =>
    PoliteSession.mk_attempt (1 # 10) (PoliteSession.Response 503 PoliteSession.RA_absent)
      5 (2 # 10) in
  let got := PoliteSession.get 1 10 2 2 (fun _ => None) (fun _ => true) (fun u => u)
               PoliteSession.fresh "ex.com" 0 world in
  fst (fst got) = PoliteSession.ReturnedNone /\
  List.length (snd got) = 6%nat.
Proof.
  intros world got.
  destruct (get_gives_up 1 10 2 2 (fun _ => None) (fun _ => true) (fun u => u)
              PoliteSession.fresh "ex.com" 0 world eq_refl (fun _ _ => eq_refl))
    as (Ho & Hsl & _).
  split; [exact Ho|]. fold got in Hsl. rewrite Hsl. reflexivity.
Defined.

(** ** The crawl delay read from the text of robots.txt *)

Section RobotsTextFacts.
Import PoliteSession.

Variable strip : string -> string.
Variable ua_group : string -> option string.
Variable crawl_delay_group : string -> option Q.

Local Abbreviation scan := (PoliteSession.scan strip ua_group).
Local Abbreviation extract := (PoliteSession.extract crawl_delay_group).
Local Abbreviation first_delay := (PoliteSession.first_delay crawl_delay_group).
Local Abbreviation decides := (PoliteSession.decides crawl_delay_group).

(** Lines that are no user-agent lines go to the block that is open. *)
Lemma scan_plain (pre rest : list string) (blocks : list (string * list string))
    (current : option string) (lines : list string) :
  List.Forall (fun l => ua_group l = None) pre ->
  scan (pre ++ rest) blocks current lines = scan rest blocks current (lines ++ pre).
Proof.
  revert lines. induction pre as [|l pre IH]; intros lines H; simpl.
  - now rewrite List.app_nil_r.
  - inversion H as [|? ? Hl Hpre]; subst. rewrite Hl, IH by trivial.
    now rewrite <- List.app_assoc.
Qed.

Lemma scan_groups (groups : list (string * string * list string))
    (blocks : list (string * list string)) (current : option string)
    (lines : list string) :
  List.Forall (fun g : string * string * list string =>
                 ua_group (fst (fst g)) = Some (snd (fst g)) /\
                 List.Forall (fun l => ua_group l = None) (snd g)) groups ->
  scan (List.flat_map (fun g : string * string * list string => fst (fst g) :: snd g) groups)
       blocks current lines
  = close_block blocks current lines
    ++ List.map (fun g : string * string * list string => (strip (snd (fst g)), snd g)) groups.
Proof.
  revert blocks current lines.
  induction groups as [|[[l g] body] groups IH]; intros blocks current lines H; simpl.
  - now rewrite List.app_nil_r.
  - inversion H as [|? ? [Hl Hbody] Hrest]; subst. simpl in Hl, Hbody.
    rewrite Hl, scan_plain, IH by trivial. simpl.
    now rewrite <- List.app_assoc.
Qed.

Lemma first_delay_decides (test : string -> bool)
    (blocks : list (string * list string)) (d : Q) :
  first_delay test blocks = Some d <-> decides test blocks d.
Proof.
  unfold PoliteSession.decides. induction blocks as [|[ua lines] blocks IH]; simpl.
  - split; [discriminate|]. intros (b & u & l & a & E & _). now destruct b.
  - destruct (test ua) eqn:Et; [destruct (extract lines) as [d'|] eqn:Ee|].
    + split.
      * intros [= <-]. exists [], ua, lines, blocks. repeat split; trivial.
      * intros ([|[u0 l0] b] & u & l & a & E & Hu & Hl & Hb); simpl in E.
        -- injection E as <- <- <-. congruence.
        -- injection E as <- <- ->. inversion Hb as [|? ? H0 _]; subst.
           simpl in H0. rewrite (H0 Et) in Ee. discriminate.
    + rewrite IH. split.
      * intros (b & u & l & a & -> & Hu & Hl & Hb).
        exists ((ua, lines) :: b), u, l, a. repeat split; trivial.
        constructor; trivial.
      * intros ([|[u0 l0] b] & u & l & a & E & Hu & Hl & Hb); simpl in E.
        -- injection E as <- <- <-. congruence.
        -- injection E as <- <- ->. inversion Hb; subst.
           exists b, u, l, a. repeat split; trivial.
    + rewrite IH. split.
      * intros (b & u & l & a & -> & Hu & Hl & Hb).
        exists ((ua, lines) :: b), u, l, a. repeat split; trivial.
        constructor; trivial. simpl. congruence.
      * intros ([|[u0 l0] b] & u & l & a & E & Hu & Hl & Hb); simpl in E.
        -- injection E as <- <- <-. congruence.
        -- injection E as <- <- ->. inversion Hb; subst.
           exists b, u, l, a. repeat split; trivial.
Qed.

Lemma first_delay_none (test : string -> bool) (blocks : list (string * list string)) :
  first_delay test blocks = None <->
  List.Forall (fun b => test (fst b) = true -> extract (snd b) = None) blocks.
Proof.
  induction blocks as [|[ua lines] blocks IH]; simpl.
  - split; [constructor|reflexivity].
  - destruct (test ua) eqn:Et; [destruct (extract lines) as [d'|] eqn:Ee|].
    + split; [discriminate|]. intros H. inversion H as [|? ? H0 _]; subst.
      simpl in H0. rewrite (H0 Et) in Ee. discriminate.
    + rewrite IH. split; [constructor; trivial|now inversion 1].
    + rewrite IH. split; [constructor; trivial; simpl; congruence|now inversion 1].
Qed.

End RobotsTextFacts.

(** X11. The text of robots.txt is cut into one block per user-agent line:
    the block of a user-agent line holds the lines that follow it up to the
    next user-agent line, under the stripped agent name. Lines that come
    before the first user-agent line belong to no block, and a user-agent
    line that is directly followed by another one gets an empty block, so
    agents listed together do not share the rules that follow. *)
Theorem robots_text_blocks
    (strip : string -> string) (ua_group : string -> option string)
    (pre : list string) (groups : list (string * string * list string))
    (Hpre : List.Forall (fun l => ua_group l = None) pre)
    (Hgroups :
       List.Forall (fun g : string * string * list string =>
                      ua_group (fst (fst g)) = Some (snd (fst g)) /\
                      List.Forall (fun l => ua_group l = None) (snd g)) groups) :
  PoliteSession.scan strip ua_group
    (pre ++ List.flat_map (fun g : string * string * list string => fst (fst g) :: snd g)
              groups)
    [] None []
  = List.map (fun g : string * string * list string => (strip (snd (fst g)), snd g)) groups.
Proof.
  rewrite scan_plain by exact Hpre. now rewrite scan_groups by exact Hgroups.
Qed.

Lemma robots_text_blocks_witness :
  let ua_group := fun l : string =>
    if String.prefix "User-agent: " l then Some (String.substring 12 (String.length l - 12) l)
    else None in
  PoliteSession.scan (fun s => s) ua_group
    ["Crawl-delay: 9"; "User-agent: a"; "User-agent: b"; "Crawl-delay: 5"; "Disallow: /x"]%string
    [] None []
  = [("a", []); ("b", ["Crawl-delay: 5"; "Disallow: /x"])]%string.
Proof.
  intros ua_group.
  apply (robots_text_blocks (fun s => s) ua_group ["Crawl-delay: 9"%string]
           [("User-agent: a", "a", []);
            ("User-agent: b", "b", ["Crawl-delay: 5"; "Disallow: /x"])]%string).
  - repeat constructor.
  - repeat constructor.
Defined.

(** X12. The order in which the crawl delay is resolved: the first block for
    the session's own user agent (compared case-insensitively) that holds a
    crawl-delay line decides, wherever it stands among the blocks; only when
    no block of the own agent holds a crawl-delay line does the first
    wildcard block that holds one decide, so a block of the own agent without
    a crawl-delay line defers to the wildcard block; otherwise there is no
    crawl delay. The value is that of the first crawl-delay line of the
    deciding block. *)
Theorem crawl_delay_resolution
    (strip lower : string -> string) (ua_group : string -> option string)
    (crawl_delay_group : string -> option Q) (user_agent : string)
    (ls : list string) :
  let blocks := PoliteSession.scan strip ua_group ls [] None [] in
  let exact := PoliteSession.exact_ua lower user_agent in
  let wildcard := PoliteSession.wildcard_ua strip in
  let result :=
    PoliteSession.crawl_delay_of_lines strip lower ua_group crawl_delay_group user_agent ls in
  (forall d, result = Some d <->
     PoliteSession.decides crawl_delay_group exact blocks d \/
     (List.Forall (fun b => exact (fst b) = true ->
                            PoliteSession.extract crawl_delay_group (snd b) = None) blocks /\
      PoliteSession.decides crawl_delay_group wildcard blocks d)) /\
  (result = None <->
     List.Forall (fun b => exact (fst b) = true \/ wildcard (fst b) = true ->
                           PoliteSession.extract crawl_delay_group (snd b) = None) blocks).
Proof.
  intros blocks exact wildcard result. subst result.
  unfold PoliteSession.crawl_delay_of_lines. fold blocks exact wildcard.
  pose proof (first_delay_decides crawl_delay_group exact blocks) as He.
  pose proof (first_delay_none crawl_delay_group exact blocks) as Hen.
  pose proof (first_delay_decides crawl_delay_group wildcard blocks) as Hw.
  pose proof (first_delay_none crawl_delay_group wildcard blocks) as Hwn.
  destruct (PoliteSession.first_delay crawl_delay_group exact blocks) as [d0|] eqn:E.
  - split.
    + intros d. split.
      * intros [= <-]. left. now apply He.
      * intros [H|[H _]].
        -- apply He in H. exact H.
        -- apply Hen in H. discriminate.
    + split; [discriminate|]. intros H. exfalso.
      assert (Hn : None = Some d0); [|discriminate].
      rewrite <- E. symmetry. apply first_delay_none.
      eapply List.Forall_impl; [|exact H]. simpl. auto.
  - split.
    + intros d. rewrite Hw. split.
      * intros H. right. split; [now apply Hen|exact H].
      * intros [H|[_ H]]; [|exact H]. apply He in H. discriminate.
    + rewrite Hwn. split.
      * intros H. pose proof (proj1 Hen eq_refl) as H'.
        rewrite List.Forall_forall in *. intros b Hb [Hx|Hx]; auto.
      * intros H. eapply List.Forall_impl; [|exact H]. simpl. auto.
Qed.

(** ** The per-host rate limiter *)

Section RateLimiterFacts.
Import DomainRateLimiter.

Lemma per_domain_lookup (host : string) :
  PER_DOMAIN_MIN_DELAY !! host =
    if String.eqb host "old.reddit.com" then Some 8%Q
    else if String.eqb host "reddit.com" then Some 8%Q
    else None.
Proof.
  unfold PER_DOMAIN_MIN_DELAY.
  destruct (String.eqb_spec host "old.reddit.com") as [->|H1].
  - now rewrite lookup_insert_eq.
  - rewrite lookup_insert_ne by congruence.
    destruct (String.eqb_spec host "reddit.com") as [->|H2].
    + now rewrite lookup_singleton_eq.
    + now rewrite lookup_singleton_ne by congruence.
Qed.

End RateLimiterFacts.

(** X13. The floor of the rate limiter. With a jitter range [(lo, hi)],
    [0 <= lo <= hi], and a draw of [random()] that is not negative, [wait]
    returns, and records the time it read last under the host of the url and
    under no other host. If the clock has advanced by at least the time
    slept between its two readings, that recorded time is at least
    [need + lo] later than the time recorded by the previous [wait] for the
    same host, [need] being the minimum delay of the url: two requests to one
    host are never closer than its minimum delay. *)
Theorem wait_keeps_min_delay
    (netloc_of : string -> option string) (crawl_delay : string -> string -> option Q)
    (last_time : DomainRateLimiter.t) (url host : string) (need : Q)
    (jitter : Q * Q) (now r t_end : Q)
    (Hhost : netloc_of url = Some host)
    (Hneed : DomainRateLimiter._min_delay netloc_of crawl_delay url = Ok need)
    (Hlo : (0 <= fst jitter)%Q) (Hhi : (fst jitter <= snd jitter)%Q) (Hr : (0 <= r)%Q) :
  exists slept,
    DomainRateLimiter.wait netloc_of crawl_delay last_time url jitter now r t_end
      = (Ok tt, slept, <[host := t_end]> last_time) /\
    List.Forall (fun s => 0 <= s)%Q slept /\
    ((now + List.fold_right Qplus 0 slept <= t_end)%Q ->
     (default 0 (last_time !! host) + need + fst jitter <= t_end)%Q /\
     (now + fst jitter <= t_end)%Q).
Proof.
  unfold DomainRateLimiter.wait. rewrite Hhost, Hneed.
  set (last := default 0%Q (last_time !! host)).
  set (j := DomainRateLimiter.uniform jitter r).
  assert (Hj : (fst jitter <= j)%Q).
  { unfold j, DomainRateLimiter.uniform.
    assert (0 <= (snd jitter - fst jitter) * r)%Q by (apply Qmult_le_0_compat; lra).
    lra. }
  destruct (Qlt_le_dec j 0) as [Hneg|_]; [lra|].
  pose proof (Q.max_spec 0 (last + need - now)) as Hm.
  set (m := Qmax 0 (last + need - now)) in *. clearbody m.
  destruct (Qlt_le_dec 0 m) as [Hpos|Hle]; eexists; (split; [reflexivity|]).
  - split; [repeat constructor; lra|]. simpl. intros Hc.
    destruct Hm as [[_ Hm]|[_ Hm]]; rewrite Hm in *; lra.
  - split; [repeat constructor; lra|]. simpl. intros Hc.
    destruct Hm as [[h Hm]|[h Hm]]; rewrite Hm in *; lra.
Qed.

Lemma wait_keeps_min_delay_witness :
  let netloc_of := fun _ : string => Some "ex.com"%string in
  let crawl_delay := fun _ _ : string => None (A := Q) in
  exists slept,
    DomainRateLimiter.wait netloc_of crawl_delay {[ "ex.com"%string := 100%Q ]}
      "http://ex.com/a" DomainRateLimiter.default_jitter 101 (1 # 2) 104
      = (Ok tt, slept, <[ "ex.com"%string := 104%Q ]> {[ "ex.com"%string := 100%Q ]}) /\
    List.Forall (fun s => 0 <= s)%Q slept /\
    ((101 + List.fold_right Qplus 0 slept <= 104)%Q ->
     (default 0 (({[ "ex.com"%string := 100%Q ]} : gmap string Q) !! "ex.com"%string)
        + 3 + fst DomainRateLimiter.default_jitter <= 104)%Q /\
     (101 + fst DomainRateLimiter.default_jitter <= 104)%Q).
Proof.
  intros netloc_of crawl_delay.
  apply (wait_keeps_min_delay netloc_of crawl_delay {[ "ex.com"%string := 100%Q ]}
           "http://ex.com/a" "ex.com" 3 DomainRateLimiter.default_jitter 101 (1 # 2) 104).
  - reflexivity.
  - reflexivity.
  - discriminate.
  - discriminate.
  - discriminate.
Defined.

(** X14. Where the minimum delay of a url comes from: for the hosts
    reddit.com and old.reddit.com it is 8 seconds whatever their robots.txt
    says; for any other host it is the crawl delay that the robots.txt of the
    site gives for [USER_AGENT], also when that is shorter than the default,
    and the default of 3 seconds when the file gives none or could not be
    read (the fetch raised, the body was not UTF-8, or the server answered
    with an error status). *)
Theorem min_delay_sources
    (netloc_of : string -> option string)
    (rules : Type) (no_rules : rules) (parse : list string -> rules)
    (search_delay : rules -> string -> option Q)
    (rootsite : string -> string) (now : Q)
    (world : string -> Robots.urlopen_outcome) (url host : string)
    (Hhost : netloc_of url = Some host) :
  let min_delay :=
    DomainRateLimiter._min_delay netloc_of
      (Robots.crawl_delay rules no_rules parse search_delay rootsite now world) url in
  (host = "reddit.com"%string \/ host = "old.reddit.com"%string -> min_delay = Ok 8%Q) /\
  (host <> "reddit.com"%string -> host <> "old.reddit.com"%string ->
   (forall lines,
      world (rootsite url) = Robots.Body (Some lines) -> ~ (now == 0)%Q ->
      min_delay = Ok (default DEFAULT_MIN_DELAY_S (search_delay (parse lines) USER_AGENT))) /\
   ((forall lines, world (rootsite url) <> Robots.Body (Some lines)) ->
    min_delay = Ok DEFAULT_MIN_DELAY_S)).
Proof.
  intros min_delay. subst min_delay. unfold DomainRateLimiter._min_delay.
  rewrite Hhost, per_domain_lookup. split.
  - intros [->| ->]; reflexivity.
  - intros H1 H2.
    destruct (String.eqb_spec host "old.reddit.com"); [contradiction|].
    destruct (String.eqb_spec host "reddit.com"); [contradiction|].
    unfold Robots.crawl_delay, Robots._get_parser, Robots.parser_crawl_delay.
    split.
    + intros lines -> Hnow. simpl.
      destruct (Qeq_bool now 0) eqn:E; [apply Qeq_bool_iff in E; contradiction|].
      now destruct (search_delay (parse lines) USER_AGENT).
    + intros Hno. destruct (world (rootsite url)) as [code| |[lines|]]; simpl.
      * unfold Robots.read.
        destruct ((code =? 401) || (code =? 403)); [reflexivity|].
        destruct ((400 <=? code) && (code <? 500)); reflexivity.
      * reflexivity.
      * now destruct (Hno lines).
      * reflexivity.
Qed.

Lemma min_delay_sources_witness :
  DomainRateLimiter._min_delay (fun _ => Some "reddit.com"%string)
    (Robots.crawl_delay unit tt (fun _ => tt) (fun _ _ => Some 20%Q) (fun u => u) 1
       (fun _ => Robots.Body (Some [])))
    "https://reddit.com/r/news"
  = Ok 8%Q.
Proof.
  apply (proj1 (min_delay_sources (fun _ => Some "reddit.com"%string) unit tt (fun _ => tt)
                  (fun _ _ => Some 20%Q) (fun u => u) 1 (fun _ => Robots.Body (Some []))
                  "https://reddit.com/r/news" "reddit.com" eq_refl)).
  now left.
Defined.

(** ** Trap-like urls *)

Section TrapFacts.
Import Canonicalize NewsCrawler.

Lemma starts_with_spec (p s : str) : starts_with p s = true <-> exists r, s = p ++ r.
Proof.
  revert s. induction p as [|x p IH]; intros s; simpl.
  - split; [eauto|reflexivity].
  - destruct s as [|y s].
    + split; [discriminate|]. intros (r & E). discriminate.
    + rewrite andb_true_iff, IH. split.
      * intros [Exy (r & ->)]. apply Ascii.eqb_eq in Exy. subst. eauto.
      * intros (r & [= -> ->]). split; [apply Ascii.eqb_refl|eauto].
Qed.

Lemma search_spec (m : str -> bool) (u : str) :
  search m u = true <-> exists a b, u = a ++ b /\ m b = true.
Proof.
  induction u as [|c u IH]; simpl.
  - rewrite orb_false_r. split.
    + intros H. now exists [], [].
    + intros (a & b & E & H). symmetry in E. apply List.app_eq_nil in E as [_ ->]. exact H.
  - rewrite orb_true_iff, IH. split.
    + intros [H|(a & b & -> & H)].
      * now exists [], (c :: u).
      * now exists (c :: a), b.
    + intros ([|x a] & b & E & H); simpl in E.
      * left. now rewrite E.
      * injection E as -> ->. right. eauto.
Qed.

Lemma digits_after_spec (prefix : str) (n : nat) (u : str) :
  digits_after prefix n u = true <->
  exists ds rest,
    u = prefix ++ ds ++ rest /\ List.length ds = n /\ List.forallb is_digit ds = true.
Proof.
  unfold digits_after. rewrite andb_true_iff, starts_with_spec. split.
  - intros [(r & ->) H]. rewrite List.skipn_app, Nat.sub_diag, List.skipn_all in H.
    change (List.skipn 0 r) with r in H. cbn [List.app] in H.
    apply andb_prop in H as [Hn Hd]. apply Nat.leb_le in Hn.
    exists (List.firstn n r), (List.skipn n r).
    rewrite List.firstn_skipn, List.length_firstn. repeat split; trivial. lia.
  - intros (ds & rest & -> & <- & Hd). split; [eauto|].
    rewrite List.skipn_app, Nat.sub_diag, List.skipn_all.
    change (List.skipn 0 (ds ++ rest)) with (ds ++ rest). cbn [List.app].
    rewrite List.length_app, List.firstn_app, Nat.sub_diag, List.firstn_all.
    change (List.firstn 0 rest) with (@nil ascii).
    rewrite List.app_nil_r, Hd, andb_true_r. apply Nat.leb_le. lia.
Qed.

(** What [looks_like_trap] looks for in the lower-cased url. *)
Lemma trap_spec (u : str) :
  looks_like_trap u = true <->
  exists a key ds b,
    lower u = a ++ key ++ ds ++ b /\ List.forallb is_digit ds = true /\
    ((In key (List.map str_of ["/page/"; "?page="; "&page="]%string) /\
      List.length ds = 2%nat) \/
     (In key (List.map str_of ["calendar/"; "events/"]%string) /\
      List.length ds = 4%nat)).
Proof.
  unfold looks_like_trap.
  assert (Hp : search trap_page (lower u) = true <->
               exists a key ds b,
                 lower u = a ++ key ++ ds ++ b /\ List.forallb is_digit ds = true /\
                 In key (List.map str_of ["/page/"; "?page="; "&page="]%string) /\
                 List.length ds = 2%nat).
  { rewrite search_spec. unfold trap_page. split.
    - intros (a & b & E & H). rewrite !orb_true_iff, !digits_after_spec in H.
      destruct H as [[(ds & r & -> & Hl & Hd)|(ds & r & -> & Hl & Hd)]
                    |(ds & r & -> & Hl & Hd)];
        eexists a, _, ds, r; (split; [exact E|]); (split; [exact Hd|]);
        (split; [|exact Hl]); simpl; auto.
    - intros (a & key & ds & b & E & Hd & Hk & Hl). exists a, (key ++ ds ++ b).
      split; [exact E|]. rewrite !orb_true_iff, !digits_after_spec.
      destruct Hk as [<-|[<-|[<-|[]]]]; [left; left|left; right|right]; eauto. }
  assert (Hc : search trap_date (lower u) = true <->
               exists a key ds b,
                 lower u = a ++ key ++ ds ++ b /\ List.forallb is_digit ds = true /\
                 In key (List.map str_of ["calendar/"; "events/"]%string) /\
                 List.length ds = 4%nat).
  { rewrite search_spec. unfold trap_date. split.
    - intros (a & b & E & H). rewrite !orb_true_iff, !digits_after_spec in H.
      destruct H as [(ds & r & -> & Hl & Hd)|(ds & r & -> & Hl & Hd)];
        eexists a, _, ds, r; (split; [exact E|]); (split; [exact Hd|]);
        (split; [|exact Hl]); simpl; auto.
    - intros (a & key & ds & b & E & Hd & Hk & Hl). exists a, (key ++ ds ++ b).
      split; [exact E|]. rewrite !orb_true_iff, !digits_after_spec.
      destruct Hk as [<-|[<-|[]]]; [left|right]; eauto. }
  destruct (search trap_page (lower u)).
  - split; [intros _|reflexivity].
    destruct (proj1 Hp eq_refl) as (a & key & ds & b & E & Hd & Hk & Hl).
    exists a, key, ds, b. auto.
  - destruct (search trap_date (lower u)).
    + split; [intros _|reflexivity].
      destruct (proj1 Hc eq_refl) as (a & key & ds & b & E & Hd & Hk & Hl).
      exists a, key, ds, b. auto.
    + split; [discriminate|].
      intros (a & key & ds & b & E & Hd & [[Hk Hl]|[Hk Hl]]).
      * apply Hp. exists a, key, ds, b. auto.
      * apply Hc. exists a, key, ds, b. auto.
Qed.

End TrapFacts.


(** ** More on token-overlap scoring *)

Lemma In_firstn {A : Type} (n : nat) (l : list A) (x : A) :
  In x (List.firstn n l) -> In x l.
Proof.
  revert n. induction l as [|y l IH]; intros [|n]; simpl; try tauto.
  intros [H|H]; [now left|right; eauto].
Qed.

Lemma In_skipn {A : Type} (n : nat) (l : list A) (x : A) :
  In x (List.skipn n l) -> In x l.
Proof.
  revert n. induction l as [|y l IH]; intros [|n]; simpl; try tauto.
  intros H. right. eauto.
Qed.

Section SortingMore.
Context {A : Type}.
Variable key : A -> Q.

Lemma descending_firstn (n : nat) (l : list A) :
  descending key l -> descending key (List.firstn n l).
Proof.
  unfold descending. revert n. induction l as [|x l IH]; intros [|n] H; simpl;
    try constructor.
  - inversion H; subst. now apply IH.
  - inversion H as [|? ? _ Hall]; subst.
    apply List.Forall_forall. intros y Hy. rewrite List.Forall_forall in Hall.
    apply Hall. eapply (In_firstn n). exact Hy.
Qed.

(** What lies beyond the first [n] entries of a descending list is no larger
    than any of them. *)
Lemma descending_firstn_skipn (n : nat) (l : list A) (p q : A) :
  descending key l -> In p (List.firstn n l) -> In q (List.skipn n l) ->
  (key q <= key p)%Q.
Proof.
  unfold descending. revert n. induction l as [|x l IH]; intros [|n] H Hp Hq; simpl in *;
    try contradiction.
  inversion H as [|? ? Hs Hall]; subst. rewrite List.Forall_forall in Hall.
  destruct Hp as [<-|Hp].
  - apply Hall. eapply In_skipn. exact Hq.
  - now apply (IH n).
Qed.

(** The stable descending sort puts first the earliest of the largest
    elements. *)
Lemma sort_desc_first_max (l : list A) (m : A) (rest : list A) :
  sort_desc key l = m :: rest ->
  exists pre post,
    l = pre ++ m :: post /\
    List.Forall (fun p => key p < key m)%Q pre /\
    List.Forall (fun p => key p <= key m)%Q post.
Proof.
  revert m rest. induction l as [|x l IH]; intros m rest; simpl; [discriminate|].
  destruct (sort_desc key l) as [|m' rest'] eqn:E; simpl.
  - intros [= <- <-]. exists [], l. split; [reflexivity|]. split; [constructor|].
    pose proof (sort_desc_length key l) as Hl. rewrite E in Hl.
    destruct l; [constructor|discriminate].
  - destruct (IH m' rest' eq_refl) as (pre & post & -> & Hpre & Hpost).
    destruct (Qlt_le_dec (key x) (key m')) as [Hlt|Hge].
    + intros [= <- <-]. exists (x :: pre), post. repeat split; trivial.
      constructor; trivial.
    + intros [= <- <-]. exists [], (pre ++ m' :: post). repeat split; [constructor|].
      apply List.Forall_app. split; [|constructor].
      * eapply List.Forall_impl; [|exact Hpre]. simpl. intros. lra.
      * exact Hge.
      * eapply List.Forall_impl; [|exact Hpost]. simpl. intros. lra.
Qed.

End SortingMore.

Section ScoreMore.
Import ScoreAndLabel.

Lemma bigrams_length (tokens : list string) :
  List.length (bigrams tokens) = (List.length tokens - 1)%nat.
Proof.
  induction tokens as [|a [|b rest] IH]; try reflexivity.
  cbn [bigrams List.length] in *. rewrite IH. lia.
Qed.

(** The running sum of [category_score], from any start. *)
Lemma score_from (grams : list string) (weights : gmap string Q) (s0 : Q) :
  (List.fold_left
     (fun s g => match weights !! g with Some w => s + w | None => s end)%Q grams s0
   == s0 + category_score grams weights)%Q.
Proof.
  unfold category_score. revert s0. induction grams as [|g grams IH]; intros s0; simpl.
  - lra.
  - rewrite IH. rewrite (IH (match weights !! g with Some w => 0 + w | None => 0 end)%Q).
    destruct (weights !! g); lra.
Qed.

Lemma score_cons (g : string) (grams : list string) (weights : gmap string Q) :
  (category_score (g :: grams) weights
   == match weights !! g with Some w => w | None => 0 end
      + category_score grams weights)%Q.
Proof.
  unfold category_score at 1. simpl. rewrite score_from. destruct (weights !! g); lra.
Qed.

(** With positive weights a score is positive exactly when some gram is a
    term of the category. *)
Lemma score_positive (grams : list string) (weights : gmap string Q) :
  (forall g w, weights !! g = Some w -> (0 < w)%Q) ->
  (0 <= category_score grams weights)%Q /\
  ((0 < category_score grams weights)%Q <->
   exists g, In g grams /\ weights !! g <> None).
Proof.
  intros Hpos. induction grams as [|g grams [IH0 IH]].
  - split; [unfold category_score; simpl; lra|]. split.
    + unfold category_score. simpl. lra.
    + intros (g & [] & _).
  - pose proof (score_cons g grams weights) as Hc.
    destruct (weights !! g) as [w|] eqn:E.
    + specialize (Hpos g w E). split; [lra|]. split; [|lra].
      intros _. exists g. split; [now left|congruence].
    + split; [lra|]. rewrite Hc. split.
      * intros H. destruct (proj1 IH) as (g' & Hg' & Hn); [lra|].
        exists g'. split; [now right|exact Hn].
      * intros (g' & [<-|Hg'] & Hn); [congruence|].
        assert (0 < category_score grams weights)%Q by (apply IH; eauto). lra.
Qed.

Lemma weights_of_spec (terms : list (string * Q)) (m0 : gmap string Q) (g : string) (w : Q) :
  List.fold_left (fun (m : gmap string Q) (tw : string * Q) => <[fst tw := snd tw]> m)
                 terms m0 !! g = Some w ->
  In (g, w) terms \/ m0 !! g = Some w.
Proof.
  revert m0. induction terms as [|[t v] terms IH]; intros m0; simpl; [auto|].
  intros H. destruct (IH _ H) as [Hin|Hm]; [auto|].
  destruct (decide (t = g)) as [->|Hne].
  - rewrite lookup_insert_eq in Hm. injection Hm as ->. auto.
  - rewrite lookup_insert_ne in Hm by trivial. auto.
Qed.

Lemma weights_of_dom (terms : list (string * Q)) (m0 : gmap string Q) (g : string) :
  (exists w, In (g, w) terms) \/ m0 !! g <> None ->
  List.fold_left (fun (m : gmap string Q) (tw : string * Q) => <[fst tw := snd tw]> m)
                 terms m0 !! g <> None.
Proof.
  revert m0. induction terms as [|[t v] terms IH]; intros m0; simpl.
  - intros [(w & [])|H]; exact H.
  - intros [(w & [[= -> ->]|Hin])|H]; apply IH.
    + right. now rewrite lookup_insert_eq.
    + left. eauto.
    + right. destruct (decide (t = g)) as [->|Hne].
      * now rewrite lookup_insert_eq.
      * now rewrite lookup_insert_ne.
Qed.

End ScoreMore.


(** X17. The top-3 list of [score_row] holds the three best categories: it
    has [min(3, p)] entries, [p] being the number of categories with a
    positive score; its entries are in descending order of score; each
    entry is a category of the lexicon with its own, strictly positive,
    score; and no category left out of the list scores more than one that
    is in it. *)
Theorem score_row_top3_best (split : string -> list string)
    (tokens : string) (lexicon : list (string * gmap string Q)) :
  let grams := ScoreAndLabel.tokens_to_ngrams (split tokens) in
  let scores := ScoreAndLabel.positive_scores grams lexicon in
  let top3 := snd (ScoreAndLabel.score_row split tokens lexicon) in
  List.length top3 = Nat.min 3 (List.length scores) /\
  descending snd top3 /\
  (forall c s, In (c, s) top3 ->
     (0 < s)%Q /\ exists w, In (c, w) lexicon /\ s = ScoreAndLabel.category_score grams w) /\
  (forall p q, In p top3 -> In q scores -> ~ In q top3 -> (snd q <= snd p)%Q).
Proof.
  intros grams scores top3. subst top3. unfold ScoreAndLabel.score_row.
  fold grams. fold scores.
  destruct scores as [|x xs] eqn:E.
  - simpl. repeat split; try constructor; intros; contradiction.
  - cbn [snd]. rewrite <- E. clear x xs E.
    pose proof (sort_desc_descending snd scores) as Hd.
    split; [|split; [|split]].
    + rewrite List.length_firstn, sort_desc_length. reflexivity.
    + now apply descending_firstn.
    + intros c s H.
      apply In_firstn in H. apply (proj1 (sort_desc_In snd _ _)) in H.
      apply (proj1 (positive_scores_In _ _ _ _)) in H as (w & Hw & Hs & Hp).
      split; [exact Hp|]. exists w. split; trivial.
    + intros p q Hp Hq Hnq.
      apply (descending_firstn_skipn snd 3 (sort_desc snd scores)); trivial.
      apply (proj2 (sort_desc_In snd _ _)) in Hq.
      rewrite <- (List.firstn_skipn 3 (sort_desc snd scores)) in Hq.
      apply List.in_app_or in Hq as [Hq|Hq]; [contradiction|exact Hq].
Qed.

(** X18. Ties go to the category that comes first in the lexicon: the label
    of [score_row] is the earliest, in the iteration order of the lexicon, of
    the categories with the largest positive score. *)
Theorem score_row_tie_first (split : string -> list string)
    (tokens : string) (lexicon : list (string * gmap string Q))
    (Hsome : ScoreAndLabel.positive_scores
               (ScoreAndLabel.tokens_to_ngrams (split tokens)) lexicon <> []) :
  let grams := ScoreAndLabel.tokens_to_ngrams (split tokens) in
  let label := fst (ScoreAndLabel.score_row split tokens lexicon) in
  exists s before after,
    ScoreAndLabel.positive_scores grams lexicon = before ++ (label, s) :: after /\
    List.Forall (fun p => snd p < s)%Q before /\
    List.Forall (fun p => snd p <= s)%Q after.
Proof.
  intros grams label. subst label. unfold ScoreAndLabel.score_row. fold grams.
  fold grams in Hsome.
  destruct (ScoreAndLabel.positive_scores grams lexicon) as [|x xs] eqn:E;
    [contradiction|].
  destruct (sort_desc snd (x :: xs)) as [|[c s] rest] eqn:Es.
  { pose proof (sort_desc_length snd (x :: xs)) as Hl. rewrite Es in Hl. discriminate. }
  cbn [fst].
  destruct (sort_desc_first_max snd _ _ _ Es) as (pre & post & El & Hpre & Hpost).
  exists s, pre, post. repeat split; trivial.
Qed.

Lemma score_row_tie_first_witness :
  let split := fun _ : string => ["wheat"]%string in
  let lexicon := [("oil"%string, ({[ "wheat"%string := 1%Q ]} : gmap string Q));
                  ("grain"%string, {[ "wheat"%string := 2%Q ]});
                  ("crop"%string, {[ "wheat"%string := 2%Q ]})] in
  fst (ScoreAndLabel.score_row split "wheat" lexicon) = "grain"%string /\
  exists s before after,
    ScoreAndLabel.positive_scores (ScoreAndLabel.tokens_to_ngrams (split "wheat"%string))
      lexicon
    = before ++ (fst (ScoreAndLabel.score_row split "wheat" lexicon), s) :: after /\
    List.Forall (fun p => snd p < s)%Q before /\
    List.Forall (fun p => snd p <= s)%Q after.
Proof.
  intros split lexicon. split; [reflexivity|].
  apply (score_row_tie_first split "wheat" lexicon). discriminate.
Defined.

(** X19. [process] writes one row per input row, in order, and nothing when
    the input file is missing. In each row [score_max] is the largest
    category score when that is positive, and 0 otherwise: it is at least
    every category's score, it is not negative, and it is 0 or the score of
    a category of the lexicon; and the [label] is empty with [score_max] 0
    when no category scores above 0. *)
Theorem process_score_max (split : string -> list string) (format_4f : Q -> string)
    (lexicon : list (string * gmap string Q)) :
  ScoreAndLabel.process split format_4f None lexicon = None /\
  forall toks, exists rows,
    ScoreAndLabel.process split format_4f (Some toks) lexicon = Some rows /\
    List.length rows = List.length toks /\
    forall i tok, List.nth_error toks i = Some tok ->
      exists label top3 m,
        List.nth_error rows i = Some (label, top3, m) /\
        label = fst (ScoreAndLabel.score_row split tok lexicon) /\
        let grams := ScoreAndLabel.tokens_to_ngrams (split tok) in
        (0 <= m)%Q /\
        (forall c w, In (c, w) lexicon -> (ScoreAndLabel.category_score grams w <= m)%Q) /\
        (m = 0%Q \/ exists w, In (label, w) lexicon /\
                              m = ScoreAndLabel.category_score grams w) /\
        ((forall c w, In (c, w) lexicon -> ~ (0 < ScoreAndLabel.category_score grams w)%Q) ->
         label = ""%string /\ top3 = ""%string /\ m = 0%Q).
Proof.
  split; [reflexivity|]. intros toks. eexists. split; [reflexivity|].
  split; [apply List.length_map|]. intros i tok Hi.
  rewrite List.nth_error_map, Hi. cbn [option_map].
  unfold ScoreAndLabel.process_row, ScoreAndLabel.score_row.
  set (grams := ScoreAndLabel.tokens_to_ngrams (split tok)).
  pose proof (positive_scores_In grams lexicon) as Hin.
  pose proof (positive_scores_nil grams lexicon) as Hnil.
  destruct (ScoreAndLabel.positive_scores grams lexicon) as [|x xs] eqn:E.
  - do 3 eexists. split; [reflexivity|]. split; [reflexivity|]. cbv zeta.
    split; [lra|]. split; [|split; [now left|intros _; repeat split]].
    intros c w Hw. pose proof (proj1 Hnil eq_refl c w Hw). lra.
  - destruct (sort_desc snd (x :: xs)) as [|[c s] rest] eqn:Es.
    { pose proof (sort_desc_length snd (x :: xs)) as Hl. rewrite Es in Hl. discriminate. }
    do 3 eexists. split; [reflexivity|]. split; [reflexivity|]. cbv zeta. cbn [fst].
    assert (Hc : In (c, s) (x :: xs)).
    { apply (sort_desc_In snd). rewrite Es. now left. }
    apply Hin in Hc as (w & Hw & -> & Hpos).
    change (List.firstn 3 ((c, ScoreAndLabel.category_score grams w) :: rest))
      with ((c, ScoreAndLabel.category_score grams w) :: List.firstn 2 rest).
    cbv iota beta.
    split; [lra|]. split; [|split].
    + intros c' w' Hw'.
      destruct (Qlt_le_dec 0 (ScoreAndLabel.category_score grams w')) as [Hp|Hn]; [|lra].
      assert (Hc' : In (c', ScoreAndLabel.category_score grams w') (x :: xs))
        by (apply Hin; eauto).
      exact (sort_desc_head snd _ _ _ Es _ Hc').
    + right. eauto.
    + intros Hall. now destruct (Hall c w Hw).
Qed.

(** ** The shape of a built lexicon *)

Section SortedLists.
Context {A : Type}.
Variable key : A -> Q.

Lemma descending_snoc (r : list A) (x : A) :
  descending key r -> (forall y, In y r -> (key x <= key y)%Q) ->
  descending key (r ++ [x]).
Proof.
  unfold descending. induction r as [|z r IH]; simpl; intros Hs Hin.
  - repeat constructor.
  - inversion Hs as [|? ? Hs2 Hz]; subst. constructor.
    + apply IH; trivial. intros y Hy. apply Hin. now right.
    + apply List.Forall_app. split; trivial. repeat constructor. apply Hin. now left.
Qed.

Lemma ascending_rev (l : list A) : ascending key l -> descending key (List.rev l).
Proof.
  induction l as [|x l IH]; simpl; intros H.
  - constructor.
  - inversion H as [|? ? Hs Hall]; subst. apply descending_snoc; [now apply IH|].
    intros y Hy. rewrite List.Forall_forall in Hall. apply Hall. now apply List.in_rev.
Qed.

(** Keeping some of the elements of a descending list, each with its key,
    gives a list in descending order of the keys. *)
Lemma descending_keep {B : Type} (keep : A -> bool) (f : A -> B) (l : list A) :
  descending key l ->
  descending snd (List.flat_map (fun i => if keep i then [(f i, key i)] else []) l).
Proof.
  unfold descending. induction l as [|x l IH]; simpl; intros H; [constructor|].
  inversion H as [|? ? Hs Hall]; subst. specialize (IH Hs).
  destruct (keep x); simpl; trivial. constructor; trivial.
  apply List.Forall_forall. intros [b q] Hin.
  apply List.in_flat_map in Hin as (i & Hi & Hin).
  destruct (keep i); [|destruct Hin]. destruct Hin as [[= <- <-]|[]]. simpl.
  rewrite List.Forall_forall in Hall. now apply Hall.
Qed.

Lemma flat_map_keep_length {B : Type} (keep : A -> bool) (f : A -> B) (l : list A) :
  (List.length (List.flat_map (fun i => if keep i then [f i] else []) l)
   <= List.length l)%nat.
Proof.
  induction l as [|x l IH]; simpl; [lia|]. destruct (keep x); simpl; lia.
Qed.

End SortedLists.

Lemma py_take_prefix {A : Type} (k : Z) (l : list A) :
  exists n, py_take k l = List.firstn n l /\ (0 <= k -> n = Z.to_nat k).
Proof.
  unfold py_take. destruct (Z.leb_spec 0 k).
  - eexists. split; [reflexivity|trivial].
  - eexists. split; [reflexivity|lia].
Qed.

Section BuildShape.
Import ReutersBuildLexicon.

Local Abbreviation positive i c := (if Qlt_le_dec 0 (List.nth i c 0%Q) then true else false).

(** The terms kept for a category: at least one, at most [top_k], each with
    a positive weight, heaviest first. *)
Lemma category_terms_shape (X : list (list Q)) (vocab : list string) (top_k : Z)
    (idxs : list nat) (terms : list (string * Q)) :
  category_terms X vocab top_k idxs = Some terms ->
  terms <> [] /\
  (0 <= top_k -> (List.length terms <= Z.to_nat top_k)%nat) /\
  List.Forall (fun tw => 0 < snd tw)%Q terms /\
  descending snd terms.
Proof.
  unfold category_terms.
  destruct (Nat.ltb (List.length idxs) 5); [discriminate|].
  set (centroid := centroid_of X (List.length vocab) idxs).
  destruct (Qeq_bool _ _); [discriminate|].
  set (top_idx := py_take top_k (List.rev (argsort centroid))).
  assert (E : forall l : list nat,
            List.flat_map
              (fun i => if Qlt_le_dec 0 (List.nth i centroid 0%Q)
                        then [(List.nth i vocab ""%string, List.nth i centroid 0%Q)]
                        else []) l
            = List.flat_map
                (fun i => if positive i centroid
                          then [(List.nth i vocab ""%string, List.nth i centroid 0%Q)]
                          else []) l).
  { intros l. apply List.flat_map_ext. intros i.
    now destruct (Qlt_le_dec 0 (List.nth i centroid 0%Q)). }
  rewrite E. clear E.
  destruct (List.flat_map _ top_idx) as [|t ts] eqn:Et; [discriminate|].
  intros [= <-]. split; [discriminate|]. rewrite <- Et. clear t ts Et.
  destruct (py_take_prefix top_k (List.rev (argsort centroid))) as (n & En & Hn).
  fold top_idx in En.
  split; [|split].
  - intros Hk.
    etransitivity; [apply (flat_map_keep_length (fun i => positive i centroid))|].
    rewrite En, List.length_firstn, (Hn Hk). lia.
  - apply List.Forall_forall. intros [t w] Hin.
    apply List.in_flat_map in Hin as (i & _ & Hin). simpl.
    destruct (Qlt_le_dec 0 (List.nth i centroid 0%Q)) as [Hp|]; [|destruct Hin].
    destruct Hin as [[= <- <-]|[]]. exact Hp.
  - apply (descending_keep (fun i => List.nth i centroid 0%Q)).
    rewrite En. apply descending_firstn. apply ascending_rev.
    apply sort_asc_ascending.
Qed.

Lemma keys_of_kept {B C : Type} (f : string * B -> option C) (l : list (string * B)) :
  List.NoDup (List.map fst l) ->
  List.NoDup
    (List.map fst
       (List.flat_map (fun ci : string * B =>
                         match f ci with Some t => [(fst ci, t)] | None => [] end) l)).
Proof.
  induction l as [|[c b] l IH]; simpl; intros H; [constructor|].
  inversion H as [|? ? Hnin Hnd]; subst. specialize (IH Hnd).
  destruct (f (c, b)); simpl; trivial. constructor; trivial.
  intros Hin. apply Hnin. apply List.in_map_iff in Hin as ([c' t] & <- & Hin).
  apply List.in_flat_map in Hin as ([c2 b2] & Hc2 & Hin).
  destruct (f (c2, b2)); [|destruct Hin]. destruct Hin as [[= <- <-]|[]].
  simpl. now apply (List.in_map fst _ (c2, b2)).
Qed.

End BuildShape.

(** X20. What a lexicon built by [build_lexicon] looks like: it has at least
    one category and no category twice; every category has at least one
    term and, for a non-negative [top_k], at most [top_k] terms; every
    weight is strictly positive; and the terms of a category are in
    descending order of weight. *)
Theorem build_lexicon_shape
    (fit_transform :
       Z -> option string -> list string -> result (list (list Q) * list string))
    (texts : list string) (labels : list (list string))
    (top_k min_df : Z) (stop_words : string)
    (lex : list (string * list (string * Q))) (vocab : list string)
    (Hbuilt : ReutersBuildLexicon.build_lexicon fit_transform texts labels top_k min_df
                stop_words = Ok (lex, vocab)) :
  lex <> [] /\
  List.NoDup (List.map fst lex) /\
  forall c terms, In (c, terms) lex ->
    terms <> [] /\
    (0 <= top_k -> (List.length terms <= Z.to_nat top_k)%nat) /\
    List.Forall (fun tw => 0 < snd tw)%Q terms /\
    descending snd terms.
Proof.
  split; [|split].
  - unfold ReutersBuildLexicon.build_lexicon in Hbuilt.
    destruct (negb (List.length texts =? List.length labels)%nat); [discriminate|].
    destruct (negb _); [discriminate|].
    destruct (fit_transform _ _ texts) as [[X vocab']|]; [|discriminate].
    destruct (List.flat_map _ _) as [|e l] eqn:E; [discriminate|].
    injection Hbuilt as <- _. discriminate.
  - unfold ReutersBuildLexicon.build_lexicon in Hbuilt.
    destruct (negb (List.length texts =? List.length labels)%nat); [discriminate|].
    destruct (negb _); [discriminate|].
    destruct (fit_transform _ _ texts) as [[X vocab']|]; [|discriminate].
    destruct (List.flat_map _ _) as [|e l] eqn:E; [discriminate|].
    injection Hbuilt as <- _. rewrite <- E.
    apply (keys_of_kept
             (fun ci => ReutersBuildLexicon.category_terms X vocab' top_k (snd ci))).
    apply collect_NoDup. constructor.
  - intros c terms Hin.
    destruct (build_lexicon_In _ _ _ _ _ _ _ _ _ _ Hbuilt Hin) as (X & idxs & _ & Ht).
    exact (category_terms_shape _ _ _ _ _ Ht).
Qed.

Lemma build_lexicon_shape_witness :
  let lex := [("grain"%string, [("wheat"%string, 5 # 5)])] in
  lex <> [] /\
  List.NoDup (List.map fst lex) /\
  forall c terms, In (c, terms) lex ->
    terms <> [] /\
    (0 <= 200 -> (List.length terms <= Z.to_nat 200)%nat) /\
    List.Forall (fun tw => 0 < snd tw)%Q terms /\
    descending snd terms.
Proof.
  intros lex.
  apply (build_lexicon_shape
           (fun (_ : Z) (_ : option string) (_ : list string) =>
              Ok ([[1; 0]; [1; 0]; [0; 1]; [0; 1]; [0; 1]; [0; 1]; [0; 1]]%Q,
                  ["oil"; "wheat"]%string))
           ["a"; "b"; "c"; "d"; "e"; "f"; "g"]%string
           [["oil"]; ["oil"]; ["grain"]; ["grain"]; ["grain"]; ["grain"]; ["grain"]]%string
           200 1 "none" lex ["oil"; "wheat"]%string).
  vm_compute. reflexivity.
Defined.

(** X21. When [build_lexicon] raises: when [texts] and [labels] differ in
    length; when [stop_words] is neither "none" nor "english"; when the
    vectorizer raises; and when no label occurs five times in the label
    lists, since then no category passes the size threshold and the lexicon
    would be empty. It never returns an empty lexicon. *)
Theorem build_lexicon_raises
    (fit_transform :
       Z -> option string -> list string -> result (list (list Q) * list string))
    (texts : list string) (labels : list (list string))
    (top_k min_df : Z) (stop_words : string) :
  let built :=
    ReutersBuildLexicon.build_lexicon fit_transform texts labels top_k min_df stop_words in
  (List.length texts <> List.length labels -> built = Raise) /\
  (stop_words <> "none"%string -> stop_words <> "english"%string -> built = Raise) /\
  (fit_transform min_df
     (if String.eqb stop_words "none" then None else Some "english"%string) texts = Raise ->
   built = Raise) /\
  ((forall c, (ReutersBuildLexicon.occurrences c labels < 5)%nat) -> built = Raise) /\
  (forall vocab, built <> Ok ([], vocab)).
Proof.
  intros built. subst built. unfold ReutersBuildLexicon.build_lexicon.
  split; [|split; [|split; [|split]]].
  - intros H. apply Nat.eqb_neq in H. now rewrite H.
  - intros H1 H2. destruct (negb _); [reflexivity|].
    apply String.eqb_neq in H1, H2. now rewrite H1, H2.
  - intros H. destruct (negb _); [reflexivity|]. destruct (negb _); [reflexivity|].
    now rewrite H.
  - intros Hsmall. destruct (negb _); [reflexivity|]. destruct (negb _); [reflexivity|].
    destruct (fit_transform _ _ texts) as [[X vocab]|]; [|reflexivity].
    destruct (List.flat_map _ _) as [|[c terms] l] eqn:E; [reflexivity|].
    exfalso.
    assert (Hin : In (c, terms)
              (List.flat_map
                 (fun ci : string * list nat =>
                    match ReutersBuildLexicon.category_terms X vocab top_k (snd ci) with
                    | Some terms => [(fst ci, terms)]
                    | None => []
                    end) (ReutersBuildLexicon.collect 0 labels [])))
      by (rewrite E; now left).
    apply List.in_flat_map in Hin as ([c' idxs] & Hcd & Hin). simpl in Hin.
    destruct (ReutersBuildLexicon.category_terms X vocab top_k idxs) as [t|] eqn:Et;
      [|destruct Hin].
    apply category_terms_min in Et. rewrite (collect_length labels c' idxs Hcd) in Et.
    specialize (Hsmall c'). lia.
  - intros vocab. destruct (negb _); [discriminate|]. destruct (negb _); [discriminate|].
    destruct (fit_transform _ _ texts) as [[X vocab']|]; [|discriminate].
    destruct (List.flat_map _ _); discriminate.
Qed.

(** ** A built lexicon, loaded and used for scoring *)

Section LoadedLexicon.
Import ScoreAndLabel.

Lemma weights_of_positive (terms : list (string * Q)) :
  List.Forall (fun tw => 0 < snd tw)%Q terms ->
  forall g w, weights_of terms !! g = Some w -> (0 < w)%Q.
Proof.
  intros Hpos g w H. destruct (weights_of_spec terms ∅ g w H) as [Hin|He].
  - rewrite List.Forall_forall in Hpos. exact (Hpos (g, w) Hin).
  - rewrite lookup_empty in He. discriminate.
Qed.

Lemma weights_of_member (terms : list (string * Q)) (g : string) :
  weights_of terms !! g <> None <-> exists w, In (g, w) terms.
Proof.
  split.
  - intros H. destruct (weights_of terms !! g) as [w|] eqn:E; [|congruence].
    destruct (weights_of_spec terms ∅ g w E) as [Hin|He]; [eauto|].
    rewrite lookup_empty in He. discriminate.
  - intros H. apply weights_of_dom. now left.
Qed.

End LoadedLexicon.

Section EmptyLabel.
Import ScoreAndLabel.
Variable split : string -> list string.

Lemma score_row_empty (tokens : string) (lexicon : list (string * gmap string Q)) :
  score_row split tokens lexicon = (""%string, []) <->
  positive_scores (tokens_to_ngrams (split tokens)) lexicon = [].
Proof.
  unfold score_row.
  destruct (positive_scores _ lexicon) as [|x xs] eqn:E; [tauto|].
  split; [|discriminate].
  destruct (sort_desc snd (x :: xs)) as [|[c s] rest] eqn:Es.
  - pose proof (sort_desc_length snd (x :: xs)) as Hl. rewrite Es in Hl. discriminate.
  - discriminate.
Qed.

Lemma score_row_label (tokens : string) (lexicon : list (string * gmap string Q)) :
  positive_scores (tokens_to_ngrams (split tokens)) lexicon <> [] ->
  exists s, In (fst (score_row split tokens lexicon), s)
               (positive_scores (tokens_to_ngrams (split tokens)) lexicon).
Proof.
  unfold score_row.
  destruct (positive_scores _ lexicon) as [|x xs] eqn:E; [congruence|]. intros _.
  destruct (sort_desc snd (x :: xs)) as [|[c s] rest] eqn:Es.
  - pose proof (sort_desc_length snd (x :: xs)) as Hl. rewrite Es in Hl. discriminate.
  - exists s. cbn [fst]. apply (sort_desc_In snd). rewrite Es. now left.
Qed.

End EmptyLabel.

(** X22. Building, loading and scoring fit together: with a lexicon that
    [build_lexicon] returned and [load_lexicon] turned into dictionaries,
    [score_row] gives a row the empty label exactly when none of its
    unigrams and bigrams is a term of any category; every category score is
    then 0, and otherwise the label is a category that has one of the grams
    among its terms. *)
Theorem built_lexicon_labels_on_overlap
    (fit_transform :
       Z -> option string -> list string -> result (list (list Q) * list string))
    (texts : list string) (labels : list (list string))
    (top_k min_df : Z) (stop_words : string)
    (lex : list (string * list (string * Q))) (vocab : list string)
    (Hbuilt : ReutersBuildLexicon.build_lexicon fit_transform texts labels top_k min_df
                stop_words = Ok (lex, vocab))
    (split : string -> list string) (tokens : string) :
  exists loaded_vocab lexicon,
    ScoreAndLabel.load_lexicon (Some vocab) (Some lex) = Ok (loaded_vocab, lexicon) /\
    let grams := ScoreAndLabel.tokens_to_ngrams (split tokens) in
    let r := ScoreAndLabel.score_row split tokens lexicon in
    (r = (""%string, []) <->
     forall c terms g w, In (c, terms) lex -> In (g, w) terms -> ~ In g grams) /\
    (r <> (""%string, []) ->
     exists terms g w, In (fst r, terms) lex /\ In (g, w) terms /\ In g grams).
Proof.
  eexists _, _. split; [reflexivity|]. intros grams r.
  set (lexicon := List.map (fun ct : string * list (string * Q) =>
                              (fst ct, ScoreAndLabel.weights_of (snd ct))) lex) in *.
  assert (Hlex : forall c m, In (c, m) lexicon <->
                   exists terms, In (c, terms) lex /\ m = ScoreAndLabel.weights_of terms).
  { intros c m. unfold lexicon. rewrite List.in_map_iff. split.
    - intros ([c' terms] & [= <- <-] & Hin). eauto.
    - intros (terms & Hin & ->). now exists (c, terms). }
  assert (Hpos : forall c terms, In (c, terms) lex ->
            ((0 < ScoreAndLabel.category_score grams (ScoreAndLabel.weights_of terms))%Q <->
             exists g w, In (g, w) terms /\ In g grams)).
  { intros c terms Hin.
    destruct (build_lexicon_In _ _ _ _ _ _ _ _ _ _ Hbuilt Hin) as (X & idxs & _ & Ht).
    destruct (category_terms_shape _ _ _ _ _ Ht) as (_ & _ & Hw & _).
    rewrite (proj2 (score_positive grams _ (weights_of_positive terms Hw))).
    split.
    - intros (g & Hg & Hm). apply weights_of_member in Hm as (w & Hgw). eauto.
    - intros (g & w & Hgw & Hg). exists g. split; trivial.
      apply weights_of_member. eauto. }
  pose proof (score_row_empty split tokens lexicon) as Hempty.
  pose proof (score_row_label split tokens lexicon) as Hlabel.
  fold grams r in Hempty, Hlabel.
  split.
  - rewrite Hempty, positive_scores_nil. split.
    + intros H c terms g w Hin Hgw Hg.
      apply (H c (ScoreAndLabel.weights_of terms)).
      * apply Hlex. eauto.
      * apply (Hpos c terms Hin). eauto.
    + intros H c m Hin Hp. apply Hlex in Hin as (terms & Hin & ->).
      apply (Hpos c terms Hin) in Hp as (g & w & Hgw & Hg). exact (H c terms g w Hin Hgw Hg).
  - intros Hne.
    destruct Hlabel as (s & Hs); [now rewrite <- Hempty|].
    apply positive_scores_In in Hs as (m & Hm & -> & Hp).
    apply Hlex in Hm as (terms & Hin & ->).
    apply (Hpos _ terms Hin) in Hp as (g & w & Hgw & Hg).
    exists terms, g, w. repeat split; trivial.
Qed.

Lemma built_lexicon_labels_on_overlap_witness :
  let fit := fun (_ : Z) (_ : option string) (_ : list string) =>
    Ok ([[1; 0]; [1; 0]; [0; 1]; [0; 1]; [0; 1]; [0; 1]; [0; 1]]%Q,
        ["oil"; "wheat"]%string) in
  let lex := [("grain"%string, [("wheat"%string, 5 # 5)])] in
  let split := fun _ : string => ["crude"; "oil"]%string in
  exists loaded_vocab lexicon,
    ScoreAndLabel.load_lexicon (Some ["oil"; "wheat"]%string) (Some lex)
      = Ok (loaded_vocab, lexicon) /\
    let grams := ScoreAndLabel.tokens_to_ngrams (split "crude oil"%string) in
    let r := ScoreAndLabel.score_row split "crude oil" lexicon in
    (r = (""%string, []) <->
     forall c terms g w, In (c, terms) lex -> In (g, w) terms -> ~ In g grams) /\
    (r <> (""%string, []) ->
     exists terms g w, In (fst r, terms) lex /\ In (g, w) terms /\ In g grams).
Proof.
  intros fit lex split.
  apply (built_lexicon_labels_on_overlap fit
           ["a"; "b"; "c"; "d"; "e"; "f"; "g"]%string
           [["oil"]; ["oil"]; ["grain"]; ["grain"]; ["grain"]; ["grain"]; ["grain"]]%string
           200 1 "none" lex ["oil"; "wheat"]%string).
  vm_compute. reflexivity.
Defined.

(** ** The second lexicon builder and the class selection around it *)

Section StringOrder.

Lemma ascii_compare_lt_trans (a b c : ascii) :
  Ascii.compare a b = Lt -> Ascii.compare b c = Lt -> Ascii.compare a c = Lt.
Proof.
  unfold Ascii.compare. rewrite !N.compare_lt_iff. lia.
Qed.

Lemma ascii_compare_eq (a b : ascii) : Ascii.compare a b = Eq -> a = b.
Proof.
  unfold Ascii.compare. rewrite N.compare_eq_iff. intros H.
  rewrite <- (ascii_N_embedding a), <- (ascii_N_embedding b). now rewrite H.
Qed.

Lemma string_compare_lt_trans (a b c : string) :
  String.compare a b = Lt -> String.compare b c = Lt -> String.compare a c = Lt.
Proof.
  revert b c. induction a as [|x a IH]; intros [|y b] [|z c]; simpl; try discriminate;
    trivial.
  destruct (Ascii.compare x y) eqn:Exy; try discriminate;
    destruct (Ascii.compare y z) eqn:Eyz; try discriminate; intros H1 H2.
  - apply ascii_compare_eq in Exy. subst y. rewrite Eyz. now apply (IH b c).
  - apply ascii_compare_eq in Exy. subst y. now rewrite Eyz.
  - apply ascii_compare_eq in Eyz. subst z. now rewrite Exy.
  - now rewrite (ascii_compare_lt_trans x y z).
Qed.

End StringOrder.

Section MlBuilderMore.
Import TfidfLexiconClassifier.

Local Abbreviation increasing :=
  (StronglySorted (fun a b : string => String.compare a b = Lt)).

Lemma insert_label_increasing (c : string) (l : list string) :
  increasing l -> increasing (insert_label c l).
Proof.
  induction l as [|d l IH]; simpl; intros H.
  - repeat constructor.
  - inversion H as [|? ? Hs Hall]; subst.
    destruct (String.compare c d) eqn:E; trivial.
    + constructor; trivial. constructor; trivial.
      eapply List.Forall_impl; [|exact Hall]. simpl. intros e He.
      now apply (string_compare_lt_trans c d e).
    + constructor; [now apply IH|].
      apply List.Forall_forall. intros e He. apply insert_label_In in He as [->|He].
      * rewrite String.compare_antisym, E. reflexivity.
      * rewrite List.Forall_forall in Hall. now apply Hall.
Qed.

Lemma sorted_set_increasing (y : list string) : increasing (sorted_set y).
Proof.
  induction y as [|c y IH]; simpl; [constructor|]. now apply insert_label_increasing.
Qed.

Lemma increasing_NoDup (l : list string) : increasing l -> List.NoDup l.
Proof.
  induction 1 as [|a l Hs IH Hall]; constructor; trivial.
  intros Hin. rewrite List.Forall_forall in Hall. specialize (Hall a Hin).
  assert (String.compare a a = Eq); [|congruence].
  clear. induction a as [|x a IH]; simpl; trivial.
  assert (Ascii.compare x x = Eq) as -> by (unfold Ascii.compare; apply N.compare_refl).
  exact IH.
Qed.

Lemma build_lexicons_fst (X : list (list Q)) (y vocab : list string) (topk : nat) :
  List.map fst (build_lexicons X y vocab topk) = sorted_set y.
Proof.
  unfold build_lexicons.
  assert (H : forall l, (forall lab, In lab l -> In lab y) ->
            List.map fst
              (List.flat_map
                 (fun lab =>
                    match where_label lab y with
                    | [] => []
                    | _ :: _ =>
                        [(lab,
                          sort_desc snd
                            (List.flat_map
                               (fun i =>
                                  if Qlt_le_dec 0
                                       (List.nth i
                                          (centroid_of X (List.length vocab)
                                             (where_label lab y)) 0%Q)
                                  then
                                    [(List.nth i vocab ""%string,
                                      List.nth i
                                        (centroid_of X (List.length vocab)
                                           (where_label lab y)) 0%Q)]
                                  else [])
                               (if (topk <?
                                    List.length
                                      (centroid_of X (List.length vocab)
                                         (where_label lab y)))%nat
                                then
                                  top_indices
                                    (centroid_of X (List.length vocab) (where_label lab y))
                                    topk
                                else
                                  List.filter
                                    (fun i =>
                                       if Qlt_le_dec 0
                                            (List.nth i
                                               (centroid_of X (List.length vocab)
                                                  (where_label lab y)) 0%Q)
                                       then true else false)
                                    (List.seq 0
                                       (List.length
                                          (centroid_of X (List.length vocab)
                                             (where_label lab y)))))))]
                    end) l) = l).
  { induction l as [|lab l IH]; intros Hl; simpl; [reflexivity|].
    pose proof (where_label_nonempty lab y (Hl lab (or_introl eq_refl))) as Hne.
    destruct (where_label lab y) as [|i idx] eqn:E; [congruence|].
    simpl. f_equal. apply IH. intros lab' Hlab'. apply Hl. now right. }
  apply H. intros lab. apply sorted_set_In.
Qed.

Lemma top_indices_length (arr : list Q) (topk : nat) :
  (List.length (top_indices arr topk) <= topk)%nat.
Proof. unfold top_indices. rewrite List.length_firstn. lia. Qed.

Lemma build_lexicons_pairs (X : list (list Q)) (y vocab : list string) (topk : nat)
    (lab : string) (pairs : list (string * Q)) :
  In (lab, pairs) (build_lexicons X y vocab topk) ->
  (List.length pairs <= topk)%nat /\
  List.Forall (fun tw => 0 < snd tw)%Q pairs /\
  descending snd pairs.
Proof.
  unfold build_lexicons. intros Hin.
  apply List.in_flat_map in Hin as (lab' & _ & Hin).
  destruct (where_label lab' y) as [|i idx]; [destruct Hin|].
  destruct Hin as [[= <- <-]|[]].
  set (arr := centroid_of X (List.length vocab) (i :: idx)).
  set (top_idx := if (topk <? List.length arr)%nat then top_indices arr topk
                  else List.filter _ (List.seq 0 (List.length arr))).
  split; [|split].
  - rewrite sort_desc_length.
    assert (E : forall l : list nat,
              List.flat_map
                (fun i0 => if Qlt_le_dec 0 (List.nth i0 arr 0%Q)
                           then [(List.nth i0 vocab ""%string, List.nth i0 arr 0%Q)]
                           else []) l
              = List.flat_map
                  (fun i0 => if (if Qlt_le_dec 0 (List.nth i0 arr 0%Q) then true else false)
                             then [(List.nth i0 vocab ""%string, List.nth i0 arr 0%Q)]
                             else []) l).
    { intros l. apply List.flat_map_ext. intros i0.
      now destruct (Qlt_le_dec 0 (List.nth i0 arr 0%Q)). }
    rewrite E.
    etransitivity;
      [apply (flat_map_keep_length
                (fun i0 => if Qlt_le_dec 0 (List.nth i0 arr 0%Q) then true else false))|].
    unfold top_idx. destruct (Nat.ltb_spec topk (List.length arr)).
    + apply top_indices_length.
    + etransitivity; [apply List.filter_length_le|]. now rewrite List.length_seq.
  - apply List.Forall_forall. intros [t w] Hin.
    apply (proj1 (sort_desc_In snd _ _)) in Hin.
    apply List.in_flat_map in Hin as (i0 & _ & Hin). simpl.
    destruct (Qlt_le_dec 0 (List.nth i0 arr 0%Q)) as [Hp|]; [|destruct Hin].
    destruct Hin as [[= <- <-]|[]]. exact Hp.
  - apply sort_desc_descending.
Qed.

(** *** Counting topics *)

Lemma count_one_keys (c k : string) (cnt : list (string * nat)) :
  In k (List.map fst (count_one c cnt)) <-> k = c \/ In k (List.map fst cnt).
Proof.
  induction cnt as [|[c' n] cnt IH]; simpl; [intuition|].
  destruct (String.eqb_spec c' c) as [->|Hne]; simpl; [intuition|].
  rewrite IH. intuition.
Qed.

Lemma count_one_NoDup (c : string) (cnt : list (string * nat)) :
  List.NoDup (List.map fst cnt) -> List.NoDup (List.map fst (count_one c cnt)).
Proof.
  induction cnt as [|[c' n] cnt IH]; simpl; intros H.
  - repeat constructor. intros [].
  - inversion H as [|? ? Hnin Hnd]; subst.
    destruct (String.eqb_spec c' c) as [->|Hne]; simpl.
    + now constructor.
    + constructor; [|auto]. rewrite count_one_keys. intuition.
Qed.

Lemma count_one_counted (c k : string) (cnt : list (string * nat)) :
  List.NoDup (List.map fst cnt) ->
  counted k (count_one c cnt) = (counted k cnt + if String.eqb c k then 1 else 0)%nat.
Proof.
  unfold counted. induction cnt as [|[c' n] cnt IH]; simpl; intros H.
  - destruct (String.eqb c k); reflexivity.
  - inversion H as [|? ? Hnin Hnd]; subst.
    destruct (String.eqb_spec c' c) as [->|Hne]; simpl.
    + destruct (String.eqb c k); lia.
    + rewrite IH by trivial. lia.
Qed.

Lemma counted_In (k : string) (n : nat) (cnt : list (string * nat)) :
  List.NoDup (List.map fst cnt) -> In (k, n) cnt -> counted k cnt = n.
Proof.
  unfold counted. induction cnt as [|[c m] cnt IH]; simpl; [tauto|].
  intros Hnd Hin. inversion Hnd as [|? ? Hnin Hnd']; subst.
  destruct Hin as [[= -> ->]|Hin].
  - rewrite String.eqb_refl.
    assert (list_sum (List.map (fun p : string * nat =>
                        if String.eqb (fst p) k then snd p else 0%nat) cnt) = 0%nat) as ->;
      [|lia].
    clear -Hnin. induction cnt as [|[c m] cnt IH]; simpl in *; [reflexivity|].
    destruct (String.eqb_spec c k) as [->|_]; [tauto|]. apply IH. tauto.
  - destruct (String.eqb_spec c k) as [->|_].
    + exfalso. apply Hnin. now apply (List.in_map fst _ (k, n)).
    + now apply IH.
Qed.

Lemma counted_zero (k : string) (cnt : list (string * nat)) :
  ~ In k (List.map fst cnt) -> counted k cnt = 0%nat.
Proof.
  unfold counted. induction cnt as [|[c m] cnt IH]; simpl; [reflexivity|].
  intros H. destruct (String.eqb_spec c k) as [->|_]; [tauto|]. apply IH. tauto.
Qed.

Lemma count_fold_inner (ts : list string) (k : string) (cnt : list (string * nat)) :
  List.NoDup (List.map fst cnt) ->
  List.NoDup (List.map fst (List.fold_left (fun cnt c => count_one c cnt) ts cnt)) /\
  counted k (List.fold_left (fun cnt c => count_one c cnt) ts cnt)
  = (counted k cnt + List.length (List.filter (String.eqb k) ts))%nat /\
  (forall c, In c (List.map fst (List.fold_left (fun cnt c => count_one c cnt) ts cnt)) <->
             In c (List.map fst cnt) \/ In c ts).
Proof.
  revert cnt. induction ts as [|c ts IH]; intros cnt H; simpl.
  - split; [trivial|]. split; [lia|]. intuition.
  - destruct (IH (count_one c cnt) (count_one_NoDup c cnt H)) as (H1 & H2 & H3).
    split; [trivial|]. split.
    + rewrite H2, count_one_counted by trivial. rewrite (String.eqb_sym k c).
      destruct (String.eqb c k); simpl; lia.
    + intros c0. rewrite H3, count_one_keys. intuition.
Qed.

Lemma count_topics_spec (topics_list : list (list string)) :
  List.NoDup (List.map fst (count_topics topics_list)) /\
  (forall k, counted k (count_topics topics_list)
             = ReutersBuildLexicon.occurrences k topics_list) /\
  (forall c, In c (List.map fst (count_topics topics_list)) <->
             In c (List.concat topics_list)).
Proof.
  unfold count_topics, ReutersBuildLexicon.occurrences.
  assert (H : forall cnt, List.NoDup (List.map fst cnt) ->
            List.NoDup (List.map fst
              (List.fold_left
                 (fun cnt ts => List.fold_left (fun cnt c => count_one c cnt) ts cnt)
                 topics_list cnt)) /\
            (forall k, counted k
               (List.fold_left
                  (fun cnt ts => List.fold_left (fun cnt c => count_one c cnt) ts cnt)
                  topics_list cnt)
             = (counted k cnt
                + List.length (List.filter (String.eqb k) (List.concat topics_list)))%nat) /\
            (forall c, In c (List.map fst
               (List.fold_left
                  (fun cnt ts => List.fold_left (fun cnt c => count_one c cnt) ts cnt)
                  topics_list cnt))
               <-> In c (List.map fst cnt) \/ In c (List.concat topics_list))).
  { induction topics_list as [|ts tl IH]; intros cnt Hnd; simpl.
    - split; [trivial|]. split; [intros; lia|]. intuition.
    - destruct (count_fold_inner ts ""%string cnt Hnd) as (H1 & _ & H3).
      destruct (IH _ H1) as (G1 & G2 & G3).
      split; [trivial|]. split.
      + intros k. rewrite G2.
        destruct (count_fold_inner ts k cnt Hnd) as (_ & H2 & _). rewrite H2.
        rewrite List.filter_app, List.length_app. lia.
      + intros c. rewrite G3, H3, List.in_app_iff. intuition. }
  destruct (H [] (List.NoDup_nil _)) as (H1 & H2 & H3).
  split; [trivial|]. split.
  - intros k. rewrite H2. reflexivity.
  - intros c. rewrite H3. simpl. intuition.
Qed.

Lemma NoDup_firstn {A : Type} (n : nat) (l : list A) :
  List.NoDup l -> List.NoDup (List.firstn n l).
Proof.
  revert n. induction l as [|x l IH]; intros [|n] H; simpl; try constructor.
  - inversion H; subst. intros Hin. apply In_firstn in Hin. contradiction.
  - inversion H; subst. now apply IH.
Qed.

Lemma insert_desc_perm {A : Type} (key : A -> Q) (x : A) (l : list A) :
  Permutation (x :: l) (insert_desc key x l).
Proof.
  induction l as [|y l IH]; simpl; [reflexivity|].
  destruct (Qlt_le_dec (key x) (key y)); [|reflexivity].
  rewrite perm_swap. now apply perm_skip.
Qed.

Lemma sort_desc_perm {A : Type} (key : A -> Q) (l : list A) :
  Permutation l (sort_desc key l).
Proof.
  induction l as [|x l IH]; simpl; [reflexivity|].
  rewrite <- insert_desc_perm. now apply perm_skip.
Qed.

End MlBuilderMore.

(** X23. The categories of the lexicons built by [build_lexicons] are the
    distinct labels of [y] in strictly ascending order: each label exactly
    once, smallest first, whatever the order of the documents. *)
Theorem build_lexicons_categories_sorted (X : list (list Q)) (y vocab : list string)
    (topk : nat) :
  let keys := List.map fst (TfidfLexiconClassifier.build_lexicons X y vocab topk) in
  StronglySorted (fun a b => String.compare a b = Lt) keys /\
  List.NoDup keys /\
  (forall lab, In lab keys <-> In lab y) /\
  keys = TfidfLexiconClassifier.sorted_set y.
Proof.
  intros keys. subst keys. rewrite build_lexicons_fst.
  pose proof (sorted_set_increasing y) as Hs.
  repeat split; trivial.
  - now apply increasing_NoDup.
  - now apply sorted_set_In.
  - now apply sorted_set_In.
Qed.



(** X25. [select_top_classes] returns at most [top_n] topics and none for
    [top_n <= 0]; no topic twice; every topic it returns occurs in the topic
    lists; and the topics it returns are the most frequent ones: a topic it
    leaves out occurs no more often than any topic it returns. *)
Theorem select_top_classes_most_frequent (topics_list : list (list string)) (top_n : Z) :
  let classes := TfidfLexiconClassifier.select_top_classes topics_list top_n in
  (List.length classes <= Z.to_nat top_n)%nat /\
  List.NoDup classes /\
  (forall c, In c classes -> In c (List.concat topics_list)) /\
  (forall c c', In c classes -> ~ In c' classes ->
     (ReutersBuildLexicon.occurrences c' topics_list
      <= ReutersBuildLexicon.occurrences c topics_list)%nat).
Proof.
  intros classes. subst classes.
  unfold TfidfLexiconClassifier.select_top_classes, TfidfLexiconClassifier.most_common.
  destruct (count_topics_spec topics_list) as (Hnd & Hcount & Hkeys).
  set (cnt := TfidfLexiconClassifier.count_topics topics_list) in *.
  set (key := fun kv : string * nat => inject_Z (Z.of_nat (snd kv))).
  destruct (Z.leb_spec top_n 0) as [Hle|Hgt].
  { simpl. repeat split; try constructor; try lia; intros; contradiction. }
  set (sorted := sort_desc key cnt).
  assert (Hperm : Permutation cnt sorted) by apply sort_desc_perm.
  assert (Hnds : List.NoDup (List.map fst sorted)).
  { eapply Permutation_NoDup; [|exact Hnd]. now apply Permutation_map. }
  split; [|split; [|split]].
  - rewrite List.length_map, List.length_firstn. lia.
  - rewrite <- List.firstn_map. now apply NoDup_firstn.
  - intros c Hc. apply Hkeys.
    apply List.in_map_iff in Hc as ([c0 n] & <- & Hc). apply In_firstn in Hc.
    apply (List.in_map fst) in Hc. eapply Permutation_in; [|exact Hc].
    apply Permutation_map. now symmetry.
  - intros c c' Hc Hc'.
    apply List.in_map_iff in Hc as ([c0 n] & <- & Hc). simpl.
    assert (Hn : TfidfLexiconClassifier.counted c0 cnt = n).
    { apply counted_In; trivial. eapply Permutation_in; [symmetry; exact Hperm|].
      eapply In_firstn. exact Hc. }
    rewrite <- !Hcount, Hn.
    destruct (List.in_dec String.string_dec c' (List.map fst cnt)) as [Hk|Hk].
    2:{ rewrite counted_zero by trivial. lia. }
    apply List.in_map_iff in Hk as ([c1 n'] & <- & Hk). simpl in *.
    rewrite (counted_In c1 n' cnt Hnd Hk).
    assert (Hs : In (c1, n') sorted) by (eapply Permutation_in; eauto).
    unfold sorted in Hs.
    rewrite <- (List.firstn_skipn (Z.to_nat top_n) (sort_desc key cnt)) in Hs.
    apply List.in_app_or in Hs as [Hs|Hs].
    + exfalso. apply Hc'. now apply (List.in_map fst _ (c1, n')).
    + pose proof (descending_firstn_skipn key (Z.to_nat top_n) (sort_desc key cnt)
                    (c0, n) (c1, n') (sort_desc_descending key cnt) Hc Hs) as Hq.
      unfold key in Hq. simpl in Hq. rewrite <- Zle_Qle in Hq. lia.
Qed.

(** X26. The classes of the Reuters pipeline: when the documents are
    filtered by [filter_single_label] against the classes that
    [select_top_classes] chose, and the lexicons are built from the labels
    of the rows that are left, every category of the lexicons is one of the
    chosen classes, it is the only chosen class among the topics of some
    document, and there are at most [n_classes] categories. *)
Theorem pipeline_categories (df : list TfidfLexiconClassifier.doc) (n_classes : Z)
    (X : list (list Q)) (vocab : list string) (topk : nat) :
  let top_classes :=
    TfidfLexiconClassifier.select_top_classes
      (List.map TfidfLexiconClassifier.doc_topics df) n_classes in
  let rows := TfidfLexiconClassifier.filter_single_label df top_classes in
  let y := List.map snd rows in
  let lexicons := TfidfLexiconClassifier.build_lexicons X y vocab topk in
  (forall lab, In lab (List.map fst lexicons) ->
     In lab top_classes /\
     exists r, In r df /\
       List.filter (fun t => existsb (String.eqb t) top_classes)
                   (TfidfLexiconClassifier.doc_topics r) = [lab]) /\
  (List.length lexicons <= Z.to_nat n_classes)%nat.
Proof.
  intros top_classes rows y lexicons.
  assert (Hy : forall lab, In lab y ->
            In lab top_classes /\
            exists r, In r df /\
              List.filter (fun t => existsb (String.eqb t) top_classes)
                          (TfidfLexiconClassifier.doc_topics r) = [lab]).
  { intros lab Hlab. unfold y, rows in Hlab.
    apply List.in_map_iff in Hlab as ([[[i ti] te] l] & E & Hin). simpl in E. subst l.
    unfold TfidfLexiconClassifier.filter_single_label in Hin.
    apply List.in_flat_map in Hin as (r & Hr & Hin).
    destruct (List.filter _ (TfidfLexiconClassifier.doc_topics r)) as [|t [|t2 ts]] eqn:Ef;
      [destruct Hin| |destruct Hin].
    destruct Hin as [[= _ _ _ ->]|[]].
    split; [|exists r; split; trivial].
    assert (Ht : In lab (List.filter (fun t => existsb (String.eqb t) top_classes)
                           (TfidfLexiconClassifier.doc_topics r)))
      by (rewrite Ef; now left).
    apply List.filter_In in Ht as [_ Ht].
    apply List.existsb_exists in Ht as (x & Hx & Ex).
    apply String.eqb_eq in Ex. now subst x. }
  assert (Hkeys : forall lab, In lab (List.map fst lexicons) -> In lab y).
  { intros lab. unfold lexicons. rewrite build_lexicons_fst. apply sorted_set_In. }
  split; [intros lab Hlab; apply Hy, Hkeys, Hlab|].
  rewrite <- (List.length_map fst).
  assert (Hnd : List.NoDup (List.map fst lexicons)).
  { unfold lexicons. rewrite build_lexicons_fst.
    apply increasing_NoDup, sorted_set_increasing. }
  assert (Hincl : List.incl (List.map fst lexicons) top_classes).
  { intros lab Hlab. apply Hy, Hkeys, Hlab. }
  etransitivity; [exact (List.NoDup_incl_length Hnd Hincl)|].
  unfold top_classes, TfidfLexiconClassifier.select_top_classes,
    TfidfLexiconClassifier.most_common.
  destruct (n_classes <=? 0); simpl; [lia|].
  rewrite List.length_map, List.length_firstn. lia.
Qed.

(** ** URL canonicalization: what the canonical form keeps *)

Section CanonicalPartsOf.
Import Canonicalize.
Variable chk : str -> bool.
Hypothesis chk_lower : forall h, chk h = true -> chk (lower h) = true.

(** The parts from which the canonical form of a parsed ASCII url is
    assembled, spelled out. *)
Lemma canonical_parts_of (u : str) (p : ParseResult) :
  is_ascii u -> urlparse chk u = Ok p ->
  let s := lower (scheme p) in
  let n := lower (netloc p) in
  let pa := collapse_slashes (match path p with [] => str_of "/" | _ :: _ => path p end) in
  let q := urlencode (sorted (query_pairs (query p))) in
  let pa2 := if needs_netloc s n then with_slash pa else pa in
  canonical_of p = urlunsplit s n pa2 q [] /\ canonical_parts chk s n pa2 q.
Proof.
  intros Hu Hp. cbv zeta.
  destruct (urlparse_split chk u p Hp) as (r & Hr & Es & En & Eq & Hpath).
  destruct (urlsplit_facts chk u r Hu Hr)
    as (rest & rest2 & tail & Hsch & Hrest & Hnet & Erest2 & Htail & Hnq & Hnf & Hqpl).
  rewrite <- Es, <- En, <- Eq in *. clear Es En Eq.
  set (s := lower (scheme p)). set (n := lower (netloc p)).
  set (po := match path p with [] => str_of "/" | _ :: _ => path p end).
  set (pa := collapse_slashes po).
  set (q := urlencode (sorted (query_pairs (query p)))).
  set (pa2 := if needs_netloc s n then with_slash pa else pa).
  (* the scheme *)
  pose proof (split_scheme_scheme (clean u)) as Hss. rewrite Hsch in Hss. cbn [fst snd] in Hss.
  assert (Hs : s = scheme p).
  { unfold s. destruct Hss as [[-> _]|(_ & E & _)]; [reflexivity|exact E]. }
  (* the path is a prefix of what follows the netloc *)
  assert (Hpre : exists tail', rest2 = path p ++ tail').
  { destruct Hpath as [[E _]|[E _]].
    - exists tail. now rewrite E.
    - exists (";"%char :: params p ++ tail). rewrite Erest2, E.
      now rewrite <- List.app_assoc. }
  destruct Hpre as (tail' & Epre).
  assert (Hrest2 : List.Forall plain rest2).
  { destruct Hnet as [(E & _)|(_ & _ & ->)]; [|exact Hrest].
    rewrite E in Hrest. inversion Hrest as [|? ? _ H1]; subst.
    inversion H1 as [|? ? _ H2]; subst. now apply List.Forall_app in H2 as [_ ?]. }
  assert (Hpp : List.Forall plain (path p))
    by (rewrite Epre in Hrest2; exact (prefix_of_app _ _ _ Hrest2)).
  assert (Hpq : ~ In "?"%char (path p) /\ ~ In "#"%char (path p)).
  { destruct Hpath as [[E _]|[E _]]; [now rewrite E|].
    rewrite E in Hnq, Hnf. split; intros H; [apply Hnq|apply Hnf];
      apply List.in_or_app; now left. }
  destruct Hpq as [Hpq Hpf].
  assert (Hpo_ne : po <> []) by (unfold po; destruct (path p); discriminate).
  assert (Hpo_plain : List.Forall plain po).
  { unfold po. destruct (path p); [|exact Hpp].
    constructor; [now apply plain_iff|constructor]. }
  assert (Hpo_q : ~ In "?"%char po /\ ~ In "#"%char po).
  { unfold po. destruct (path p); [|now split].
    split; intros [H|[]]; discriminate. }
  assert (Hpa_ne : pa <> []) by (intros H; apply Hpo_ne; now apply collapse_nil).
  assert (Hpa_d : starts_with (str_of "//") pa = false) by apply collapse_no_double.
  assert (Hpa2_cases : pa2 = pa \/ (needs_netloc s n = true /\ pa2 = with_slash pa)).
  { unfold pa2. destruct (needs_netloc s n); auto. }
  assert (Hin2 : forall x, In x pa2 -> x = "/"%char \/ In x po).
  { intros x Hx. destruct Hpa2_cases as [E|[_ E]]; rewrite E in Hx.
    - right. now apply collapse_In.
    - destruct (with_slash_cases pa) as [E'|(c0 & t0 & _ & _ & E')]; rewrite E' in Hx.
      + right. now apply collapse_In.
      + destruct Hx as [<-|Hx]; [now left|right; now apply collapse_In]. }
  fold s n po pa q pa2. split.
  { unfold canonical_of, urlunparse. fold s n po pa q. now apply urlunsplit_slash. }
  constructor.
  - (* cp_scheme *)
    rewrite Hs. destruct Hss as [[E _]|(H & _)]; auto.
  - apply lower_idem.
  - (* cp_netloc_delim *)
    apply Forall_lower; [intros x; now rewrite delim_lower|].
    destruct Hnet as [(_ & H & _)|(_ & -> & _)]; [exact H|constructor].
  - (* cp_netloc_plain *)
    apply Forall_lower; [exact plain_lower|].
    destruct Hnet as [(E & _)|(_ & -> & _)]; [|constructor].
    rewrite E in Hrest. inversion Hrest as [|? ? _ H1]; subst.
    inversion H1 as [|? ? _ H2]; subst. now apply List.Forall_app in H2 as [? _].
  - (* cp_netloc_ok *)
    apply netloc_ok_lower; [exact chk_lower|].
    destruct Hnet as [(_ & _ & H & _)|(_ & -> & _)]; [exact H|reflexivity].
  - apply lower_idem.
  - (* cp_path_nonempty *)
    destruct Hpa2_cases as [->|[_ ->]]; trivial.
    destruct (with_slash_head pa Hpa_ne) as (t & ->). discriminate.
  - (* cp_path_collapsed *)
    destruct Hpa2_cases as [->|[_ ->]]; [apply collapse_idem|].
    apply with_slash_collapsed, collapse_idem.
  - (* cp_path_plain *)
    apply List.Forall_forall. intros x Hx. destruct (Hin2 x Hx) as [->|H].
    + now apply plain_iff.
    + rewrite List.Forall_forall in Hpo_plain. auto.
  - intros H. destruct (Hin2 _ H) as [E|H']; [discriminate|]. now apply Hpo_q.
  - intros H. destruct (Hin2 _ H) as [E|H']; [discriminate|]. now apply Hpo_q.
  - (* cp_path_slash *)
    intros Hn. unfold pa2. rewrite Hn. now apply with_slash_head.
  - (* cp_path_params *)
    intros Hup.
    assert (Hl : last_segment pa2 = last_segment po).
    { destruct Hpa2_cases as [->|[_ ->]].
      - apply last_segment_collapse.
      - rewrite last_segment_with_slash by assumption. apply last_segment_collapse. }
    rewrite Hl. unfold po. destruct (path p) as [|p0 p'] eqn:Ep.
    + intros [].
    + rewrite Hs in Hup.
      destruct Hpath as [[_ H]|[_ H]]; auto.
  - (* cp_path_scheme *)
    intros Hs0 c t Ec Hc.
    assert (Hsp : scheme p = []) by (rewrite <- Hs; exact Hs0).
    assert (Epa : pa2 = pa).
    { destruct Hpa2_cases as [E|[_ E]]; trivial.
      destruct (with_slash_head pa Hpa_ne) as (t' & E'). congruence. }
    rewrite Epa in *.
    (* the path itself starts with [c] *)
    assert (Epo : po = path p /\ exists t', path p = c :: t').
    { unfold pa in Ec. unfold po in *. destruct (path p) as [|p0 p'].
      - cbn in Ec. congruence.
      - split; [reflexivity|].
        destruct (Ascii.eqb_spec p0 "/") as [->|Hp0].
        + destruct (collapse_head_slash p') as (t' & E' & _). congruence.
        + rewrite collapse_cons_other in Ec by assumption. injection Ec as -> _. eauto. }
    destruct Epo as [Epo (t' & Ept)].
    (* so no netloc was split off and the cleaned url starts with the path *)
    assert (Hclean : clean u = path p ++ tail').
    { destruct Hss as [[_ Erest]|([(c0 & t0 & E0 & _) _] & _)]; [|congruence].
      destruct Hnet as [(_ & _ & _ & Hh)|(_ & _ & E2)].
      - exfalso. rewrite Epre, Ept in Hh. cbn [List.app] in Hh.
        assert (Hin : In c (path p)) by (rewrite Ept; now left).
        destruct (Ascii.eqb_spec c "/") as [|_]; [contradiction|].
        destruct (Ascii.eqb_spec c "?") as [->|_]; [contradiction|].
        destruct (Ascii.eqb_spec c "#") as [->|_]; [contradiction|].
        unfold chr_in in Hh. cbn in Hh.
        destruct (Ascii.eqb_spec c "/"); [contradiction|].
        destruct (Ascii.eqb_spec c "?"); [subst; contradiction|].
        destruct (Ascii.eqb_spec c "#"); [subst; contradiction|]. discriminate.
      - now rewrite <- Erest, <- E2. }
    split.
    + pose proof (clean_head u) as Hh. rewrite Hclean, Ept in Hh. exact Hh.
    + intros pre r0 E Hl.
      assert (Hnp : ~ In "/"%char pre) by exact (scheme_chars_no "/" pre eq_refl (proj2 Hl)).
      unfold pa in E. rewrite Epo in E.
      destruct (collapse_prefix_inv pre ":" r0 (path p) Hnp) as (r' & Er');
        [discriminate|exact E|].
      apply (split_scheme_nil (clean u) pre (r' ++ tail')); trivial.
      * rewrite Hsch. exact Hsp.
      * rewrite Hclean, Er'. now rewrite <- List.app_assoc.
  - apply urlencode_chars.
  - apply query_fixed. unfold is_ascii.
    eapply List.Forall_impl; [|exact Hqpl]. now intros x [_ Hx].
Qed.

End CanonicalPartsOf.

Section CanonicalOutput.
Import Canonicalize.

Lemma collapse_no_double_inside (s pre post : str) :
  collapse_slashes s <> pre ++ "/"%char :: "/"%char :: post.
Proof.
  revert pre. induction s as [|c s IH]; intros pre.
  - simpl. now destruct pre.
  - destruct (Ascii.eqb_spec c "/") as [->|Hc].
    + destruct s as [|d s'].
      * simpl. destruct pre as [|x [|y pre]]; discriminate.
      * destruct (Ascii.eqb_spec d "/") as [->|Hd].
        -- rewrite collapse_slash_slash. apply IH.
        -- rewrite collapse_slash_other by assumption.
           rewrite <- (collapse_cons_other d s' Hd).
           destruct pre as [|x pre]; cbn [List.app].
           ++ rewrite collapse_cons_other by assumption. intros [= E]. congruence.
           ++ intros [= _ E]. exact (IH pre E).
    + rewrite collapse_cons_other by assumption.
      destruct pre as [|x pre]; cbn [List.app].
      * intros [= E]. congruence.
      * intros [= _ E]. exact (IH pre E).
Qed.

Lemma scheme_like_no_hash (s : str) : s = [] \/ scheme_like s -> ~ In "#"%char s.
Proof.
  intros [->|[_ H]]; [intros []|]. exact (scheme_chars_no "#" s eq_refl H).
Qed.

(** The query of a canonical url, parsed: the pairs are in sorted order and
    none has a tracking key. *)
Lemma canonical_query_pairs (q : str) :
  List.Forall (fun c => is_query_char c = true) q ->
  urlencode (sorted (query_pairs q)) = q ->
  parse_qsl q = sorted (query_pairs q).
Proof.
  intros Hc Hfix.
  assert (Ha : is_ascii q).
  { unfold is_ascii. eapply List.Forall_impl; [|exact Hc]. simpl. intros c H.
    apply query_char_plain, plain_iff in H. exact (proj2 H). }
  rewrite <- Hfix at 1. apply parse_qsl_urlencode.
  apply List.Forall_forall. intros kv Hkv.
  apply (Permutation_in _ (Permutation_sym (sorted_perm _))) in Hkv.
  apply List.filter_In in Hkv as [Hkv _].
  pose proof (parse_qsl_normal q Ha) as Hn. rewrite List.Forall_forall in Hn. auto.
Qed.

End CanonicalOutput.

(** X27. The normal form that [canonicalize_url] produces. The canonical form
    of an ASCII url that [urlparse] accepts is an ASCII url without a [#],
    and [urlparse] reads it as a url with no fragment and no path
    parameters, a scheme and a netloc in lower case, a path that is not
    empty and holds no two slashes in a row, and a query whose pairs are in
    sorted order and none of which has a key in [TRACKING_KEYS]. *)
Theorem canonical_url_normal_form
    (_check_bracketed_host : Canonicalize.str -> bool)
    (Hcheck : forall h, _check_bracketed_host h = true ->
                        _check_bracketed_host (Canonicalize.lower h) = true)
    (u c : string)
    (Hascii : Canonicalize.is_ascii (Canonicalize.str_of u))
    (Hcanon : Canonicalize.canonicalize_url _check_bracketed_host u = Ok c) :
  Canonicalize.is_ascii (Canonicalize.str_of c) /\
  ~ In "#"%char (Canonicalize.str_of c) /\
  exists p,
    Canonicalize.urlparse _check_bracketed_host (Canonicalize.str_of c) = Ok p /\
    Canonicalize.fragment p = [] /\ Canonicalize.params p = [] /\
    Canonicalize.lower (Canonicalize.scheme p) = Canonicalize.scheme p /\
    Canonicalize.lower (Canonicalize.netloc p) = Canonicalize.netloc p /\
    Canonicalize.path p <> [] /\
    (forall pre post, Canonicalize.path p <> pre ++ "/"%char :: "/"%char :: post) /\
    StronglySorted (fun a b => Canonicalize.pair_leb a b = true)
      (Canonicalize.parse_qsl (Canonicalize.query p)) /\
    (forall k v, In (k, v) (Canonicalize.parse_qsl (Canonicalize.query p)) ->
       Canonicalize.in_list k Canonicalize.TRACKING_KEYS = false).
Proof.
  unfold Canonicalize.canonicalize_url, Canonicalize.canonicalize in Hcanon.
  destruct (Canonicalize.urlparse _ (Canonicalize.str_of u)) as [p0|] eqn:Ep;
    [|discriminate].
  injection Hcanon as <-.
  unfold Canonicalize.str_of at 1 2 3. rewrite list_ascii_of_string_of_list_ascii.
  destruct (parse_parts _ Hcheck _ p0 Hascii Ep) as (s & n & pa & q & -> & Hcp).
  rewrite (canonical_unsplit _ s n pa q Hcp).
  split; [|split].
  - pose proof (canonical_plain _ s n pa q Hcp) as Hpl.
    unfold Canonicalize.is_ascii. eapply List.Forall_impl; [|exact Hpl].
    now intros x [_ Hx].
  - unfold Canonicalize.assembled. intros Hin.
    apply List.in_app_or in Hin as [Hin|Hin].
    + destruct (url_prefix_cases s) as [[_ E]|[_ E]]; rewrite E in Hin; [destruct Hin|].
      apply List.in_app_or in Hin as [Hin|[Hin|[]]]; [|discriminate].
      exact (scheme_like_no_hash s (Canonicalize.cp_scheme _ _ _ _ _ Hcp) Hin).
    + apply List.in_app_or in Hin as [Hin|Hin].
      * assert (Hn : ~ In "#"%char n).
        { intros H. pose proof (Canonicalize.cp_netloc_delim _ _ _ _ _ Hcp) as Hd.
          rewrite List.Forall_forall in Hd. specialize (Hd _ H). discriminate. }
        unfold Canonicalize.url_body in Hin.
        destruct (Canonicalize.needs_netloc s n).
        -- destruct Hin as [Hin|[Hin|Hin]]; try discriminate.
           apply List.in_app_or in Hin as [Hin|Hin]; [contradiction|].
           exact (Canonicalize.cp_path_fragment _ _ _ _ _ Hcp Hin).
        -- exact (Canonicalize.cp_path_fragment _ _ _ _ _ Hcp Hin).
      * exact (query_no_fragment _ s n pa q Hcp Hin).
  - exists (Canonicalize.mk_parse s n pa [] q []).
    split; [exact (canonical_urlparse _ s n pa q Hcp)|].
    cbn [Canonicalize.fragment Canonicalize.params Canonicalize.scheme Canonicalize.netloc
         Canonicalize.path Canonicalize.query].
    pose proof (canonical_query_pairs q (Canonicalize.cp_query_chars _ _ _ _ _ Hcp)
                  (Canonicalize.cp_query_fixed _ _ _ _ _ Hcp)) as Hq.
    repeat split.
    + exact (Canonicalize.cp_scheme_lower _ _ _ _ _ Hcp).
    + exact (Canonicalize.cp_netloc_lower _ _ _ _ _ Hcp).
    + exact (Canonicalize.cp_path_nonempty _ _ _ _ _ Hcp).
    + intros pre post. rewrite <- (Canonicalize.cp_path_collapsed _ _ _ _ _ Hcp).
      apply collapse_no_double_inside.
    + rewrite Hq. apply sorted_sorted.
    + intros k v Hin. rewrite Hq in Hin.
      apply (Permutation_in _ (Permutation_sym (sorted_perm _))) in Hin.
      apply List.filter_In in Hin as [_ Hin]. simpl in Hin.
      now apply negb_true_iff in Hin.
Qed.

Lemma canonical_url_normal_form_witness :
  let chk := fun _ : Canonicalize.str => true in
  ~ In "#"%char
      (Canonicalize.str_of "http://user@ex.com:80/a/b?a=~&x=0&x=1").
Proof.
  intros chk.
  exact (proj1 (proj2
    (canonical_url_normal_form chk (fun _ _ => eq_refl)
       "HTTP://User@Ex.COM:80//a///b;p?x=1&x=0&utm_source=z&a=%7E#f"
       "http://user@ex.com:80/a/b?a=~&x=0&x=1"
       (is_ascii_forallb
          (Canonicalize.str_of "HTTP://User@Ex.COM:80//a///b;p?x=1&x=0&utm_source=z&a=%7E#f")
          eq_refl)
       eq_refl))).
Defined.

(** X28. What canonicalization keeps. For an ASCII url that [urlparse]
    accepts, [canonicalize_url] returns a url that [urlparse] reads back as
    the same scheme and the same netloc in lower case, the same path with
    runs of slashes collapsed (["/"] for an empty path, and a leading slash
    added where the url has a netloc part), and a query that holds exactly
    the query pairs of the original whose key is not in [TRACKING_KEYS], in
    sorted order, each with its decoded key and value: no other parameter
    is lost, added or changed. *)
Theorem canonical_url_keeps
    (_check_bracketed_host : Canonicalize.str -> bool)
    (Hcheck : forall h, _check_bracketed_host h = true ->
                        _check_bracketed_host (Canonicalize.lower h) = true)
    (u : string) (p : Canonicalize.ParseResult)
    (Hascii : Canonicalize.is_ascii (Canonicalize.str_of u))
    (Hparse : Canonicalize.urlparse _check_bracketed_host (Canonicalize.str_of u) = Ok p) :
  exists c p',
    Canonicalize.canonicalize_url _check_bracketed_host u = Ok c /\
    Canonicalize.urlparse _check_bracketed_host (Canonicalize.str_of c) = Ok p' /\
    Canonicalize.scheme p' = Canonicalize.lower (Canonicalize.scheme p) /\
    Canonicalize.netloc p' = Canonicalize.lower (Canonicalize.netloc p) /\
    Canonicalize.path p' =
      (let pa := Canonicalize.collapse_slashes
                   (match Canonicalize.path p with
                    | [] => Canonicalize.str_of "/"
                    | _ :: _ => Canonicalize.path p
                    end) in
       if Canonicalize.needs_netloc (Canonicalize.scheme p') (Canonicalize.netloc p')
       then Canonicalize.with_slash pa else pa) /\
    Canonicalize.parse_qsl (Canonicalize.query p')
      = Canonicalize.sorted (Canonicalize.query_pairs (Canonicalize.query p)) /\
    Permutation (Canonicalize.parse_qsl (Canonicalize.query p'))
      (List.filter
         (fun kv => negb (Canonicalize.in_list (fst kv) Canonicalize.TRACKING_KEYS))
         (Canonicalize.parse_qsl (Canonicalize.query p))).
Proof.
  destruct (canonical_parts_of _ Hcheck _ p Hascii Hparse) as [Ec Hcp].
  cbv zeta in Ec, Hcp.
  eexists _, _. split; [|split].
  - unfold Canonicalize.canonicalize_url, Canonicalize.canonicalize.
    rewrite Hparse. reflexivity.
  - unfold Canonicalize.str_of at 1. rewrite list_ascii_of_string_of_list_ascii.
    rewrite Ec, (canonical_unsplit _ _ _ _ _ Hcp).
    exact (canonical_urlparse _ _ _ _ _ Hcp).
  - cbn [Canonicalize.scheme Canonicalize.netloc Canonicalize.path Canonicalize.query].
    pose proof (canonical_query_pairs _ (Canonicalize.cp_query_chars _ _ _ _ _ Hcp)
                  (Canonicalize.cp_query_fixed _ _ _ _ _ Hcp)) as Hq.
    assert (Hfix : Canonicalize.sorted
                     (Canonicalize.query_pairs
                        (Canonicalize.urlencode
                           (Canonicalize.sorted
                              (Canonicalize.query_pairs (Canonicalize.query p)))))
                   = Canonicalize.sorted (Canonicalize.query_pairs (Canonicalize.query p))).
    { rewrite <- Hq. apply parse_qsl_urlencode.
      destruct (urlparse_split _ _ _ Hparse) as (r & Hr & _ & _ & Eq & _).
      destruct (urlsplit_facts _ _ _ Hascii Hr)
        as (_ & _ & _ & _ & _ & _ & _ & _ & _ & _ & Hqpl).
      rewrite <- Eq in Hqpl.
      assert (Ha : Canonicalize.is_ascii (Canonicalize.query p)).
      { unfold Canonicalize.is_ascii. eapply List.Forall_impl; [|exact Hqpl].
        now intros x [_ Hx]. }
      apply List.Forall_forall. intros kv Hkv.
      apply (Permutation_in _ (Permutation_sym (sorted_perm _))) in Hkv.
      apply List.filter_In in Hkv as [Hkv _].
      pose proof (parse_qsl_normal _ Ha) as Hn. rewrite List.Forall_forall in Hn. auto. }
    repeat split.
    + rewrite Hq. exact Hfix.
    + rewrite Hq, Hfix. symmetry. apply sorted_perm.
Qed.

Lemma canonical_url_keeps_witness :
  let chk := fun _ : Canonicalize.str => true in
  exists c p',
    Canonicalize.canonicalize_url chk "HTTP://Ex.COM//a?x=1&gclid=7&b=%7E#f" = Ok c /\
    Canonicalize.urlparse chk (Canonicalize.str_of c) = Ok p' /\
    Canonicalize.parse_qsl (Canonicalize.query p')
      = [(Canonicalize.str_of "b", Canonicalize.str_of "~");
         (Canonicalize.str_of "x", Canonicalize.str_of "1")].
Proof.
  intros chk.
  destruct (canonical_url_keeps chk (fun _ _ => eq_refl)
              "HTTP://Ex.COM//a?x=1&gclid=7&b=%7E#f" _
              (is_ascii_forallb (Canonicalize.str_of "HTTP://Ex.COM//a?x=1&gclid=7&b=%7E#f")
                 eq_refl)
              eq_refl)
    as (c & p' & Hc & Hp & _ & _ & _ & Hq & _).
  exists c, p'. repeat split; trivial.
Defined.

(** ** The crawl loop comes to an end *)

Section CrawlFacts.
Import NewsCrawler.

Variable netloc_of : string -> option string.
Variable _domain : string -> option string.
Variable canonicalize_url : string -> result string.
Variable looks_like_trap : string -> bool.
Variable allowed : string -> string -> result bool.
Variable crawl_delay : string -> string -> option Q.
Variable extract_article : string -> string * string * string.
Variable extract_links : string -> string -> list string.
Variable sha_uid : string -> string.

Local Abbreviation push_links :=
  (NewsCrawler.push_links netloc_of _domain looks_like_trap).
Local Abbreviation visit :=
  (NewsCrawler.visit netloc_of _domain canonicalize_url looks_like_trap allowed crawl_delay
     extract_article extract_links sha_uid).
Local Abbreviation crawl :=
  (NewsCrawler.crawl netloc_of _domain canonicalize_url looks_like_trap allowed crawl_delay
     extract_article extract_links sha_uid).
Local Abbreviation seed_all := (NewsCrawler.seed_all netloc_of).

(** The rows that can still cause pushes, and the two invariants of the
    queue: no negative depth, and what a step may add. *)
Local Abbreviation shallow := (fun r : StateDB.row => StateDB.depth r <? CRAWL_DEPTH).
Local Abbreviation rows_of c := (StateDB.queue (CrawlQueue.db c)).
Local Abbreviation nonneg := (List.Forall (fun r : StateDB.row => 0 <= StateDB.depth r)).

(** [l'] is [l] followed by rows that are not shallow. *)
Local Abbreviation grown l l' :=
  (exists added, l' = l ++ added /\
     List.Forall (fun r : StateDB.row => CRAWL_DEPTH <= StateDB.depth r) added).

Lemma grown_refl (l : list StateDB.row) : grown l l.
Proof. exists []. split; [now rewrite List.app_nil_r|constructor]. Qed.

Lemma grown_trans (l1 l2 l3 : list StateDB.row) : grown l1 l2 -> grown l2 l3 -> grown l1 l3.
Proof.
  intros (a & -> & Ha) (b & -> & Hb). exists (a ++ b).
  split; [now rewrite List.app_assoc|]. apply List.Forall_app. now split.
Qed.

Lemma grown_shallow (l l' : list StateDB.row) :
  grown l l' ->
  List.length (List.filter shallow l') = List.length (List.filter shallow l).
Proof.
  intros (a & -> & Ha). rewrite List.filter_app, List.length_app.
  assert (List.filter shallow a = []) as ->; [|simpl; lia].
  induction Ha as [|r a Hr _ IH]; [reflexivity|]. simpl.
  destruct (Z.ltb_spec (StateDB.depth r) CRAWL_DEPTH); [lia|exact IH].
Qed.

Lemma grown_nonneg (l l' : list StateDB.row) : grown l l' -> nonneg l -> nonneg l'.
Proof.
  intros (a & -> & Ha) Hl. apply List.Forall_app. split; trivial.
  eapply List.Forall_impl; [|exact Ha]. simpl. unfold CRAWL_DEPTH. intros. lia.
Qed.

Lemma push_grown (c : CrawlQueue.t) (u : string) (dep : Z) (src rt : string) (now : Z) :
  CRAWL_DEPTH <= dep ->
  grown (rows_of c) (rows_of (snd (CrawlQueue.push _domain c u dep src rt now))).
Proof.
  intros Hd. unfold CrawlQueue.push. destruct (_domain u); [|apply grown_refl].
  destruct (MAX_PAGES_PER_DOMAIN <=? _)%nat; [apply grown_refl|]. simpl.
  unfold StateDB.push. destruct (StateDB.url_exists u _); [apply grown_refl|]. simpl.
  eexists. split; [reflexivity|]. repeat constructor. exact Hd.
Qed.

Lemma push_links_grown (hrefs : list string) (url : string) (depth : Z) (source : string)
    (ts : nat -> Z) (k : nat) (c : CrawlQueue.t) :
  CRAWL_DEPTH <= depth + 1 ->
  grown (rows_of c) (rows_of (snd (push_links hrefs url depth source ts k c))).
Proof.
  intros Hd. revert k c. induction hrefs as [|href hrefs IH]; intros k c; simpl.
  - apply grown_refl.
  - destruct (negb (String.prefix "http" href)); [apply IH|].
    destruct (netloc_of href); [|apply grown_refl].
    destruct (netloc_of url); [|apply grown_refl].
    destruct (negb (String.eqb _ _)); [apply IH|].
    destruct (looks_like_trap href); [apply IH|].
    pose proof (push_grown c href (depth + 1) source "news" (ts k) Hd) as Hp.
    destruct (CrawlQueue.push _domain c href (depth + 1) source "news" (ts k))
      as [[[]|] c']; simpl in *; trivial.
    eapply grown_trans; [exact Hp|apply IH].
Qed.

(** A visit leaves the queue alone when the item is at the depth limit, and
    otherwise adds only rows one level deeper. *)
Lemma visit_queue (w : world) (st : state) (u : string) (depth : Z) (src rt : string) :
  0 <= depth ->
  let st' := snd (visit w st (u, depth, src, rt)) in
  grown (rows_of (q st)) (rows_of (q st')) /\
  (CRAWL_DEPTH <= depth -> rows_of (q st') = rows_of (q st)).
Proof.
  intros Hd. unfold NewsCrawler.visit.
  assert (Hsame : grown (rows_of (q st)) (rows_of (q st)) /\
                  (CRAWL_DEPTH <= depth -> rows_of (q st) = rows_of (q st)))
    by (split; [apply grown_refl|reflexivity]).
  destruct (canonicalize_url u) as [can_url|]; [|exact Hsame].
  destruct (looks_like_trap can_url); [exact Hsame|].
  destruct (allowed USER_AGENT can_url) as [[|]|]; try exact Hsame.
  destruct (DomainRateLimiter.wait _ _ _ _ _ _ _ _) as [[[[]|] sl] rl']; [|exact Hsame].
  destruct (w_fetch w) as [[[code final_url] html]|]; [|exact Hsame].
  destruct (String.eqb html ""); [exact Hsame|].
  destruct (extract_article html) as [[title text] published_at].
  destruct (Z.ltb_spec depth CRAWL_DEPTH) as [Hlt|Hge]; [|exact Hsame].
  cbn [q rl rows].
  pose proof (push_links_grown (extract_links html can_url) u depth src (w_push_ts w) 0
                (q st) ltac:(unfold CRAWL_DEPTH in *; lia)) as Hg.
  destruct (push_links _ u depth src (w_push_ts w) 0 (q st)) as [r c']. simpl in *.
  split; [exact Hg|lia].
Qed.

Lemma filter_delete_le (i : Z) (l : list StateDB.row) (p : StateDB.row -> bool) :
  (List.length (List.filter p (StateDB.delete_id i l)) <= List.length (List.filter p l))%nat.
Proof.
  unfold StateDB.delete_id. induction l as [|x l IH]; simpl; [lia|].
  destruct (negb (StateDB.id x =? i)); simpl; destruct (p x); simpl; lia.
Qed.

Lemma filter_delete_lt (r : StateDB.row) (l : list StateDB.row) (p : StateDB.row -> bool) :
  In r l -> p r = true ->
  (List.length (List.filter p (StateDB.delete_id (StateDB.id r) l))
   < List.length (List.filter p l))%nat.
Proof.
  intros Hin Hp. induction l as [|x l IH]; [destruct Hin|].
  pose proof (filter_delete_le (StateDB.id r) l p) as Hle.
  unfold StateDB.delete_id in *. simpl.
  destruct Hin as [->|Hin].
  - rewrite Z.eqb_refl, Hp. simpl. lia.
  - specialize (IH Hin).
    destruct (negb (StateDB.id x =? StateDB.id r)); simpl; destruct (p x); simpl; lia.
Qed.

Lemma delete_nonneg (i : Z) (l : list StateDB.row) :
  nonneg l -> nonneg (StateDB.delete_id i l).
Proof.
  intros H. apply List.Forall_forall. intros x Hx.
  apply delete_id_In in Hx as [Hx _]. rewrite List.Forall_forall in H. auto.
Qed.

(** The loop ends from every queue without negative depths: by induction
    on the number of shallow rows and, inside it, on the number of rows. *)
Lemma crawl_ends (ws : nat -> world) (L T : nat) :
  forall (n : nat) (st : state),
    nonneg (rows_of (q st)) ->
    (List.length (List.filter shallow (rows_of (q st))) <= L)%nat ->
    (List.length (rows_of (q st)) <= T)%nat ->
    exists fuel r st', crawl fuel ws n st = Some (r, st').
Proof.
  revert T. induction L as [L IHL] using lt_wf_ind.
  induction T as [T IHT] using lt_wf_ind.
  intros n st Hnn HL HT.
  destruct (StateDB.select_first (rows_of (q st))) as [r|] eqn:Esel.
  2:{ exists 1%nat. eexists _, _. cbn [NewsCrawler.crawl].
      unfold CrawlQueue.pop, StateDB.pop, StateDB.pop_row. rewrite Esel. reflexivity. }
  destruct (_domain (StateDB.url r)) as [dom|] eqn:Ed.
  2:{ exists 1%nat. eexists _, _. cbn [NewsCrawler.crawl].
      unfold CrawlQueue.pop, StateDB.pop, StateDB.pop_row. rewrite Esel.
      cbn [fst snd option_map]. unfold StateDB.item_of. rewrite Ed. reflexivity. }
  pose proof (select_first_In _ _ Esel) as Hr.
  assert (Hdr : 0 <= StateDB.depth r)
    by (rewrite List.Forall_forall in Hnn; exact (Hnn r Hr)).
  set (c' := {| CrawlQueue.db :=
                  {| StateDB.queue := StateDB.delete_id (StateDB.id r) (rows_of (q st));
                     StateDB.seq := StateDB.seq (CrawlQueue.db (q st)) |};
                CrawlQueue.domain_counts :=
                  <[dom := (CrawlQueue.count_of (q st) dom + 1)%nat]>
                    (CrawlQueue.domain_counts (q st)) |}).
  set (st1 := {| q := c'; rl := rl st; rows := rows st |}).
  assert (Estep : forall fuel,
            crawl (S fuel) ws n st =
              match visit (ws n) st1
                      (StateDB.url r, StateDB.depth r, StateDB.source r,
                       StateDB.record_type r) with
              | (Raise, st') => Some (Raise, st')
              | (Ok _, st') => crawl fuel ws (S n) st'
              end).
  { intros fuel. cbn [NewsCrawler.crawl].
    unfold CrawlQueue.pop, StateDB.pop, StateDB.pop_row. rewrite Esel.
    cbn [fst snd option_map]. unfold StateDB.item_of. rewrite Ed. reflexivity. }
  destruct (visit_queue (ws n) st1 (StateDB.url r) (StateDB.depth r) (StateDB.source r)
              (StateDB.record_type r) Hdr) as [Hg Hsame].
  destruct (visit (ws n) st1
              (StateDB.url r, StateDB.depth r, StateDB.source r, StateDB.record_type r))
    as [[[]|] st2] eqn:Ev; cbn [snd] in Hg, Hsame.
  2:{ exists 1%nat. eexists _, _. rewrite Estep. reflexivity. }
  assert (Hnn1 : nonneg (rows_of (q st1))) by (apply delete_nonneg; exact Hnn).
  assert (Hnn2 : nonneg (rows_of (q st2))) by exact (grown_nonneg _ _ Hg Hnn1).
  assert (Hlow2 : List.length (List.filter shallow (rows_of (q st2)))
                  = List.length (List.filter shallow (rows_of (q st1))))
    by exact (grown_shallow _ _ Hg).
  assert (E1 : rows_of (q st1) = StateDB.delete_id (StateDB.id r) (rows_of (q st)))
    by reflexivity.
  rewrite E1 in Hlow2.
  destruct (Z.ltb_spec (StateDB.depth r) CRAWL_DEPTH) as [Hlt|Hge].
  - (* a shallow row: one shallow row less *)
    assert (Hs : shallow r = true) by (apply Z.ltb_lt; exact Hlt).
    pose proof (filter_delete_lt r (rows_of (q st)) shallow Hr Hs) as Hdec.
    assert (Hlt2 : (List.length (List.filter shallow (rows_of (q st2))) < L)%nat) by lia.
    destruct (IHL _ Hlt2 (List.length (rows_of (q st2))) (S n) st2 Hnn2 (le_n _) (le_n _))
      as (fuel & res & st' & E).
    exists (S fuel), res, st'. now rewrite Estep.
  - (* a row at the limit: the queue only shrinks *)
    pose proof (filter_delete_le (StateDB.id r) (rows_of (q st)) shallow) as Hle.
    pose proof (filter_delete_lt r (rows_of (q st)) (fun _ => true) Hr eq_refl) as Hdec.
    assert (Hall : forall l : list StateDB.row, List.filter (fun _ => true) l = l).
    { induction l as [|x l IH]; simpl; [reflexivity|]. now rewrite IH. }
    rewrite !Hall in Hdec.
    assert (E2 : rows_of (q st2) = StateDB.delete_id (StateDB.id r) (rows_of (q st)))
      by (rewrite (Hsame Hge); exact E1).
    assert (Hlt2 : (List.length (rows_of (q st2)) < T)%nat) by (rewrite E2; lia).
    destruct (IHT _ Hlt2 (S n) st2) as (fuel & res & st' & E).
    + exact Hnn2.
    + lia.
    + lia.
    + exists (S fuel), res, st'. now rewrite Estep.
Qed.

Lemma seed_all_nonneg (seeds : list string) (ts : nat -> Z) (k : nat) (c : CrawlQueue.t) :
  nonneg (rows_of c) -> nonneg (rows_of (snd (seed_all seeds ts k c))).
Proof.
  revert k c. induction seeds as [|seed seeds IH]; intros k c H; simpl; trivial.
  destruct (netloc_of seed) as [n|]; [|exact H]. apply IH.
  unfold CrawlQueue.seed, StateDB.push. simpl.
  destruct (StateDB.url_exists seed _); [exact H|]. simpl.
  apply List.Forall_app. split; trivial. repeat constructor. simpl. lia.
Qed.

(** *** What the rows are *)

(** A row for a page that was fetched under its canonical url, which is not
    trap-like and which robots.txt allows. *)
Local Abbreviation polite :=
  (fun row : news_row =>
     (exists u, canonicalize_url u = Ok (url row)) /\
     looks_like_trap (url row) = false /\
     allowed USER_AGENT (url row) = Ok true /\
     uid row = sha_uid (url row) /\ record_type row = "news"%string).

Lemma visit_rows (w : world) (st : state) (item : StateDB.item) :
  exists new, rows (snd (visit w st item)) = rows st ++ new /\ List.Forall polite new.
Proof.
  destruct item as [[[u depth] src] rt]. unfold NewsCrawler.visit.
  assert (Hsame : exists new, rows st = rows st ++ new /\ List.Forall polite new)
    by (exists []; split; [now rewrite List.app_nil_r|constructor]).
  destruct (canonicalize_url u) as [can_url|] eqn:Ec; [|exact Hsame].
  destruct (looks_like_trap can_url) eqn:Et; [exact Hsame|].
  destruct (allowed USER_AGENT can_url) as [[|]|] eqn:Ea; try exact Hsame.
  destruct (DomainRateLimiter.wait _ _ _ _ _ _ _ _) as [[[[]|] sl] rl']; [|exact Hsame].
  destruct (w_fetch w) as [[[code final_url] html]|]; [|exact Hsame].
  destruct (String.eqb html ""); [exact Hsame|].
  destruct (extract_article html) as [[title text] published_at].
  eexists [_].
  split.
  - destruct (depth <? CRAWL_DEPTH); [|reflexivity].
    now destruct (push_links _ u depth src (w_push_ts w) 0 _).
  - repeat constructor; simpl; eauto.
Qed.

Lemma crawl_rows (fuel : nat) (ws : nat -> world) (n : nat) (st : state)
    (r : result unit) (st' : state) :
  crawl fuel ws n st = Some (r, st') ->
  exists new, rows st' = rows st ++ new /\ List.Forall polite new.
Proof.
  revert n st. induction fuel as [|fuel IH]; intros n st; simpl; [discriminate|].
  destruct (CrawlQueue.pop _domain (q st)) as [[[item|]|] c'].
  - pose proof (visit_rows (ws n) {| q := c'; rl := rl st; rows := rows st |} item)
      as (new1 & E1 & H1).
    destruct (visit (ws n) _ item) as [[[]|] st1]; simpl in E1.
    + intros H. destruct (IH _ _ H) as (new2 & E2 & H2).
      exists (new1 ++ new2). split.
      * now rewrite E2, E1, List.app_assoc.
      * apply List.Forall_app. now split.
    + intros [= <- <-]. eauto.
  - intros [= <- <-]. exists []. split; [now rewrite List.app_nil_r|constructor].
  - intros [= <- <-]. exists []. split; [now rewrite List.app_nil_r|constructor].
Qed.

End CrawlFacts.

(** X29. The crawl comes to an end. Started on a store whose queued rows
    have no negative depth (as every store has that this crawler wrote),
    [run] finishes after finitely many passes of its loop, whatever the
    pages, their links, the robots answers and the clock are: links are only
    taken from pages at a depth below [CRAWL_DEPTH], they are queued one
    level deeper, and every pass removes a row from the queue. *)
Theorem crawl_terminates
    (netloc_of _domain : string -> option string)
    (canonicalize_url : string -> result string)
    (looks_like_trap : string -> bool)
    (allowed : string -> string -> result bool)
    (crawl_delay : string -> string -> option Q)
    (extract_article : string -> string * string * string)
    (extract_links : string -> string -> list string)
    (sha_uid : string -> string)
    (seed_ts : nat -> Z) (ws : nat -> NewsCrawler.world) (d : StateDB.db)
    (Hdepth : List.Forall (fun r => 0 <= StateDB.depth r) (StateDB.queue d)) :
  exists fuel result,
    NewsCrawler.run netloc_of _domain canonicalize_url looks_like_trap allowed crawl_delay
      extract_article extract_links sha_uid fuel seed_ts ws d = Some result.
Proof.
  unfold NewsCrawler.run.
  pose proof (seed_all_nonneg netloc_of NEWS_SEEDS seed_ts 0 (CrawlQueue.init d) Hdepth)
    as Hnn.
  destruct (NewsCrawler.seed_all netloc_of NEWS_SEEDS seed_ts 0 (CrawlQueue.init d))
    as [[[]|] q0]; [|exists 0%nat; eauto].
  simpl in Hnn.
  destruct (crawl_ends netloc_of _domain canonicalize_url looks_like_trap allowed
              crawl_delay extract_article extract_links sha_uid ws _ _ 0
              {| NewsCrawler.q := q0; NewsCrawler.rl := DomainRateLimiter.init;
                 NewsCrawler.rows := [] |} Hnn (le_n _) (le_n _))
    as (fuel & r & st' & E).
  exists fuel. rewrite E. destruct r as [[]|]; eauto.
Qed.

Lemma crawl_terminates_witness :
  let w := NewsCrawler.mk_world 0 0 1 (Some (200, "u", "<a href=x>"))%string "t"
             (fun _ => 0) in
  exists fuel result,
    NewsCrawler.run (fun u => Some u) (fun u => Some u) (fun u => Ok u) (fun _ => false)
      (fun _ _ => Ok true) (fun _ _ => None) (fun _ => ("", "", ""))%string
      (fun _ u => [u +:+ "/a"; u +:+ "/b"]) (fun u => u) fuel (fun _ => 0) (fun _ => w)
      StateDB.empty
    = Some result.
Proof.
  intros w.
  apply (crawl_terminates (fun u => Some u) (fun u => Some u) (fun u => Ok u)
           (fun _ => false) (fun _ _ => Ok true) (fun _ _ => None)
           (fun _ => ("", "", ""))%string (fun _ u => [u +:+ "/a"; u +:+ "/b"])
           (fun u => u) (fun _ => 0) (fun _ => w) StateDB.empty).
  constructor.
Defined.

(** X30. What the crawl writes: the url of every row that [run] collects
    for the writer is a canonical form, the result of [canonicalize_url] on
    some url; that canonical url is not trap-like and is allowed by
    robots.txt for [USER_AGENT]; the uid of the row is the hash of that
    canonical url and its record type is "news". *)
Theorem crawl_rows_polite
    (netloc_of _domain : string -> option string)
    (canonicalize_url : string -> result string)
    (looks_like_trap : string -> bool)
    (allowed : string -> string -> result bool)
    (crawl_delay : string -> string -> option Q)
    (extract_article : string -> string * string * string)
    (extract_links : string -> string -> list string)
    (sha_uid : string -> string)
    (fuel : nat) (seed_ts : nat -> Z) (ws : nat -> NewsCrawler.world) (d : StateDB.db)
    (written : list NewsCrawler.news_row)
    (Hrun : NewsCrawler.run netloc_of _domain canonicalize_url looks_like_trap allowed
              crawl_delay extract_article extract_links sha_uid fuel seed_ts ws d
            = Some (Ok written)) :
  List.Forall
    (fun row =>
       (exists u, canonicalize_url u = Ok (NewsCrawler.url row)) /\
       looks_like_trap (NewsCrawler.url row) = false /\
       allowed USER_AGENT (NewsCrawler.url row) = Ok true /\
       NewsCrawler.uid row = sha_uid (NewsCrawler.url row) /\
       NewsCrawler.record_type row = "news"%string)
    written.
Proof.
  unfold NewsCrawler.run in Hrun.
  destruct (NewsCrawler.seed_all netloc_of NEWS_SEEDS seed_ts 0 (CrawlQueue.init d))
    as [[[]|] q0]; [|discriminate].
  destruct (NewsCrawler.crawl _ _ _ _ _ _ _ _ _ fuel ws 0 _) as [[[[]|] st]|] eqn:E;
    try discriminate.
  injection Hrun as <-.
  destruct (crawl_rows _ _ _ _ _ _ _ _ _ _ _ _ _ _ _ E) as (new & -> & H). exact H.
Qed.

Lemma crawl_rows_polite_witness :
  let w := NewsCrawler.mk_world 0 0 1 (Some (200, "u", "<html>"))%string "t"
             (fun _ => 0) in
  let trap := fun u : string => String.eqb u "https://www.dw.com/en/world" in
  exists written,
    NewsCrawler.run (fun u => Some u) (fun u => Some u) (fun u => Ok u) trap
      (fun _ _ => Ok true) (fun _ _ => None) (fun _ => ("", "", ""))%string
      (fun _ _ => []) (fun u => u) 4 (fun _ => 0) (fun _ => w) StateDB.empty
    = Some (Ok written) /\
    List.map NewsCrawler.url written
      = ["https://apnews.com/hub/world-news"; "https://www.aljazeera.com/news/"]%string /\
    List.Forall
      (fun row =>
         (exists u, (fun u => Ok u) u = Ok (NewsCrawler.url row)) /\
         trap (NewsCrawler.url row) = false /\
         (fun _ _ : string => Ok true) USER_AGENT (NewsCrawler.url row) = Ok true /\
         NewsCrawler.uid row = (fun u : string => u) (NewsCrawler.url row) /\
         NewsCrawler.record_type row = "news"%string)
      written.
Proof.
  intros w trap. eexists. split; [vm_compute; reflexivity|]. split; [reflexivity|].
  apply (crawl_rows_polite (fun u => Some u) (fun u => Some u) (fun u => Ok u) trap
           (fun _ _ => Ok true) (fun _ _ => None) (fun _ => ("", "", ""))%string
           (fun _ _ => []) (fun u => u) 4 (fun _ => 0) (fun _ => w) StateDB.empty).
  vm_compute. reflexivity.
Defined.
